(* ===== verification/_CoqProject ===== *)
-Q . S2P
Prelude.v
Machine.v
Filter.v
Frame.v
DataTypes.v
Ring.v
Sync.v
Timestamp.v
ParserSpec.v
Carried.v
Parser.v
Driver.v
Output.v
