(* ===== verification/Prelude.v ===== *)
(** * rawzeo: a verification development for the Zeo raw-data decoder

    The program (repository joseluis/rawzeo) has two source files.

    - [src/src/lib.rs]: the frame type tables (the enums [DataType],
      [EventType], [FrequencyBins], [SleepStages], each with a [From<u8>]
      conversion, a [Display] rendering and, for the frequency bins, the
      [hz] interval and the [is_*] predicates) and the convolution filter
      [filter60hz].
    - [src/src/main.rs]: the streaming decoder [parse], which consumes a
      [CircularBuffer<LEN, u8>] (crate circular_buffer) and carries the last
      sequence number between calls, and the driver [main] that reads the
      serial port, extends the ring and calls [parse].

    ** Files of the development (in dependency order)

    - [Prelude] (this file): the execution monad [Prog] used for the
      imperative code (state, early [return], panic, fuel), its [while_loop],
      the laws and the loop rules shared by every component (termination
      by a measure, invariants, the postconditions [post] of partial
      correctness, the panics a program can end with, [panics_in], loops
      that end the same way whatever values they carry, [same_end]),
      simulation between two state types, the sum of a byte
      list, the tactics and the hint databases [zeo] and [zeo_rw].
    - [Machine]: Rust's fixed-width integer primitives on [Z] with the
      wrap-around written out ([u8::wrapping_add], [u32::saturating_sub],
      [u32::saturating_add], [!] on [u16], [from_le_bytes] and
      [to_le_bytes] on [u16] and [u32], subtraction) and the build profile
      that decides whether an arithmetic overflow panics ([Debug]) or wraps
      ([Release]).
    - [Filter]: the convolution [filter60hz] of lib.rs, loop by loop, on
      scalars of a class [Scalar] (a zero, an addition, a multiplication,
      the coefficients) whose instance [f64_scalar] is [f64], the binary64
      numbers of the Standard Library, with the [usize] subtraction and
      the indexing that can panic; [conv] is the reference written in the
      comment that ends the function, and [ScalarLaws] the laws of exact
      arithmetic, which the instance [Z_scalar] has and [f64_scalar] has
      not.
    - [Frame]: the wire format [AncllLLTttsidddd] that heads lib.rs, as an
      encoder ([encode], [frame_bytes]) from the fields of a frame to its
      bytes, and the bytes of a frame with any checksum byte and any length
      field, which are those of a frame cut short in its data by the end of
      a read when the field is larger ([wire_bytes], [cut_payload]).  The
      crate has no encoder; these
      definitions are written from the documentation and are the reference
      [parse] is measured against.
    - [DataTypes]: the four enums of lib.rs, one Module each, with the
      declared discriminants, [from], [fmt], [hz] and the predicates, and the
      interface [ByteTable] that the four conversions implement.
    - [Ring]: the byte reservoir, a model of [CircularBuffer<LEN, u8>] as a
      bounded list ([len], [pop_front], [push_front], [push_back],
      [extend_from_slice]); this crate is not under src/, so the model is
      written from its documented behaviour (a full buffer evicts from the
      opposite end).  What is said of a ring that overflows is therefore
      a statement on that model, not on code of this repository: the
      theorems on what [main] decodes are stated for reads that fit, the
      invariants of [main] hold of every read with the eviction of the
      model, and the lemma on a read that fills the ring
      ([main_full_read_evicts] of [Driver]) is kept apart from them.
    - [Sync]: the marker scan of [parse] (the ['inner] loop), as the
      function [find_marker] on the ring's contents, and its positional
      specification [first_marker].
    - [Timestamp]: the clock code of [parse]: the four little-endian bytes
      taken from the payload ([take_u32], three [unwrap]s and one
      [unwrap_or(0)]) and the four-way reconciliation [reconcile] of the
      absolute time with the frame's time-low byte.
    - [ParserSpec]: the data of [parse] (its result type, the events it
      prints, its state [PState] with the two [&mut] parameters and the
      trace, its locals [Locals]), the predicates that say which integers
      are values of the Rust types of that data ([packet_wf], [locals_wf],
      [core_wf]) and its specification on the ring ([decode_spec],
      [iter_spec], [parse_spec]), with the lemmas on the specification:
      termination, typing, what is left of the ring and what the result
      says of it ([result_ring]), iterations in sequence ([iterates]),
      frames of the wire format ([decode_stream]) and what is printed for
      them ([frame_trace], [stream_trace]).
    - [Carried]: what a ring holds, read off its bytes, in terms of the
      wire format alone: the frames it carries ([holds_bytes],
      [holds_frame], [carried]) and the three ways a call of [parse] ends,
      with a packet ([accepts]), without one ([refuses], [rejects]) or
      with a panic ([aborts_on], [aborts]); the specification of [parse]
      is sound and complete for each, and the locals decide the packet
      only.
    - [Parser]: [parse] itself, one definition per numbered step of the
      source ([sync_marker], [check_remaining], [read_checksum],
      [read_lengths], [read_timestamp], [read_seqnum], [read_datatype],
      [read_data], [verify_checksum], [check_datatype], [handle_clock]),
      the loop body [parse_iter] and the entry point [parse]; the proof that
      it refines the specification; the theorems on [parse].
    - [Driver]: [main]: the exit with status 1 when the port cannot be
      opened ([Open]) and the loop: its variables [MState], one iteration
      [main_step] for a result of [port.read] (a chunk of bytes, a timeout,
      an error) and [main_loop] for a list of such results, which stands for
      a finite prefix of a run; [step_spec] and [loop_spec] are the loop on
      what is observed (the ring, the sequence number, the last result, the
      packets reported); [received] is the stream of bytes of the reads;
      [splits] says that reads cut a stream of frames between frames or
      within the first fifteen bytes of one, and [segments_view] what is
      observed after such reads.
    - [Output]: the text of what is printed: [print_bytes], the format of
      every [print!], [println!] and [eprintln!] of [parse] and [main]
      ([render], [render_main], [render_err]) and standard output and
      standard error after a run ([stdout], [stdout_main], [stderr_main]).

    ** How the code is modelled

    Bytes and the wider integers are [Z]; a value of type [u8], [u16] or
    [u32] satisfies [is_u8], [is_u16] or [is_u32], and every operation that
    can leave the range says what Rust does there.  [parse] is imperative:
    it pops from the ring, assigns to [*prev_seqnum], prints, returns early
    and can panic.  It is modelled in [Prog S R A := S -> Outcome S R A],
    whose outcomes are [Val a s] (the statement ran to its end), [Ret r s]
    (a [return r] was executed), [Panicked p] (an [unwrap] of [None] or a
    checked arithmetic overflow) and [OutOfFuel].  The [println!] and
    [print!] calls are kept as a trace of [Event]s carrying the printed
    data, newest first; [Output] gives the text of each event.  The [f32]
    value [tt_fss] is only printed: its two decimals are computed from the
    rational it rounds.  An error of the serial port is an input of which
    the model has the text that is printed.

    Where the model is wider than the program the difference cannot be
    observed.  The checksum is summed in [Z] where the code sums in [u32]:
    a payload has 65535 bytes at most, so the sum stays below [2^32].  The
    counter of iterations, an [i32], is in [Z]: an iteration consumes
    twelve bytes at least, and the ring holds 512.  [usize] is taken as 64
    bits wide; the only subtraction that overflows does so at any width.
    A read may return any number of bytes, where the buffer of [main]
    holds 512: the theorems on [main] cover more reads than the program
    can see.

    The theorems on [parse] are proved in two layers.  The lemmas [run_*]
    of [Parser] rewrite a step in front of its continuation into its effect
    on the state; with them [Parser.parse_refines] shows that the outcome
    of [parse] without the trace is [parse_spec] of the ring and the carried
    sequence number.  The cases of a frame are then read off [decode_spec],
    which slices the ring instead of popping it, and the rings on which a
    call ends in each of its ways are described by the relations of
    [Carried] ([accepts], [rejects], [aborts]), which mention the wire
    format only.

    ** Fuel

    [while_loop] takes fuel because the outer loop of [parse] is a [while]
    on the ring's length.  Every iteration that goes on pops at least the
    twelve bytes of the marker and the header, so [parse] runs the loop with
    the ring's length as fuel and [Parser.parse_total] shows that
    [OutOfFuel] is never its outcome.  The marker scan and the payload loop
    are structural recursions (on the ring and on the payload length).

    ** What the theorems show

    - [Machine]: ranges and round trips of the integer primitives.
    - [Filter]: on a slice that is not empty [filter60hz] returns the
      reference convolution, a vector of [p + 50] values, without an index
      out of range; it panics on the empty slice and on no other
      ([Filter.filter60hz_panics_iff]).  These theorems assume no law of
      the scalars: they hold in [f64] with the sums rounded in the order
      of the code, and say nothing of the size of the rounding errors.  In
      [f64] the coefficients are the values of the source's literals, the
      response to the unit impulse is the table, and the filter commutes
      with a delay, bit for bit and for every sample
      ([Filter.filter60hz_f64_delay]: zeros before a signal come out as
      zeros before its response), so that silence is mapped to silence.
      The filter is not additive in [f64], whose addition is not
      associative; the lemmas on linearity are about the reference in
      exact arithmetic and are no statement on the program.
    - [Frame]: the length and the byte range of an encoded frame, its
      header field by field, that the first bytes of a frame are a frame
      cut short with the length field of the whole, and when they pass for
      a frame (the data left out adds up to a multiple of 256).
    - [DataTypes]: every table classifies exactly the declared codes and
      [Invalid] carries the byte it was given, so the conversions are
      injective; the discriminant round trip holds for [DataType],
      [FrequencyBins] and [SleepStages] and fails for [EventType] at
      [HeadbandUnDocked] (the table reads 0x8F where the enum declares
      0x0F); [Display] on [DataType] is injective.
    - [Ring]: the capacity invariant of every operation and the
      pop/push-front round trip that the decoder's push-back relies on.
    - [Sync]: [find_marker] returns what follows the first occurrence of
      the marker [A4], and fails exactly when the ring holds none.
    - [Timestamp]: [reconcile] stays within one second of the absolute
      value and in [u32]; in the three matching branches its low byte is the
      frame's; it recovers any time within one second whose low byte is the
      frame's.
    - [Parser]: the refinement and termination; the round trip with the
      wire format for data, timestamp and version frames and for frames in
      sequence (one call decodes them all and returns the last); the
      characterisation of the three ways a call ends, by the bytes of the
      ring alone: with a packet ([Parser.parse_accepts_iff]: exactly the
      rings that carry frames up to fifteen bytes or fewer, so that a
      packet returned was in the ring, and every such ring is decoded),
      without one ([Parser.parse_rejects_iff]: exactly the rings that
      carry frames up to bytes that are refused, with the result and the
      ring left for each refusal) and with a panic
      ([Parser.parse_panics_iff]: exactly the rings that carry frames up
      to bytes without marker, a header with a sequence number behind or a
      zero length in a build with overflow checks, or a clock frame that
      is too short); that the frames decoded before do
      not change how a call ends and are lost when it does not end with a
      packet ([Parser.parse_after_frames]); that a frame cut short by the
      end of the ring is accepted when the data left out does not change
      the checksum ([Parser.parse_cut_frame]); the
      push-back of the marker when fewer than fourteen bytes follow it; the
      three errors with the exact bytes left in the ring; that what is left
      is a suffix of the ring; typing ([Parser.parse_typed]: the ring, the
      carried sequence number and the tuple returned stay within their Rust
      types, so that the model in [Z] never computes a value the program
      cannot hold); what each result says of the ring left
      ([Parser.parse_result_ring]); every line printed for the frames of
      a ring, in order ([Parser.parse_prints_stream]); the sequence
      tracker, on one frame and over the frames of a call
      ([Parser.parse_reports_gaps]: the lost frames reported are the gaps
      between consecutive sequence numbers, modulo 256);
      the inputs on which the code panics: a ring without marker, a
      sequence number behind the expected one or a zero length in a build
      with overflow checks, a timestamp or version frame with fewer than
      three payload bytes; and that it panics in no other way than on an
      [unwrap] or, with overflow checks, on a subtraction.
    - [Driver]: the loop refines its specification and never runs out of
      fuel; its ring stays within 512 bytes; a frame read in one chunk is
      decoded and reported; decoding does not depend on how the reads cut
      a stream of frames when every cut falls between two frames or within
      the first fifteen bytes of one ([Driver.main_reads_split]), but what
      is reported does: of the frames a read completes the last only, with
      the time and the version of those before it, every read starts from
      the initial values of the locals of [parse], and a read that
      completes no frame reports a packet that was never received; a frame
      fed byte by byte is handed to [parse] with four
      bytes of data after fifteen such packets, so that only a frame of
      sixteen bytes is decoded; a frame split later is lost, and the
      program panics when
      the rest of its payload is more than fifteen bytes without marker, as
      it does on any such noise; after a call that rejected the ring the
      next read has the backlog decoded with the new bytes
      ([Driver.main_recovers]); the backlog is worked
      off ([Driver.main_drains], a liveness property: reads without bytes
      bring the ring to fifteen bytes or fewer in finitely many
      iterations, unless the program panics); and nothing is reported that
      was not received ([Driver.main_reports_received]: the ring is the end
      of the stream of bytes read, and every packet reported is decoded
      from frames of the wire format that stand in that stream).
    - [Output]: a line of [print_bytes] read back gives the bytes; the
      rational rounding of [tt_fss] is away from every tie; the text of
      example runs on standard output and on standard error.

    ** The serial port

    Once the port is open [main] never returns.  Its input is what
    [port.read] gives, so a run is determined by the sequence of those
    results; [Driver.main_loop] takes a list of them and its theorems hold
    for every finite prefix of a run.  The reads are not assumed to respect
    frame boundaries.

    ** Not modelled

    The crate serialport (the settings of the port have no effect on the
    decoder; the results of [open] and [read] are inputs of the model, an
    error with the text it is printed as); the crates circular_buffer and
    core, of which [Ring], [Machine] and [Output] model the operations the
    sources call, from their documented behaviour; the arithmetic of
    [f32]: the two decimals printed for [tt_fss] are computed from the
    rational it rounds ([Output] says why they agree).  [f64] is modelled
    by the binary64 numbers of the Standard Library: no bound on the
    rounding error of [filter60hz] is proved.  The interleaving of
    standard output and standard error is not modelled: each is a text of
    its own.  Everything else of the two source files is modelled; what
    the map does not cover of them are comments, imports, lint
    attributes and blank lines. *)

From stdpp Require Export prelude.
From Stdlib Require Export ZArith Lia.

#[global] Open Scope Z_scope.

(** Comparisons of lengths stay as written under [cbn] and [simpl]. *)
#[global] Arguments Nat.ltb : simpl never.
#[global] Arguments Nat.leb : simpl never.

(** ** Panics and outcomes *)

(** The ways the modelled code can panic. *)
Inductive PanicKind : Type :=
| UnwrapNone       (* [Option::unwrap] on [None] *)
| ArithOverflow    (* a checked [+] or [-] left the type's range *)
| IndexOutOfBounds (* a slice index past the end *).

#[global] Instance PanicKind_eq_dec : EqDecision PanicKind.
Proof. solve_decision. Defined.

(** The outcome of running a statement from a state: a value and the next
    state, an early [return], a panic, or no fuel left for a loop. *)
Inductive Outcome (S R A : Type) : Type :=
| Val (a : A) (s : S)
| Ret (r : R) (s : S)
| Panicked (p : PanicKind)
| OutOfFuel.

Arguments Val {S R A} a s.
Arguments Ret {S R A} r s.
Arguments Panicked {S R A} p.
Arguments OutOfFuel {S R A}.

(** A statement: a function from the state to an outcome. *)
Definition Prog (S R A : Type) : Type := S -> Outcome S R A.

Section Monad.
Context {S R : Type}.

Definition ret {A} (a : A) : Prog S R A := fun s => Val a s.

Definition bind {A B} (m : Prog S R A) (k : A -> Prog S R B) : Prog S R B :=
  fun s =>
    match m s with
    | Val a s' => k a s'
    | Ret r s' => Ret r s'
    | Panicked p => Panicked p
    | OutOfFuel => OutOfFuel
    end.

(** [return r;] *)
Definition returns {A} (r : R) : Prog S R A := fun s => Ret r s.

(** [panic!] *)
Definition panic {A} (p : PanicKind) : Prog S R A := fun _ => Panicked p.

Definition gets {A} (f : S -> A) : Prog S R A := fun s => Val (f s) s.

Definition modify (f : S -> S) : Prog S R unit := fun s => Val tt (f s).

(** [o.unwrap()] *)
Definition unwrap {A} (o : option A) : Prog S R A :=
  match o with
  | Some a => ret a
  | None => panic UnwrapNone
  end.

(** A function call: the callee's [return r] and the value of its final
    expression are both the value of the call. *)
Definition call {R'} (body : Prog S R R) : Prog S R' R :=
  fun s =>
    match body s with
    | Val r s' | Ret r s' => Val r s'
    | Panicked p => Panicked p
    | OutOfFuel => OutOfFuel
    end.

(** [while cond { a = body(a) }], with fuel for the iterations. *)
Fixpoint while_loop {A} (fuel : nat) (cond : S -> bool)
    (body : A -> Prog S R A) (a : A) : Prog S R A :=
  fun s =>
    if cond s then
      match fuel with
      | O => OutOfFuel
      | Datatypes.S n =>
          match body a s with
          | Val a' s' => while_loop n cond body a' s'
          | Ret r s' => Ret r s'
          | Panicked p => Panicked p
          | OutOfFuel => OutOfFuel
          end
      end
    else Val a s.

End Monad.

Declare Scope prog_scope.
Delimit Scope prog_scope with prog.
Bind Scope prog_scope with Prog.

Notation "x <- m ;; k" := (bind m (fun x => k))
  (at level 100, m at next level, right associativity) : prog_scope.
Notation "m ;; k" := (bind m (fun _ => k))
  (at level 100, right associativity) : prog_scope.

#[global] Open Scope prog_scope.

(** ** Predicates on outcomes *)

(** The state an outcome ends in, when it has one. *)
Definition final_state {S R A} (o : Outcome S R A) : option S :=
  match o with
  | Val _ s | Ret _ s => Some s
  | Panicked _ | OutOfFuel => None
  end.

(** [holds_after P o]: [P] holds of the state [o] ends in, if any. *)
Definition holds_after {S R A} (P : S -> Prop) (o : Outcome S R A) : Prop :=
  match final_state o with
  | Some s => P s
  | None => True
  end.

(** [post Pv Pr o]: when [o] is a value, [Pv] holds of the value and the
    state; when it is an early return, [Pr] holds of what is returned and
    the state.  Nothing is said of a panic (partial correctness; that fuel
    is enough is proved apart). *)
Definition post {S R A} (Pv : A -> S -> Prop) (Pr : R -> S -> Prop)
    (o : Outcome S R A) : Prop :=
  match o with
  | Val a s => Pv a s
  | Ret r s => Pr r s
  | Panicked _ | OutOfFuel => True
  end.

(** [panics_in K o]: when [o] is a panic, it is one of the panics [K]. *)
Definition panics_in {S R A} (K : PanicKind -> Prop) (o : Outcome S R A) : Prop :=
  match o with
  | Panicked k => K k
  | _ => True
  end.

(** Two outcomes end the same way: the same kind of outcome, the same
    early return or panic and the same state; the values may differ. *)
Definition same_end {S R A B} (o1 : Outcome S R A) (o2 : Outcome S R B) : Prop :=
  match o1, o2 with
  | Val _ s1, Val _ s2 => s1 = s2
  | Ret r1 s1, Ret r2 s2 => r1 = r2 /\ s1 = s2
  | Panicked k1, Panicked k2 => k1 = k2
  | OutOfFuel, OutOfFuel => True
  | _, _ => False
  end.

(** The outcome seen through an abstraction [f] of the state. *)
Definition map_state {S S' R A} (f : S -> S') (o : Outcome S R A) : Outcome S' R A :=
  match o with
  | Val a s => Val a (f s)
  | Ret r s => Ret r (f s)
  | Panicked p => Panicked p
  | OutOfFuel => OutOfFuel
  end.

Definition is_out_of_fuel {S R A} (o : Outcome S R A) : bool :=
  match o with
  | OutOfFuel => true
  | _ => false
  end.

Definition is_panic {S R A} (o : Outcome S R A) : bool :=
  match o with
  | Panicked _ => true
  | _ => false
  end.

(** ** The sum of a list of integers *)

Fixpoint Zsum (l : list Z) : Z :=
  match l with
  | [] => 0
  | x :: l' => x + Zsum l'
  end.

(** ** Tactics and hints *)

Create HintDb zeo discriminated.
Create Rewrite HintDb zeo_rw.

(** Case analysis on the first [match] or [if] of the goal. *)
Ltac case_outcome m :=
  let E := fresh "E" in
  destruct m as [? ?|? ?|?|] eqn:E.

(** Unfold the monad's operations and compute. *)
Ltac prog_unfold :=
  unfold bind, ret, returns, panic, gets, modify, unwrap in *.

Ltac prog_simpl := prog_unfold; cbn [final_state holds_after is_out_of_fuel is_panic] in *.

(** Arithmetic goals on [mod] and [/] by constants. *)
Ltac zmod := Z.div_mod_to_equations; lia.

(** A closed decidable proposition, by evaluation of its decision. *)
Ltac by_compute :=
  first [ done
        | vm_compute; reflexivity
        | apply (bool_decide_unpack _); vm_compute; exact I ].

(** ** Laws of the monad *)

Section MonadLaws.
Context {S R : Type}.
Implicit Types s : S.

Lemma bind_ret_l {A B} (a : A) (k : A -> Prog S R B) s :
  bind (ret a) k s = k a s.
Proof. reflexivity. Qed.

Lemma bind_ret_r {A} (m : Prog S R A) s : bind m ret s = m s.
Proof. unfold bind, ret. by destruct (m s). Qed.

Lemma bind_assoc {A B C} (m : Prog S R A) (k : A -> Prog S R B)
    (h : B -> Prog S R C) s :
  bind (bind m k) h s = bind m (fun a => bind (k a) h) s.
Proof. unfold bind. by destruct (m s). Qed.

Lemma bind_returns {A B} (r : R) (k : A -> Prog S R B) s :
  bind (returns r) k s = Ret r s.
Proof. reflexivity. Qed.

Lemma bind_panic {A B} p (k : A -> Prog S R B) s :
  bind (panic p) k s = Panicked p.
Proof. reflexivity. Qed.

Lemma bind_val {A B} (m : Prog S R A) (k : A -> Prog S R B) s a s' :
  m s = Val a s' -> bind m k s = k a s'.
Proof. unfold bind. by intros ->. Qed.

Lemma bind_ret_stop {A B} (m : Prog S R A) (k : A -> Prog S R B) s r s' :
  m s = Ret r s' -> bind m k s = Ret r s'.
Proof. unfold bind. by intros ->. Qed.

Lemma bind_panicked {A B} (m : Prog S R A) (k : A -> Prog S R B) s p :
  m s = Panicked p -> bind m k s = Panicked p.
Proof. unfold bind. by intros ->. Qed.

Lemma bind_gets {A B} (f : S -> A) (k : A -> Prog S R B) s :
  bind (gets f) k s = k (f s) s.
Proof. reflexivity. Qed.

Lemma bind_modify {B} (f : S -> S) (k : unit -> Prog S R B) s :
  bind (modify f) k s = k tt (f s).
Proof. reflexivity. Qed.

Lemma bind_unwrap_Some {A B} (a : A) (k : A -> Prog S R B) s :
  bind (unwrap (Some a)) k s = k a s.
Proof. reflexivity. Qed.

Lemma bind_unwrap_None {A B} (k : A -> Prog S R B) s :
  bind (unwrap None) k s = Panicked UnwrapNone.
Proof. reflexivity. Qed.

(** A bind runs out of fuel only if one of its two parts does. *)
Lemma bind_fuel {A B} (m : Prog S R A) (k : A -> Prog S R B) s :
  is_out_of_fuel (m s) = false ->
  (forall a s', m s = Val a s' -> is_out_of_fuel (k a s') = false) ->
  is_out_of_fuel (bind m k s) = false.
Proof. unfold bind. destruct (m s); naive_solver. Qed.

(** A weaker property holds after the same outcome. *)
Lemma holds_after_impl {A} (P Q : S -> Prop) (o : Outcome S R A) :
  (forall s, P s -> Q s) -> holds_after P o -> holds_after Q o.
Proof. unfold holds_after. destruct (final_state o); auto. Qed.

(** A state property that holds after the first part of a bind (also when
    it returns early) and after the second holds after the bind. *)
Lemma bind_holds_after {A B} (P : S -> Prop) (m : Prog S R A)
    (k : A -> Prog S R B) s :
  holds_after P (m s) ->
  (forall a s', m s = Val a s' -> holds_after P (k a s')) ->
  holds_after P (bind m k s).
Proof.
  unfold bind. destruct (m s) as [a s'|r s'| |]; intros H1 H2; first by eapply H2.
  all: done.
Qed.

(** Consequence and sequencing for [post]. *)
Lemma post_impl {A} (Pv Qv : A -> S -> Prop) (Pr Qr : R -> S -> Prop) (o : Outcome S R A) :
  (forall a s, Pv a s -> Qv a s) -> (forall r s, Pr r s -> Qr r s) ->
  post Pv Pr o -> post Qv Qr o.
Proof. destruct o; cbn; auto. Qed.

Lemma post_and {A} (Pv Qv : A -> S -> Prop) (Pr Qr : R -> S -> Prop) (o : Outcome S R A) :
  post Pv Pr o -> post Qv Qr o ->
  post (fun a s => Pv a s /\ Qv a s) (fun r s => Pr r s /\ Qr r s) o.
Proof. by destruct o. Qed.

Lemma bind_post {A B} (Pv : A -> S -> Prop) (Qv : B -> S -> Prop) (Pr : R -> S -> Prop)
    (m : Prog S R A) (k : A -> Prog S R B) s :
  post Pv Pr (m s) -> (forall a s', Pv a s' -> post Qv Pr (k a s')) ->
  post Qv Pr (bind m k s).
Proof. unfold bind. destruct (m s); cbn; auto. Qed.

Lemma post_holds_after {A} (P : S -> Prop) (o : Outcome S R A) :
  post (fun _ => P) (fun _ => P) o <-> holds_after P o.
Proof. by destruct o. Qed.

End MonadLaws.

#[export] Hint Rewrite @bind_assoc @bind_ret_l @bind_returns @bind_panic
  @bind_gets @bind_modify @bind_unwrap_Some @bind_unwrap_None : zeo_rw.

(** ** Calls *)

Section Call.
Context {S R R' : Type}.
Implicit Types (s : S) (body : Prog S R R).

Lemma call_val body s r s' : body s = Val r s' -> call (R':=R') body s = Val r s'.
Proof. unfold call. by intros ->. Qed.

Lemma call_ret body s r s' : body s = Ret r s' -> call (R':=R') body s = Val r s'.
Proof. unfold call. by intros ->. Qed.

Lemma call_panic body s p : body s = Panicked p -> call (R':=R') body s = Panicked p.
Proof. unfold call. by intros ->. Qed.

(** A call never returns early in its caller. *)
Lemma call_inv body s :
  match call (R':=R') body s with
  | Val r s' => body s = Val r s' \/ body s = Ret r s'
  | Ret _ _ => False
  | Panicked p => body s = Panicked p
  | OutOfFuel => body s = OutOfFuel
  end.
Proof. unfold call. destruct (body s); auto. Qed.

Lemma call_fuel body s :
  is_out_of_fuel (call (R':=R') body s) = is_out_of_fuel (body s).
Proof. unfold call. by destruct (body s). Qed.

Lemma call_holds_after (P : S -> Prop) body s :
  holds_after P (call (R':=R') body s) <-> holds_after P (body s).
Proof. unfold call, holds_after. by destruct (body s). Qed.

(** A call turns the early returns of the body into values. *)
Lemma call_post (Pv : R -> S -> Prop) (Pr : R' -> S -> Prop) body s :
  post Pv Pv (body s) -> post Pv Pr (call (R':=R') body s).
Proof. unfold call. by destruct (body s). Qed.

End Call.

(** ** Rules for [while_loop] *)

Section WhileRules.
Context {S R A : Type}.
Variable cond : S -> bool.
Variable body : A -> Prog S R A.

Lemma while_loop_exit fuel a s :
  cond s = false -> while_loop fuel cond body a s = Val a s.
Proof. intros H. destruct fuel; cbn; by rewrite H. Qed.

Lemma while_loop_step fuel a s a' s' :
  (0 < fuel)%nat -> cond s = true -> body a s = Val a' s' ->
  while_loop fuel cond body a s = while_loop (pred fuel) cond body a' s'.
Proof. intros Hf Hc Hb. destruct fuel; [lia|]. cbn. by rewrite Hc, Hb. Qed.

Lemma while_loop_ret fuel a s r s' :
  (0 < fuel)%nat -> cond s = true -> body a s = Ret r s' ->
  while_loop fuel cond body a s = Ret r s'.
Proof. intros Hf Hc Hb. destruct fuel; [lia|]. cbn. by rewrite Hc, Hb. Qed.

Lemma while_loop_panic fuel a s p :
  (0 < fuel)%nat -> cond s = true -> body a s = Panicked p ->
  while_loop fuel cond body a s = Panicked p.
Proof. intros Hf Hc Hb. destruct fuel; [lia|]. cbn. by rewrite Hc, Hb. Qed.

(** More fuel does not change an outcome that had enough. *)
Lemma while_loop_fuel_mono fuel fuel' a s :
  (fuel <= fuel')%nat ->
  is_out_of_fuel (while_loop fuel cond body a s) = false ->
  while_loop fuel' cond body a s = while_loop fuel cond body a s.
Proof.
  revert fuel' a s. induction fuel as [|n IH]; intros fuel' a s Hle Hf.
  - cbn in *. destruct (cond s) eqn:Hc; [done|].
    by rewrite while_loop_exit.
  - destruct fuel' as [|m]; [lia|]. cbn in *.
    destruct (cond s); [|done].
    destruct (body a s); try done. apply IH; [lia|done].
Qed.

(** Termination by a measure: when the body never runs out of fuel, the
    measure [mu] is positive where the condition holds and every iteration
    that goes on lowers it, fuel [mu s] is enough. *)
Lemma while_loop_terminates (mu : S -> nat) fuel a s :
  (forall a s, cond s = true -> is_out_of_fuel (body a s) = false) ->
  (forall s, cond s = true -> (0 < mu s)%nat) ->
  (forall a s a' s', cond s = true -> body a s = Val a' s' ->
     (mu s' < mu s)%nat) ->
  (mu s <= fuel)%nat ->
  is_out_of_fuel (while_loop fuel cond body a s) = false.
Proof.
  intros Hfuel Hpos Hdec. revert a s.
  induction fuel as [|n IH]; intros a s Hle; cbn.
  - destruct (cond s) eqn:Hc; [|done]. specialize (Hpos s Hc). lia.
  - destruct (cond s) eqn:Hc; [|done].
    specialize (Hfuel a s Hc). destruct (body a s) as [a' s'| | |] eqn:Hb; try done.
    apply IH. specialize (Hdec a s a' s' Hc Hb). lia.
Qed.

(** Invariant rule: an invariant of the body holds of the state the loop
    ends in, however it ends. *)
Lemma while_loop_invariant (I : S -> Prop) fuel a s :
  (forall a s, I s -> cond s = true -> holds_after I (body a s)) ->
  I s -> holds_after I (while_loop fuel cond body a s).
Proof.
  intros Hbody. revert a s. induction fuel as [|n IH]; intros a s Hs; cbn.
  - destruct (cond s); done.
  - destruct (cond s) eqn:Hc; [|done].
    specialize (Hbody a s Hs Hc). unfold holds_after in *.
    destruct (body a s) as [a' s'| | |]; cbn in *; try done.
    by apply IH.
Qed.

(** The rule for partial correctness: an invariant [I] of the accumulator
    and the state that the body keeps holds when the loop ends, with the
    condition false; what the body establishes on an early return holds
    when the loop returns early. *)
Lemma while_loop_post (I : A -> S -> Prop) (Q : R -> S -> Prop) fuel a s :
  (forall a s, I a s -> cond s = true -> post I Q (body a s)) ->
  I a s ->
  post (fun a' s' => I a' s' /\ cond s' = false) Q (while_loop fuel cond body a s).
Proof.
  intros Hbody. revert a s. induction fuel as [|n IH]; intros a s Hs; cbn.
  - by destruct (cond s) eqn:Hc.
  - destruct (cond s) eqn:Hc; [|done].
    specialize (Hbody a s Hs Hc). destruct (body a s) as [a' s'| | |]; cbn in *; try done.
    by apply IH.
Qed.

(** When the loop ends normally its condition is false. *)
Lemma while_loop_val_cond fuel a s a' s' :
  while_loop fuel cond body a s = Val a' s' -> cond s' = false.
Proof.
  revert a s. induction fuel as [|n IH]; intros a s; cbn.
  - destruct (cond s) eqn:Hc; naive_solver.
  - destruct (cond s) eqn:Hc; [|naive_solver].
    destruct (body a s); try done. apply IH.
Qed.

End WhileRules.

(** The panics of a program are those of its parts. *)
Section PanicRules.
Context {S R : Type} (K : PanicKind -> Prop).

Lemma bind_panics_in {A B} (m : Prog S R A) (k : A -> Prog S R B) s :
  panics_in K (m s) -> (forall a s', panics_in K (k a s')) -> panics_in K (bind m k s).
Proof. unfold bind. destruct (m s); cbn; auto. Qed.

Lemma call_panics_in {R'} (body : Prog S R R) s :
  panics_in K (body s) -> panics_in K (call (R':=R') body s).
Proof. unfold call. by destruct (body s). Qed.

Lemma while_loop_panics_in {A} cond (body : A -> Prog S R A) fuel a s :
  (forall a s, panics_in K (body a s)) -> panics_in K (while_loop fuel cond body a s).
Proof.
  intros Hb. revert a s. induction fuel as [|n IH]; intros a s; cbn; destruct (cond s); try done.
  specialize (Hb a s). destruct (body a s); cbn in *; try done.
Qed.

Lemma map_state_panics_in {S' A} (f : S -> S') (o : Outcome S R A) :
  panics_in K (map_state f o) <-> panics_in K o.
Proof. by destruct o. Qed.

End PanicRules.

(** Two loops whose bodies end the same way, whatever the values they
    carry, end the same way: the values carried from one iteration to the
    next decide neither the state nor an early return. *)
Section SameEnd.
Context {S R A B : Type} (cond : S -> bool).
Context (body1 : A -> Prog S R A) (body2 : B -> Prog S R B).
Hypothesis Hbody : forall a b s, same_end (body1 a s) (body2 b s).

Lemma while_loop_same_end fuel a b s :
  same_end (while_loop fuel cond body1 a s) (while_loop fuel cond body2 b s).
Proof.
  revert a b s. induction fuel as [|n IH]; intros a b s; cbn; destruct (cond s); try done.
  specialize (Hbody a b s). destruct (body1 a s), (body2 b s); cbn in *; try done.
  subst. apply IH.
Qed.

End SameEnd.

(** ** Simulation by an abstraction of the state

    A program on [S'] simulates a program on [S] through [f : S -> S'] when
    they have the same outcome on related states.  Simulation goes through
    [bind], [call] and [while_loop]. *)

Section Simulation.
Context {S S' R : Type} (f : S -> S').

Definition simulates {A} (m : Prog S R A) (m' : Prog S' R A) : Prop :=
  forall s, map_state f (m s) = m' (f s).

Lemma simulates_bind {A B} (m : Prog S R A) m' (k : A -> Prog S R B) k' :
  simulates m m' -> (forall a, simulates (k a) (k' a)) ->
  simulates (bind m k) (bind m' k').
Proof.
  intros Hm Hk s. unfold bind. rewrite <- Hm.
  destruct (m s) as [a s1| | |]; cbn; [apply Hk|done..].
Qed.

Lemma simulates_ret {A} (a : A) : simulates (ret a) (ret a).
Proof. done. Qed.

Lemma simulates_while {A} fuel cond cond' (body : A -> Prog S R A) body' a :
  (forall s, cond s = cond' (f s)) ->
  (forall a, simulates (body a) (body' a)) ->
  simulates (while_loop fuel cond body a) (while_loop fuel cond' body' a).
Proof.
  intros Hc Hb. revert a. induction fuel as [|n IH]; intros a s; cbn.
  - rewrite <- Hc. by destruct (cond s).
  - rewrite <- Hc. destruct (cond s); [|done]. rewrite <- Hb.
    destruct (body a s); cbn; [apply IH|done..].
Qed.

Lemma map_state_fuel {A} (o : Outcome S R A) :
  is_out_of_fuel (map_state f o) = is_out_of_fuel o.
Proof. by destruct o. Qed.

Lemma map_state_panicked {A} (o : Outcome S R A) k :
  map_state f o = Panicked k -> o = Panicked k.
Proof. destruct o; cbn; congruence. Qed.

Lemma map_state_final {A} (o : Outcome S R A) :
  final_state (map_state f o) = f <$> final_state o.
Proof. by destruct o. Qed.

(** A property of the abstract state that holds after the abstract outcome
    holds after the concrete one. *)
Lemma map_state_holds_after {A} (P : S' -> Prop) (o : Outcome S R A) :
  holds_after P (map_state f o) <-> holds_after (fun s => P (f s)) o.
Proof. by destruct o. Qed.

Lemma map_state_post {A} (Pv : A -> S' -> Prop) (Pr : R -> S' -> Prop) (o : Outcome S R A) :
  post Pv Pr (map_state f o) <-> post (fun a s => Pv a (f s)) (fun r s => Pr r (f s)) o.
Proof. by destruct o. Qed.

End Simulation.

Lemma simulates_call {S S' R R'} (f : S -> S') (body : Prog S R R) body' :
  simulates f body body' ->
  simulates f (call (R':=R') body) (call (R':=R') body').
Proof. intros Hb s. unfold call. rewrite <- Hb. by destruct (body s). Qed.

(** ** Lemmas on [Zsum] *)

Lemma Zsum_app l1 l2 : Zsum (l1 ++ l2) = Zsum l1 + Zsum l2.
Proof. induction l1 as [|x l1 IH]; cbn [Zsum app]; lia. Qed.

Lemma Zsum_bounds (b : Z) (l : list Z) :
  Forall (fun x => 0 <= x < b) l -> 0 <= Zsum l <= Z.of_nat (length l) * (b - 1).
Proof.
  induction 1 as [|x l Hx _ IH]; cbn [Zsum length]; [lia|].
  rewrite Nat2Z.inj_succ. nia.
Qed.

(** ** Lemmas on lists shared by the components *)

Lemma Forall_take_drop {A} (P : A -> Prop) n (l : list A) :
  Forall P l -> Forall P (take n l) /\ Forall P (drop n l).
Proof. intros H. split; [by apply Forall_take | by apply Forall_drop]. Qed.

Lemma length_take_le_drop {A} n (l : list A) :
  (length (take n l) + length (drop n l) = length l)%nat.
Proof. rewrite length_take, length_drop. lia. Qed.

#[export] Hint Resolve Forall_take Forall_drop Forall_app_2 Forall_cons_2 Forall_nil_2 : zeo.

(** ** Filling a vector index by index *)

(** Storing [f j] at the indices [j] from [k] on, [m] of them, leaves the
    vector's first [k] and last elements and puts the values in between. *)
Lemma foldl_insert_seq {A} (f : nat -> A) (l : list A) (k m : nat) :
  (k + m <= length l)%nat ->
  foldl (fun c j => <[j := f j]> c) l (seq k m) =
  take k l ++ (f <$> seq k m) ++ drop (k + m) l.
Proof.
  revert k l. induction m as [|m IH]; intros k l Hl.
  { cbn. by rewrite Nat.add_0_r, take_drop. }
  cbn [seq foldl fmap list_fmap]. rewrite IH by (rewrite length_insert; lia).
  rewrite (take_S_r _ _ (f k)) by (apply list_lookup_insert_eq; lia).
  rewrite take_insert_ge, drop_insert_lt by lia.
  replace (k + S m)%nat with (S k + m)%nat by lia. by rewrite <- app_assoc.
Qed.

(** Filling the whole vector. *)
Lemma foldl_insert_all {A} (f : nat -> A) (l : list A) :
  foldl (fun c j => <[j := f j]> c) l (seq 0 (length l)) = f <$> seq 0 (length l).
Proof. rewrite foldl_insert_seq by done. cbn. by rewrite drop_all, app_nil_r. Qed.

(** A function that is constant maps a list to copies of its value. *)
Lemma fmap_const_replicate {A B} (f : A -> B) (c : B) (l : list A) :
  (forall x, f x = c) -> f <$> l = replicate (length l) c.
Proof. intros Hf. induction l as [|x l IH]; [done|]. cbn. by rewrite Hf, IH. Qed.
