(* ===== verification/Machine.v ===== *)
(** * Machine: Rust's fixed-width integers on [Z]

    The decoder computes on [u8], [u16] and [u32].  A value of such a type
    is a [Z] in the type's range ([is_u8], [is_u16], [is_u32]); each
    primitive the sources call is a function on [Z] that says what Rust does
    at the edge of the range: [wrapping_add] wraps, [saturating_sub] and
    [saturating_add] clamp, [!] flips the sixteen bits, and the operator
    [-] panics when overflow checks are on (the [Debug] profile) and wraps
    when they are off ([Release]).  The little-endian conversions are
    stdpp's [little_endian_to_Z] at width 8. *)

From S2P Require Import Prelude.

(** ** Ranges *)

Definition u8_MAX : Z := 255.
Definition u16_MAX : Z := 65535.
Definition u32_MAX : Z := 4294967295.

Definition is_u8 (z : Z) : Prop := 0 <= z <= u8_MAX.
Definition is_u16 (z : Z) : Prop := 0 <= z <= u16_MAX.
Definition is_u32 (z : Z) : Prop := 0 <= z <= u32_MAX.

#[global] Instance is_u8_dec z : Decision (is_u8 z).
Proof. unfold is_u8. apply _. Defined.
#[global] Instance is_u16_dec z : Decision (is_u16 z).
Proof. unfold is_u16. apply _. Defined.
#[global] Instance is_u32_dec z : Decision (is_u32 z).
Proof. unfold is_u32. apply _. Defined.

(** A list of bytes. *)
Definition bytes (l : list Z) : Prop := Forall is_u8 l.

(** ** The build profile *)

(** Rust checks integer overflow of [+] and [-] in debug builds and wraps
    in release builds. *)
Inductive Profile : Type := Debug | Release.

Definition overflow_checks (p : Profile) : bool :=
  match p with
  | Debug => true
  | Release => false
  end.

(** ** Primitives *)

(** [a.wrapping_add(b)] on [u8]. *)
Definition u8_wrapping_add (a b : Z) : Z := (a + b) mod 256.

(** [a.saturating_sub(b)] on [u32]. *)
Definition u32_saturating_sub (a b : Z) : Z := Z.max 0 (a - b).

(** [a.saturating_add(b)] on [u32]. *)
Definition u32_saturating_add (a b : Z) : Z := Z.min u32_MAX (a + b).

(** [!a] on [u16]. *)
Definition u16_not (a : Z) : Z := Z.lxor a 0xFFFF.

(** [u16::from_le_bytes([b0, b1])]. *)
Definition u16_from_le_bytes (b0 b1 : Z) : Z := little_endian_to_Z 8 [b0; b1].

(** [u32::from_le_bytes([b0, b1, b2, b3])]. *)
Definition u32_from_le_bytes (b0 b1 b2 b3 : Z) : Z :=
  little_endian_to_Z 8 [b0; b1; b2; b3].

(** [x.to_le_bytes()] on [u16] and [u32]. *)
Definition u16_to_le_bytes (x : Z) : list Z := Z_to_little_endian 2 8 x.
Definition u32_to_le_bytes (x : Z) : list Z := Z_to_little_endian 4 8 x.

(** [a - b] on an unsigned type of [bits] bits: the difference when it is
    not negative; otherwise a panic under overflow checks and the wrapped
    difference without them. *)
Definition checked_sub {S R} (bits : Z) (p : Profile) (a b : Z) : Prog S R Z :=
  if b <=? a then ret (a - b)
  else if overflow_checks p then panic ArithOverflow
  else ret ((a - b) mod 2 ^ bits).

Definition u8_sub {S R} : Profile -> Z -> Z -> Prog S R Z := checked_sub 8.
Definition u16_sub {S R} : Profile -> Z -> Z -> Prog S R Z := checked_sub 16.

#[global] Arguments u8_wrapping_add : simpl never.
#[global] Arguments u32_saturating_sub : simpl never.
#[global] Arguments u32_saturating_add : simpl never.
#[global] Arguments u16_not : simpl never.
#[global] Arguments u16_from_le_bytes : simpl never.
#[global] Arguments u32_from_le_bytes : simpl never.
#[global] Arguments u16_to_le_bytes : simpl never.
#[global] Arguments u32_to_le_bytes : simpl never.

(** ** Tactics *)

(** Unfold the ranges and solve by linear arithmetic. *)
Ltac range_unfold :=
  unfold bytes, is_u8, is_u16, is_u32, u8_MAX, u16_MAX, u32_MAX in *.

Ltac range := range_unfold; try lia; zmod.

(** A literal list of bytes, element by element. *)
Ltac bytes_list :=
  unfold bytes; repeat first [apply Forall_nil_2 | apply Forall_cons_2]; try done.

(** ** Ranges: inclusions *)

Lemma is_u8_u16 z : is_u8 z -> is_u16 z.
Proof. range. Qed.

Lemma is_u16_u32 z : is_u16 z -> is_u32 z.
Proof. range. Qed.

Lemma is_u8_pow z : is_u8 z <-> 0 <= z < 2 ^ 8.
Proof. range. Qed.

Lemma bytes_pow l : bytes l <-> Forall (fun b => 0 <= b < 2 ^ 8) l.
Proof. unfold bytes. apply Forall_proper; [intros b; apply is_u8_pow | done]. Qed.

Lemma bytes_cons b l : bytes (b :: l) <-> is_u8 b /\ bytes l.
Proof. apply Forall_cons. Qed.

Lemma bytes_app l1 l2 : bytes (l1 ++ l2) <-> bytes l1 /\ bytes l2.
Proof. apply Forall_app. Qed.

Lemma bytes_take n l : bytes l -> bytes (take n l).
Proof. apply Forall_take. Qed.

Lemma bytes_drop n l : bytes l -> bytes (drop n l).
Proof. apply Forall_drop. Qed.

#[export] Hint Resolve is_u8_u16 is_u16_u32 bytes_take bytes_drop : zeo.

(** The sum of [n] bytes is at most [255 * n]. *)
Lemma Zsum_bytes l : bytes l -> 0 <= Zsum l <= 255 * Z.of_nat (length l).
Proof.
  intros H. assert (Hb : Forall (fun x => 0 <= x < 256) l).
  { eapply Forall_impl; [exact H|]. intros x. range. }
  apply Zsum_bounds in Hb. lia.
Qed.

(** ** [land 0xFF] is the low byte *)

Lemma land_255 z : Z.land z 0xFF = z mod 256.
Proof. change 0xFF with (Z.ones 8). by rewrite Z.land_ones. Qed.

Lemma land_255_u8 z : is_u8 (Z.land z 0xFF).
Proof. rewrite land_255. range. Qed.

(** ** [wrapping_add] *)

Lemma u8_wrapping_add_range a b : is_u8 (u8_wrapping_add a b).
Proof. unfold u8_wrapping_add. range. Qed.

Lemma u8_wrapping_add_small a b :
  0 <= a + b <= u8_MAX -> u8_wrapping_add a b = a + b.
Proof. unfold u8_wrapping_add. range. Qed.

Lemma u8_wrapping_add_wrap a b :
  is_u8 a -> is_u8 b -> u8_MAX < a + b -> u8_wrapping_add a b = a + b - 256.
Proof. unfold u8_wrapping_add. range. Qed.

(** ** Saturating arithmetic *)

Lemma u32_saturating_sub_range a b : is_u32 a -> 0 <= b -> is_u32 (u32_saturating_sub a b).
Proof. unfold u32_saturating_sub. range. Qed.

Lemma u32_saturating_add_range a b : is_u32 a -> 0 <= b -> is_u32 (u32_saturating_add a b).
Proof. unfold u32_saturating_add. range. Qed.

Lemma u32_saturating_sub_spec a b :
  u32_saturating_sub a b = if a <? b then 0 else a - b.
Proof. unfold u32_saturating_sub. case_match; lia. Qed.

Lemma u32_saturating_add_spec a b :
  u32_saturating_add a b = if u32_MAX <? a + b then u32_MAX else a + b.
Proof. unfold u32_saturating_add. case_match; lia. Qed.

(** ** The complement on [u16] *)

Lemma u16_not_spec a : is_u16 a -> u16_not a = u16_MAX - a.
Proof.
  intros Ha. unfold u16_not, u16_MAX. change 0xFFFF with (Z.ones 16).
  assert (Hl : Z.land a (Z.ones 16) = a).
  { rewrite Z.land_ones by lia. apply Z.mod_small. range. }
  pose proof (Z.add_lxor_2land a (Z.ones 16)) as H. rewrite Hl in H.
  change (Z.ones 16) with 65535 in *. lia.
Qed.

Lemma u16_not_range a : is_u16 a -> is_u16 (u16_not a).
Proof. intros Ha. rewrite u16_not_spec by done. range. Qed.

Lemma u16_not_involutive a : u16_not (u16_not a) = a.
Proof.
  unfold u16_not. by rewrite Z.lxor_assoc, Z.lxor_nilpotent, Z.lxor_0_r.
Qed.

#[global] Instance u16_not_inj : Inj (=) (=) u16_not.
Proof. intros a b H. by rewrite <- (u16_not_involutive a), H, u16_not_involutive. Qed.

(** ** Little-endian conversions *)

Lemma u16_from_le_bytes_spec b0 b1 :
  is_u8 b0 -> u16_from_le_bytes b0 b1 = b0 + 256 * b1.
Proof.
  intros H0. unfold u16_from_le_bytes. cbn [little_endian_to_Z].
  rewrite Z.shiftl_0_l, Z.lor_0_r, Z.shiftl_mul_pow2 by lia.
  rewrite <- Z.add_nocarry_lor; [lia|].
  apply Z.bits_inj'. intros n Hn. rewrite Z.land_spec, Z.bits_0.
  destruct (decide (n < 8)).
  - rewrite (Z.mul_pow2_bits_low b1 8 n) by lia. apply andb_false_r.
  - rewrite (Z.bits_above_log2 b0 n); [done|range|].
    destruct (decide (b0 = 0)) as [->|]; [cbn; lia|].
    apply Z.log2_lt_pow2; [range|]. apply Z.lt_le_trans with (2 ^ 8).
    + change (2 ^ 8) with 256. range.
    + apply Z.pow_le_mono_r; lia.
Qed.

Lemma u16_from_le_bytes_range b0 b1 :
  is_u8 b0 -> is_u8 b1 -> is_u16 (u16_from_le_bytes b0 b1).
Proof. intros H0 H1. rewrite u16_from_le_bytes_spec by done. range. Qed.

Lemma u32_from_le_bytes_range b0 b1 b2 b3 :
  is_u8 b0 -> is_u8 b1 -> is_u8 b2 -> is_u8 b3 ->
  is_u32 (u32_from_le_bytes b0 b1 b2 b3).
Proof.
  intros H0 H1 H2 H3.
  assert (Hb : Forall (fun b => 0 <= b < 2 ^ 8) [b0; b1; b2; b3]).
  { apply bytes_pow. bytes_list. }
  apply (little_endian_to_Z_bound 8) in Hb; [|lia].
  unfold u32_from_le_bytes. cbn [length] in Hb. range.
Qed.

Lemma length_u16_to_le_bytes x : length (u16_to_le_bytes x) = 2%nat.
Proof. apply Nat2Z.inj. unfold u16_to_le_bytes. by rewrite length_Z_to_little_endian. Qed.

Lemma length_u32_to_le_bytes x : length (u32_to_le_bytes x) = 4%nat.
Proof. apply Nat2Z.inj. unfold u32_to_le_bytes. by rewrite length_Z_to_little_endian. Qed.

Lemma u16_to_le_bytes_bytes x : bytes (u16_to_le_bytes x).
Proof. apply bytes_pow. by apply Z_to_little_endian_bound. Qed.

Lemma u32_to_le_bytes_bytes x : bytes (u32_to_le_bytes x).
Proof. apply bytes_pow. by apply Z_to_little_endian_bound. Qed.

(** The two bytes of a [u16], explicitly. *)
Lemma u16_to_le_bytes_spec x :
  u16_to_le_bytes x = [x mod 256; (x / 256) mod 256].
Proof.
  unfold u16_to_le_bytes.
  change 2 with (Z.succ (Z.succ 0)).
  rewrite !Z_to_little_endian_succ, Z_to_little_endian_0 by lia.
  rewrite !Z.land_ones, Z.shiftr_div_pow2 by lia. done.
Qed.

(** Round trip: the bytes of [x] combine to [x]. *)
Lemma u16_from_to_le_bytes x b0 b1 :
  is_u16 x -> u16_to_le_bytes x = [b0; b1] -> u16_from_le_bytes b0 b1 = x.
Proof.
  intros Hx Hb. unfold u16_from_le_bytes, u16_to_le_bytes in *. rewrite <- Hb.
  rewrite little_endian_to_Z_to_little_endian by lia. apply Z.mod_small. range.
Qed.

(** The value of the two bytes of [x]. *)
Lemma u16_from_le_bytes_mod x :
  is_u16 x -> u16_from_le_bytes (x mod 256) ((x / 256) mod 256) = x.
Proof. intros Hx. by apply u16_from_to_le_bytes; [|apply u16_to_le_bytes_spec]. Qed.

(** Round trip: the combination of two bytes splits into them. *)
Lemma u16_to_from_le_bytes b0 b1 :
  is_u8 b0 -> is_u8 b1 -> u16_to_le_bytes (u16_from_le_bytes b0 b1) = [b0; b1].
Proof.
  intros H0 H1. apply Z_to_little_endian_to_Z; [done|lia|].
  apply bytes_pow. bytes_list.
Qed.

Lemma u32_from_to_le_bytes x b0 b1 b2 b3 :
  is_u32 x -> u32_to_le_bytes x = [b0; b1; b2; b3] ->
  u32_from_le_bytes b0 b1 b2 b3 = x.
Proof.
  intros Hx Hb. unfold u32_from_le_bytes, u32_to_le_bytes in *. rewrite <- Hb.
  rewrite little_endian_to_Z_to_little_endian by lia. apply Z.mod_small. range.
Qed.

Lemma u32_to_from_le_bytes b0 b1 b2 b3 :
  is_u8 b0 -> is_u8 b1 -> is_u8 b2 -> is_u8 b3 ->
  u32_to_le_bytes (u32_from_le_bytes b0 b1 b2 b3) = [b0; b1; b2; b3].
Proof.
  intros H0 H1 H2 H3. apply Z_to_little_endian_to_Z; [done|lia|].
  apply bytes_pow. bytes_list.
Qed.

(** ** Checked subtraction *)

Section CheckedSub.
Context {S R : Type}.
Implicit Types s : S.

Lemma checked_sub_ok bits p a b s :
  b <= a -> checked_sub (R:=R) bits p a b s = Val (a - b) s.
Proof. intros H. unfold checked_sub. by rewrite (proj2 (Z.leb_le _ _) H). Qed.

Lemma checked_sub_debug bits a b s :
  a < b -> checked_sub (R:=R) bits Debug a b s = Panicked ArithOverflow.
Proof. intros H. unfold checked_sub. by rewrite (proj2 (Z.leb_gt _ _) H). Qed.

Lemma checked_sub_release bits a b s :
  a < b -> checked_sub (R:=R) bits Release a b s = Val ((a - b) mod 2 ^ bits) s.
Proof. intros H. unfold checked_sub. by rewrite (proj2 (Z.leb_gt _ _) H). Qed.

Lemma bind_checked_sub_ok {B} bits p a b (k : Z -> Prog S R B) s :
  b <= a -> bind (checked_sub bits p a b) k s = k (a - b) s.
Proof. intros H. by rewrite (bind_val _ _ _ _ _ (checked_sub_ok _ _ _ _ _ H)). Qed.

Lemma bind_checked_sub_debug {B} bits a b (k : Z -> Prog S R B) s :
  a < b -> bind (checked_sub bits Debug a b) k s = Panicked ArithOverflow.
Proof. intros H. by rewrite (bind_panicked _ _ _ _ (checked_sub_debug _ _ _ _ H)). Qed.

Lemma bind_checked_sub_release {B} bits a b (k : Z -> Prog S R B) s :
  a < b -> bind (checked_sub bits Release a b) k s = k ((a - b) mod 2 ^ bits) s.
Proof. intros H. by rewrite (bind_val _ _ _ _ _ (checked_sub_release _ _ _ _ H)). Qed.

(** Subtraction never changes the state and never runs out of fuel. *)
Lemma checked_sub_inv bits p a b s :
  (exists v, checked_sub (R:=R) bits p a b s = Val v s) \/
  checked_sub (R:=R) bits p a b s = Panicked ArithOverflow.
Proof. unfold checked_sub. repeat case_match; eauto. Qed.

End CheckedSub.
