(* ===== verification/Filter.v ===== *)
(** * Filter: the convolution [filter60hz] of lib.rs

    [filter60hz] (lib.rs, lines 371-411) convolves a slice of samples with
    a table of 51 coefficients: for an input of [p] samples it returns the
    [p + 50] values [c[k]], each the sum of [a[i] * filter[k - i]] over the
    indices [i] from [max(0, k - 50)] to [min(p - 1, k)], added in that
    order.

    The samples are [f64].  The code is written once, for the scalars of
    a class [Scalar] with a zero, an addition, a multiplication and the
    value of a coefficient given in ten-thousandths; no law is assumed of
    them, so the theorems hold of the order of the operations as the code
    performs them.  [f64_scalar] is [f64] itself, the binary64 numbers of
    the Standard Library, on which the model runs as the program does;
    [Z_scalar] is the filter scaled by 10000 in exact arithmetic.  The
    indices are [usize]: the subtraction [p - 1] overflows on an empty
    slice, and the indexing [a[i]] panics out of range.

    [conv] is the reference, the convolution of the comment at the end of
    the function; the theorems show that the code computes it on every
    slice that is not empty, and that it panics on the empty slice and on
    no other ([filter60hz_panics_iff]).

    What the filter does to signals depends on the scalars.  The program
    runs in [f64], which has none of the laws of exact arithmetic: its
    addition is not associative ([f64_add_not_assoc]) and the filter is not
    additive in it, not even on whole numbers
    ([filter60hz_f64_not_additive]).  What does hold in [f64], exactly and
    for every sample, infinities and NaN included, is that the filter
    commutes with a delay: zeros before a signal come out as as many zeros
    before its response ([filter60hz_f64_delay]), and a signal of zeros is
    mapped to zeros ([filter60hz_f64_silence]).  Both rest on one fact of
    the table, that zero plus the product of zero with a coefficient is
    zero ([zero_absorbs]), and on the accumulator starting from zero with
    the terms added from the first sample on.  The lemmas of the section
    [Linear] are about the reference in exact arithmetic ([ScalarLaws], of
    which the integers are an instance and [f64] is not): they say what
    the filter would be without rounding, and nothing of the program. *)

From Stdlib Require Import PrimFloat.
From S2P Require Import Prelude Machine.

(** What the code does with [f64]. *)
Class Scalar (T : Type) : Type := {
  s_zero : T;
  s_add : T -> T -> T;
  s_mul : T -> T -> T;
  s_coeff : Z -> T;
}.

(** The integers as scalars, a coefficient being its number of
    ten-thousandths: the filter scaled by 10000. *)
#[global] Instance Z_scalar : Scalar Z := {|
  s_zero := 0;
  s_add := Z.add;
  s_mul := Z.mul;
  s_coeff := id;
|}.

(** The [f64] value of an integer below [2^53] in absolute value: every
    operation on the way is exact. *)
Fixpoint f64_of_pos (p : positive) : float :=
  match p with
  | xH => 1%float
  | xO p' => PrimFloat.mul 2%float (f64_of_pos p')
  | xI p' => PrimFloat.add (PrimFloat.mul 2%float (f64_of_pos p')) 1%float
  end.

Definition f64_of_Z (z : Z) : float :=
  match z with
  | Z0 => 0%float
  | Zpos p => f64_of_pos p
  | Zneg p => PrimFloat.opp (f64_of_pos p)
  end.

(** [f64]: the binary64 numbers of the Standard Library with their
    addition and multiplication, rounded to nearest as Rust's are.  A
    coefficient is the quotient of its ten-thousandths by 10000, which is
    the number the literal of the source denotes: the [f64] nearest to the
    decimal ([filter_f64_literals]). *)
#[global] Instance f64_scalar : Scalar float := {|
  s_zero := 0%float;
  s_add := PrimFloat.add;
  s_mul := PrimFloat.mul;
  s_coeff := fun z => PrimFloat.div (f64_of_Z z) 10000%float;
|}.

(** The coefficients of [filter], in ten-thousandths. *)
Definition FILTER : list Z :=
  [56; 190; 113; -106; 29; 41; -82; 89; -62; 6; 66;
   -129; 157; -127; 35; 102; -244; 336; -323; 168; 136;
   -555; 1020; -1446; 1743; 8150; 1743; -1446; 1020; -555; 136; 168;
   -323; 336; -244; 102; 35; -127; 157; -129; 66; 6;
   -62; 89; -82; 41; 29; -106; 113; 190; 56].

(** [filter] as the source writes it, in [f64]. *)
#[warnings="-inexact-float"]
Definition filter_f64 : list float :=
  [0.0056; 0.0190; 0.0113; -0.0106; 0.0029; 0.0041; -0.0082; 0.0089; -0.0062; 0.0006; 0.0066;
   -0.0129; 0.0157; -0.0127; 0.0035; 0.0102; -0.0244; 0.0336; -0.0323; 0.0168; 0.0136;
   -0.0555; 0.1020; -0.1446; 0.1743; 0.8150; 0.1743; -0.1446; 0.1020; -0.0555; 0.0136; 0.0168;
   -0.0323; 0.0336; -0.0244; 0.0102; 0.0035; -0.0127; 0.0157; -0.0129; 0.0066; 0.0006;
   -0.0062; 0.0089; -0.0082; 0.0041; 0.0029; -0.0106; 0.0113; 0.0190; 0.0056]%float.

Section Filter.
Context {T : Type} `{Scalar T}.

(** [let filter: [f64; 51] = [..]] *)
Definition filter : list T := s_coeff <$> FILTER.

(** The function has no early [return]; its state is the vector [c]. *)
Definition FM (A : Type) : Type := Prog (list T) Empty_set A.

(** [l[i]] *)
Definition index {A} (l : list A) (i : nat) : FM A :=
  match l !! i with
  | Some x => ret x
  | None => panic IndexOutOfBounds
  end.

(** [for i in lower..=upper { t += a[i] * filter[k - i]; }], with [count]
    indices left from [i]. *)
Fixpoint inner_loop (a : list T) (k i count : nat) (t : T) : FM T :=
  match count with
  | O => ret t
  | S count' =>
      x <- index a i ;;
      y <- index filter (k - i) ;;
      inner_loop a k (S i) count' (s_add t (s_mul x y))
  end.

(** [lower = k.saturating_sub(q - 1)] and [upper = k.min(p - 1)]. *)
Definition bounds (prof : Profile) (p q k : nat) : FM (nat * nat) :=
  let lower := (k - (q - 1))%nat in
  pm1 <- checked_sub 64 prof (Z.of_nat p) 1 ;;
  let upper := Z.to_nat (Z.min (Z.of_nat k) pm1) in
  ret (lower, upper).

(** [c[k] = t] *)
Definition store (k : nat) (t : T) : FM unit :=
  fun c =>
    if decide (k < length c)%nat then Val tt (<[k := t]> c)
    else Panicked IndexOutOfBounds.

(** The body of [for k in 0..n]. *)
Definition outer_body (prof : Profile) (a : list T) (k : nat) : FM unit :=
  b <- bounds prof (length a) (length filter) k ;;
  t <- inner_loop a k b.1 (S b.2 - b.1) s_zero ;;
  store k t.

(** [for k in 0..n], with [count] indices left from [k]. *)
Fixpoint outer_loop (prof : Profile) (a : list T) (k count : nat) : FM unit :=
  match count with
  | O => ret tt
  | S count' => outer_body prof a k ;; outer_loop prof a (S k) count'
  end.

(** [filter60hz(a)] *)
Definition filter60hz (prof : Profile) (a : list T) : Outcome (list T) Empty_set (list T) :=
  let p := length a in
  let q := length filter in
  let n := (p + q - 1)%nat in
  (outer_loop prof a 0 n ;; gets id) (replicate n s_zero).

(** ** The reference *)

(** The term [a[i] * filter[k - i]] added to [t]. *)
Definition term (a : list T) (k : nat) (t : T) (i : nat) : T :=
  s_add t (s_mul (default s_zero (a !! i)) (default s_zero (filter !! (k - i)%nat))).

(** [c[k]]: the terms for [i] from [max(0, k - (Q - 1))] to
    [min(P - 1, k)], added from the left. *)
Definition conv_at (a : list T) (k : nat) : T :=
  let lower := (k - 50)%nat in
  let upper := Nat.min (length a - 1) k in
  foldl (term a k) s_zero (seq lower (S upper - lower)).

(** The convolution of [a] with the filter. *)
Definition conv (a : list T) : list T := conv_at a <$> seq 0 (length a + 50).

End Filter.

#[global] Arguments filter : simpl never.

(** ** Signals *)

(** The laws of exact arithmetic: a semiring whose addition commutes. *)
Class ScalarLaws (T : Type) `{Scalar T} : Prop := {
  s_add_comm (x y : T) : s_add x y = s_add y x;
  s_add_assoc (x y z : T) : s_add x (s_add y z) = s_add (s_add x y) z;
  s_add_0_l (x : T) : s_add s_zero x = x;
  s_mul_assoc (x y z : T) : s_mul x (s_mul y z) = s_mul (s_mul x y) z;
  s_mul_0_l (x : T) : s_mul s_zero x = s_zero;
  s_mul_0_r (x : T) : s_mul x s_zero = s_zero;
  s_mul_add_distr_l (x y z : T) : s_mul x (s_add y z) = s_add (s_mul x y) (s_mul x z);
  s_mul_add_distr_r (x y z : T) : s_mul (s_add x y) z = s_add (s_mul x z) (s_mul y z);
}.

(** The sum of two signals, sample by sample, and the multiple of one. *)
Definition s_plus {T} `{Scalar T} (a b : list T) : list T := zip_with s_add a b.

Definition s_scale {T} `{Scalar T} (x : T) (a : list T) : list T := s_mul x <$> a.

(** Zero plus the product of zero with a coefficient is zero: what the
    inner loop computes on samples that are zero. *)
Definition zero_absorbs (T : Type) `{Scalar T} : Prop :=
  Forall (fun y => s_add s_zero (s_mul s_zero y) = s_zero) (s_zero :: filter (T:=T)).

(** ** The table *)

Lemma length_FILTER : length FILTER = 51%nat.
Proof. done. Qed.

(** The filter is symmetric. *)
Lemma FILTER_symmetric : reverse FILTER = FILTER.
Proof. done. Qed.

Section FilterLemmas.
Context {T : Type} `{Scalar T}.
Implicit Types (a c : list T) (k i : nat) (t : T).

Lemma length_filter : length (filter (T:=T)) = 51%nat.
Proof. unfold filter. by rewrite length_fmap. Qed.

Lemma filter_lookup i : (i < 51)%nat -> is_Some (filter (T:=T) !! i).
Proof. intros Hi. apply lookup_lt_is_Some. by rewrite length_filter. Qed.

(** ** The inner loop *)

Lemma index_Some {A} (l : list A) i x (c : list T) : l !! i = Some x -> index l i c = Val x c.
Proof. unfold index. by intros ->. Qed.

(** In range, the inner loop adds the terms from the left. *)
Lemma inner_loop_spec a k i count t c :
  (i + count <= length a)%nat -> (i + count <= S k)%nat -> (k < i + 51)%nat ->
  inner_loop a k i count t c = Val (foldl (term a k) t (seq i count)) c.
Proof.
  revert i t. induction count as [|n IH]; intros i t Ha Hk Hf; [done|].
  cbn [inner_loop seq foldl].
  destruct (lookup_lt_is_Some_2 a i) as [x Hx]; [lia|].
  destruct (filter_lookup (k - i)) as [y Hy]; [lia|].
  rewrite (bind_val _ _ _ _ _ (index_Some _ _ _ _ Hx)).
  rewrite (bind_val _ _ _ _ _ (index_Some _ _ _ _ Hy)).
  rewrite IH by lia. unfold term. by rewrite Hx, Hy.
Qed.

(** ** The bounds *)

Lemma bounds_spec prof p k c :
  (0 < p)%nat ->
  bounds prof p 51 k c = Val ((k - 50)%nat, Nat.min (p - 1) k) c.
Proof.
  intros Hp. unfold bounds. rewrite bind_checked_sub_ok by lia.
  unfold ret. do 3 f_equal. lia.
Qed.

(** ** The outer loop *)

(** On a slice that is not empty, an iteration stores the reference value. *)
Lemma outer_body_spec prof a k c :
  (0 < length a)%nat -> (k < length a + 50)%nat -> (k < length c)%nat ->
  outer_body prof a k c = Val tt (<[k := conv_at a k]> c).
Proof.
  intros Hp Hk Hc. unfold outer_body. rewrite length_filter.
  rewrite (bind_val _ _ _ _ _ (bounds_spec prof _ k c Hp)). cbn [fst snd].
  assert (inner_loop a k (k - 50) (S (Nat.min (length a - 1) k) - (k - 50)) s_zero c =
          Val (conv_at a k) c) as Hi by (apply inner_loop_spec; lia).
  rewrite (bind_val _ _ _ _ _ Hi). unfold store. by rewrite decide_True.
Qed.

Lemma outer_loop_spec prof a k count c :
  (0 < length a)%nat -> (k + count <= length a + 50)%nat -> (k + count <= length c)%nat ->
  outer_loop prof a k count c =
  Val tt (foldl (fun c j => <[j := conv_at a j]> c) c (seq k count)).
Proof.
  intros Hp. revert k c. induction count as [|n IH]; intros k c Hk Hc; [done|].
  cbn [outer_loop seq foldl].
  rewrite (bind_val _ _ _ _ _ (outer_body_spec prof a k c Hp ltac:(lia) ltac:(lia))).
  apply IH; [lia|]. rewrite length_insert. lia.
Qed.

Lemma length_conv a : length (conv a) = (length a + 50)%nat.
Proof. unfold conv. by rewrite length_fmap, length_seq. Qed.

(** The code computes the reference on a slice that is not empty. *)
Lemma filter60hz_val prof a :
  (0 < length a)%nat -> filter60hz prof a = Val (conv a) (conv a).
Proof.
  intros Hp. unfold filter60hz. rewrite length_filter.
  replace (length a + 51 - 1)%nat with (length a + 50)%nat by lia.
  rewrite (bind_val _ _ _ _ _
             (outer_loop_spec prof a 0 _ (replicate (length a + 50) s_zero) Hp (le_n _)
                ltac:(rewrite length_replicate; lia))).
  unfold gets, conv. rewrite <- (length_replicate (length a + 50) s_zero) at 2 4 6.
  by rewrite foldl_insert_all, length_replicate.
Qed.

End FilterLemmas.

(** * The theorems on [filter60hz] *)

Section FilterTheorems.
Context {T : Type} `{Scalar T}.

(** C26: on a slice that is not empty [filter60hz] returns the convolution
    of the comment that ends the function: the value at [k] is the sum, from
    the left, of [a[i] * filter[k - i]] for [i] from [max(0, k - 50)] to
    [min(p - 1, k)]; the build profile makes no difference. *)
Theorem filter60hz_conv prof (a : list T) :
  a <> [] -> filter60hz prof a = Val (conv a) (conv a).
Proof. intros Ha. apply filter60hz_val. destruct a; [done | cbn; lia]. Qed.

(** On a slice that is not empty no index of [filter60hz] is out of
    range and no subtraction overflows: it returns a vector of [p + 50]
    values. *)
Lemma filter60hz_length prof (a : list T) :
  a <> [] ->
  exists c, filter60hz prof a = Val c c /\ length c = (length a + 50)%nat.
Proof.
  intros Ha. exists (conv a). split; [|apply length_conv].
  apply filter60hz_val. destruct a; [done | cbn; lia].
Qed.

(** C37: [filter60hz] panics on the empty slice and on no other.  For every
    slice and in every instance of the scalars, the function panics exactly
    when the slice is empty: in a build with overflow checks on the
    subtraction [p - 1], in a build without on the index [a[0]], after the
    subtraction has wrapped. *)
Theorem filter60hz_panics_iff prof (a : list T) (e : PanicKind) :
  filter60hz prof a = Panicked e <->
  a = [] /\ e = (if overflow_checks prof then ArithOverflow else IndexOutOfBounds).
Proof.
  destruct a as [|x a].
  - destruct prof; cbn [overflow_checks]; (split; [intros [= <-]|intros [_ ->]]); done.
  - rewrite filter60hz_val by (cbn; lia). by split; [|intros []].
Qed.

End FilterTheorems.

(** ** The reference in exact arithmetic

    Without rounding the reference is linear.  The program does not run in
    such scalars: see the section on [f64] below. *)

#[global] Instance Z_scalar_laws : ScalarLaws Z.
Proof. split; cbn; intros; lia. Qed.

Section Linear.
Context {T : Type} `{ScalarLaws T}.
Implicit Types (a b : list T) (k i : nat) (t x y : T).

Lemma length_s_plus a b : length (s_plus a b) = Nat.min (length a) (length b).
Proof. apply length_zip_with. Qed.

Lemma length_s_scale x a : length (s_scale x a) = length a.
Proof. apply length_fmap. Qed.

Lemma s_add_swap x y z w : s_add (s_add x y) (s_add z w) = s_add (s_add x z) (s_add y w).
Proof.
  rewrite <- (s_add_assoc x y), (s_add_assoc y z w), (s_add_comm y z).
  by rewrite <- (s_add_assoc z y w), (s_add_assoc x z).
Qed.

(** A sample of the sum, out of range included. *)
Lemma s_plus_lookup a b i :
  length a = length b ->
  default s_zero (s_plus a b !! i) = s_add (default s_zero (a !! i)) (default s_zero (b !! i)).
Proof.
  intros Hl. unfold s_plus. rewrite lookup_zip_with.
  destruct (a !! i) as [x|] eqn:Ea, (b !! i) as [y|] eqn:Eb; cbn; [done|..].
  - apply lookup_lt_Some in Ea. apply lookup_ge_None in Eb. lia.
  - apply lookup_lt_Some in Eb. apply lookup_ge_None in Ea. lia.
  - by rewrite s_add_0_l.
Qed.

Lemma s_scale_lookup x a i :
  default s_zero (s_scale x a !! i) = s_mul x (default s_zero (a !! i)).
Proof.
  unfold s_scale. rewrite list_lookup_fmap. destruct (a !! i); cbn; [done|].
  by rewrite s_mul_0_r.
Qed.

Lemma term_plus a b k t1 t2 i :
  length a = length b ->
  term (s_plus a b) k (s_add t1 t2) i = s_add (term a k t1 i) (term b k t2 i).
Proof.
  intros Hl. unfold term. by rewrite s_plus_lookup, s_mul_add_distr_r, s_add_swap.
Qed.

Lemma term_scale x a k t i : term (s_scale x a) k (s_mul x t) i = s_mul x (term a k t i).
Proof. unfold term. by rewrite s_scale_lookup, s_mul_add_distr_l, s_mul_assoc. Qed.

Lemma foldl_term_plus a b k idx : forall t1 t2,
  length a = length b ->
  foldl (term (s_plus a b) k) (s_add t1 t2) idx =
  s_add (foldl (term a k) t1 idx) (foldl (term b k) t2 idx).
Proof.
  induction idx as [|i idx IH]; intros t1 t2 Hl; [done|]. cbn [foldl].
  by rewrite term_plus, IH.
Qed.

Lemma foldl_term_scale x a k idx : forall t,
  foldl (term (s_scale x a) k) (s_mul x t) idx = s_mul x (foldl (term a k) t idx).
Proof.
  induction idx as [|i idx IH]; intros t; [done|]. cbn [foldl]. by rewrite term_scale, IH.
Qed.

Lemma conv_at_plus a b k :
  length a = length b -> conv_at (s_plus a b) k = s_add (conv_at a k) (conv_at b k).
Proof.
  intros Hl. unfold conv_at. rewrite length_s_plus, <- Hl, Nat.min_id.
  rewrite <- foldl_term_plus by done. by rewrite s_add_0_l.
Qed.

Lemma conv_at_scale x a k : conv_at (s_scale x a) k = s_mul x (conv_at a k).
Proof.
  unfold conv_at. rewrite length_s_scale, <- foldl_term_scale. by rewrite s_mul_0_r.
Qed.

(** The reference is additive and homogeneous. *)
Lemma conv_plus a b : length a = length b -> conv (s_plus a b) = s_plus (conv a) (conv b).
Proof.
  intros Hl. unfold conv. rewrite length_s_plus, <- Hl, Nat.min_id. unfold s_plus at 2.
  rewrite zip_with_fmap_l, zip_with_fmap_r, zip_with_diag.
  apply list_fmap_ext. intros _ k _. by apply conv_at_plus.
Qed.

Lemma conv_scale x a : conv (s_scale x a) = s_scale x (conv a).
Proof.
  unfold conv. rewrite length_s_scale. unfold s_scale at 2. rewrite <- list_fmap_compose.
  apply list_fmap_ext. intros _ k _. apply conv_at_scale.
Qed.

(** In exact arithmetic the model is linear: for scalars that form a
    semiring with a commutative addition, as the integers do, the filter
    of a combination [x a + y b] of two signals of the same length is the
    combination of their filters, sample by sample.  [f64] is no such
    instance ([f64_not_lawful]). *)
Lemma filter60hz_linear prof x y a b :
  a <> [] -> length a = length b ->
  filter60hz prof (s_plus (s_scale x a) (s_scale y b)) =
  let c := s_plus (s_scale x (conv a)) (s_scale y (conv b)) in Val c c.
Proof.
  intros Ha Hl. cbv zeta. rewrite filter60hz_val.
  - rewrite conv_plus, !conv_scale; [done|]. by rewrite !length_s_scale.
  - rewrite length_s_plus, !length_s_scale, <- Hl, Nat.min_id. destruct a; [done|cbn; lia].
Qed.

End Linear.

(** ** Silence *)

Section Silence.
Context {T : Type} `{Scalar T}.

Lemma term_zeros n k i : zero_absorbs T -> term (replicate n s_zero) k s_zero i = s_zero.
Proof.
  unfold zero_absorbs. intros Hz. unfold term.
  replace (default s_zero (replicate n s_zero !! i)) with (s_zero : T).
  - rewrite Forall_forall in Hz. apply Hz.
    destruct (filter !! (k - i)%nat) as [y|] eqn:E; cbn; [|by left].
    right. by eapply list_elem_of_lookup_2.
  - destruct (replicate n s_zero !! i) as [x|] eqn:E; [|done].
    by apply lookup_replicate in E as [-> _].
Qed.

Lemma conv_at_zeros n k : zero_absorbs T -> conv_at (replicate n s_zero) k = s_zero.
Proof.
  intros Hz. unfold conv_at. induction (seq _ _) as [|i idx IH]; [done|].
  cbn [foldl]. by rewrite term_zeros.
Qed.

Lemma conv_zeros n : zero_absorbs T -> conv (replicate n s_zero) = replicate (n + 50) s_zero.
Proof.
  intros Hz. unfold conv. rewrite length_replicate.
  rewrite (fmap_const_replicate _ s_zero) by (intros k; by apply conv_at_zeros).
  by rewrite length_seq.
Qed.

(** A signal of zeros is mapped to zeros, for scalars in which zero plus
    the product of zero with a coefficient is zero. *)
Lemma filter60hz_silence prof n :
  zero_absorbs T -> (0 < n)%nat ->
  filter60hz prof (replicate n s_zero) =
  Val (replicate (n + 50) s_zero) (replicate (n + 50) s_zero).
Proof.
  intros Hz Hn. rewrite filter60hz_val by (by rewrite length_replicate).
  by rewrite conv_zeros.
Qed.

End Silence.

(** ** Delay *)

Section Delay.
Context {T : Type} `{Scalar T}.
Implicit Types (a : list T) (k i n : nat) (t z : T).

(** Behind one more sample the terms are those one index before. *)
Lemma foldl_term_cons z a k t i n :
  foldl (term (z :: a) (S k)) t (seq (S i) n) = foldl (term a k) t (seq i n).
Proof. revert t i. induction n as [|n IH]; intros t i; [done|]. cbn [seq foldl]. by rewrite IH. Qed.

(** The term of a sample that is zero leaves zero. *)
Lemma term_zero_head a k : zero_absorbs T -> term (s_zero :: a) k s_zero 0 = s_zero.
Proof.
  unfold zero_absorbs, term. rewrite Forall_forall. intros Hz. cbn [lookup list_lookup default].
  apply Hz. rewrite Nat.sub_0_r. destruct (filter !! k) as [y|] eqn:E; cbn; [|by left].
  right. by eapply list_elem_of_lookup_2.
Qed.

Lemma conv_at_delay a k :
  zero_absorbs T -> a <> [] -> conv_at (s_zero :: a) (S k) = conv_at a k.
Proof.
  intros Hz Ha. unfold conv_at.
  assert (0 < length a)%nat by (destruct a; [done|cbn; lia]).
  replace (Nat.min (length (s_zero :: a) - 1) (S k)) with (S (Nat.min (length a - 1) k))
    by (cbn [length]; lia).
  set (u := Nat.min (length a - 1) k). destruct (decide (k < 50)%nat) as [Hk|Hk].
  - replace (S k - 50)%nat with 0%nat by lia. replace (k - 50)%nat with 0%nat by lia.
    rewrite !Nat.sub_0_r. cbn [seq foldl]. by rewrite term_zero_head, foldl_term_cons.
  - replace (S k - 50)%nat with (S (k - 50)) by lia. by rewrite foldl_term_cons.
Qed.

Lemma conv_at_delay_0 a : zero_absorbs T -> conv_at (s_zero :: a) 0 = s_zero.
Proof. intros Hz. unfold conv_at. rewrite Nat.min_0_r. cbn. by apply term_zero_head. Qed.

(** A sample of zero before a signal delays the reference by one value. *)
Lemma conv_delay a : zero_absorbs T -> a <> [] -> conv (s_zero :: a) = s_zero :: conv a.
Proof.
  intros Hz Ha. unfold conv. cbn [length Nat.add seq fmap list_fmap].
  rewrite conv_at_delay_0 by done. f_equal. rewrite <- fmap_S_seq, <- list_fmap_compose.
  apply list_fmap_ext. intros _ k _. by apply conv_at_delay.
Qed.

Lemma conv_delays n a :
  zero_absorbs T -> a <> [] -> conv (replicate n s_zero ++ a) = replicate n s_zero ++ conv a.
Proof.
  intros Hz Ha. induction n as [|n IH]; [done|]. cbn [replicate app].
  rewrite conv_delay, IH; [done..|]. by destruct n, a.
Qed.

(** Delaying the signal delays what the filter returns. *)
Lemma filter60hz_delays prof n a :
  zero_absorbs T -> a <> [] ->
  filter60hz prof (replicate n s_zero ++ a) =
  let c := replicate n s_zero ++ conv a in Val c c.
Proof.
  intros Hz Ha. cbv zeta. rewrite filter60hz_val, conv_delays; [done..|].
  rewrite length_app. destruct a; [done|cbn; lia].
Qed.

End Delay.

(** ** In [f64] *)

(** In [f64] zero absorbs: the product of zero with a negative coefficient
    is the negative zero, and zero plus the negative zero is zero. *)
Lemma f64_zero_absorbs : zero_absorbs float.
Proof. unfold zero_absorbs. vm_compute. repeat constructor. Qed.

(** In [f64] silence is mapped to silence, whatever its length. *)
Lemma filter60hz_f64_silence prof n :
  (0 < n)%nat ->
  filter60hz (T:=float) prof (replicate n 0%float) =
  Val (replicate (n + 50) 0%float) (replicate (n + 50) 0%float).
Proof. exact (filter60hz_silence (T:=float) prof n f64_zero_absorbs). Qed.

(** C27: in [f64] the filter commutes with a delay.  For every signal that
    is not empty, whatever its samples (infinities and NaN included), the
    filter of the signal behind [n] samples of zero is the reference of the
    signal behind [n] zeros, value for value and bit for bit: the zeros
    before the signal add nothing to any sum, because the accumulator
    starts from zero and the terms are added from the first sample on. *)
Theorem filter60hz_f64_delay prof n (a : list float) :
  a <> [] ->
  filter60hz prof (replicate n 0%float ++ a) =
  let c := replicate n 0%float ++ conv a in Val c c.
Proof. exact (fun Ha => filter60hz_delays (T:=float) prof n a f64_zero_absorbs Ha). Qed.

(** The addition of [f64] is not associative: 0.1, 0.2 and 0.3. *)
Lemma f64_add_not_assoc :
  s_add (s_add (s_coeff 1000) (s_coeff 2000)) (s_coeff 3000) <>
  s_add (s_coeff 1000) (s_add (s_coeff 2000) (s_coeff 3000)) :> float.
Proof.
  intros E.
  apply (f_equal (fun z => PrimFloat.eqb z
           (s_add (s_coeff 1000) (s_add (s_coeff 2000) (s_coeff 3000))))) in E.
  vm_compute in E. discriminate.
Qed.

(** [f64] does not have the laws of exact arithmetic. *)
Lemma f64_not_lawful : ~ ScalarLaws float.
Proof. intros H. apply f64_add_not_assoc. symmetry. apply s_add_assoc. Qed.

(** In [f64] the filter is not additive, not even on whole numbers: the
    filter of the sample 6 differs at its second value from the sum of the
    filters of the samples 1 and 5. *)
Example filter60hz_f64_not_additive :
  conv (T:=float) (s_plus [1%float] [5%float]) <> s_plus (conv [1%float]) (conv [5%float]).
Proof.
  intros E.
  apply (f_equal (fun c => PrimFloat.eqb (default 0%float (c !! 1%nat))
           (default 0%float (s_plus (conv [1%float]) (conv [5%float]) !! 1%nat)))) in E.
  vm_compute in E. discriminate.
Qed.

(** The coefficients of the model are the [f64] values of the literals of
    the source. *)
Lemma filter_f64_literals : filter (T:=float) = filter_f64.
Proof. vm_compute. reflexivity. Qed.

(** In [f64] the response to the unit impulse is the table of coefficients,
    in both build profiles. *)
Example filter60hz_f64_impulse prof :
  filter60hz (T:=float) prof [1%float] = Val filter_f64 filter_f64.
Proof. destruct prof; vm_compute; reflexivity. Qed.

(** A step of two samples: the sums are rounded as the program rounds
    them. *)
Example filter60hz_f64_step :
  (fun c => take 3 c) <$> final_state (filter60hz (T:=float) Release [1%float; 1%float]) =
  Some [PrimFloat.div 56 10000; PrimFloat.add (PrimFloat.div 190 10000) (PrimFloat.div 56 10000);
        PrimFloat.add (PrimFloat.div 113 10000) (PrimFloat.div 190 10000)]%float.
Proof. vm_compute. reflexivity. Qed.

(** ** The theorems on an example *)

(** The response to a unit impulse is the table of coefficients. *)
Lemma filter60hz_impulse prof : filter60hz (T:=Z) prof [1] = Val FILTER FILTER.
Proof. destruct prof; by vm_compute. Qed.

Lemma filter60hz_conv_witness :
  filter60hz (T:=Z) Debug [1; 2; 3] = Val (conv [1; 2; 3]) (conv [1; 2; 3]).
Proof. by apply (filter60hz_conv (T:=Z) Debug [1; 2; 3]). Defined.

Lemma filter60hz_length_witness :
  exists c, filter60hz (T:=Z) Release [1; 2; 3] = Val c c /\ length c = (3 + 50)%nat.
Proof. by apply (filter60hz_length (T:=Z) Release [1; 2; 3]). Defined.

(** Three samples of zero before a signal that holds an infinity. *)
Lemma filter60hz_f64_delay_witness :
  filter60hz Release (replicate 3 0%float ++ [1%float; infinity; (-2)%float]) =
  let c := replicate 3 0%float ++ conv [1%float; infinity; (-2)%float] in Val c c.
Proof. by apply (filter60hz_f64_delay Release 3 [1%float; infinity; (-2)%float]). Defined.

(** Twice a first signal plus three times a second. *)
Lemma filter60hz_linear_witness :
  filter60hz (T:=Z) Debug (s_plus (s_scale 2 [1; 2; 3]) (s_scale 3 [4; 0; -1])) =
  let c := s_plus (s_scale 2 (conv [1; 2; 3])) (s_scale 3 (conv [4; 0; -1])) in Val c c.
Proof. by apply (filter60hz_linear (T:=Z) Debug 2 3 [1; 2; 3] [4; 0; -1]). Defined.
