(* ===== verification/Frame.v ===== *)
(** * Frame: the wire format

    The frames [parse] decodes are produced by the base station; the crate
    documents their format in the module documentation of lib.rs
    ([AncllLLTttsidddd]) and holds no encoder.  [encode] is that format as
    a function from the fields of a frame to its bytes, written from the
    documentation: the marker, the checksum of the identifier and the data,
    the length of the data plus the identifier and its complement, both
    least significant byte first, the low byte of the time, the sub-second
    counter, the sequence number, the identifier and the data.  It is the
    reference the decoder is measured against in [Parser].  [wire_bytes]
    is the same bytes with the checksum byte and the length field given
    apart: the frame itself when they are the frame's, a frame cut short
    in its data by the end of a read when the field is larger, a corrupt
    frame when the checksum byte is another. *)

From S2P Require Import Prelude Machine.

(** The fields of a frame. *)
Record Frame : Type := mkFrame {
  f_time_low : Z;
  f_subsec : Z;
  f_seqnum : Z;
  f_dtype : Z;
  f_payload : list Z;
}.

(** [c]: the sum of the identifier and the data bytes, in one byte. *)
Definition checksum (dtype : Z) (payload : list Z) : Z :=
  (dtype + Zsum payload) mod 256.

(** [ll]: the size of the data block plus the identifier. *)
Definition declared_length (f : Frame) : Z := Z.of_nat (length (f_payload f)) + 1.

(** The nine bytes between the checksum and the data. *)
Definition fields (f : Frame) : list Z :=
  u16_to_le_bytes (declared_length f)
  ++ u16_to_le_bytes (u16_not (declared_length f))
  ++ f_time_low f
  :: u16_to_le_bytes (f_subsec f)
  ++ [f_seqnum f; f_dtype f].

(** The bytes of a frame that carries [c] as its checksum byte. *)
Definition frame_bytes (c : Z) (f : Frame) : list Z :=
  0x41 :: 0x34 :: c :: fields f ++ f_payload f.

(** The bytes of a frame. *)
Definition encode (f : Frame) : list Z :=
  frame_bytes (checksum (f_dtype f) (f_payload f)) f.

(** The bytes of a frame whose checksum byte is [c] and whose length field
    holds [dl]: with a field larger than the frame's length, the bytes in
    the ring when the ring ends inside the data of a frame that declares
    more. *)
Definition wire_bytes (c dl : Z) (f : Frame) : list Z :=
  0x41 :: 0x34 :: c
  :: (u16_to_le_bytes dl
      ++ u16_to_le_bytes (u16_not dl)
      ++ f_time_low f
      :: u16_to_le_bytes (f_subsec f)
      ++ [f_seqnum f; f_dtype f])
  ++ f_payload f.

(** The frame with the first [k] bytes of its data only. *)
Definition cut_payload (k : nat) (f : Frame) : Frame :=
  mkFrame (f_time_low f) (f_subsec f) (f_seqnum f) (f_dtype f) (take k (f_payload f)).

(** The bytes of a sequence of frames. *)
Definition encode_stream (fs : list Frame) : list Z := concat (encode <$> fs).

(** The fields fit their width and the length fits sixteen bits. *)
Definition frame_wf (f : Frame) : Prop :=
  is_u8 (f_time_low f) /\ is_u16 (f_subsec f) /\ is_u8 (f_seqnum f) /\
  is_u8 (f_dtype f) /\ bytes (f_payload f) /\ is_u16 (declared_length f).

#[global] Instance frame_wf_dec f : Decision (frame_wf f).
Proof. unfold frame_wf, bytes. apply _. Defined.

#[global] Arguments checksum : simpl never.
#[global] Arguments frame_bytes : simpl never.
#[global] Arguments encode : simpl never.
#[global] Arguments wire_bytes : simpl never.
#[global] Arguments encode_stream : simpl never.

(** ** The shape of a frame *)

Lemma checksum_range d pl : is_u8 (checksum d pl).
Proof. unfold checksum. range. Qed.

Lemma length_fields f : length (fields f) = 9%nat.
Proof. unfold fields. by rewrite !u16_to_le_bytes_spec. Qed.

Lemma length_frame_bytes c f : length (frame_bytes c f) = (12 + length (f_payload f))%nat.
Proof. unfold frame_bytes. cbn [length]. rewrite length_app, length_fields. lia. Qed.

Lemma length_encode f : length (encode f) = (12 + length (f_payload f))%nat.
Proof. apply length_frame_bytes. Qed.

(** A frame is a list of bytes. *)
Lemma bytes_frame_bytes c f : is_u8 c -> frame_wf f -> bytes (frame_bytes c f).
Proof.
  intros Hc (Ht & Hs & Hq & Hd & Hp & Hl). unfold frame_bytes, fields.
  repeat first [rewrite bytes_cons | rewrite bytes_app].
  pose proof u16_to_le_bytes_bytes. by repeat split_and; try apply Forall_nil_2.
Qed.

Lemma bytes_encode f : frame_wf f -> bytes (encode f).
Proof. apply bytes_frame_bytes, checksum_range. Qed.

(** The header byte by byte: the two length fields read back as the
    declared length and its complement, the sub-second field as the
    counter. *)
Lemma frame_bytes_fields c f tail :
  frame_wf f ->
  exists l0 l1 i0 i1 s0 s1,
    frame_bytes c f ++ tail =
      0x41 :: 0x34 :: c :: l0 :: l1 :: i0 :: i1
      :: f_time_low f :: s0 :: s1 :: f_seqnum f :: f_dtype f :: f_payload f ++ tail /\
    u16_from_le_bytes l0 l1 = declared_length f /\
    u16_from_le_bytes i0 i1 = u16_not (declared_length f) /\
    u16_from_le_bytes s0 s1 = f_subsec f.
Proof.
  intros (Ht & Hs & Hq & Hd & Hp & Hl). unfold frame_bytes, fields.
  rewrite !u16_to_le_bytes_spec. do 6 eexists. split; [done|].
  by rewrite !u16_from_le_bytes_mod by auto using u16_not_range.
Qed.

(** The declared length is never zero. *)
Lemma declared_length_pos f : 1 <= declared_length f.
Proof. unfold declared_length. lia. Qed.

Lemma encode_stream_cons f fs : encode_stream (f :: fs) = encode f ++ encode_stream fs.
Proof. done. Qed.

(** ** Frames by their length field *)

(** With the frame's own length in the field the bytes are the frame. *)
Lemma wire_bytes_declared c f : wire_bytes c (declared_length f) f = frame_bytes c f.
Proof. done. Qed.

Lemma length_wire_bytes c dl f : length (wire_bytes c dl f) = (12 + length (f_payload f))%nat.
Proof.
  unfold wire_bytes. cbn [length]. rewrite !length_app, !length_u16_to_le_bytes.
  cbn [length]. rewrite length_app, length_u16_to_le_bytes. cbn [length]. lia.
Qed.

(** The header byte by byte, as [frame_bytes_fields] has it. *)
Lemma wire_bytes_fields c dl f :
  is_u16 dl -> frame_wf f ->
  exists l0 l1 i0 i1 s0 s1,
    wire_bytes c dl f =
      0x41 :: 0x34 :: c :: l0 :: l1 :: i0 :: i1
      :: f_time_low f :: s0 :: s1 :: f_seqnum f :: f_dtype f :: f_payload f /\
    u16_from_le_bytes l0 l1 = dl /\
    u16_from_le_bytes i0 i1 = u16_not dl /\
    u16_from_le_bytes s0 s1 = f_subsec f.
Proof.
  intros Hdl (Ht & Hs & Hq & Hd & Hp & Hl). unfold wire_bytes.
  rewrite !u16_to_le_bytes_spec. do 6 eexists. split; [done|].
  by rewrite !u16_from_le_bytes_mod by auto using u16_not_range.
Qed.

(** Header bytes read from a ring, with a length field that passes the
    check against its complement, are the header of [wire_bytes]. *)
Lemma wire_bytes_read c l0 l1 i0 i1 t s0 s1 q d pl :
  bytes [l0; l1; i0; i1; s0; s1] ->
  u16_from_le_bytes l0 l1 = u16_not (u16_from_le_bytes i0 i1) ->
  wire_bytes c (u16_from_le_bytes l0 l1) (mkFrame t (u16_from_le_bytes s0 s1) q d pl) =
  0x41 :: 0x34 :: c :: l0 :: l1 :: i0 :: i1 :: t :: s0 :: s1 :: q :: d :: pl.
Proof.
  intros Hb E. unfold wire_bytes. cbn [f_dtype f_payload f_time_low f_subsec f_seqnum].
  rewrite E, u16_not_involutive, <- E. rewrite !bytes_cons in Hb. destruct_and!.
  by rewrite !u16_to_from_le_bytes.
Qed.

(** ** Frames cut short *)

Lemma cut_payload_wf k f : frame_wf f -> frame_wf (cut_payload k f).
Proof.
  intros (Ht & Hs & Hq & Hd & Hp & Hl). unfold frame_wf, declared_length in *. cbn.
  split_and!; [done..|by apply bytes_take|]. pose proof (length_take_le_drop k (f_payload f)).
  rewrite length_take. range.
Qed.

(** The checksum does not see data that adds up to a multiple of 256. *)
Lemma checksum_take k d pl : Zsum (drop k pl) mod 256 = 0 -> checksum d (take k pl) = checksum d pl.
Proof.
  intros H. unfold checksum. rewrite <- (take_drop k pl) at 2. rewrite Zsum_app.
  rewrite Z.add_assoc, <- (Z.add_mod_idemp_r _ (Zsum (drop k pl))), H by lia. f_equal. lia.
Qed.

(** The checksum of the first bytes of the data is the frame's exactly
    when the data left out adds up to a multiple of 256. *)
Lemma checksum_take_iff k d pl :
  checksum d (take k pl) = checksum d pl <-> Zsum (drop k pl) mod 256 = 0.
Proof.
  split; [|apply checksum_take]. unfold checksum.
  rewrite <- (take_drop k pl) at 2. rewrite Zsum_app.
  set (a := d + Zsum (take k pl)). set (b := Zsum (drop k pl)).
  replace (d + (Zsum (take k pl) + b)) with (a + b) by (unfold a; lia). intros H.
  replace b with ((a + b) - a) by lia. by rewrite Zminus_mod, <- H, Z.sub_diag.
Qed.

Lemma cut_payload_ge k f : (length (f_payload f) <= k)%nat -> cut_payload k f = f.
Proof. intros H. destruct f. unfold cut_payload. cbn in *. by rewrite take_ge. Qed.

(** The first bytes of a frame, up to [k] bytes of data, are the bytes of
    the frame cut there, with the length field of the whole frame. *)
Lemma take_frame_bytes k c f :
  take (12 + k) (frame_bytes c f) = wire_bytes c (declared_length f) (cut_payload k f).
Proof. unfold frame_bytes, wire_bytes, fields. by rewrite !u16_to_le_bytes_spec. Qed.

(** They carry the checksum of the data that is there when the data left
    out does not change the checksum. *)
Lemma take_encode k f :
  Zsum (drop k (f_payload f)) mod 256 = 0 ->
  take (12 + k) (encode f) = wire_bytes (checksum (f_dtype f) (take k (f_payload f)))
                               (declared_length f) (cut_payload k f).
Proof. intros H. unfold encode. by rewrite take_frame_bytes, (checksum_take k _ _ H). Qed.
