(* ===== verification/DataTypes.v ===== *)
(** * DataTypes: the frame type tables of lib.rs

    One Module per enum of [src/src/lib.rs]: [DataType], [EventType],
    [FrequencyBins] and [SleepStages].  Each holds the enum [t] with the
    source's variants (the catch-all [Invalid] carries the byte), the
    [discriminant] the enum declares, the conversion [from] (the
    [From<u8>] impl, a [match] on the byte) and the rendering [fmt] (the
    [Display] impl).  [FrequencyBins] also has [hz] and the [is_*]
    predicates.

    The class [ByteTable] is what the decoder relies on: a total
    classification of a byte in which an unknown byte is kept in [Invalid].
    Its laws are proved for the four tables, and the consequences
    (injectivity, the shape of [Invalid]) once for all of them. *)

From stdpp Require Import strings pretty.
From S2P Require Import Prelude Machine.

(** ** The interface of a table *)

(** A table classifies a byte; [table_code] is the byte a known variant
    stands for. *)
Class ByteTable (T : Type) : Type := {
  table_from : Z -> T;
  table_invalid : Z -> T;
  table_known : T -> bool;
  table_code : T -> Z;
  table_from_spec b :
    if table_known (table_from b) then table_code (table_from b) = b
    else table_from b = table_invalid b;
  table_invalid_known b : table_known (table_invalid b) = false;
  table_invalid_inj : Inj (=) (=) table_invalid;
}.

(** Case analysis on a byte that a [match] on literals inspects. *)
Ltac byte_cases b :=
  let p := fresh "p" in
  destruct b as [|p|p];
  repeat first [ solve [vm_compute; reflexivity] | destruct p as [p|p|] ].

(** ** DataType (lib.rs, lines 44-146) *)

Module DataType.

Inductive t : Type :=
| Event
| SliceEnd
| Version
| Waveform
| FrequencyBins
| Sqi
| ZeoTimestamp
| Impedance
| BadSignal
| SleepStage
| Invalid (b : Z).

#[global] Instance eq_dec : EqDecision t.
Proof. solve_decision. Defined.

Definition discriminant (d : t) : Z :=
  match d with
  | Event => 0x00
  | SliceEnd => 0x02
  | Version => 0x03
  | Waveform => 0x80
  | FrequencyBins => 0x83
  | Sqi => 0x84
  | ZeoTimestamp => 0x8A
  | Impedance => 0x97
  | BadSignal => 0x9C
  | SleepStage => 0x9D
  | Invalid _ => 0xFF
  end.

Definition from (b : Z) : t :=
  match b with
  | 0x00 => Event
  | 0x02 => SliceEnd
  | 0x03 => Version
  | 0x80 => Waveform
  | 0x83 => FrequencyBins
  | 0x84 => Sqi
  | 0x8A => ZeoTimestamp
  | 0x97 => Impedance
  | 0x9C => BadSignal
  | 0x9D => SleepStage
  | _ => Invalid b
  end.

Definition fmt (d : t) : string :=
  match d with
  | Event => "Event"
  | SliceEnd => "SliceEnd"
  | Version => "Version"
  | Waveform => "Waveform"
  | FrequencyBins => "FrequencyBins"
  | Sqi => "Sqi"
  | ZeoTimestamp => "ZeoTimestamp"
  | Impedance => "Impedance"
  | BadSignal => "BadSignal"
  | SleepStage => "SleepStage"
  | Invalid b => "Invalid(" +:+ pretty b +:+ ")"
  end.

(** [matches!(d, DataType::Invalid(_))], negated. *)
Definition known (d : t) : bool :=
  match d with
  | Invalid _ => false
  | _ => true
  end.

End DataType.

(** ** EventType (lib.rs, lines 148-219) *)

Module EventType.

Inductive t : Type :=
| NightStart
| SleepOnset
| HeadbandDocked
| HeadbandUnDocked
| AlarmOff
| AlarmSnooze
| AlarmPlay
| NightEnd
| NewHeadband
| Invalid (b : Z).

#[global] Instance eq_dec : EqDecision t.
Proof. solve_decision. Defined.

Definition discriminant (e : t) : Z :=
  match e with
  | NightStart => 0x05
  | SleepOnset => 0x07
  | HeadbandDocked => 0x0E
  | HeadbandUnDocked => 0x0F
  | AlarmOff => 0x10
  | AlarmSnooze => 0x11
  | AlarmPlay => 0x13
  | NightEnd => 0x15
  | NewHeadband => 0x24
  | Invalid _ => 0xFF
  end.

Definition from (b : Z) : t :=
  match b with
  | 0x05 => NightStart
  | 0x07 => SleepOnset
  | 0x0E => HeadbandDocked
  | 0x8F => HeadbandUnDocked
  | 0x10 => AlarmOff
  | 0x11 => AlarmSnooze
  | 0x13 => AlarmPlay
  | 0x15 => NightEnd
  | 0x24 => NewHeadband
  | _ => Invalid b
  end.

Definition fmt (e : t) : string :=
  match e with
  | NightStart => "NightStart"
  | SleepOnset => "SleepOnset"
  | HeadbandDocked => "HeadbandDocked"
  | HeadbandUnDocked => "HeadbandUnDocked"
  | AlarmOff => "AlarmOff"
  | AlarmSnooze => "AlarmSnooze"
  | AlarmPlay => "AlarmPlay"
  | NightEnd => "NightEnd"
  | NewHeadband => "NewHeadband"
  | Invalid b => "Invalid(" +:+ pretty b +:+ ")"
  end.

Definition known (e : t) : bool :=
  match e with
  | Invalid _ => false
  | _ => true
  end.

(** The byte [from] maps to a variant: the left-hand sides of its arms. *)
Definition code (e : t) : Z :=
  match e with
  | HeadbandUnDocked => 0x8F
  | _ => discriminant e
  end.

End EventType.

(** ** FrequencyBins (lib.rs, lines 221-316) *)

Module FrequencyBins.

Inductive t : Type :=
| Delta
| Theta
| Alpha
| BetaMid
| BetaHigh
| BetaLow
| Gamma
| Invalid (b : Z).

#[global] Instance eq_dec : EqDecision t.
Proof. solve_decision. Defined.

Definition discriminant (f : t) : Z :=
  match f with
  | Delta => 0x00
  | Theta => 0x01
  | Alpha => 0x02
  | BetaMid => 0x03
  | BetaHigh => 0x04
  | BetaLow => 0x05
  | Gamma => 0x06
  | Invalid _ => 0xFF
  end.

(** The interval of frequencies of a bin, [(min, max)] in Hz. *)
Definition hz (f : t) : Z * Z :=
  match f with
  | Delta => (2, 4)
  | Theta => (4, 8)
  | Alpha => (8, 13)
  | BetaLow => (11, 14)
  | BetaMid => (13, 18)
  | BetaHigh => (18, 21)
  | Gamma => (30, 50)
  | Invalid _ => (0, 0)
  end.

Definition is_delta (f : t) : bool :=
  match f with Delta => true | _ => false end.

Definition is_theta (f : t) : bool :=
  match f with Theta => true | _ => false end.

Definition is_alpha (f : t) : bool :=
  match f with Alpha => true | _ => false end.

Definition is_gamma (f : t) : bool :=
  match f with Gamma => true | _ => false end.

Definition is_betta (f : t) : bool :=
  match f with BetaLow | BetaMid | BetaHigh => true | _ => false end.

Definition from (b : Z) : t :=
  match b with
  | 0x00 => Delta
  | 0x01 => Theta
  | 0x02 => Alpha
  | 0x03 => BetaMid
  | 0x04 => BetaHigh
  | 0x05 => BetaLow
  | 0x06 => Gamma
  | _ => Invalid b
  end.

Definition fmt (f : t) : string :=
  match f with
  | Delta => "Delta"
  | Theta => "Theta"
  | Alpha => "Alpha"
  | BetaMid => "BetaMid"
  | BetaHigh => "BetaHigh"
  | BetaLow => "BetaLow"
  | Gamma => "Gamma"
  | Invalid b => "Invalid(" +:+ pretty b +:+ ")"
  end.

Definition known (f : t) : bool :=
  match f with
  | Invalid _ => false
  | _ => true
  end.

End FrequencyBins.

(** ** SleepStages (lib.rs, lines 318-369) *)

Module SleepStages.

Inductive t : Type :=
| Undefined
| Awake
| Rem
| Light
| Deep
| Invalid (b : Z).

#[global] Instance eq_dec : EqDecision t.
Proof. solve_decision. Defined.

Definition discriminant (s : t) : Z :=
  match s with
  | Undefined => 0x00
  | Awake => 0x01
  | Rem => 0x02
  | Light => 0x03
  | Deep => 0x04
  | Invalid _ => 0xFF
  end.

Definition from (b : Z) : t :=
  match b with
  | 0x00 => Undefined
  | 0x01 => Awake
  | 0x02 => Rem
  | 0x03 => Light
  | 0x04 => Deep
  | _ => Invalid b
  end.

Definition fmt (s : t) : string :=
  match s with
  | Undefined => "Undefined"
  | Awake => "Awake"
  | Rem => "Rem"
  | Light => "Light"
  | Deep => "Deep"
  | Invalid b => "Invalid(" +:+ pretty b +:+ ")"
  end.

Definition known (s : t) : bool :=
  match s with
  | Invalid _ => false
  | _ => true
  end.

End SleepStages.

(** ** The four tables satisfy the interface *)

Lemma DataType_from_spec b :
  if DataType.known (DataType.from b)
  then DataType.discriminant (DataType.from b) = b
  else DataType.from b = DataType.Invalid b.
Proof. byte_cases b. Qed.

Lemma EventType_from_spec b :
  if EventType.known (EventType.from b)
  then EventType.code (EventType.from b) = b
  else EventType.from b = EventType.Invalid b.
Proof. byte_cases b. Qed.

Lemma FrequencyBins_from_spec b :
  if FrequencyBins.known (FrequencyBins.from b)
  then FrequencyBins.discriminant (FrequencyBins.from b) = b
  else FrequencyBins.from b = FrequencyBins.Invalid b.
Proof. byte_cases b. Qed.

Lemma SleepStages_from_spec b :
  if SleepStages.known (SleepStages.from b)
  then SleepStages.discriminant (SleepStages.from b) = b
  else SleepStages.from b = SleepStages.Invalid b.
Proof. byte_cases b. Qed.

#[global] Program Instance DataType_table : ByteTable DataType.t := {|
  table_from := DataType.from;
  table_invalid := DataType.Invalid;
  table_known := DataType.known;
  table_code := DataType.discriminant;
  table_from_spec := DataType_from_spec;
|}.
Next Obligation. done. Qed.
Next Obligation. by intros ?? [=]. Qed.

#[global] Program Instance EventType_table : ByteTable EventType.t := {|
  table_from := EventType.from;
  table_invalid := EventType.Invalid;
  table_known := EventType.known;
  table_code := EventType.code;
  table_from_spec := EventType_from_spec;
|}.
Next Obligation. done. Qed.
Next Obligation. by intros ?? [=]. Qed.

#[global] Program Instance FrequencyBins_table : ByteTable FrequencyBins.t := {|
  table_from := FrequencyBins.from;
  table_invalid := FrequencyBins.Invalid;
  table_known := FrequencyBins.known;
  table_code := FrequencyBins.discriminant;
  table_from_spec := FrequencyBins_from_spec;
|}.
Next Obligation. done. Qed.
Next Obligation. by intros ?? [=]. Qed.

#[global] Program Instance SleepStages_table : ByteTable SleepStages.t := {|
  table_from := SleepStages.from;
  table_invalid := SleepStages.Invalid;
  table_known := SleepStages.known;
  table_code := SleepStages.discriminant;
  table_from_spec := SleepStages_from_spec;
|}.
Next Obligation. done. Qed.
Next Obligation. by intros ?? [=]. Qed.

(** ** Consequences of the interface, for every table *)

Section TableLaws.
Context `{ByteTable T}.

(** A byte classified as unknown is the byte [Invalid] carries. *)
Lemma table_from_invalid b b' :
  table_from b = table_invalid b' -> b' = b.
Proof.
  intros E. pose proof (table_from_spec b) as Hs.
  rewrite E, table_invalid_known in Hs. by apply table_invalid_inj.
Qed.

(** A known variant is the image of its code only. *)
Lemma table_from_known b :
  table_known (table_from b) = true -> table_code (table_from b) = b.
Proof. intros E. pose proof (table_from_spec b) as Hs. by rewrite E in Hs. Qed.

(** Classification loses nothing: two bytes with the same class are equal. *)
Lemma table_from_inj : Inj (=) (=) table_from.
Proof.
  intros a b E. pose proof (table_from_spec a) as Ha.
  pose proof (table_from_spec b) as Hb. rewrite <- E in Hb.
  destruct (table_known (table_from a)); [congruence|].
  rewrite Ha in Hb. by apply table_invalid_inj.
Qed.

End TableLaws.

(** ** DataType *)

(** The conversion of a byte to a [DataType] reads back the
    discriminant of every declared type. *)
Lemma DataType_from_discriminant d :
  DataType.known d = true -> DataType.from (DataType.discriminant d) = d.
Proof. by destruct d. Qed.

(** The bytes that [DataType::from] classifies as a declared type
    are the ten declared discriminants; every other byte is [Invalid]. *)
Lemma DataType_known_codes b :
  DataType.known (DataType.from b) = true <->
  b ∈ [0x00; 0x02; 0x03; 0x80; 0x83; 0x84; 0x8A; 0x97; 0x9C; 0x9D].
Proof.
  split.
  - intros E. pose proof (DataType_from_spec b) as Hs. rewrite E in Hs.
    destruct (DataType.from b); try done; cbn in Hs; subst b; set_solver.
  - rewrite !elem_of_cons, elem_of_nil. intros H.
    repeat destruct H as [->|H]; done.
Qed.

(** A declared discriminant is a byte. *)
Lemma DataType_discriminant_u8 d : is_u8 (DataType.discriminant d).
Proof. destruct d; cbn; range. Qed.

(** ** EventType *)

(** C40: the conversion of a byte to an [EventType] reads back the
    discriminant of every declared event but one: the declared discriminant
    [0x0F] of [HeadbandUnDocked] is not the byte [0x8F] that the conversion
    maps to it. *)
Theorem EventType_from_discriminant e :
  EventType.known e = true ->
  EventType.from (EventType.discriminant e) = e <-> e <> EventType.HeadbandUnDocked.
Proof. destruct e; intros; split; done. Qed.

Lemma EventType_HeadbandUnDocked :
  EventType.from 0x0F = EventType.Invalid 0x0F /\
  EventType.from 0x8F = EventType.HeadbandUnDocked.
Proof. done. Qed.

(** ** FrequencyBins *)

Lemma FrequencyBins_from_discriminant f :
  FrequencyBins.known f = true ->
  FrequencyBins.from (FrequencyBins.discriminant f) = f.
Proof. by destruct f. Qed.

(** An interval is ordered and lies within 0..50 Hz. *)
Lemma FrequencyBins_hz_ordered f :
  0 <= (FrequencyBins.hz f).1 <= (FrequencyBins.hz f).2 /\ (FrequencyBins.hz f).2 <= 50.
Proof. destruct f; cbn; lia. Qed.

(** The frequency interval of a bin is [(0, 0)] exactly when the
    byte is not a declared bin. *)
Lemma FrequencyBins_hz_invalid b :
  FrequencyBins.hz (FrequencyBins.from b) = (0, 0) <->
  FrequencyBins.known (FrequencyBins.from b) = false.
Proof. destruct (FrequencyBins.from b); cbn; split; done. Qed.

(** The five predicates partition the known bins. *)
Lemma FrequencyBins_predicates f :
  FrequencyBins.known f =
  FrequencyBins.is_delta f || FrequencyBins.is_theta f || FrequencyBins.is_alpha f
  || FrequencyBins.is_betta f || FrequencyBins.is_gamma f.
Proof. by destruct f. Qed.

Lemma FrequencyBins_predicates_disjoint f :
  (Nat.b2n (FrequencyBins.is_delta f) + Nat.b2n (FrequencyBins.is_theta f)
   + Nat.b2n (FrequencyBins.is_alpha f) + Nat.b2n (FrequencyBins.is_betta f)
   + Nat.b2n (FrequencyBins.is_gamma f) <= 1)%nat.
Proof. destruct f; cbn; lia. Qed.

(** The beta bins are the ones between 11 and 21 Hz. *)
Lemma FrequencyBins_is_betta_hz f :
  FrequencyBins.is_betta f = true <->
  11 <= (FrequencyBins.hz f).1 /\ (FrequencyBins.hz f).2 <= 21.
Proof. destruct f; cbn; split; (done || lia). Qed.

(** ** Display *)

(** Appending one character is injective. *)
Lemma string_snoc_inj c (s1 s2 : string) :
  s1 +:+ String c EmptyString = s2 +:+ String c EmptyString -> s1 = s2.
Proof.
  revert s2. induction s1 as [|a s1 IH]; intros [|b s2] E; cbn in E.
  - done.
  - injection E as -> E. by destruct s2.
  - injection E as -> E. by destruct s1.
  - injection E as -> E. f_equal. by apply IH.
Qed.

(** The rendering of [Invalid]: a prefix, the decimal number, a suffix. *)
Lemma invalid_fmt_inj (a b : Z) :
  "Invalid(" +:+ pretty a +:+ ")" = "Invalid(" +:+ pretty b +:+ ")" -> a = b.
Proof.
  intros E. apply (inj (String.app "Invalid(")) in E.
  apply string_snoc_inj in E. by apply (inj pretty) in E.
Qed.

(** [Display] on [DataType] is injective: two types that print the
    same are the same, the byte of [Invalid] included. *)
Lemma DataType_fmt_inj : Inj (=) (=) DataType.fmt.
Proof.
  intros d1 d2 E.
  destruct d1, d2; try done; cbn in E; try discriminate.
  f_equal. by apply invalid_fmt_inj.
Qed.

(** [DataType::from] loses nothing: two bytes with the same class are
    the same byte, since a declared type has one discriminant and [Invalid]
    carries the byte. *)
Lemma DataType_from_inj : Inj (=) (=) DataType.from.
Proof. exact (table_from_inj (T := DataType.t)). Qed.

(** ** The four tables *)

(** C39: classification loses nothing, in each of the four tables: two
    bytes with the same class are the same byte, since a declared variant
    is the class of one byte and [Invalid] carries the byte it stands
    for. *)
Theorem tables_from_inj :
  Inj (=) (=) DataType.from /\ Inj (=) (=) EventType.from /\
  Inj (=) (=) FrequencyBins.from /\ Inj (=) (=) SleepStages.from.
Proof.
  split_and!;
    [exact (table_from_inj (T := DataType.t)) | exact (table_from_inj (T := EventType.t))
    |exact (table_from_inj (T := FrequencyBins.t)) | exact (table_from_inj (T := SleepStages.t))].
Qed.

(** The five band predicates partition the declared frequency bins:
    exactly one of [is_delta], [is_theta], [is_alpha], [is_betta] and
    [is_gamma] holds of a declared bin, and none holds of [Invalid]. *)
Lemma FrequencyBins_partition f :
  (Nat.b2n (FrequencyBins.is_delta f) + Nat.b2n (FrequencyBins.is_theta f)
   + Nat.b2n (FrequencyBins.is_alpha f) + Nat.b2n (FrequencyBins.is_betta f)
   + Nat.b2n (FrequencyBins.is_gamma f))%nat = Nat.b2n (FrequencyBins.known f).
Proof. by destruct f. Qed.

(** The conversion of a byte to a [SleepStages] reads back the
    discriminant of every declared stage. *)
Lemma SleepStages_roundtrip s :
  SleepStages.known s = true -> SleepStages.from (SleepStages.discriminant s) = s.
Proof. by destruct s. Qed.

(** ** The theorems on examples *)

Lemma SleepStages_roundtrip_witness :
  SleepStages.from (SleepStages.discriminant SleepStages.Deep) = SleepStages.Deep.
Proof. by apply SleepStages_roundtrip. Defined.

Lemma DataType_from_discriminant_witness :
  DataType.from (DataType.discriminant DataType.ZeoTimestamp) = DataType.ZeoTimestamp.
Proof. by apply DataType_from_discriminant. Defined.

Lemma EventType_from_discriminant_witness :
  EventType.from (EventType.discriminant EventType.AlarmOff) = EventType.AlarmOff <->
  EventType.AlarmOff <> EventType.HeadbandUnDocked.
Proof. by apply EventType_from_discriminant. Defined.
