(* ===== verification/Ring.v ===== *)
(** * Ring: the byte reservoir

    [parse] and [main] keep the bytes not yet decoded in a
    [CircularBuffer<LEN, u8>] of the crate circular_buffer.  The crate is
    not part of the sources, so the buffer is modelled from its documented
    behaviour: an ordered sequence of at most [LEN] elements, front first,
    in which [push_back] and [extend_from_slice] on a full buffer drop
    elements at the front and [push_front] on a full buffer drops the
    element at the back.  The contents are a list; [wf LEN r] is the
    capacity invariant and [ring_wf LEN r] says in addition that the
    elements are bytes. *)

From S2P Require Import Prelude Machine.

Module CircularBuffer.

(** The contents, front first. *)
Definition t : Type := list Z.

(** [CircularBuffer::new()] *)
Definition new : t := [].

(** [ring.len()] *)
Definition len (r : t) : nat := length r.

(** [ring.iter()] *)
Definition iter (r : t) : list Z := r.

(** [ring.pop_front()] *)
Definition pop_front (r : t) : option (Z * t) :=
  match r with
  | [] => None
  | b :: r' => Some (b, r')
  end.

(** [ring.push_front(b)]: a full buffer loses its back element. *)
Definition push_front (LEN : nat) (b : Z) (r : t) : t := take LEN (b :: r).

(** [ring.push_back(b)]: a full buffer loses its front element. *)
Definition push_back (LEN : nat) (b : Z) (r : t) : t :=
  drop (length (r ++ [b]) - LEN) (r ++ [b]).

(** [ring.extend_from_slice(bs)]: what does not fit is dropped at the front. *)
Definition extend_from_slice (LEN : nat) (bs : list Z) (r : t) : t :=
  drop (length (r ++ bs) - LEN) (r ++ bs).

(** The capacity invariant. *)
Definition wf (LEN : nat) (r : t) : Prop := (length r <= LEN)%nat.

#[global] Instance wf_dec LEN r : Decision (wf LEN r).
Proof. unfold wf. apply _. Defined.

End CircularBuffer.

Import CircularBuffer.

(** A [CircularBuffer<LEN, u8>]: within its capacity, and of bytes. *)
Definition ring_wf (LEN : nat) (r : t) : Prop := wf LEN r /\ bytes r.

#[global] Instance ring_wf_dec LEN r : Decision (ring_wf LEN r).
Proof. unfold ring_wf, bytes. apply _. Defined.

(** ** The capacity invariant *)

Section Capacity.
Variable LEN : nat.
Implicit Types (r : t) (b : Z).

Lemma wf_new : wf LEN new.
Proof. unfold wf, new. cbn. lia. Qed.

Lemma wf_pop_front r b r' : wf LEN r -> pop_front r = Some (b, r') -> wf LEN r'.
Proof. unfold wf. destruct r; intros Hw [= <- <-]. cbn in Hw. lia. Qed.

Lemma wf_push_front b r : wf LEN (push_front LEN b r).
Proof. unfold wf, push_front. rewrite length_take. lia. Qed.

Lemma wf_push_back b r : wf LEN r -> wf LEN (push_back LEN b r).
Proof.
  unfold wf, push_back. rewrite length_drop, length_app. cbn. lia.
Qed.

Lemma wf_extend_from_slice bs r : wf LEN (extend_from_slice LEN bs r).
Proof. unfold wf, extend_from_slice. rewrite length_drop. lia. Qed.

(** ** Behaviour when there is room *)

Lemma push_front_room b r : (length r < LEN)%nat -> push_front LEN b r = b :: r.
Proof. intros H. unfold push_front. apply take_ge. cbn. lia. Qed.

Lemma push_back_room b r : (length r < LEN)%nat -> push_back LEN b r = r ++ [b].
Proof.
  intros H. unfold push_back. rewrite length_app. cbn.
  replace (length r + 1 - LEN)%nat with 0%nat by lia. done.
Qed.

Lemma extend_from_slice_room bs r :
  (length r + length bs <= LEN)%nat -> extend_from_slice LEN bs r = r ++ bs.
Proof.
  intros H. unfold extend_from_slice. rewrite length_app.
  replace (length r + length bs - LEN)%nat with 0%nat by lia. done.
Qed.

(** A slice as long as the buffer replaces its contents. *)
Lemma extend_from_slice_full bs r :
  length bs = LEN -> extend_from_slice LEN bs r = bs.
Proof.
  intros H. unfold extend_from_slice. rewrite length_app, H.
  replace (length r + LEN - LEN)%nat with (length r) by lia. by rewrite drop_app_length.
Qed.

(** A full buffer: [push_front] overwrites the back element. *)
Lemma push_front_full b r :
  (0 < LEN)%nat -> length r = LEN -> push_front LEN b r = b :: take (LEN - 1) r.
Proof.
  intros H0 H. unfold push_front. destruct LEN as [|n]; [lia|].
  cbn. by rewrite Nat.sub_0_r.
Qed.

(** ** Round trips *)

(** What [push_front] puts in a buffer with room is what [pop_front] takes. *)
Lemma pop_push_front b r :
  (length r < LEN)%nat -> pop_front (push_front LEN b r) = Some (b, r).
Proof. intros H. by rewrite push_front_room. Qed.

(** Pushing back what was popped restores the buffer. *)
Lemma push_pop_front b r r' :
  wf LEN r -> pop_front r = Some (b, r') -> push_front LEN b r' = r.
Proof.
  unfold wf. destruct r; intros Hw [= <- <-]. apply push_front_room.
  cbn in Hw. lia.
Qed.

(** ** [extend_from_slice] against [push_back] *)

(** Extending by a slice is pushing its elements one by one. *)
Lemma extend_from_slice_push_back bs r :
  wf LEN r -> extend_from_slice LEN bs r = foldl (fun r b => push_back LEN b r) r bs.
Proof.
  revert r. induction bs as [|b bs IH]; intros r Hw.
  - unfold extend_from_slice. rewrite app_nil_r.
    unfold wf in Hw. replace (length r - LEN)%nat with 0%nat by lia. done.
  - cbn [foldl]. rewrite <- IH by by apply wf_push_back.
    unfold extend_from_slice, push_back. unfold wf in Hw.
    rewrite <- drop_app_le by (rewrite length_app; cbn; lia).
    rewrite drop_drop, <- app_assoc. cbn [app]. f_equal.
    rewrite !length_drop, !length_app. cbn [length]. lia.
Qed.

(** The buffer after an extension holds the last [LEN] bytes of the old
    contents followed by the slice. *)
Lemma extend_from_slice_suffix bs r :
  extend_from_slice LEN bs r `suffix_of` r ++ bs.
Proof. apply suffix_drop. Qed.

(** ** Bytes stay bytes *)

Lemma bytes_pop_front r b r' :
  bytes r -> pop_front r = Some (b, r') -> is_u8 b /\ bytes r'.
Proof. destruct r; intros Hb [= <- <-]. by apply bytes_cons. Qed.

Lemma bytes_push_front b r : is_u8 b -> bytes r -> bytes (push_front LEN b r).
Proof. intros Hb Hr. apply bytes_take. by apply bytes_cons. Qed.

Lemma bytes_extend_from_slice bs r :
  bytes bs -> bytes r -> bytes (extend_from_slice LEN bs r).
Proof. intros Hb Hr. apply bytes_drop. by apply bytes_app. Qed.

(** ** A buffer of bytes stays one *)

Lemma ring_wf_suffix r r' : r' `suffix_of` r -> ring_wf LEN r -> ring_wf LEN r'.
Proof.
  intros Hs [Hw Hb]. split.
  - apply suffix_length in Hs. unfold wf in *. lia.
  - destruct Hs as [k ->]. by apply bytes_app in Hb as [_ Hb].
Qed.

Lemma ring_wf_push_front b r : is_u8 b -> ring_wf LEN r -> ring_wf LEN (push_front LEN b r).
Proof. intros Hb [Hw Hr]. split; [apply wf_push_front | by apply bytes_push_front]. Qed.

Lemma ring_wf_extend_from_slice bs r :
  bytes bs -> ring_wf LEN r -> ring_wf LEN (extend_from_slice LEN bs r).
Proof.
  intros Hb [Hw Hr]. split; [apply wf_extend_from_slice | by apply bytes_extend_from_slice].
Qed.

End Capacity.

#[export] Hint Resolve wf_new wf_push_front wf_push_back wf_extend_from_slice : zeo.
