(* ===== verification/Sync.v ===== *)
(** * Sync: the marker scan of [parse]

    The ['inner] loop of [parse] (main.rs, lines 148-157) slides a window
    of two bytes over the ring, one [pop_front] at a time, until the window
    is the marker [b"A4"], and panics on the [unwrap] when the ring is
    exhausted first.  [find_marker] is that loop on the ring's contents:
    [Some rest] is the ring when the loop breaks, [None] the panic.

    The specification is positional: [marker_at r i] says that the marker
    stands at index [i] of [r], and [first_marker] computes the first such
    index.  The theorems show that the loop stops right after the first
    occurrence, whatever precedes it, and fails exactly when there is
    none. *)

From S2P Require Import Prelude Machine.

(** The marker, [b"A4"]. *)
Definition MARKER : Z * Z := (0x41, 0x34).

(** The loop: [start.swap(0, 1); start[1] = ring.pop_front().unwrap();
    if &start == b"A4" { break }]. *)
Fixpoint find_marker (start : Z * Z) (ring : list Z) : option (list Z) :=
  match ring with
  | [] => None
  | b :: ring' =>
      let swapped := (start.2, start.1) in
      let start' := (swapped.1, b) in
      if bool_decide (start' = MARKER) then Some ring'
      else find_marker start' ring'
  end.

(** The marker stands at index [i]. *)
Definition marker_at (r : list Z) (i : nat) : Prop :=
  r !! i = Some 0x41 /\ r !! S i = Some 0x34.

#[global] Instance marker_at_dec r i : Decision (marker_at r i).
Proof. unfold marker_at. apply _. Defined.

(** The index of the first occurrence of the marker. *)
Fixpoint first_marker (r : list Z) : option nat :=
  match r with
  | [] => None
  | a :: r' =>
      match r' with
      | [] => None
      | b :: _ =>
          if bool_decide ((a, b) = MARKER) then Some 0%nat
          else S <$> first_marker r'
      end
  end.

(** ** [marker_at] on a longer list *)

Lemma marker_at_cons a r i : marker_at (a :: r) (S i) <-> marker_at r i.
Proof. done. Qed.

Lemma marker_at_head a b r : marker_at (a :: b :: r) 0 <-> (a, b) = MARKER.
Proof. unfold marker_at, MARKER. cbn. naive_solver. Qed.

Lemma marker_at_lt r i : marker_at r i -> (S i < length r)%nat.
Proof. intros [_ H]. by apply lookup_lt_Some in H. Qed.

(** ** [first_marker] is the first occurrence *)

Lemma first_marker_cons a b r :
  first_marker (a :: b :: r) =
  if bool_decide ((a, b) = MARKER) then Some 0%nat else S <$> first_marker (b :: r).
Proof. done. Qed.

Lemma first_marker_Some r k :
  first_marker r = Some k <->
  marker_at r k /\ forall j, (j < k)%nat -> ~ marker_at r j.
Proof.
  revert k. induction r as [|a r IH]; intros k.
  { split; [done|]. by intros [[? _] _]. }
  destruct r as [|b r].
  { split; [done|]. by intros [[_ ?] _]. }
  rewrite first_marker_cons. case_bool_decide as Hm.
  - split.
    + intros [= <-]. split; [by apply marker_at_head | lia].
    + intros [_ Hfirst]. destruct k as [|k]; [done|].
      destruct (Hfirst 0%nat); [lia | by apply marker_at_head].
  - destruct k as [|k].
    + split; [by destruct (first_marker (b :: r))|].
      intros [Hk _]. by apply marker_at_head in Hk.
    + rewrite marker_at_cons. etrans; [|etrans].
      * instantiate (1 := first_marker (b :: r) = Some k).
        destruct (first_marker (b :: r)); cbn; split; congruence.
      * apply IH.
      * split; intros [Hk Hfirst]; (split; [done|]).
        -- intros [|j] Hj; [by rewrite marker_at_head|].
           rewrite marker_at_cons. apply Hfirst. lia.
        -- intros j Hj. rewrite <- (marker_at_cons a). apply Hfirst. lia.
Qed.

Lemma first_marker_None r : first_marker r = None <-> forall j, ~ marker_at r j.
Proof.
  induction r as [|a r IH]; [by split; [intros _ j [? _]|]|].
  destruct r as [|b r]; [by split; [intros _ j [_ ?]|]|].
  rewrite first_marker_cons. case_bool_decide as Hm.
  - split; [done|]. intros Hno. destruct (Hno 0%nat). by apply marker_at_head.
  - etrans; [|etrans; [apply IH|]].
    + destruct (first_marker (b :: r)); cbn; split; congruence.
    + split; intros Hno j.
      * destruct j as [|j]; [by rewrite marker_at_head|].
        rewrite marker_at_cons. apply Hno.
      * rewrite <- (marker_at_cons a). apply Hno.
Qed.

Lemma first_marker_lt r k : first_marker r = Some k -> (S k < length r)%nat.
Proof. intros [H _]%first_marker_Some. by apply marker_at_lt. Qed.

(** The marker right after a prefix without one: the prefix is followed by
    the byte [A] so that a marker straddling the boundary is excluded. *)
Lemma first_marker_app pre rest :
  first_marker (pre ++ [0x41]) = None ->
  first_marker (pre ++ 0x41 :: 0x34 :: rest) = Some (length pre).
Proof.
  intros Hn. apply first_marker_Some. split.
  - split; [by rewrite list_lookup_middle | ].
    rewrite lookup_app_r by lia.
    by replace (S (length pre) - length pre)%nat with 1%nat by lia.
  - intros j Hj [H1 H2]. eapply (proj1 (first_marker_None _) Hn j). split.
    + rewrite lookup_app_l in H1 by lia. by rewrite lookup_app_l by lia.
    + destruct (decide (S j = length pre)) as [E|].
      * by rewrite E, list_lookup_middle in H2.
      * rewrite lookup_app_l in H2 by lia. by rewrite lookup_app_l by lia.
Qed.

(** ** The loop against the specification *)

(** From any window: the loop finds the first marker of the ring preceded
    by the window's last byte. *)
Lemma find_marker_first_gen s0 s1 r :
  find_marker (s0, s1) r = (fun k => drop (S k) r) <$> first_marker (s1 :: r).
Proof.
  revert s0 s1. induction r as [|b r IH]; intros s0 s1; [done|].
  rewrite first_marker_cons. cbn [find_marker fst snd]. case_bool_decide; [done|].
  rewrite IH. by destruct (first_marker (b :: r)).
Qed.

(** From the initial window [[0, 0]]: the loop returns what follows the
    first marker of the ring. *)
Lemma find_marker_first r :
  find_marker (0, 0) r = (fun k => drop (k + 2) r) <$> first_marker r.
Proof.
  rewrite find_marker_first_gen. destruct r as [|b r]; [done|].
  rewrite first_marker_cons, bool_decide_eq_false_2 by done.
  destruct (first_marker (b :: r)) as [k|]; [|done].
  cbn. by rewrite Nat.add_comm.
Qed.

(** C13: the marker scan stops right after the first occurrence of the
    marker: it returns [rest] exactly when the marker stands at some index
    [k], at no earlier index, and [rest] is what follows it. *)
Theorem find_marker_spec r rest :
  find_marker (0, 0) r = Some rest <->
  exists k, marker_at r k /\ (forall j, (j < k)%nat -> ~ marker_at r j) /\
            rest = drop (k + 2) r.
Proof.
  rewrite find_marker_first. split.
  - destruct (first_marker r) as [k|] eqn:E; [|done]. intros [= <-].
    apply first_marker_Some in E. naive_solver.
  - intros (k & Hk & Hfirst & ->).
    by rewrite (proj2 (first_marker_Some r k)).
Qed.

(** The marker scan exhausts the ring, and the [unwrap] panics, exactly
    when the ring holds no marker. *)
Lemma find_marker_None r :
  find_marker (0, 0) r = None <-> forall j, ~ marker_at r j.
Proof.
  rewrite find_marker_first, <- first_marker_None.
  by destruct (first_marker r).
Qed.

(** The scan skips a prefix without marker and the marker. *)
Lemma find_marker_app pre rest :
  first_marker (pre ++ [0x41]) = None ->
  find_marker (0, 0) (pre ++ 0x41 :: 0x34 :: rest) = Some rest.
Proof.
  intros Hn. rewrite find_marker_first, first_marker_app by done. cbn.
  f_equal. by rewrite <- drop_drop, drop_app_length.
Qed.

(** A scan that succeeds stopped after the first marker. *)
Lemma find_marker_Some_inv r rest :
  find_marker (0, 0) r = Some rest ->
  exists k, first_marker r = Some k /\ rest = drop (k + 2) r.
Proof.
  rewrite find_marker_first. destruct (first_marker r) as [k|]; [|done].
  intros [= <-]. by exists k.
Qed.

(** What the scan leaves is a suffix of the ring, shorter by two at least. *)
Lemma find_marker_suffix r rest :
  find_marker (0, 0) r = Some rest -> rest `suffix_of` r.
Proof. intros (k & _ & ->)%find_marker_Some_inv. apply suffix_drop. Qed.

Lemma find_marker_length r rest :
  find_marker (0, 0) r = Some rest -> (length rest + 2 <= length r)%nat.
Proof.
  intros (k & Hk%first_marker_lt & ->)%find_marker_Some_inv.
  rewrite length_drop. lia.
Qed.

Lemma find_marker_bytes r rest :
  find_marker (0, 0) r = Some rest -> bytes r -> bytes rest.
Proof. intros (k & _ & ->)%find_marker_Some_inv. apply bytes_drop. Qed.

(** A scan that succeeds splits the ring at the marker. *)
Lemma find_marker_split r rest :
  find_marker (0, 0) r = Some rest ->
  exists pre, r = pre ++ 0x41 :: 0x34 :: rest /\ first_marker (pre ++ [0x41]) = None.
Proof.
  intros (k & [[H1 H2] Hfirst]%first_marker_Some & ->)%find_marker_Some_inv.
  exists (take k r). split.
  - rewrite <- (take_drop k r) at 1. f_equal.
    rewrite (drop_S _ _ _ H1), (drop_S _ _ _ H2). do 3 f_equal. lia.
  - rewrite <- (take_S_r _ _ _ H1). apply first_marker_None. intros j [Hj1 Hj2].
    apply lookup_take_Some in Hj1 as [Hj1 ?], Hj2 as [Hj2 ?].
    apply (Hfirst j); [lia|done].
Qed.
