(* ===== verification/Timestamp.v ===== *)
(** * Timestamp: the clock code of [parse]

    A frame of type [ZeoTimestamp] carries the absolute time of the base in
    its first four payload bytes, and a frame of type [Version] the protocol
    version, in the same encoding (main.rs, lines 267-304).  [take_u32] is
    the extraction of that value from the payload: three
    [pop_front().unwrap()] and one [pop_front().unwrap_or(0)].  [reconcile]
    is the four-way comparison of the absolute time with the time-low byte
    [tt_lb] of the frame's header, which chooses [zeo_time_full] among the
    absolute time, its predecessor and its successor. *)

From S2P Require Import Prelude Machine.

(** The branch of the reconciliation that was taken (the four [tt CHECK]
    lines the code prints). *)
Inductive TtCheck : Type := CheckA | CheckB | CheckC | CheckD.

#[global] Instance TtCheck_eq_dec : EqDecision TtCheck.
Proof. solve_decision. Defined.

(** [u32::from_le_bytes([d.pop_front().unwrap(), d.pop_front().unwrap(),
    d.pop_front().unwrap(), d.pop_front().unwrap_or(0)])]: the value and
    what is left of the payload, or [None] when an [unwrap] panics. *)
Definition take_u32 (datavec : list Z) : option (Z * list Z) :=
  match datavec with
  | b0 :: b1 :: b2 :: rest =>
      match rest with
      | b3 :: rest' => Some (u32_from_le_bytes b0 b1 b2 b3, rest')
      | [] => Some (u32_from_le_bytes b0 b1 b2 0, [])
      end
  | _ => None
  end.

(** The full timestamp from the absolute time and the time-low byte. *)
Definition reconcile (zeo_time tt_lb : Z) : Z * TtCheck :=
  if Z.land zeo_time 0xFF =? tt_lb then
    (zeo_time, CheckA)
  else if Z.land (u32_saturating_sub zeo_time 1) 0xFF =? tt_lb then
    (u32_saturating_sub zeo_time 1, CheckB)
  else if Z.land (u32_saturating_add zeo_time 1) 0xFF =? tt_lb then
    (u32_saturating_add zeo_time 1, CheckC)
  else
    (zeo_time, CheckD).

(** ** [take_u32] *)

(** The extraction panics exactly on a payload of fewer than three bytes. *)
Lemma take_u32_None datavec :
  take_u32 datavec = None <-> (length datavec < 3)%nat.
Proof.
  destruct datavec as [|b0 [|b1 [|b2 [|b3 rest]]]]; cbn; split; (done || lia).
Qed.

(** It takes four bytes when there are four. *)
Lemma take_u32_four b0 b1 b2 b3 rest :
  take_u32 (b0 :: b1 :: b2 :: b3 :: rest) = Some (u32_from_le_bytes b0 b1 b2 b3, rest).
Proof. done. Qed.

(** What it leaves is the payload without its first four bytes. *)
Lemma take_u32_rest datavec v rest :
  take_u32 datavec = Some (v, rest) -> rest = drop 4 datavec.
Proof.
  destruct datavec as [|b0 [|b1 [|b2 [|b3 rest']]]]; cbn; try done;
    by intros [= <- <-].
Qed.

Lemma take_u32_range datavec v rest :
  bytes datavec -> take_u32 datavec = Some (v, rest) -> is_u32 v /\ bytes rest.
Proof.
  destruct datavec as [|b0 [|b1 [|b2 [|b3 rest']]]]; cbn; try done;
    rewrite !bytes_cons; intros Hb [= <- <-]; destruct_and?;
    (split; [apply u32_from_le_bytes_range|]); (done || range).
Qed.

(** Round trip: the four bytes of a [u32] are read back as that value. *)
Lemma take_u32_to_le_bytes v rest :
  is_u32 v -> take_u32 (u32_to_le_bytes v ++ rest) = Some (v, rest).
Proof.
  intros Hv. pose proof (length_u32_to_le_bytes v) as Hl.
  destruct (u32_to_le_bytes v) as [|b0 [|b1 [|b2 [|b3 [|]]]]] eqn:E; try done.
  cbn. by rewrite (u32_from_to_le_bytes v).
Qed.

(** ** [reconcile] *)

Section Reconcile.
Variables zeo_time tt_lb : Z.
Hypothesis Htime : is_u32 zeo_time.

(** The full timestamp is a [u32]. *)
Lemma reconcile_range : is_u32 (reconcile zeo_time tt_lb).1.
Proof.
  unfold reconcile. repeat case_match; cbn;
    auto using u32_saturating_sub_range, u32_saturating_add_range with lia.
Qed.

(** The full timestamp that [reconcile] chooses is within one
    second of the absolute time of the frame. *)
Lemma reconcile_near :
  zeo_time - 1 <= (reconcile zeo_time tt_lb).1 <= zeo_time + 1.
Proof.
  unfold reconcile, u32_saturating_sub, u32_saturating_add.
  repeat case_match; cbn; range.
Qed.

(** In the three branches that match, the low byte of the full
    timestamp is the time-low byte of the frame. *)
Lemma reconcile_low_byte :
  (reconcile zeo_time tt_lb).2 <> CheckD ->
  Z.land (reconcile zeo_time tt_lb).1 0xFF = tt_lb.
Proof. unfold reconcile. repeat case_match; cbn; (done || lia). Qed.

(** The last branch is taken exactly when none of the three candidates has
    the frame's low byte, and it keeps the absolute time. *)
Lemma reconcile_CheckD :
  (reconcile zeo_time tt_lb).2 = CheckD <->
  Z.land zeo_time 0xFF <> tt_lb /\
  Z.land (u32_saturating_sub zeo_time 1) 0xFF <> tt_lb /\
  Z.land (u32_saturating_add zeo_time 1) 0xFF <> tt_lb.
Proof. unfold reconcile. repeat case_match; cbn; split; (done || lia). Qed.

Lemma reconcile_CheckD_time :
  (reconcile zeo_time tt_lb).2 = CheckD -> (reconcile zeo_time tt_lb).1 = zeo_time.
Proof. unfold reconcile. by repeat case_match. Qed.

(** C17: [reconcile] is complete: a time within one second of the
    absolute time whose low byte is the time-low byte of the frame is the
    time it chooses. *)
Theorem reconcile_complete t :
  is_u32 t -> zeo_time - 1 <= t <= zeo_time + 1 -> t mod 256 = tt_lb ->
  (reconcile zeo_time tt_lb).1 = t.
Proof.
  intros Ht Hnear Hlow.
  unfold reconcile, u32_saturating_sub, u32_saturating_add.
  rewrite !land_255. repeat case_match; cbn; range.
Qed.

End Reconcile.

(** The two cases of the specification's example: an absolute time
    [0x1003] with the low byte [0x03] is kept, with [0x04] it is advanced by
    one second. *)
Lemma reconcile_example :
  reconcile 0x1003 0x03 = (0x1003, CheckA) /\ reconcile 0x1003 0x04 = (0x1004, CheckC).
Proof. done. Qed.

(** ** The theorems on the example *)

Lemma reconcile_near_witness : 0x1003 - 1 <= (reconcile 0x1003 0x04).1 <= 0x1003 + 1.
Proof. apply (reconcile_near 0x1003 0x04). by_compute. Defined.

Lemma reconcile_low_byte_witness : Z.land (reconcile 0x1003 0x02).1 0xFF = 0x02.
Proof. apply (reconcile_low_byte 0x1003 0x02); by_compute. Defined.

Lemma reconcile_complete_witness : (reconcile 0x1003 0x04).1 = 0x1004.
Proof. apply (reconcile_complete 0x1003 0x04); by_compute. Defined.
