(* ===== verification/ParserSpec.v ===== *)
(** * ParserSpec: the data of [parse] and its specification on the ring

    The types [parse] (main.rs, lines 125-327) works on: the tuple it
    returns and its result type, the lines it prints as the events of a
    trace, its state [PState] (the ring, the carried sequence number, the
    trace, newest first) and the local variables [Locals] that live across
    the iterations of its loop.

    The specification says what [parse] does to the ring by slicing
    instead of popping.  [decode_spec] is the decoding of what follows a
    marker, [iter_spec] one iteration of the loop and [parse_spec] the
    function, on [Core], the state without the trace.  [iterates] is the
    relation between the locals and the ring before and after iterations
    that decode frames, [decode_stream] the locals after a sequence of
    frames of the wire format, and [frame_trace] and [stream_trace] what
    is printed for them.  [gaps] is the sequence tracker as the
    specification states it, on the sequence numbers of a stream, and
    [lost_reports] the reports of lost frames in a trace.  The lemmas of
    this file are about the
    specification alone; [Parser] proves that the code refines it, and
    [Carried] reads the frames a ring holds off its bytes. *)

From stdpp Require Import strings.
From S2P Require Import Prelude Machine DataTypes Ring Sync Timestamp Frame.

(** ** Data *)

(** The tuple [parse] returns: [(zeo_time_full, tt_ss, zeo_version,
    datatype, datavec)]. *)
Definition Packet : Type := Z * Z * Z * DataType.t * list Z.

Inductive ParseResult : Type :=
| Ok (v : option Packet)
| Err (msg : string).

#[global] Instance ParseResult_eq_dec : EqDecision ParseResult.
Proof. solve_decision. Defined.

Definition ERR_LENGTH : string := "Invalid message length.".
Definition ERR_CHECKSUM : string := "Invalid checksum.".
Definition ERR_DATATYPE : string := "Bad datatype: {{b:02X}}".

(** What [parse] prints, one constructor per [print!] or [println!] with
    the values it shows. *)
Inductive Event : Type :=
| PrintParse (while_counter : Z) (ring : list Z)
| PrintNotEnough (len : nat)
| PrintChecksum (cksum : Z)
| PrintLengths (dl inv_dl not_inv_dl : Z)
| PrintTime (tt_lb tt_ss : Z)
| PrintSeqnum (seqnum : Z)
| PrintLost (n : Z)
| PrintDatatype (datatype : DataType.t)
| PrintFewData (len : nat)
| PrintShort
| PrintData (datavec : list Z)
| PrintZeoTime (zeo_time : Z)
| PrintCheck (c : TtCheck)
| PrintVersion (zeo_version : Z)
| PrintTimeFull (zeo_time_full tt_ss : Z).

#[global] Instance Event_eq_dec : EqDecision Event.
Proof. solve_decision. Defined.

(** The state [parse] works on: its two [&mut] parameters and the trace. *)
Record PState : Type := mkPState {
  ring : CircularBuffer.t;
  prev_seqnum : option Z;
  out : list Event;
}.

(** The local variables declared before the loop. *)
Record Locals : Type := mkLocals {
  tt_ss : Z;
  datatype : DataType.t;
  datavec : list Z;
  zeo_version : Z;
  zeo_time_full : Z;
  while_counter : Z;
}.

Definition init_locals : Locals := {|
  tt_ss := 0;
  datatype := DataType.Invalid 255;
  datavec := [];
  zeo_version := 0;
  zeo_time_full := 0;
  while_counter := 0;
|}.

(** ** Specifications *)

(** What the sequence tracker prints for a sequence number, given the
    previous one: nothing for the first frame and for the successor of the
    previous number, the number of lost frames when the sequence is ahead;
    when it is behind ([seqnum - prev_seq1] is negative) the subtraction
    overflows: [None] is the panic of a debug build, and a release build
    prints the wrapped difference. *)
Definition seq_report (p : Profile) (prev : option Z) (seqnum : Z) : option (list Event) :=
  match prev with
  | None => Some []
  | Some pseq =>
      let prev_seq1 := u8_wrapping_add pseq 1 in
      if decide (prev_seq1 = seqnum) then Some []
      else if decide (prev_seq1 <= seqnum) then Some [PrintLost (seqnum - prev_seq1)]
      else match p with
           | Debug => None
           | Release => Some [PrintLost ((seqnum - prev_seq1) mod 2 ^ 8)]
           end
  end.

(** The payload length [dl - 1] as the build computes it: [None] is the
    overflow panic of a debug build on [dl = 0]. *)
Definition payload_len (p : Profile) (dl : Z) : option nat :=
  if decide (1 <= dl) then Some (Z.to_nat (dl - 1))
  else match p with
       | Debug => None
       | Release => Some (Z.to_nat ((dl - 1) mod 2 ^ 16))
       end.

(** The clock step on a payload: the payload left, [zeo_time_full] and
    [zeo_version]; [None] is the panic of an [unwrap]. *)
Definition clock_spec (tt_lb : Z) (d : DataType.t) (payload : list Z) (l : Locals)
    : option (list Z * Z * Z) :=
  match d with
  | DataType.ZeoTimestamp =>
      v ← take_u32 payload; Some (v.2, (reconcile v.1 tt_lb).1, zeo_version l)
  | DataType.Version =>
      v ← take_u32 payload; Some (v.2, zeo_time_full l, v.1)
  | _ => Some (payload, zeo_time_full l, zeo_version l)
  end.

(** What the clock step prints. *)
Definition clock_trace (tt_lb : Z) (d : DataType.t) (payload : list Z) : list Event :=
  match d, take_u32 payload with
  | DataType.ZeoTimestamp, Some v =>
      [PrintCheck (reconcile v.1 tt_lb).2; PrintZeoTime v.1]
  | DataType.Version, Some v => [PrintVersion v.1]
  | _, _ => []
  end.

(** The warning printed before the payload is read. *)
Definition few_data (r : list Z) : list Event :=
  if (length r <? 4)%nat then [PrintFewData (length r)] else [].

(** The state without the trace: the ring and the carried sequence number. *)
Definition Core : Type := list Z * option Z.

Definition core (st : PState) : Core := (ring st, prev_seqnum st).

(** An outcome without the trace. *)
Definition forget {R A} : Outcome PState R A -> Outcome Core R A := map_state core.

(** Two states with the same ring and sequence number, and two outcomes
    that differ in the trace only. *)
Definition same_core : relation PState := fun s1 s2 => core s1 = core s2.

Definition same_outcome {R A} : relation (Outcome PState R A) :=
  fun o1 o2 => forget o1 = forget o2.

#[global] Instance same_core_equiv : Equivalence same_core.
Proof. unfold same_core. split; [done | by intros ?? | by intros ??? -> ]. Qed.

#[global] Instance same_outcome_equiv {R A} : Equivalence (same_outcome (R:=R) (A:=A)).
Proof. unfold same_outcome. split; [done | by intros ?? | by intros ??? -> ]. Qed.

(** The decoding of what follows a marker, by slicing: the ten header bytes,
    then the payload as a prefix of the rest. *)
Definition decode_spec (p : Profile) (LEN : nat) (l : Locals) (pv : option Z)
    (r : list Z) : Outcome Core ParseResult Locals :=
  if (length r <? 14)%nat then
    Ret (Ok None)
      (CircularBuffer.push_front LEN 0x41 (CircularBuffer.push_front LEN 0x34 r), pv)
  else
    match r with
    | cksum :: l0 :: l1 :: i0 :: i1 :: tt_lb :: s0 :: s1 :: seqnum :: dtype :: tail =>
        let dl := u16_from_le_bytes l0 l1 in
        if decide (dl = u16_not (u16_from_le_bytes i0 i1)) then
          match seq_report p pv seqnum, payload_len p dl with
          | Some _, Some n =>
              let payload := take n tail in
              if decide ((dtype + Zsum payload) mod 256 = cksum) then
                if DataType.known (DataType.from dtype) then
                  match clock_spec tt_lb (DataType.from dtype) payload l with
                  | Some c =>
                      Val {|
                        tt_ss := u16_from_le_bytes s0 s1;
                        datatype := DataType.from dtype;
                        datavec := c.1.1;
                        zeo_version := c.2;
                        zeo_time_full := c.1.2;
                        while_counter := while_counter l + 1;
                      |} (drop n tail, Some seqnum)
                  | None => Panicked UnwrapNone
                  end
                else Ret (Err ERR_DATATYPE) (drop n tail, Some seqnum)
              else Ret (Err ERR_CHECKSUM) (drop n tail, Some seqnum)
          | _, _ => Panicked ArithOverflow
          end
        else Ret (Err ERR_LENGTH) (tt_lb :: s0 :: s1 :: seqnum :: dtype :: tail, pv)
    | _ => Panicked UnwrapNone
    end.

(** One iteration on the ring without the trace: the marker scan, then the
    decoding of what follows the marker. *)
Definition iter_spec (p : Profile) (LEN : nat) (l : Locals)
    : Prog Core ParseResult Locals :=
  fun c =>
    match find_marker (0, 0) c.1 with
    | Some r' => decode_spec p LEN l c.2 r'
    | None => Panicked UnwrapNone
    end.

Definition more_than_15_spec (c : Core) : bool := (15 <? length c.1)%nat.

(** The tuple returned after the loop. *)
Definition packet_of (l : Locals) : Packet :=
  (zeo_time_full l, tt_ss l, zeo_version l, datatype l, datavec l).

(** [parse] on the ring without the trace. *)
Definition parse_spec {R} (p : Profile) (LEN : nat) : Prog Core R ParseResult :=
  fun c =>
    call (l <- while_loop (length c.1) more_than_15_spec (iter_spec p LEN) init_locals ;;
          ret (Ok (Some (packet_of l)))) c.

(** The types of frame the clock step acts on. *)
Definition is_clock (d : DataType.t) : bool :=
  match d with
  | DataType.ZeoTimestamp | DataType.Version => true
  | _ => false
  end.

(** ** Decoding against the wire format *)

(** The locals after the frame [f] is decoded with locals [l]: [None] is
    the panic of the clock step. *)
Definition locals_after (l : Locals) (f : Frame) : option Locals :=
  ck ← clock_spec (f_time_low f) (DataType.from (f_dtype f)) (f_payload f) l;
  Some {|
    tt_ss := f_subsec f;
    datatype := DataType.from (f_dtype f);
    datavec := ck.1.1;
    zeo_version := ck.2;
    zeo_time_full := ck.1.2;
    while_counter := while_counter l + 1;
  |}.

(** The locals and the carried sequence number after a sequence of frames
    of known types: [None] when a frame is not decoded. *)
Fixpoint decode_stream (p : Profile) (l : Locals) (pv : option Z) (fs : list Frame)
    : option (Locals * option Z) :=
  match fs with
  | [] => Some (l, pv)
  | f :: fs' =>
      if DataType.known (DataType.from (f_dtype f)) then
        _ ← seq_report p pv (f_seqnum f);
        l' ← locals_after l f;
        decode_stream p l' (Some (f_seqnum f)) fs'
      else None
  end.

(** Iterations of the loop of [parse] that each decode a frame: from locals
    and a ring to the locals and the ring some iterations later. *)
Inductive iterates (p : Profile) (LEN : nat) : Locals -> Core -> Locals -> Core -> Prop :=
  | iterates_refl l c : iterates p LEN l c l c
  | iterates_step l c l1 c1 l2 c2 :
      more_than_15_spec c = true ->
      iter_spec p LEN l c = Val l1 c1 ->
      iterates p LEN l1 c1 l2 c2 ->
      iterates p LEN l c l2 c2.

(** What the iteration that decodes the frame [f] prints after the line of
    the ring, newest first: [g] is the report of the sequence tracker,
    [tail] what follows the frame in the ring and [time_full] the full time
    after the clock step. *)
Definition frame_trace (g : list Event) (f : Frame) (tail : list Z) (time_full : Z)
    : list Event :=
  PrintTimeFull time_full (f_subsec f)
  :: clock_trace (f_time_low f) (DataType.from (f_dtype f)) (f_payload f)
  ++ PrintData (f_payload f)
  :: few_data (f_payload f ++ tail)
  ++ PrintDatatype (DataType.from (f_dtype f))
  :: g
  ++ [PrintSeqnum (f_seqnum f); PrintTime (f_time_low f) (f_subsec f);
      PrintLengths (declared_length f) (u16_not (declared_length f)) (declared_length f);
      PrintChecksum (checksum (f_dtype f) (f_payload f))].

(** What [parse] adds to the trace [o] for the frames [fs] of a ring that
    starts with [pre] and ends with [rest], from the locals [l] and the
    sequence number [pv]: for each frame the line of the ring, with the
    counter of the iteration, then the lines of the frame.  [None] when a
    frame makes the call panic. *)
Fixpoint stream_trace (p : Profile) (l : Locals) (pv : option Z) (pre : list Z)
    (fs : list Frame) (rest : list Z) (o : list Event) : option (list Event) :=
  match fs with
  | [] => Some o
  | f :: fs' =>
      g ← seq_report p pv (f_seqnum f);
      l' ← locals_after l f;
      stream_trace p l' (Some (f_seqnum f)) [] fs' rest
        (frame_trace g f (encode_stream fs' ++ rest) (zeo_time_full l')
           ++ PrintParse (while_counter l) (pre ++ encode f ++ encode_stream fs' ++ rest) :: o)
  end.

(** ** The sequence tracker on a stream

    What the specification asks of the tracker (4.4): each sequence number
    is compared with the successor of the last one seen, modulo 256, and a
    difference is reported as that many frames lost. *)

(** The number of frames lost before a
    frame with the sequence number [q] when the last number seen is [prev],
    counted modulo 256, and nothing to report when it is zero or when no
    number was seen. *)
Definition gap (prev : option Z) (q : Z) : list Z :=
  match prev with
  | Some v => let n := (q - (v + 1)) mod 256 in if decide (n = 0) then [] else [n]
  | None => []
  end.

(** The reports for the sequence numbers [qs] of frames that follow one
    another. *)
Fixpoint gaps (prev : option Z) (qs : list Z) : list Z :=
  match qs with
  | [] => []
  | q :: qs' => gap prev q ++ gaps (Some q) qs'
  end.

(** The numbers of the lines [we've lost n sequence(s)!] of a trace, oldest
    first. *)
Definition lost_of (e : Event) : option Z :=
  match e with PrintLost n => Some n | _ => None end.

Definition lost_reports (tr : list Event) : list Z := omap lost_of (reverse tr).

(** ** The types of the values

    The model computes on [Z]; these predicates say which integers are
    values of the Rust types of [parse]: its two parameters, the locals it
    declares before the loop and the tuple it returns. *)

(** [DataType]: the byte carried by [Invalid] is a [u8]. *)
Definition datatype_wf (d : DataType.t) : Prop :=
  match d with
  | DataType.Invalid b => is_u8 b
  | _ => True
  end.

(** [(u32, u16, u32, DataType, VecDeque<u8>)] *)
Definition packet_wf (pk : Packet) : Prop :=
  is_u32 pk.1.1.1.1 /\ is_u16 pk.1.1.1.2 /\ is_u32 pk.1.1.2 /\
  datatype_wf pk.1.2 /\ bytes pk.2.

(** [Result<Option<(u32, u16, u32, DataType, VecDeque<u8>)>, &'static str>] *)
Definition result_wf (res : ParseResult) : Prop :=
  match res with
  | Ok (Some pk) => packet_wf pk
  | _ => True
  end.

(** The locals: [tt_ss: u16], [datatype], [datavec: VecDeque<u8>],
    [zeo_version: u32], [zeo_time_full: u32] and the counter. *)
Definition locals_wf (l : Locals) : Prop :=
  packet_wf (packet_of l) /\ 0 <= while_counter l.

(** [prev_seqnum: &mut Option<u8>] and [ring: &mut CircularBuffer<LEN, u8>]. *)
Definition core_wf (LEN : nat) (c : Core) : Prop :=
  ring_wf LEN c.1 /\ from_option is_u8 True c.2.

#[global] Instance datatype_wf_dec d : Decision (datatype_wf d).
Proof. destruct d; apply _. Defined.

#[global] Instance packet_wf_dec pk : Decision (packet_wf pk).
Proof. unfold packet_wf, bytes. apply _. Defined.

#[global] Instance result_wf_dec res : Decision (result_wf res).
Proof. destruct res as [[pk|]|]; apply _. Defined.

#[global] Instance core_wf_dec LEN c : Decision (core_wf LEN c).
Proof. unfold core_wf. destruct c as [r [q|]]; apply _. Defined.

(** The three errors of [parse]. *)
Definition errors : list string := [ERR_LENGTH; ERR_CHECKSUM; ERR_DATATYPE].

(** What the result of [parse] says of the ring [r'] it leaves of the ring
    [r]: a packet comes with fifteen bytes or fewer, [Ok(None)] with the
    marker and fewer than fourteen bytes of the ring behind it, an error is
    one of the three and took seven bytes at least. *)
Definition result_ring (r : list Z) (res : ParseResult) (r' : list Z) : Prop :=
  match res with
  | Ok (Some _) => (length r' <= 15)%nat
  | Ok None =>
      exists tail, r' = 0x41 :: 0x34 :: tail /\ (length tail < 14)%nat /\
                   tail `suffix_of` r
  | Err e => e ∈ errors /\ (length r' + 7 <= length r)%nat
  end.

(** The panics of [parse]: the [unwrap] of [None] in every build, the
    arithmetic overflow in a build that checks for it. *)
Definition parse_panic (p : Profile) (k : PanicKind) : Prop :=
  k = UnwrapNone \/ (overflow_checks p = true /\ k = ArithOverflow).

#[global] Arguments DataType.from : simpl never.
#[global] Arguments reconcile : simpl never.
#[global] Arguments take_u32 : simpl never.
#[global] Arguments find_marker : simpl never.

(** ** Termination *)

Lemma decode_spec_fuel p LEN l pv r :
  is_out_of_fuel (decode_spec p LEN l pv r) = false.
Proof. unfold decode_spec. by repeat case_match. Qed.

(** A decoded frame took its ten header bytes from the ring. *)
Lemma decode_spec_val_length p LEN l pv r l' c' :
  decode_spec p LEN l pv r = Val l' c' -> (length c'.1 + 10 <= length r)%nat.
Proof.
  unfold decode_spec. repeat case_match; try done. intros [= <- <-].
  cbn [fst length]. rewrite length_drop. lia.
Qed.

Lemma iter_spec_fuel p LEN l c : is_out_of_fuel (iter_spec p LEN l c) = false.
Proof. unfold iter_spec. case_match; [apply decode_spec_fuel | done]. Qed.

Lemma iter_spec_val_length p LEN l c l' c' :
  iter_spec p LEN l c = Val l' c' -> (length c'.1 + 12 <= length c.1)%nat.
Proof.
  unfold iter_spec. destruct (find_marker _ _) as [r'|] eqn:E; [|done].
  intros H%decode_spec_val_length. apply find_marker_length in E. lia.
Qed.

Lemma parse_spec_total {R} p LEN c :
  is_out_of_fuel (parse_spec (R:=R) p LEN c) = false.
Proof.
  unfold parse_spec. rewrite call_fuel. apply bind_fuel; [|done].
  apply while_loop_terminates with (mu := fun c => length c.1).
  - intros. apply iter_spec_fuel.
  - unfold more_than_15_spec. intros s H%Nat.ltb_lt. lia.
  - intros a s a' s' _ H%iter_spec_val_length. lia.
  - lia.
Qed.

(** ** From one iteration to [parse] *)

Section Lift.
Context {R : Type} (p : Profile) (LEN : nat).
Implicit Types (c : Core) (l : Locals).

(** With fifteen bytes or fewer the loop is not entered. *)
Lemma parse_spec_idle c :
  more_than_15_spec c = false ->
  parse_spec (R:=R) p LEN c = Val (Ok (Some (packet_of init_locals))) c.
Proof.
  intros H. unfold parse_spec. apply call_val.
  by rewrite (bind_val _ _ _ _ _ (while_loop_exit _ _ _ _ _ H)).
Qed.

Lemma more_than_15_fuel c : more_than_15_spec c = true -> (0 < length c.1)%nat.
Proof. unfold more_than_15_spec. intros H%Nat.ltb_lt. lia. Qed.

(** An early [return] of the first iteration is the result of [parse]. *)
Lemma parse_spec_ret c res c' :
  more_than_15_spec c = true ->
  iter_spec p LEN init_locals c = Ret res c' ->
  parse_spec (R:=R) p LEN c = Val res c'.
Proof.
  intros Hc Hi. unfold parse_spec. apply call_ret, bind_ret_stop.
  by apply while_loop_ret; [apply more_than_15_fuel|..].
Qed.

(** A panic of the first iteration is a panic of [parse]. *)
Lemma parse_spec_panic c k :
  more_than_15_spec c = true ->
  iter_spec p LEN init_locals c = Panicked k ->
  parse_spec (R:=R) p LEN c = Panicked k.
Proof.
  intros Hc Hi. unfold parse_spec. apply call_panic, bind_panicked.
  by apply while_loop_panic; [apply more_than_15_fuel|..].
Qed.

(** A frame decoded by the first iteration that leaves fifteen bytes or
    fewer is the result of [parse]. *)
Lemma parse_spec_one c l' c' :
  more_than_15_spec c = true ->
  iter_spec p LEN init_locals c = Val l' c' ->
  more_than_15_spec c' = false ->
  parse_spec (R:=R) p LEN c = Val (Ok (Some (packet_of l'))) c'.
Proof.
  intros Hc Hi Hc'. unfold parse_spec. apply call_val.
  erewrite bind_val; [done|].
  rewrite (while_loop_step _ _ _ _ _ _ _ (more_than_15_fuel _ Hc) Hc Hi).
  by apply while_loop_exit.
Qed.

End Lift.

(** The marker scan on a ring that starts with a clean prefix and the
    marker. *)
Lemma iter_spec_app p LEN l pre rest pv :
  first_marker (pre ++ [0x41]) = None ->
  iter_spec p LEN l (pre ++ 0x41 :: 0x34 :: rest, pv) = decode_spec p LEN l pv rest.
Proof. intros H. unfold iter_spec. cbn [fst snd]. by rewrite find_marker_app. Qed.

(** An outcome without its trace determines the outcome's kind. *)
Lemma forget_panicked {R A} (o : Outcome PState R A) k :
  forget o = Panicked k -> o = Panicked k.
Proof. unfold forget. destruct o; cbn; congruence. Qed.

(** ** [decode_spec] case by case *)

Section DecodeCases.
Context (p : Profile) (LEN : nat) (l : Locals) (pv : option Z).

(** Fewer than fourteen bytes after the marker: the marker is pushed back. *)
Lemma decode_spec_short r :
  (length r < 14)%nat -> (length r + 2 <= LEN)%nat ->
  decode_spec p LEN l pv r = Ret (Ok None) (0x41 :: 0x34 :: r, pv).
Proof.
  intros H HL. unfold decode_spec. rewrite (proj2 (Nat.ltb_lt _ _) H).
  by rewrite (push_front_room LEN 52 r), (push_front_room LEN 65) by (cbn [length]; lia).
Qed.

(** What [decode_spec] does once the lengths are read. *)
Lemma decode_spec_header c l0 l1 i0 i1 t s0 s1 q d tail :
  (4 <= length tail)%nat ->
  decode_spec p LEN l pv (c :: l0 :: l1 :: i0 :: i1 :: t :: s0 :: s1 :: q :: d :: tail) =
  let dl := u16_from_le_bytes l0 l1 in
  if decide (dl = u16_not (u16_from_le_bytes i0 i1)) then
    match seq_report p pv q, payload_len p dl with
    | Some _, Some n =>
        if decide ((d + Zsum (take n tail)) mod 256 = c) then
          if DataType.known (DataType.from d) then
            match clock_spec t (DataType.from d) (take n tail) l with
            | Some ck =>
                Val {|
                  tt_ss := u16_from_le_bytes s0 s1;
                  datatype := DataType.from d;
                  datavec := ck.1.1;
                  zeo_version := ck.2;
                  zeo_time_full := ck.1.2;
                  while_counter := while_counter l + 1;
                |} (drop n tail, Some q)
            | None => Panicked UnwrapNone
            end
          else Ret (Err ERR_DATATYPE) (drop n tail, Some q)
        else Ret (Err ERR_CHECKSUM) (drop n tail, Some q)
    | _, _ => Panicked ArithOverflow
    end
  else Ret (Err ERR_LENGTH) (t :: s0 :: s1 :: q :: d :: tail, pv).
Proof.
  intros H. unfold decode_spec.
  by rewrite (proj2 (Nat.ltb_ge _ _)) by (cbn [length]; lia).
Qed.

End DecodeCases.

(** ** The ring after an iteration *)

(** What is left in the ring is a suffix of what followed the marker, or
    that with the marker pushed back. *)
Lemma decode_spec_ring p LEN l pv r :
  match decode_spec p LEN l pv r with
  | Val _ c | Ret (Err _) c => c.1 `suffix_of` r
  | Ret (Ok _) c =>
      c.1 = CircularBuffer.push_front LEN 0x41 (CircularBuffer.push_front LEN 0x34 r)
  | _ => True
  end.
Proof.
  unfold decode_spec. repeat case_match; simplify_eq; try done; cbn [fst];
    try (etrans; [apply suffix_drop|]);
    repeat first [reflexivity | apply suffix_cons_r].
Qed.

Section Invariant.
Context (LEN : nat) (J : list Z -> Prop).
Hypothesis J_suffix : forall r r', r' `suffix_of` r -> J r -> J r'.
Hypothesis J_push : forall b r, is_u8 b -> J r -> J (CircularBuffer.push_front LEN b r).

Lemma decode_spec_inv p l pv r :
  J r -> holds_after (fun c => J c.1) (decode_spec p LEN l pv r).
Proof.
  intros Hr. pose proof (decode_spec_ring p LEN l pv r) as H. unfold holds_after.
  destruct (decode_spec p LEN l pv r) as [? c|[v|m] c| |]; cbn; try done.
  - by apply (J_suffix r).
  - rewrite H. by repeat apply J_push.
  - by apply (J_suffix r).
Qed.

Lemma iter_spec_inv p l c :
  J c.1 -> holds_after (fun c => J c.1) (iter_spec p LEN l c).
Proof.
  intros Hc. unfold iter_spec. destruct (find_marker _ _) as [r'|] eqn:E; [|done].
  apply decode_spec_inv, (J_suffix c.1); [by apply find_marker_suffix | done].
Qed.

(** A property of the ring that suffixes and [push_front] keep holds after
    [parse_spec], however it ends. *)
Lemma parse_spec_inv {R} p c :
  J c.1 -> holds_after (fun c' => J c'.1) (parse_spec (R:=R) p LEN c).
Proof.
  intros Hc. unfold parse_spec. apply call_holds_after.
  assert (holds_after (fun c => J c.1)
    (while_loop (length c.1) more_than_15_spec (iter_spec p LEN) init_locals c)) as H
    by (apply while_loop_invariant; [|done]; intros; by apply iter_spec_inv).
  apply bind_holds_after; [done|]. intros a s' E. by rewrite E in H.
Qed.

End Invariant.

(** ** Several iterations *)

Section Iterates.
Context {R : Type} (p : Profile) (LEN : nat).

(** Any fuel that is at least the length of the ring gives the outcome of
    the loop. *)
Lemma spec_loop_fuel fuel l c :
  (length c.1 <= fuel)%nat ->
  while_loop fuel more_than_15_spec (iter_spec p LEN) l c =
  while_loop (length c.1) more_than_15_spec (iter_spec p LEN) l c.
Proof.
  intros Hf. apply while_loop_fuel_mono; [done|].
  apply while_loop_terminates with (mu := fun c => length c.1); [..|done].
  - intros. apply iter_spec_fuel.
  - intros s. apply more_than_15_fuel.
  - intros a s a' s' _ H%iter_spec_val_length. lia.
Qed.

(** Iterations that decode frames are a prefix of the run of the loop. *)
Lemma spec_loop_iterates l c l' c' :
  iterates p LEN l c l' c' ->
  while_loop (length c.1) more_than_15_spec (iter_spec p LEN) l c =
  while_loop (length c'.1) more_than_15_spec (iter_spec p LEN) l' c'.
Proof.
  induction 1 as [|l c l1 c1 l2 c2 Hc Hi _ IH]; [done|].
  rewrite (while_loop_step _ _ _ _ _ _ _ (more_than_15_fuel _ Hc) Hc Hi), <- IH.
  apply spec_loop_fuel. apply iter_spec_val_length in Hi. lia.
Qed.

Lemma iterates_trans l c l1 c1 l2 c2 :
  iterates p LEN l c l1 c1 -> iterates p LEN l1 c1 l2 c2 -> iterates p LEN l c l2 c2.
Proof. induction 1; [done|]. intros. eapply iterates_step; eauto. Qed.

(** The ring only shrinks along iterations that decode frames. *)
Lemma iterates_suffix l c l' c' : iterates p LEN l c l' c' -> c'.1 `suffix_of` c.1.
Proof.
  induction 1 as [|l c l1 c1 l2 c2 _ Hi _ IH]; [done|]. etrans; [exact IH|].
  unfold iter_spec in Hi. destruct (find_marker _ _) as [r'|] eqn:E; [|done].
  pose proof (decode_spec_ring p LEN l c.2 r') as Hr. rewrite Hi in Hr.
  etrans; [exact Hr | by apply find_marker_suffix].
Qed.

(** [parse] returns the frame decoded last, when fifteen bytes or fewer
    are left after it. *)
Lemma parse_spec_iterates c l' c' :
  iterates p LEN init_locals c l' c' ->
  more_than_15_spec c' = false ->
  parse_spec (R:=R) p LEN c = Val (Ok (Some (packet_of l'))) c'.
Proof.
  intros Hi Hc'. unfold parse_spec. apply call_val.
  erewrite bind_val; [done|].
  rewrite (spec_loop_iterates _ _ _ _ Hi). by apply while_loop_exit.
Qed.

(** An early [return] after decoded frames is the result of [parse]. *)
Lemma parse_spec_iterates_ret c l' c' res c'' :
  iterates p LEN init_locals c l' c' ->
  more_than_15_spec c' = true ->
  iter_spec p LEN l' c' = Ret res c'' ->
  parse_spec (R:=R) p LEN c = Val res c''.
Proof.
  intros Hi Hc' Hr. unfold parse_spec. apply call_ret, bind_ret_stop.
  rewrite (spec_loop_iterates _ _ _ _ Hi).
  by apply while_loop_ret; [apply more_than_15_fuel|..].
Qed.

(** A panic after decoded frames is a panic of [parse]. *)
Lemma parse_spec_iterates_panic c l' c' k :
  iterates p LEN init_locals c l' c' ->
  more_than_15_spec c' = true ->
  iter_spec p LEN l' c' = Panicked k ->
  parse_spec (R:=R) p LEN c = Panicked k.
Proof.
  intros Hi Hc' Hr. unfold parse_spec. apply call_panic, bind_panicked.
  rewrite (spec_loop_iterates _ _ _ _ Hi).
  by apply while_loop_panic; [apply more_than_15_fuel|..].
Qed.

(** How the loop ends: after iterations that decode frames, on a ring of
    fifteen bytes or fewer, or with the early return or the panic of the
    next iteration. *)
Lemma spec_loop_ends fuel l c :
  match while_loop fuel more_than_15_spec (iter_spec p LEN) l c with
  | Val l' c' => iterates p LEN l c l' c' /\ more_than_15_spec c' = false
  | OutOfFuel => True
  | o => exists l1 c1,
      iterates p LEN l c l1 c1 /\ more_than_15_spec c1 = true /\ iter_spec p LEN l1 c1 = o
  end.
Proof.
  revert l c. induction fuel as [|n IH]; intros l c; cbn.
  { destruct (more_than_15_spec c) eqn:Hc; [done|]. split; [constructor|done]. }
  destruct (more_than_15_spec c) eqn:Hc; [|split; [constructor|done]].
  destruct (iter_spec p LEN l c) as [l1 c1|res c1|k|] eqn:Hi; [| | |done].
  - specialize (IH l1 c1).
    destruct (while_loop n _ _ l1 c1) as [l2 c2|res c2|k|]; [| | |done].
    + destruct IH. split; [by eapply iterates_step|done].
    + destruct IH as (l3 & c3 & ? & ?). exists l3, c3. split; [by eapply iterates_step|done].
    + destruct IH as (l3 & c3 & ? & ?). exists l3, c3. split; [by eapply iterates_step|done].
  - exists l, c. by split_and!; [constructor|..].
  - exists l, c. by split_and!; [constructor|..].
Qed.

(** A call that returns has decoded frames and ended on fifteen bytes or
    fewer, with the packet of the last, or with the early return of the
    next iteration. *)
Lemma parse_spec_returned c res c' :
  parse_spec (R:=R) p LEN c = Val res c' ->
  exists l c1, iterates p LEN init_locals c l c1 /\
    (more_than_15_spec c1 = false /\ res = Ok (Some (packet_of l)) /\ c' = c1 \/
     more_than_15_spec c1 = true /\ iter_spec p LEN l c1 = Ret res c').
Proof.
  unfold parse_spec, call, bind, ret.
  pose proof (spec_loop_ends (length c.1) init_locals c) as H.
  destruct (while_loop _ _ _ _ _) as [l' c1|res' c1|k'|]; try done; intros [= <- <-].
  - exists l', c1. naive_solver.
  - destruct H as (l1 & c2 & ? & ? & ?). exists l1, c2. naive_solver.
Qed.

(** A panic of [parse_spec] is the panic of an iteration, after iterations
    that decoded frames. *)
Lemma parse_spec_panicked c k :
  parse_spec (R:=R) p LEN c = Panicked k ->
  exists l1 c1, iterates p LEN init_locals c l1 c1 /\ more_than_15_spec c1 = true /\
                iter_spec p LEN l1 c1 = Panicked k.
Proof.
  unfold parse_spec, call, bind. pose proof (spec_loop_ends (length c.1) init_locals c) as H.
  destruct (while_loop _ _ _ _ _) as [l' c'|res c'|k'|]; try done. by intros [= <-].
Qed.


End Iterates.

(** ** Frames of the wire format *)

Lemma payload_len_declared p f :
  payload_len p (declared_length f) = Some (length (f_payload f)).
Proof.
  unfold payload_len, declared_length. rewrite decide_True by lia. f_equal. lia.
Qed.

Section Encoded.
Context (p : Profile) (LEN : nat).

(** What follows the marker of a frame decodes as the frame's fields say,
    when the checksum byte is the checksum. *)
Lemma decode_spec_frame l pv c f tail :
  frame_wf f -> (4 <= length (f_payload f ++ tail))%nat ->
  decode_spec p LEN l pv (drop 2 (frame_bytes c f ++ tail)) =
  match seq_report p pv (f_seqnum f) with
  | Some _ =>
      if decide (checksum (f_dtype f) (f_payload f) = c) then
        if DataType.known (DataType.from (f_dtype f)) then
          match locals_after l f with
          | Some l' => Val l' (tail, Some (f_seqnum f))
          | None => Panicked UnwrapNone
          end
        else Ret (Err ERR_DATATYPE) (tail, Some (f_seqnum f))
      else Ret (Err ERR_CHECKSUM) (tail, Some (f_seqnum f))
  | None => Panicked ArithOverflow
  end.
Proof.
  intros Hwf Hlen. destruct (frame_bytes_fields c f tail Hwf)
    as (l0 & l1 & i0 & i1 & s0 & s1 & -> & E1 & E2 & E3).
  cbn [drop]. rewrite decode_spec_header by done. cbv zeta.
  rewrite E1, E2, E3, u16_not_involutive, decide_True, payload_len_declared by done.
  rewrite take_app_length, drop_app_length. unfold locals_after, checksum.
  destruct (seq_report _ _ _); [|done]. case_decide; [|done].
  destruct (DataType.known _); [|done]. by destruct (clock_spec _ _ _ _).
Qed.

(** One iteration on a clean prefix followed by a frame. *)
Lemma iter_spec_frame l pv pre c f tail :
  first_marker (pre ++ [0x41]) = None ->
  iter_spec p LEN l (pre ++ frame_bytes c f ++ tail, pv) =
  decode_spec p LEN l pv (drop 2 (frame_bytes c f ++ tail)).
Proof. intros Hpre. unfold frame_bytes. cbn [app drop]. by apply iter_spec_app. Qed.

(** One iteration on a clean prefix followed by an encoded frame. *)
Lemma iter_spec_encode l pv pre f tail l' :
  frame_wf f -> first_marker (pre ++ [0x41]) = None ->
  (4 <= length (f_payload f ++ tail))%nat ->
  DataType.known (DataType.from (f_dtype f)) = true ->
  is_Some (seq_report p pv (f_seqnum f)) ->
  locals_after l f = Some l' ->
  iter_spec p LEN l (pre ++ encode f ++ tail, pv) = Val l' (tail, Some (f_seqnum f)).
Proof.
  intros Hwf Hpre Hlen Hk [g Hg] Hl. unfold encode.
  rewrite iter_spec_frame, decode_spec_frame by done.
  by rewrite Hg, decide_True, Hk, Hl.
Qed.

Lemma more_than_15_frame pre c f tail pv :
  (4 <= length (f_payload f ++ tail))%nat ->
  more_than_15_spec (pre ++ frame_bytes c f ++ tail, pv) = true.
Proof.
  intros H. apply Nat.ltb_lt. cbn [fst].
  rewrite !length_app, length_frame_bytes. rewrite length_app in H. lia.
Qed.

(** A sequence of frames is decoded frame by frame. *)
Lemma iterates_stream fs l pv l' pv' rest :
  Forall frame_wf fs -> Forall (fun f => (4 <= length (f_payload f))%nat) fs ->
  decode_stream p l pv fs = Some (l', pv') ->
  iterates p LEN l (encode_stream fs ++ rest, pv) l' (rest, pv').
Proof.
  intros Hwf Hlen. revert l pv.
  induction fs as [|f fs IH]; intros l pv; cbn [decode_stream].
  { intros [= <- <-]. apply iterates_refl. }
  apply Forall_cons in Hwf as [Hf Hwf], Hlen as [Hn Hlen].
  destruct (DataType.known _) eqn:Hk; [|done].
  destruct (seq_report _ _ _) as [g|] eqn:Hg; [|done]. cbn.
  destruct (locals_after l f) as [l1|] eqn:Hl; [|done]. cbn. intros Hs.
  assert (4 <= length (f_payload f ++ encode_stream fs ++ rest))%nat
    by (rewrite length_app; lia).
  rewrite encode_stream_cons, <- app_assoc.
  eapply iterates_step; [| |by apply IH].
  - by apply (more_than_15_frame []).
  - by apply (iter_spec_encode l pv []); rewrite ?Hg.
Qed.

End Encoded.

(** ** Cases of the clock step *)

(** A frame that is neither a timestamp nor a version keeps its payload. *)
Lemma clock_spec_data t d pl l :
  is_clock d = false -> clock_spec t d pl l = Some (pl, zeo_time_full l, zeo_version l).
Proof. by destruct d. Qed.

Lemma locals_after_data l f :
  is_clock (DataType.from (f_dtype f)) = false ->
  locals_after l f = Some {|
    tt_ss := f_subsec f;
    datatype := DataType.from (f_dtype f);
    datavec := f_payload f;
    zeo_version := zeo_version l;
    zeo_time_full := zeo_time_full l;
    while_counter := while_counter l + 1;
  |}.
Proof. intros H. unfold locals_after. by rewrite clock_spec_data. Qed.

Lemma locals_after_short l f :
  is_clock (DataType.from (f_dtype f)) = true -> (length (f_payload f) < 3)%nat ->
  locals_after l f = None.
Proof.
  intros Hc Hl. unfold locals_after, clock_spec.
  by destruct (DataType.from _); try done; rewrite (proj2 (take_u32_None _)).
Qed.

(** A timestamp frame gives the reconciled time and loses the four bytes
    of the absolute time. *)
Lemma locals_after_timestamp l f t data :
  f_dtype f = 0x8A -> is_u32 t -> f_payload f = u32_to_le_bytes t ++ data ->
  locals_after l f = Some {|
    tt_ss := f_subsec f;
    datatype := DataType.ZeoTimestamp;
    datavec := data;
    zeo_version := zeo_version l;
    zeo_time_full := (reconcile t (f_time_low f)).1;
    while_counter := while_counter l + 1;
  |}.
Proof.
  intros Hd Ht Hp. unfold locals_after, clock_spec.
  by rewrite Hd, Hp, take_u32_to_le_bytes.
Qed.

(** A version frame gives the version and loses its four bytes. *)
Lemma locals_after_version l f v data :
  f_dtype f = 0x03 -> is_u32 v -> f_payload f = u32_to_le_bytes v ++ data ->
  locals_after l f = Some {|
    tt_ss := f_subsec f;
    datatype := DataType.Version;
    datavec := data;
    zeo_version := v;
    zeo_time_full := zeo_time_full l;
    while_counter := while_counter l + 1;
  |}.
Proof.
  intros Hd Hv Hp. unfold locals_after, clock_spec.
  by rewrite Hd, Hp, take_u32_to_le_bytes.
Qed.

(** ** The sequence tracker on its cases *)

Lemma seq_report_behind pseq q :
  q < u8_wrapping_add pseq 1 -> seq_report Debug (Some pseq) q = None.
Proof. intros H. unfold seq_report. by rewrite !decide_False by lia. Qed.

Lemma seq_report_release pv q : is_Some (seq_report Release pv q).
Proof. unfold seq_report. destruct pv; repeat case_decide; by eexists. Qed.

(** ** The lost frames of a trace *)

Lemma lost_reports_app tr1 tr2 : lost_reports (tr1 ++ tr2) = lost_reports tr2 ++ lost_reports tr1.
Proof. unfold lost_reports. by rewrite reverse_app, omap_app. Qed.

Lemma lost_reports_cons e tr : lost_reports (e :: tr) = lost_reports tr ++ option_list (lost_of e).
Proof. unfold lost_reports. rewrite reverse_cons, omap_app. cbn. by destruct (lost_of e). Qed.

(** What step 5 prints is the gap of the tracker, in both builds. *)
Lemma seq_report_gap p pv q g :
  is_u8 q -> seq_report p pv q = Some g -> lost_reports g = gap pv q.
Proof.
  unfold seq_report, gap, u8_wrapping_add, is_u8, u8_MAX.
  destruct pv as [v|]; [|by intros _ [= <-]]. intros Hq. cbv zeta.
  rewrite <- (Zminus_mod_idemp_r q (v + 1)). change (2 ^ 8) with 256.
  pose proof (Z.mod_pos_bound (v + 1) 256 ltac:(lia)). set (e := (v + 1) mod 256) in *.
  destruct (decide (e = q)) as [->|Hne].
  { intros [= <-]. by rewrite Z.sub_diag. }
  assert ((q - e) mod 256 <> 0) by (Z.div_mod_to_equations; lia).
  rewrite (decide_False (P := _ = 0)) by done.
  case_decide; [|destruct p]; intros [= <-]; [|done]. cbn. by rewrite Z.mod_small by lia.
Qed.

Lemma lost_reports_frame_trace g f tail t :
  lost_reports (frame_trace g f tail t) = lost_reports g.
Proof.
  unfold frame_trace, clock_trace, few_data.
  repeat case_match; cbn [app]; rewrite !lost_reports_cons, lost_reports_app; cbn;
    by rewrite ?app_nil_r.
Qed.

(** The lost frames reported for a stream are the gaps between the
    sequence numbers of its frames. *)
Lemma stream_trace_lost p fs : forall l pv pre rest o tr,
  Forall frame_wf fs -> stream_trace p l pv pre fs rest o = Some tr ->
  lost_reports tr = lost_reports o ++ gaps pv (f_seqnum <$> fs).
Proof.
  induction fs as [|f fs IH]; intros l pv pre rest o tr Hwf; cbn [stream_trace].
  { intros [= <-]. by rewrite app_nil_r. }
  apply Forall_cons in Hwf as [Hf Hwf].
  destruct (seq_report _ _ _) as [g|] eqn:Hg; [|done]. cbn [mbind option_bind].
  destruct (locals_after l f) as [l1|]; [|done]. cbn [mbind option_bind]. intros Ht.
  rewrite (IH _ _ _ _ _ _ Hwf Ht).
  rewrite lost_reports_app, lost_reports_cons, lost_reports_frame_trace.
  cbn [lost_of option_list fmap list_fmap gaps]. rewrite app_nil_r, <- app_assoc.
  do 2 f_equal. apply (seq_report_gap p); [apply Hf|done].
Qed.

(** The sequence number carried after a stream is that of its last frame. *)
Lemma decode_stream_seqnum p fs : forall l pv d,
  decode_stream p l pv fs = Some d -> d.2 = from_option (Some ∘ f_seqnum) pv (last fs).
Proof.
  induction fs as [|f fs IH]; intros l pv d; cbn [decode_stream]; [by intros [= <-]|].
  case_match; [|done]. destruct (seq_report _ _ _); [|done]. cbn.
  destruct (locals_after l f); [|done]. cbn. intros ->%IH.
  rewrite last_cons. by destruct (last fs).
Qed.

Lemma decode_stream_last p f fs l pv l' pv' :
  decode_stream p l pv (f :: fs) = Some (l', pv') -> pv' = f_seqnum <$> last (f :: fs).
Proof.
  intros Hd%decode_stream_seqnum. cbn [snd] in Hd. subst pv'.
  rewrite !last_cons. by destruct (last fs).
Qed.

(** A stream that is decoded has a trace. *)
Lemma stream_trace_is_Some p fs : forall l pv pre rest o d,
  decode_stream p l pv fs = Some d -> is_Some (stream_trace p l pv pre fs rest o).
Proof.
  induction fs as [|f fs IH]; intros l pv pre rest o d; cbn [decode_stream stream_trace]; [done|].
  case_match; [|done]. destruct (seq_report _ _ _); [|done]. cbn.
  destruct (locals_after l f); [|done]. cbn. apply IH.
Qed.

(** ** What an iteration leaves of the ring *)

(** In a ring within its capacity, what an iteration leaves is a suffix of
    the ring: bytes are taken from the front and the marker that is pushed
    back is the one that was taken. *)
Lemma iter_spec_suffix p LEN l (c : Core) :
  CircularBuffer.wf LEN c.1 ->
  holds_after (fun c' => c'.1 `suffix_of` c.1) (iter_spec p LEN l c).
Proof.
  intros Hwf. unfold iter_spec. destruct (find_marker _ _) as [r'|] eqn:E; [|done].
  pose proof (decode_spec_ring p LEN l c.2 r') as H. unfold holds_after.
  pose proof (find_marker_suffix _ _ E) as Hs.
  pose proof (find_marker_length _ _ E) as Hl.
  destruct (find_marker_split _ _ E) as (pre & Hc & _).
  unfold CircularBuffer.wf in Hwf.
  destruct (decode_spec p LEN l c.2 r') as [? c'|[v|m] c'| |]; cbn; try done;
    [by etrans| |by etrans].
  rewrite H, (push_front_room LEN 52 r'), (push_front_room LEN 65), Hc
    by (cbn [length]; lia).
  by apply suffix_app_r.
Qed.

(** What [parse_spec] leaves of a ring within its capacity is a suffix of
    the ring. *)
Lemma parse_spec_suffix {R} p LEN (c : Core) :
  CircularBuffer.wf LEN c.1 ->
  holds_after (fun c' => c'.1 `suffix_of` c.1) (parse_spec (R:=R) p LEN c).
Proof.
  intros Hwf. unfold parse_spec. apply call_holds_after.
  assert (holds_after (fun c' => c'.1 `suffix_of` c.1)
    (while_loop (length c.1) more_than_15_spec (iter_spec p LEN) init_locals c)) as H.
  { apply while_loop_invariant; [|done]. intros l c1 Hc _.
    eapply holds_after_impl; [|apply iter_spec_suffix].
    - intros c' Hc'. exact (transitivity Hc' Hc).
    - apply suffix_length in Hc. unfold CircularBuffer.wf in *. lia. }
  apply bind_holds_after; [done|]. intros a s' E. by rewrite E in H.
Qed.

(** ** [parse_spec] on the cases of a frame *)

Section SpecCases.
Context {R : Type} (p : Profile) (LEN : nat).
Implicit Types (pre rest r : list Z) (pv : option Z) (f : Frame).

(** A clean prefix, a frame, and what the decoding of the frame gives as
    an early [return]. *)
Lemma parse_spec_frame_ret pre c f rest pv res c' :
  first_marker (pre ++ [0x41]) = None ->
  (4 <= length (f_payload f ++ rest))%nat ->
  decode_spec p LEN init_locals pv (drop 2 (frame_bytes c f ++ rest)) = Ret res c' ->
  parse_spec (R:=R) p LEN (pre ++ frame_bytes c f ++ rest, pv) = Val res c'.
Proof.
  intros Hpre Hlen Hd. apply parse_spec_ret.
  - by apply more_than_15_frame.
  - by rewrite iter_spec_frame.
Qed.

Lemma parse_spec_frame_panic pre c f rest pv k :
  first_marker (pre ++ [0x41]) = None ->
  (4 <= length (f_payload f ++ rest))%nat ->
  decode_spec p LEN init_locals pv (drop 2 (frame_bytes c f ++ rest)) = Panicked k ->
  parse_spec (R:=R) p LEN (pre ++ frame_bytes c f ++ rest, pv) = Panicked k.
Proof.
  intros Hpre Hlen Hd. apply parse_spec_panic.
  - by apply more_than_15_frame.
  - by rewrite iter_spec_frame.
Qed.

(** A clean prefix, one encoded frame of a known type and at most fifteen
    bytes: the frame is returned. *)
Lemma parse_spec_encode pre f rest pv l' :
  frame_wf f -> first_marker (pre ++ [0x41]) = None ->
  (4 <= length (f_payload f ++ rest))%nat -> (length rest <= 15)%nat ->
  DataType.known (DataType.from (f_dtype f)) = true ->
  is_Some (seq_report p pv (f_seqnum f)) ->
  locals_after init_locals f = Some l' ->
  parse_spec (R:=R) p LEN (pre ++ encode f ++ rest, pv) =
  Val (Ok (Some (packet_of l'))) (rest, Some (f_seqnum f)).
Proof.
  intros Hwf Hpre Hlen Hrest Hk Hs Hl. apply parse_spec_one with (l' := l').
  - by apply more_than_15_frame.
  - by apply iter_spec_encode.
  - by apply Nat.ltb_ge.
Qed.

(** More than fifteen bytes and no marker: the scan panics. *)
Lemma parse_spec_no_marker r pv :
  (15 < length r)%nat -> first_marker r = None ->
  parse_spec (R:=R) p LEN (r, pv) = Panicked UnwrapNone.
Proof.
  intros Hlen Hm. apply parse_spec_panic.
  - by apply Nat.ltb_lt.
  - unfold iter_spec. cbn [fst]. by rewrite find_marker_first, Hm.
Qed.

End SpecCases.

(** ** A frame cut in its payload *)

(** The first [12 + m] bytes of a frame, with four payload bytes at least:
    the payload loop takes what there is, and when the checksum of the
    part does not match the frame's, the part is lost with the error. *)
Lemma decode_spec_truncated p LEN l pv f m :
  frame_wf f -> (4 <= m < length (f_payload f))%nat ->
  checksum (f_dtype f) (take m (f_payload f)) <> checksum (f_dtype f) (f_payload f) ->
  is_Some (seq_report p pv (f_seqnum f)) ->
  decode_spec p LEN l pv (drop 2 (take (12 + m) (encode f))) =
  Ret (Err ERR_CHECKSUM) ([], Some (f_seqnum f)).
Proof.
  intros Hwf Hm Hc [g Hg]. unfold encode.
  destruct (frame_bytes_fields (checksum (f_dtype f) (f_payload f)) f [] Hwf)
    as (l0 & l1 & i0 & i1 & s0 & s1 & E & E1 & E2 & E3).
  rewrite !app_nil_r in E. rewrite E. cbn [Nat.add take drop].
  rewrite decode_spec_header by (rewrite length_take; lia). cbv zeta.
  rewrite E1, E2, u16_not_involutive, decide_True, payload_len_declared, Hg by done.
  rewrite take_take, drop_ge by (rewrite length_take; lia).
  rewrite Nat.min_r by lia. by rewrite decide_False.
Qed.

Lemma length_take_encode f m :
  (m <= length (f_payload f))%nat -> length (take (12 + m) (encode f)) = (12 + m)%nat.
Proof. intros H. rewrite length_take, length_encode. lia. Qed.

(** ** The values stay within their types *)

Lemma datatype_wf_from b : is_u8 b -> datatype_wf (DataType.from b).
Proof.
  intros Hb. pose proof (DataType_from_spec b) as H.
  destruct (DataType.from b) eqn:E; try done. cbn in H. by injection H as ->.
Qed.

Lemma locals_wf_intro ss d dv ver tf wc :
  is_u16 ss -> datatype_wf d -> bytes dv -> is_u32 ver -> is_u32 tf -> 0 <= wc ->
  locals_wf {| tt_ss := ss; datatype := d; datavec := dv; zeo_version := ver;
               zeo_time_full := tf; while_counter := wc |}.
Proof. intros. split; [|done]. unfold packet_wf. cbn. auto. Qed.

Lemma locals_wf_init : locals_wf init_locals.
Proof. apply locals_wf_intro; by_compute. Qed.

(** The clock step gives a payload of bytes, a time and a version. *)
Lemma clock_spec_typed t d pl l c :
  bytes pl -> locals_wf l -> clock_spec t d pl l = Some c ->
  bytes c.1.1 /\ is_u32 c.1.2 /\ is_u32 c.2.
Proof.
  intros Hpl [(Ht & _ & Hv & _) _] Hc. unfold clock_spec in Hc.
  destruct d; simplify_eq/=; try done;
    destruct (take_u32 pl) as [[v rest]|] eqn:E; simplify_eq/=;
    destruct (take_u32_range _ _ _ Hpl E); auto using reconcile_range.
Qed.

Section Typed.
Context (p : Profile) (LEN : nat).

Lemma decode_spec_typed l pv r :
  bytes r -> locals_wf l -> from_option is_u8 True pv ->
  post (fun l' c => locals_wf l' /\ from_option is_u8 True c.2)
       (fun res c => result_wf res /\ from_option is_u8 True c.2)
       (decode_spec p LEN l pv r).
Proof.
  intros Hr Hl Hpv. unfold decode_spec. case_match; [done|].
  do 10 (destruct r as [|? r]; [done|]). repeat apply bytes_cons in Hr as [? Hr].
  repeat case_match; try done. cbn.
  select (clock_spec _ _ _ _ = _) (fun H =>
    destruct (clock_spec_typed _ _ _ _ _ (bytes_take _ _ Hr) Hl H) as (? & ? & ?)).
  split; [|done]. destruct Hl as [_ Hl].
  apply locals_wf_intro; auto using u16_from_le_bytes_range, datatype_wf_from with lia.
Qed.

Lemma iter_spec_typed l c :
  locals_wf l -> core_wf LEN c ->
  post (fun l' c' => locals_wf l' /\ core_wf LEN c')
       (fun res c' => result_wf res /\ core_wf LEN c') (iter_spec p LEN l c).
Proof.
  intros Hl [Hr Hpv].
  pose proof (iter_spec_inv LEN (ring_wf LEN) (ring_wf_suffix LEN) (ring_wf_push_front LEN)
                p l c Hr) as Hi.
  unfold iter_spec in *. destruct (find_marker _ _) as [r'|] eqn:E; [|done].
  pose proof (decode_spec_typed l c.2 r' (find_marker_bytes _ _ E (proj2 Hr)) Hl Hpv) as Ht.
  destruct (decode_spec p LEN l c.2 r') as [l' c'|res c'| |]; cbn in *; try done;
    unfold core_wf in *; naive_solver.
Qed.

(** [parse_spec] keeps the ring and the sequence number within their
    types, and what it returns is a value of its result type. *)
Lemma parse_spec_typed {R} c :
  core_wf LEN c ->
  post (fun res c' => result_wf res /\ core_wf LEN c') (fun _ _ => False)
       (parse_spec (R:=R) p LEN c).
Proof.
  intros Hc. unfold parse_spec. apply call_post. eapply bind_post.
  - apply (while_loop_post _ _ (fun l c => locals_wf l /\ core_wf LEN c)
             (fun res c => result_wf res /\ core_wf LEN c));
      [|by split; [apply locals_wf_init|]].
    intros l c1 [Hl Hc1] _. by apply iter_spec_typed.
  - by intros l c1 [[[Hl _] Hc1] _].
Qed.

End Typed.

(** ** What the result says of the ring *)

Lemma result_ring_suffix r1 r res r' :
  r1 `suffix_of` r -> result_ring r1 res r' -> result_ring r res r'.
Proof.
  intros Hs. pose proof (suffix_length _ _ Hs). destruct res as [[pk|]|e]; cbn; [done| |].
  - intros (tail & -> & Hl & Ht). exists tail. split_and!; [done..|by etrans].
  - intros [He Hl]. split; [done|lia].
Qed.

(** Whatever the result, a ring of more than fifteen bytes got shorter. *)
Lemma result_ring_shrinks r res r' :
  (15 < length r)%nat -> result_ring r res r' -> (length r' < length r)%nat.
Proof.
  intros Hr. destruct res as [[pk|]|e]; cbn; [lia| |lia].
  intros (tail & -> & Hl & _). cbn. lia.
Qed.

Section Result.
Context (p : Profile) (LEN : nat).

Lemma decode_spec_result l pv r :
  (length r + 2 <= LEN)%nat ->
  post (fun _ c' => (length c'.1 + 10 <= length r)%nat)
       (fun res c' => result_ring (0x41 :: 0x34 :: r) res c'.1) (decode_spec p LEN l pv r).
Proof.
  intros HL. destruct (Nat.ltb_spec (length r) 14) as [Hs|Hl].
  - rewrite decode_spec_short by done. exists r. split_and!; [done..|].
    by do 2 apply suffix_cons_r.
  - destruct (decode_spec p LEN l pv r) as [l' c'|res c'| |] eqn:E; cbn; try done.
    { by apply decode_spec_val_length in E. }
    unfold decode_spec in E. rewrite (proj2 (Nat.ltb_ge _ _) Hl) in E.
    repeat case_match; simplify_eq; cbn; (split; [unfold errors; set_solver|]);
      rewrite ?length_drop; cbn [length]; lia.
Qed.

Lemma iter_spec_result l (c : Core) :
  CircularBuffer.wf LEN c.1 ->
  post (fun _ c' => (length c'.1 + 12 <= length c.1)%nat)
       (fun res c' => result_ring c.1 res c'.1) (iter_spec p LEN l c).
Proof.
  intros Hw. unfold iter_spec.
  destruct (find_marker _ _) as [r'|] eqn:E; [|done].
  destruct (find_marker_split _ _ E) as (pre & Hc & _).
  assert (length r' + 2 <= LEN)%nat as HL.
  { unfold CircularBuffer.wf in Hw. rewrite Hc, length_app in Hw. cbn in Hw. lia. }
  eapply post_impl; [| |apply (decode_spec_result l c.2 r' HL)]; cbn beta.
  - intros l' c' Hl. rewrite Hc, length_app. cbn. lia.
  - intros res c'. apply result_ring_suffix. rewrite Hc. by apply suffix_app_r.
Qed.

(** The result of [parse_spec] on a ring within its capacity tells what is
    left of the ring. *)
Lemma parse_spec_result {R} (c : Core) :
  CircularBuffer.wf LEN c.1 ->
  post (fun res c' => result_ring c.1 res c'.1) (fun _ _ => False)
       (parse_spec (R:=R) p LEN c).
Proof.
  intros Hw. unfold parse_spec. apply call_post. eapply bind_post.
  - apply (while_loop_post _ _ (fun _ c1 => c1.1 `suffix_of` c.1)
             (fun res c' => result_ring c.1 res c'.1)); [|done].
    intros l c1 Hs _.
    assert (CircularBuffer.wf LEN c1.1) as Hw1
      by (apply suffix_length in Hs; unfold CircularBuffer.wf in *; lia).
    eapply post_impl, post_and;
      [| |apply post_holds_after, (iter_spec_suffix p LEN l c1 Hw1)
         |apply (iter_spec_result l c1 Hw1)]; cbn beta.
    + intros l' c' [Hl _]. by etrans.
    + intros res c' [_ Hr]. by apply (result_ring_suffix c1.1).
  - intros l c1 [_ Hc%Nat.ltb_ge]. exact Hc.
Qed.

End Result.

(** ** The panics *)

Lemma payload_len_release dl : is_Some (payload_len Release dl).
Proof. unfold payload_len. case_decide; by eexists. Qed.

Section Panics.
Context (p : Profile) (LEN : nat).

Lemma decode_spec_panics l pv r : panics_in (parse_panic p) (decode_spec p LEN l pv r).
Proof.
  unfold decode_spec, parse_panic. destruct p.
  - repeat case_match; cbn; try done; (by left) || (by right).
  - pose proof (seq_report_release pv) as Hsr. pose proof payload_len_release as Hpl.
    repeat case_match; cbn; try done; try (by left);
      repeat match goal with
      | H : seq_report Release _ ?q = None |- _ => by destruct (Hsr q) as [? ?]; simplify_eq
      | H : payload_len Release ?d = None |- _ => by destruct (Hpl d) as [? ?]; simplify_eq
      end.
Qed.

(** [parse_spec] panics on an [unwrap], or on an overflow in a build that
    checks for it, and in no other way. *)
Lemma parse_spec_panics {R} c : panics_in (parse_panic p) (parse_spec (R:=R) p LEN c).
Proof.
  unfold parse_spec. apply call_panics_in, bind_panics_in; [|done].
  apply while_loop_panics_in. intros l c1. unfold iter_spec.
  case_match; [apply decode_spec_panics|by left].
Qed.

End Panics.
