(* ===== verification/Carried.v ===== *)
(** * Carried: the frames a ring carries

    The specification of [parse] read the other way round: not what the
    decoder does to a ring, but which rings hold frames.  [holds_frame]
    says that bytes start with a frame as [parse] takes one (whole, or cut
    short in its data by the end of the ring), [carried] that a ring is
    made of such frames, each behind bytes without marker, and [accepts]
    what makes [parse] return a packet.  [refuses] says that bytes start
    with what [parse] returns early on (a marker with fewer than fourteen
    bytes behind it, a length field that is not the complement of the
    other, a checksum byte that is not the checksum, a type that is not in
    the table) and [rejects] what makes [parse] return without a packet.

    The decoder is sound and complete for them: a packet [parse_spec]
    returns was carried by the ring ([parse_spec_sound]) and a ring that
    carries frames up to fifteen bytes or fewer is decoded
    ([parse_spec_complete]); a call that returns without a packet found,
    behind the frames the ring carried, bytes it refuses
    ([parse_spec_rejects_sound]), and returns so on every such ring
    ([parse_spec_rejects_complete]); a call that panics found no marker or
    bytes that make it panic ([aborts], [parse_spec_aborts_sound],
    [parse_spec_aborts_complete]).  The locals decide the packet only: the
    iterations end the same way whatever they hold ([same_end]), so that
    behind frames the ring carries a call ends as it does on the rest of
    the ring ([parse_spec_after]).  [parse_spec_take] is the call on the
    first bytes of a frame. *)

From stdpp Require Import strings.
From S2P Require Import Prelude Machine DataTypes Ring Sync Timestamp Frame ParserSpec.

(** The bytes [b] start with the fields of the frame [f] behind the
    checksum byte [c] and go on with [r], as [parse] takes a frame: fourteen
    bytes at least follow the marker, and the frame is whole, or it is cut
    short by the end of the ring, with a length field that asks for more
    data than there is. *)
Inductive holds_bytes (p : Profile) (c : Z) : list Z -> Frame -> list Z -> Prop :=
  | holds_whole f r :
      frame_wf f -> (4 <= length (f_payload f ++ r))%nat ->
      holds_bytes p c (frame_bytes c f ++ r) f r
  | holds_cut dl n f :
      frame_wf f -> is_u16 dl -> payload_len p dl = Some n ->
      (4 <= length (f_payload f) < n)%nat ->
      holds_bytes p c (wire_bytes c dl f) f [].

(** The bytes [b] start with the frame [f]: the checksum byte is the
    checksum of the data that is there. *)
Definition holds_frame (p : Profile) (b : list Z) (f : Frame) (r : list Z) : Prop :=
  holds_bytes p (checksum (f_dtype f) (f_payload f)) b f r.

(** The ring [r] carries the frames [fs] and ends with [r']: each frame
    stands behind bytes without marker. *)
Inductive carried (p : Profile) : list Z -> list Frame -> list Z -> Prop :=
  | carried_nil r : carried p r [] r
  | carried_cons pre b f r fs r' :
      first_marker (pre ++ [0x41]) = None ->
      holds_frame p b f r ->
      carried p r fs r' ->
      carried p (pre ++ b) (f :: fs) r'.

(** What makes [parse] return the packet [pk], leave [c'] of [c] and
    remember the sequence number of [c']: the ring carried frames up to the
    fifteen bytes or fewer that are left, and the packet is what decoding
    them in sequence gives. *)
Definition accepts (p : Profile) (c : Core) (pk : Packet) (c' : Core) : Prop :=
  exists fs l, carried p c.1 fs c'.1 /\
               decode_stream p init_locals c.2 fs = Some (l, c'.2) /\
               pk = packet_of l /\ (length c'.1 <= 15)%nat.

(** The bytes [b], from a marker on, are refused with the result [res] and
    the ring and the sequence number [c'] are left, when [pv] is the
    sequence number carried: fewer than fourteen bytes follow the marker,
    which stays; or the two length fields do not agree, and the marker, the
    checksum byte and the length fields are gone; or the bytes hold the
    fields of a frame behind a checksum byte that is not the checksum, or
    a frame of a type that is not in the table, and these are gone. *)
Inductive refuses (p : Profile) (pv : option Z) : list Z -> ParseResult -> Core -> Prop :=
  | refuses_short b :
      (length b < 14)%nat ->
      refuses p pv (0x41 :: 0x34 :: b) (Ok None) (0x41 :: 0x34 :: b, pv)
  | refuses_length c l0 l1 i0 i1 rest :
      (9 <= length rest)%nat ->
      u16_from_le_bytes l0 l1 <> u16_not (u16_from_le_bytes i0 i1) ->
      refuses p pv (0x41 :: 0x34 :: c :: l0 :: l1 :: i0 :: i1 :: rest) (Err ERR_LENGTH) (rest, pv)
  | refuses_checksum c b f r :
      holds_bytes p c b f r -> c <> checksum (f_dtype f) (f_payload f) ->
      is_Some (seq_report p pv (f_seqnum f)) ->
      refuses p pv b (Err ERR_CHECKSUM) (r, Some (f_seqnum f))
  | refuses_datatype b f r :
      holds_frame p b f r -> DataType.known (DataType.from (f_dtype f)) = false ->
      is_Some (seq_report p pv (f_seqnum f)) ->
      refuses p pv b (Err ERR_DATATYPE) (r, Some (f_seqnum f)).

(** What makes [parse] return [res] without a packet and leave [c'] of
    [c]: the ring carried frames up to more than fifteen bytes, of which
    the bytes from the first marker on are refused. *)
Definition rejects (p : Profile) (c : Core) (res : ParseResult) (c' : Core) : Prop :=
  exists fs l r1 pv1 pre b,
    carried p c.1 fs r1 /\ decode_stream p init_locals c.2 fs = Some (l, pv1) /\
    r1 = pre ++ b /\ (15 < length r1)%nat /\ first_marker (pre ++ [0x41]) = None /\
    refuses p pv1 b res c'.

(** The bytes [b], from a marker on, make [parse] panic with [k], when
    [pv] is the sequence number carried: on a subtraction, when the two
    length fields agree and the sequence number is behind the one expected
    or the length is zero, in a build that checks for overflow; on the
    [unwrap] of the clock step, when the bytes hold a frame of a known type
    whose data is too short for it. *)
Inductive aborts_on (p : Profile) (pv : option Z) : list Z -> PanicKind -> Prop :=
  | aborts_overflow c l0 l1 i0 i1 t s0 s1 q rest :
      (5 <= length rest)%nat ->
      u16_from_le_bytes l0 l1 = u16_not (u16_from_le_bytes i0 i1) ->
      seq_report p pv q = None \/ payload_len p (u16_from_le_bytes l0 l1) = None ->
      aborts_on p pv (0x41 :: 0x34 :: c :: l0 :: l1 :: i0 :: i1 :: t :: s0 :: s1 :: q :: rest)
        ArithOverflow
  | aborts_clock b f r :
      holds_frame p b f r -> DataType.known (DataType.from (f_dtype f)) = true ->
      is_Some (seq_report p pv (f_seqnum f)) -> locals_after init_locals f = None ->
      aborts_on p pv b UnwrapNone.

(** What makes [parse] panic with [k]: the ring carried frames up to more
    than fifteen bytes that hold no marker, or of which the bytes from the
    first marker on make it panic. *)
Definition aborts (p : Profile) (c : Core) (k : PanicKind) : Prop :=
  exists fs l r1 pv1,
    carried p c.1 fs r1 /\ decode_stream p init_locals c.2 fs = Some (l, pv1) /\
    (15 < length r1)%nat /\
    (first_marker r1 = None /\ k = UnwrapNone \/
     exists pre b, r1 = pre ++ b /\ first_marker (pre ++ [0x41]) = None /\ aborts_on p pv1 b k).

(** The result of [parse] on the first [12 + m] bytes of the frame [f],
    from which the locals [l'] are decoded: the frame cut there when the
    data that is there has the checksum of the frame, the checksum error
    otherwise. *)
Definition cut_result (f : Frame) (m : nat) (l' : Locals) : ParseResult :=
  if decide (checksum (f_dtype f) (take m (f_payload f)) = checksum (f_dtype f) (f_payload f))
  then Ok (Some (packet_of l'))
  else Err ERR_CHECKSUM.

(** The call ended with a packet. *)
Definition is_packet {S R} (o : Outcome S R ParseResult) : bool :=
  match o with
  | Val (Ok (Some _)) _ => true
  | _ => false
  end.

(** ** Soundness and completeness

    [parse] returns a packet exactly when the ring carries frames up to
    fifteen bytes or fewer: [carried] is read off the bytes by the decoder
    (soundness) and a ring that carries frames is decoded (completeness). *)

(** A payload length below the largest comes from a length field that is
    not zero. *)
Lemma payload_len_declared_inv p dl n :
  is_u16 dl -> payload_len p dl = Some n -> Z.of_nat n < u16_MAX -> dl = Z.of_nat n + 1.
Proof.
  intros Hdl Hn Hlt. unfold payload_len in Hn.
  case_decide; [|destruct p; [done|]]; simplify_eq; [lia|].
  assert (dl = 0) as -> by range. change ((0 - 1) mod 2 ^ 16) with 65535 in Hlt. range.
Qed.

Section Carried.
Context (p : Profile) (LEN : nat).

(** A frame cut short by the end of the ring is decoded with the data it
    has: the checksum is computed over what was read. *)
Lemma decode_spec_cut l pv c dl n f :
  frame_wf f -> is_u16 dl -> payload_len p dl = Some n ->
  (4 <= length (f_payload f) < n)%nat ->
  decode_spec p LEN l pv (drop 2 (wire_bytes c dl f)) =
  decode_spec p LEN l pv (drop 2 (frame_bytes c f ++ [])).
Proof.
  intros Hwf Hdl Hn Hlen. rewrite decode_spec_frame by (done || (rewrite app_nil_r; lia)).
  destruct (wire_bytes_fields c dl f Hdl Hwf)
    as (l0 & l1 & i0 & i1 & s0 & s1 & -> & E1 & E2 & E3).
  cbn [drop]. rewrite decode_spec_header by lia. cbv zeta.
  rewrite E1, E2, E3, u16_not_involutive, decide_True, Hn by done.
  rewrite take_ge, drop_ge by lia. unfold locals_after, checksum.
  destruct (seq_report _ _ _); [|done]. case_decide; [|done].
  destruct (DataType.known _); [|done]. by destruct (clock_spec _ _ _ _).
Qed.

(** What [parse] does with the fields of a frame behind a checksum byte. *)
Lemma decode_spec_bytes l pv c b f r :
  holds_bytes p c b f r ->
  decode_spec p LEN l pv (drop 2 b) =
  match seq_report p pv (f_seqnum f) with
  | Some _ =>
      if decide (checksum (f_dtype f) (f_payload f) = c) then
        if DataType.known (DataType.from (f_dtype f)) then
          match locals_after l f with
          | Some l' => Val l' (r, Some (f_seqnum f))
          | None => Panicked UnwrapNone
          end
        else Ret (Err ERR_DATATYPE) (r, Some (f_seqnum f))
      else Ret (Err ERR_CHECKSUM) (r, Some (f_seqnum f))
  | None => Panicked ArithOverflow
  end.
Proof.
  intros [f' r' Hwf Hlen|dl n f' Hwf Hdl Hn Hlen]; [by apply decode_spec_frame|].
  rewrite (decode_spec_cut l pv c dl n) by done.
  apply decode_spec_frame; [done|]. rewrite app_nil_r. lia.
Qed.

(** Completeness of the decoding of a frame. *)
Lemma decode_spec_holds l pv b f r l' :
  holds_frame p b f r ->
  DataType.known (DataType.from (f_dtype f)) = true ->
  is_Some (seq_report p pv (f_seqnum f)) -> locals_after l f = Some l' ->
  decode_spec p LEN l pv (drop 2 b) = Val l' (r, Some (f_seqnum f)).
Proof.
  intros Hb Hk [g Hg] Hl. by rewrite (decode_spec_bytes l pv _ b f r Hb), Hg, decide_True, Hk, Hl.
Qed.

Lemma holds_bytes_marker c b f r :
  holds_bytes p c b f r -> b = 0x41 :: 0x34 :: drop 2 b /\ (15 < length b)%nat.
Proof.
  intros [f' r' _ Hlen|dl n f' _ _ _ Hlen]; (split; [done|]).
  - rewrite length_app, length_frame_bytes. rewrite length_app in Hlen. lia.
  - rewrite length_wire_bytes. lia.
Qed.

(** Completeness: frames a ring carries are decoded one per iteration. *)
Lemma carried_iterates r fs r' :
  carried p r fs r' -> forall l pv l' pv',
  decode_stream p l pv fs = Some (l', pv') -> iterates p LEN l (r, pv) l' (r', pv').
Proof.
  induction 1 as [r|pre b f r fs r' Hpre Hb _ IH]; intros l pv l' pv'; cbn [decode_stream].
  { intros [= <- <-]. apply iterates_refl. }
  destruct (DataType.known _) eqn:Hk; [|done].
  destruct (seq_report _ _ _) as [g|] eqn:Hg; [|done]. cbn.
  destruct (locals_after l f) as [l1|] eqn:Hl; [|done]. cbn. intros Hs.
  destruct (holds_bytes_marker _ b f r Hb) as [Eb Hlen].
  eapply iterates_step; [| |by apply IH].
  - apply Nat.ltb_lt. cbn [fst]. rewrite length_app. lia.
  - rewrite Eb, iter_spec_app by done. by apply (decode_spec_holds l pv b f r l1).
Qed.

(** The header and the payload read from a ring are fields the bytes
    hold. *)
Lemma holds_bytes_read c l0 l1 i0 i1 t s0 s1 q d tail n :
  bytes (l0 :: l1 :: i0 :: i1 :: t :: s0 :: s1 :: q :: d :: tail) ->
  Z.of_nat (length tail) < u16_MAX -> (4 <= length tail)%nat ->
  u16_from_le_bytes l0 l1 = u16_not (u16_from_le_bytes i0 i1) ->
  payload_len p (u16_from_le_bytes l0 l1) = Some n ->
  holds_bytes p c (0x41 :: 0x34 :: c :: l0 :: l1 :: i0 :: i1 :: t :: s0 :: s1 :: q :: d :: tail)
    (mkFrame t (u16_from_le_bytes s0 s1) q d (take n tail)) (drop n tail).
Proof.
  intros Hb Hlen H4 Hdl Hn. rewrite !bytes_cons in Hb. destruct_and!.
  set (f := mkFrame _ _ _ _ _).
  assert (Hdl16 : is_u16 (u16_from_le_bytes l0 l1)) by by apply u16_from_le_bytes_range.
  assert (Hwf : frame_wf f).
  { unfold frame_wf, declared_length. cbn. rewrite length_take.
    split_and!; [done|by apply u16_from_le_bytes_range|done|done|by apply bytes_take|range]. }
  assert (Hw : wire_bytes c (u16_from_le_bytes l0 l1) f ++ drop n tail
               = 0x41 :: 0x34 :: c :: l0 :: l1 :: i0 :: i1 :: t :: s0 :: s1 :: q :: d :: tail).
  { unfold f. rewrite (wire_bytes_read c l0 l1 i0 i1) by (done || bytes_list).
    cbn [app]. by rewrite take_drop. }
  rewrite <- Hw. destruct (decide (n <= length tail)%nat) as [Hle|Hgt].
  - rewrite (payload_len_declared_inv p _ n Hdl16 Hn) by lia.
    replace (Z.of_nat n + 1) with (declared_length f)
      by (unfold declared_length, f; cbn; rewrite length_take; lia).
    rewrite wire_bytes_declared. apply holds_whole; [done|]. unfold f. cbn. rewrite take_drop. done.
  - rewrite drop_ge, app_nil_r by lia. apply (holds_cut p c _ n); [done..|].
    unfold f. cbn. rewrite take_ge by lia. lia.
Qed.

(** Soundness of the decoding of a frame: what is decoded behind a marker
    is a frame the bytes hold. *)
Lemma decode_spec_sound l pv r l' c' :
  bytes r -> Z.of_nat (length r) <= u16_MAX ->
  decode_spec p LEN l pv r = Val l' c' ->
  exists f,
    holds_frame p (0x41 :: 0x34 :: r) f c'.1 /\
    DataType.known (DataType.from (f_dtype f)) = true /\
    is_Some (seq_report p pv (f_seqnum f)) /\
    locals_after l f = Some l' /\ c'.2 = Some (f_seqnum f).
Proof.
  intros Hb Hlen. unfold decode_spec. case_match eqn:H14; [done|]. apply Nat.ltb_ge in H14.
  destruct r as [|c [|l0 [|l1 [|i0 [|i1 [|t [|s0 [|s1 [|q [|d tail]]]]]]]]]]; try done.
  case_decide as Hdl; [|done].
  destruct (seq_report p pv q) as [g|] eqn:Hg; [|done].
  destruct (payload_len p _) as [n|] eqn:Hn; [|done].
  case_decide as Hc; [|done]. destruct (DataType.known _) eqn:Hk; [|done].
  destruct (clock_spec _ _ _ _) as [ck|] eqn:Hck; [|done]. intros [= <- <-].
  exists (mkFrame t (u16_from_le_bytes s0 s1) q d (take n tail)).
  cbn [fst snd f_dtype f_seqnum f_payload length] in *. apply bytes_cons in Hb as [_ Hb].
  split_and!; [subst c; apply holds_bytes_read; (done || lia || range)|done..| |done].
  unfold locals_after. cbn. by rewrite Hck.
Qed.

(** An iteration that decodes: the ring is bytes without marker, a frame
    and what is left. *)
Lemma iter_spec_sound l c l' c' :
  bytes c.1 -> Z.of_nat (length c.1) <= u16_MAX ->
  iter_spec p LEN l c = Val l' c' ->
  exists f, carried p c.1 [f] c'.1 /\
    DataType.known (DataType.from (f_dtype f)) = true /\
    is_Some (seq_report p c.2 (f_seqnum f)) /\
    locals_after l f = Some l' /\ c'.2 = Some (f_seqnum f).
Proof.
  intros Hb Hlen. unfold iter_spec. destruct (find_marker _ _) as [r|] eqn:E; [|done].
  destruct (find_marker_split _ _ E) as (pre & Hr & Hpre).
  intros (f & Hf & H)%decode_spec_sound.
  - exists f. split; [|done]. rewrite Hr. by repeat econstructor.
  - by apply (find_marker_bytes _ _ E).
  - apply find_marker_length in E. lia.
Qed.

Lemma carried_one pre b f r :
  first_marker (pre ++ [0x41]) = None -> holds_frame p b f r -> carried p (pre ++ b) [f] r.
Proof. intros. econstructor; [done..|constructor]. Qed.

Lemma carried_app r1 fs1 r2 fs2 r3 :
  carried p r1 fs1 r2 -> carried p r2 fs2 r3 -> carried p r1 (fs1 ++ fs2) r3.
Proof. induction 1; [done|]. intros. cbn. econstructor; eauto. Qed.

(** What is carried is a suffix: the ring left ends the ring given. *)
Lemma carried_suffix r fs r' : carried p r fs r' -> r' `suffix_of` r.
Proof.
  induction 1 as [|pre b f r fs r' _ Hb _ IH]; [done|]. etrans; [exact IH|].
  apply suffix_app_r. destruct Hb; [apply suffix_app_r; done|apply suffix_nil].
Qed.

(** Soundness: iterations that decode frames read them off the ring. *)
Lemma iterates_carried l c l' c' :
  iterates p LEN l c l' c' -> bytes c.1 -> Z.of_nat (length c.1) <= u16_MAX ->
  exists fs, carried p c.1 fs c'.1 /\ decode_stream p l c.2 fs = Some (l', c'.2).
Proof.
  induction 1 as [l c|l c l1 c1 l2 c2 Hc Hi Hit IH]; intros Hb Hlen.
  { exists []. split; [constructor|done]. }
  destruct (iter_spec_sound _ _ _ _ Hb Hlen Hi) as (f & Hf & Hk & [g Hg] & Hl & Hq).
  pose proof (carried_suffix _ _ _ Hf) as [k Hs].
  rewrite Hs in Hb, Hlen. rewrite bytes_app in Hb. rewrite length_app in Hlen.
  destruct IH as (fs & Hfs & Hds); [naive_solver | lia |].
  exists (f :: fs). split; [by apply (carried_app _ [f] c1.1)|].
  cbn [decode_stream]. rewrite Hk, Hg, Hl. cbn. by rewrite <- Hq.
Qed.

(** An early return is not a packet. *)
Lemma iter_spec_ret l c res c' :
  iter_spec p LEN l c = Ret res c' -> forall pk, res <> Ok (Some pk).
Proof.
  unfold iter_spec, decode_spec. repeat case_match; try done; by intros [= <- _] pk.
Qed.

(** Soundness: a packet [parse_spec] returns was carried by the ring. *)
Lemma parse_spec_sound {R} (c : Core) pk c' :
  bytes c.1 -> Z.of_nat (length c.1) <= u16_MAX ->
  parse_spec (R:=R) p LEN c = Val (Ok (Some pk)) c' -> accepts p c pk c'.
Proof.
  intros Hb Hlen E.
  destruct (parse_spec_returned p LEN c _ c' E)
    as (l & c1 & Hit & [(H15%Nat.ltb_ge & Epk & ->)|[_ Hi]]).
  - destruct (iterates_carried _ _ _ _ Hit Hb Hlen) as (fs & ? & ?). exists fs, l.
    by simplify_eq.
  - by destruct (iter_spec_ret _ _ _ _ Hi pk).
Qed.

(** Completeness: a ring that carries frames up to fifteen bytes or fewer
    has them decoded, and the packet of the last is returned. *)
Lemma parse_spec_complete {R} (c : Core) pk c' :
  accepts p c pk c' -> parse_spec (R:=R) p LEN c = Val (Ok (Some pk)) c'.
Proof.
  intros (fs & l & Hc & Hd & -> & H15). destruct c as [r pv], c' as [r' pv'].
  apply parse_spec_iterates; [by apply (carried_iterates r fs r')|by apply Nat.ltb_ge].
Qed.

(** ** The first bytes of a frame *)

Lemma holds_bytes_take c f m :
  frame_wf f -> (4 <= m <= length (f_payload f))%nat ->
  holds_bytes p c (take (12 + m) (frame_bytes c f)) (cut_payload m f) [].
Proof.
  intros Hwf Hm. destruct (decide (m = length (f_payload f))) as [->|Hne].
  - rewrite cut_payload_ge, take_ge by (rewrite ?length_frame_bytes; lia).
    rewrite <- (app_nil_r (frame_bytes c f)). apply holds_whole; [done|]. rewrite app_nil_r. lia.
  - rewrite take_frame_bytes.
    apply (holds_cut p c _ (length (f_payload f)));
      [by apply cut_payload_wf|apply Hwf|apply payload_len_declared|].
    cbn. rewrite length_take. lia.
Qed.

Lemma holds_frame_take f m :
  frame_wf f -> (4 <= m <= length (f_payload f))%nat ->
  checksum (f_dtype f) (take m (f_payload f)) = checksum (f_dtype f) (f_payload f) ->
  holds_frame p (take (12 + m) (encode f)) (cut_payload m f) [].
Proof.
  intros Hwf Hm Hc. unfold holds_frame. cbn [cut_payload f_dtype f_payload]. rewrite Hc.
  by apply holds_bytes_take.
Qed.

(** [parse_spec] on the first bytes of a frame, with four bytes of data at
    least: the data that is there is the payload. *)
Lemma parse_spec_take {R} f m pv l' :
  frame_wf f -> (4 <= m <= length (f_payload f))%nat ->
  DataType.known (DataType.from (f_dtype f)) = true ->
  is_Some (seq_report p pv (f_seqnum f)) ->
  locals_after init_locals (cut_payload m f) = Some l' ->
  parse_spec (R:=R) p LEN (take (12 + m) (encode f), pv) =
  Val (cut_result f m l') ([], Some (f_seqnum f)).
Proof.
  intros Hwf Hm Hk Hs Hl. unfold cut_result. case_decide as Hc.
  - apply parse_spec_complete. exists [cut_payload m f], l'. cbn [fst snd decode_stream].
    change (f_dtype (cut_payload m f)) with (f_dtype f).
    change (f_seqnum (cut_payload m f)) with (f_seqnum f).
    destruct Hs as [g Hg]. rewrite Hk, Hg, Hl. split_and!; [|done..|cbn; lia].
    by apply (carried_one []), holds_frame_take.
  - assert (m < length (f_payload f))%nat as Hlt.
    { destruct (decide (m = length (f_payload f))) as [->|]; [|lia].
      by rewrite take_ge in Hc by lia. }
    apply parse_spec_ret.
    + apply Nat.ltb_lt. cbn [fst]. rewrite length_take_encode; lia.
    + etrans; [|apply (decode_spec_truncated p LEN init_locals pv f m); (done || lia)].
      unfold encode, frame_bytes. cbn [Nat.add take drop].
      by apply (iter_spec_app p LEN init_locals []).
Qed.

(** ** The locals decide the packet only *)

(** Whether the clock step panics does not depend on the locals. *)
Lemma clock_spec_locals t d pl l l0 :
  is_Some (clock_spec t d pl l) -> is_Some (clock_spec t d pl l0).
Proof. unfold clock_spec. destruct d; try done; by destruct (take_u32 pl). Qed.

Lemma decode_spec_same_end l l0 pv r :
  same_end (decode_spec p LEN l pv r) (decode_spec p LEN l0 pv r).
Proof.
  unfold decode_spec. repeat case_match; try done;
    match goal with
    | H : clock_spec _ _ _ ?a = Some _, H' : clock_spec _ _ _ ?b = None |- _ =>
        by destruct (clock_spec_locals _ _ _ a b (mk_is_Some _ _ H)) as [? ?]; simplify_eq
    end.
Qed.

Lemma iter_spec_same_end l l0 c : same_end (iter_spec p LEN l c) (iter_spec p LEN l0 c).
Proof. unfold iter_spec. case_match; [apply decode_spec_same_end|done]. Qed.

Lemma is_packet_map_state {S S' R'} (f : S -> S') (o : Outcome S R' ParseResult) :
  is_packet (map_state f o) = is_packet o.
Proof. by destruct o. Qed.

(** Behind frames the ring carries, [parse_spec] ends as it does on the
    rest of the ring, unless that is with a packet. *)
Lemma parse_spec_after {R} (c c1 : Core) fs l :
  carried p c.1 fs c1.1 -> decode_stream p init_locals c.2 fs = Some (l, c1.2) ->
  is_packet (parse_spec (R:=R) p LEN c1) = false ->
  parse_spec (R:=R) p LEN c = parse_spec p LEN c1.
Proof.
  intros Hc Hd. destruct c as [r pv], c1 as [r1 pv1]. cbn [fst snd] in *.
  pose proof (carried_iterates r fs r1 Hc _ _ _ _ Hd) as Hit.
  unfold parse_spec, call, bind. rewrite (spec_loop_iterates p LEN _ _ _ _ Hit). cbn [fst].
  pose proof (while_loop_same_end more_than_15_spec _ _ (iter_spec_same_end) (length r1)
                l init_locals (r1, pv1)) as H.
  unfold ret, is_packet.
  destruct (while_loop _ _ _ l _), (while_loop _ _ _ init_locals _); cbn in *; try done.
  all: by destruct_and?; simplify_eq.
Qed.

(** ** What is refused *)

Lemma refuses_marker pv b res c' : refuses p pv b res c' -> b = 0x41 :: 0x34 :: drop 2 b.
Proof.
  intros [b' _|c l0 l1 i0 i1 rest _ _|c b' f r Hb _ _|b' f r Hb _ _]; try done;
    by apply (holds_bytes_marker _ _ _ _ Hb).
Qed.

(** What is refused is not returned as a packet. *)
Lemma refuses_not_packet pv b res c' pk : refuses p pv b res c' -> res <> Ok (Some pk).
Proof. by intros []. Qed.

(** Completeness: what is refused makes the decoding return early. *)
Lemma decode_spec_refuses l pv b res c' :
  refuses p pv b res c' -> (length b <= LEN)%nat ->
  decode_spec p LEN l pv (drop 2 b) = Ret res c'.
Proof.
  intros [b' Hlen|c l0 l1 i0 i1 rest Hlen Hdl|c b' f r Hb Hc [g Hg]|b' f r Hb Hk [g Hg]] HL.
  - cbn [drop length] in *. apply decode_spec_short; lia.
  - destruct rest as [|t [|s0 [|s1 [|q [|d tail]]]]]; try (cbn in Hlen; lia).
    cbn [drop]. rewrite decode_spec_header by (cbn in Hlen; lia). cbv zeta.
    by rewrite decide_False.
  - by rewrite (decode_spec_bytes l pv c b' f r Hb), Hg, decide_False.
  - by rewrite (decode_spec_bytes l pv _ b' f r Hb), Hg, decide_True, Hk.
Qed.

(** Soundness: an early return of the decoding refuses what follows the
    marker. *)
Lemma decode_spec_ret_sound l pv r res c' :
  bytes r -> Z.of_nat (length r) <= u16_MAX -> (length r + 2 <= LEN)%nat ->
  decode_spec p LEN l pv r = Ret res c' -> refuses p pv (0x41 :: 0x34 :: r) res c'.
Proof.
  intros Hb Hlen HL. destruct (decide (length r < 14)%nat) as [H14|H14].
  { rewrite decode_spec_short by done. intros [= <- <-]. by constructor. }
  destruct r as [|c [|l0 [|l1 [|i0 [|i1 [|t [|s0 [|s1 [|q [|d tail]]]]]]]]]];
    try (cbn in H14; lia).
  rewrite decode_spec_header by (cbn in H14; lia). cbv zeta.
  case_decide as Hdl; [|intros [= <- <-]; constructor; [cbn in *; lia|done]].
  destruct (seq_report p pv q) as [g|] eqn:Hg; [|done].
  destruct (payload_len p _) as [n|] eqn:Hn; [|done].
  apply bytes_cons in Hb as [_ Hb]. cbn [length] in *.
  pose proof (holds_bytes_read c l0 l1 i0 i1 t s0 s1 q d tail n Hb ltac:(lia) ltac:(lia) Hdl Hn)
    as Hh.
  case_decide as Hc.
  - destruct (DataType.known _) eqn:Hk; [by destruct (clock_spec _ _ _ _)|].
    intros [= <- <-]. subst c.
    by apply (refuses_datatype p pv _ (mkFrame t (u16_from_le_bytes s0 s1) q d (take n tail)) _ Hh).
  - intros [= <- <-]. apply (refuses_checksum p pv c _ _ _ Hh); [|by cbn; rewrite Hg].
    intros ->. by apply Hc.
Qed.

(** Soundness: a call that returns without a packet found, behind the
    frames the ring carried, bytes it refuses. *)
Lemma parse_spec_rejects_sound {R} (c : Core) res c' :
  bytes c.1 -> Z.of_nat (length c.1) <= u16_MAX -> (length c.1 <= LEN)%nat ->
  parse_spec (R:=R) p LEN c = Val res c' -> (forall pk, res <> Ok (Some pk)) ->
  rejects p c res c'.
Proof.
  intros Hb Hlen HL E Hres.
  destruct (parse_spec_returned p LEN c res c' E) as (l & c1 & Hit & [(_ & -> & _)|[H15 Hi]]);
    [by destruct (Hres (packet_of l))|].
  destruct (iterates_carried _ _ _ _ Hit Hb Hlen) as (fs & Hfs & Hd).
  pose proof (carried_suffix _ _ _ Hfs) as [k Hk].
  rewrite Hk in Hb, Hlen, HL. rewrite bytes_app in Hb. rewrite length_app in Hlen, HL.
  destruct Hb as [_ Hb].
  unfold iter_spec in Hi. destruct (find_marker _ _) as [r|] eqn:Em; [|done].
  destruct (find_marker_split _ _ Em) as (pre & Hr & Hpre).
  pose proof (find_marker_length _ _ Em). apply Nat.ltb_lt in H15.
  exists fs, l, c1.1, c1.2, pre, (0x41 :: 0x34 :: r). split_and!; [done..|].
  apply (decode_spec_ret_sound l); [by apply (find_marker_bytes _ _ Em)|lia..|done].
Qed.

(** Completeness: on a ring that carries frames up to bytes that are
    refused the call returns the result of the refusal. *)
Lemma parse_spec_rejects_complete {R} (c : Core) res c' :
  (length c.1 <= LEN)%nat -> rejects p c res c' -> parse_spec (R:=R) p LEN c = Val res c'.
Proof.
  intros HL (fs & l & r1 & pv1 & pre & b & Hfs & Hd & -> & H15 & Hpre & Hr).
  destruct c as [r pv]. cbn [fst snd] in *.
  apply (parse_spec_iterates_ret p LEN (r, pv) l (pre ++ b, pv1));
    [by apply (carried_iterates r fs)|by apply Nat.ltb_lt|].
  pose proof (carried_suffix _ _ _ Hfs) as [k Hk]. rewrite Hk, !length_app in HL.
  rewrite (refuses_marker _ _ _ _ Hr), iter_spec_app by done.
  apply decode_spec_refuses; [done|lia].
Qed.

(** ** What makes [parse] panic *)

(** Whether the clock step panics does not depend on the locals. *)
Lemma locals_after_None l l0 f : locals_after l0 f = None -> locals_after l f = None.
Proof.
  unfold locals_after. intros H.
  destruct (clock_spec _ _ _ l) as [ck|] eqn:E; [|done].
  destruct (clock_spec_locals _ _ _ l l0 (mk_is_Some _ _ E)) as [ck0 E0]. by rewrite E0 in H.
Qed.

Lemma aborts_on_marker pv b k : aborts_on p pv b k -> b = 0x41 :: 0x34 :: drop 2 b.
Proof. intros [|b' f r Hb _ _ _]; [done|]. by apply (holds_bytes_marker _ _ _ _ Hb). Qed.

(** Completeness: the decoding panics on what makes it abort. *)
Lemma decode_spec_aborts l pv b k :
  aborts_on p pv b k -> decode_spec p LEN l pv (drop 2 b) = Panicked k.
Proof.
  intros [c l0 l1 i0 i1 t s0 s1 q rest Hlen Hdl Ho|b' f r Hb Hk [g Hg] Hl].
  - destruct rest as [|d tail]; [cbn in Hlen; lia|].
    cbn [drop]. rewrite decode_spec_header by (cbn in Hlen; lia). cbv zeta.
    rewrite decide_True by done. destruct Ho as [->| ->]; [done|by destruct (seq_report _ _ _)].
  - by rewrite (decode_spec_bytes l pv _ b' f r Hb), Hg, decide_True, Hk,
         (locals_after_None l _ f Hl).
Qed.

(** Soundness: a panic of the decoding is one of the two. *)
Lemma decode_spec_panic_sound l pv r k :
  bytes r -> Z.of_nat (length r) <= u16_MAX ->
  decode_spec p LEN l pv r = Panicked k -> aborts_on p pv (0x41 :: 0x34 :: r) k.
Proof.
  intros Hb Hlen. unfold decode_spec. case_match eqn:H14; [done|]. apply Nat.ltb_ge in H14.
  destruct r as [|c [|l0 [|l1 [|i0 [|i1 [|t [|s0 [|s1 [|q [|d tail]]]]]]]]]];
    try (cbn in H14; lia).
  case_decide as Hdl; [|done].
  destruct (seq_report p pv q) as [g|] eqn:Hg;
    [|intros [= <-]; apply aborts_overflow; [cbn in *; lia|done|by left]].
  destruct (payload_len p _) as [n|] eqn:Hn;
    [|intros [= <-]; apply aborts_overflow; [cbn in *; lia|done|by right]].
  case_decide as Hc; [|done]. destruct (DataType.known _) eqn:Hk; [|done].
  destruct (clock_spec _ _ _ _) as [ck|] eqn:Hck; [done|]. intros [= <-].
  apply bytes_cons in Hb as [_ Hb]. cbn [length] in *. subst c.
  apply (aborts_clock p pv _ (mkFrame t (u16_from_le_bytes s0 s1) q d (take n tail)) (drop n tail));
    [apply holds_bytes_read; (done || lia)|done|by cbn; rewrite Hg|].
  apply (locals_after_None _ l). unfold locals_after. cbn. by rewrite Hck.
Qed.

(** Soundness: a call that panics found, behind the frames the ring
    carried, no marker or bytes that make it panic. *)
Lemma parse_spec_aborts_sound {R} (c : Core) k :
  bytes c.1 -> Z.of_nat (length c.1) <= u16_MAX ->
  parse_spec (R:=R) p LEN c = Panicked k -> aborts p c k.
Proof.
  intros Hb Hlen (l & c1 & Hit & H15 & Hi)%parse_spec_panicked.
  destruct (iterates_carried _ _ _ _ Hit Hb Hlen) as (fs & Hfs & Hd).
  pose proof (carried_suffix _ _ _ Hfs) as [j Hj].
  rewrite Hj in Hb, Hlen. rewrite bytes_app in Hb. rewrite length_app in Hlen.
  destruct Hb as [_ Hb]. apply Nat.ltb_lt in H15.
  exists fs, l, c1.1, c1.2. split_and!; [done..|].
  unfold iter_spec in Hi. destruct (find_marker _ _) as [r|] eqn:Em.
  - destruct (find_marker_split _ _ Em) as (pre & Hr & Hpre).
    pose proof (find_marker_length _ _ Em).
    right. exists pre, (0x41 :: 0x34 :: r). split_and!; [done..|].
    apply (decode_spec_panic_sound l); [by apply (find_marker_bytes _ _ Em)|lia|done].
  - left. rewrite find_marker_first in Em. destruct (first_marker c1.1); [done|].
    by simplify_eq.
Qed.

(** Completeness: the call panics on every such ring. *)
Lemma parse_spec_aborts_complete {R} (c : Core) k :
  aborts p c k -> parse_spec (R:=R) p LEN c = Panicked k.
Proof.
  intros (fs & l & r1 & pv1 & Hfs & Hd & H15 & Hk). destruct c as [r pv]. cbn [fst snd] in *.
  apply (parse_spec_iterates_panic p LEN (r, pv) l (r1, pv1));
    [by apply (carried_iterates r fs)|by apply Nat.ltb_lt|].
  destruct Hk as [[Hm ->]|(pre & b & -> & Hpre & Ha)].
  - unfold iter_spec. cbn [fst]. by rewrite find_marker_first, Hm.
  - rewrite (aborts_on_marker _ _ _ Ha), iter_spec_app by done. by apply decode_spec_aborts.
Qed.

End Carried.
