(* ===== verification/Parser.v ===== *)
(** * Parser: the streaming decoder [parse] of main.rs

    [parse] (main.rs, lines 125-327) takes [&mut prev_seqnum] and
    [&mut ring].  Its state is [PState] of [ParserSpec]; each numbered step
    of the source is one definition in the monad
    [M := Prog PState ParseResult], with the source's [unwrap]s, early
    [return]s and subtractions.  [parse_iter] is the body of the loop (the
    marker scan, then [decode_frame] for what follows the marker) and
    [parse] the function, its loop given the ring's length as fuel.

    The lemmas [run_*] say what a step does in front of any continuation;
    with them [decode_frame], [parse_iter] and [parse] are proved to refine
    [decode_spec], [iter_spec] and [parse_spec].  The theorems at the end
    of the file are stated on [parse] and proved through that refinement:
    what is returned and what is left of the ring for a frame of the wire
    format, for frames in sequence, for a frame that is not complete, for
    each of the three errors, and for the inputs on which the code
    panics; which rings make [parse] return a packet
    ([parse_accepts_iff]), which make it return without one and with what
    ([parse_rejects_iff]), which make it panic ([parse_panics_iff]), each
    by the relation of [Carried] on the bytes of the ring; that the frames
    before do not change how a call ends ([parse_after_frames]); that a
    frame cut short is accepted when the data that is missing sums to
    zero ([parse_cut_frame]); that a panic is an [unwrap] of [None] or,
    with overflow checks, an arithmetic overflow ([parse_panic_kinds]);
    that the values stay within their Rust types; what the result says of
    the ring that is left.  [parse_prints_stream] is proved on the code
    with its trace: every line printed for the frames of a ring, in
    order; [parse_reports_gaps] reads the sequence tracker off that trace:
    the lost frames reported are the gaps between the sequence numbers of
    the frames. *)

From stdpp Require Import strings.
From S2P Require Import Prelude Machine DataTypes Ring Sync Timestamp Frame ParserSpec Carried.

(** ** The monad of [parse] *)

Definition M (A : Type) : Type := Prog PState ParseResult A.

(** ** Access to the state *)

Definition set_ring (r : CircularBuffer.t) (st : PState) : PState :=
  mkPState r (prev_seqnum st) (out st).

Definition set_prev_seqnum (o : option Z) (st : PState) : PState :=
  mkPState (ring st) o (out st).

Definition add_out (e : Event) (st : PState) : PState :=
  mkPState (ring st) (prev_seqnum st) (e :: out st).

(** [println!] *)
Definition print (e : Event) : M unit := modify (add_out e).

(** [ring.len()] *)
Definition ring_len : M nat := gets (fun st => CircularBuffer.len (ring st)).

(** [ring.pop_front()] *)
Definition ring_pop_front : M (option Z) :=
  fun st =>
    match CircularBuffer.pop_front (ring st) with
    | Some (b, r) => Val (Some b) (set_ring r st)
    | None => Val None st
    end.

(** [ring.pop_front().unwrap()] *)
Definition pop_unwrap : M Z := o <- ring_pop_front ;; unwrap o.

(** [ring.push_front(b)] *)
Definition ring_push_front (LEN : nat) (b : Z) : M unit :=
  modify (fun st => set_ring (CircularBuffer.push_front LEN b (ring st)) st).

(** ** The steps of the loop body *)

(** 1. Parse message start: the ['inner] loop. *)
Definition sync_marker : M unit :=
  fun st =>
    match find_marker (0, 0) (ring st) with
    | Some r => Val tt (set_ring r st)
    | None => Panicked UnwrapNone
    end.

(** Make sure there's enough bytes left; otherwise refill the message start
    and return [Ok(None)]. *)
Definition check_remaining (LEN : nat) : M unit :=
  n <- ring_len ;;
  if (n <? 14)%nat then
    print (PrintNotEnough n) ;;
    ring_push_front LEN 0x34 ;;
    ring_push_front LEN 0x41 ;;
    returns (Ok None)
  else ret tt.

(** 2. Parse the checksum byte. *)
Definition read_checksum : M Z :=
  cksum <- pop_unwrap ;;
  print (PrintChecksum cksum) ;;
  ret cksum.

(** 3. Parse message length bytes, and check that the lengths match. *)
Definition read_lengths : M Z :=
  b0 <- pop_unwrap ;;
  b1 <- pop_unwrap ;;
  let dl := u16_from_le_bytes b0 b1 in
  b2 <- pop_unwrap ;;
  b3 <- pop_unwrap ;;
  let inv_dl := u16_from_le_bytes b2 b3 in
  print (PrintLengths dl inv_dl (u16_not inv_dl)) ;;
  if negb (dl =? u16_not inv_dl) then returns (Err ERR_LENGTH)
  else ret dl.

(** 4. Parse timestamp bytes: the low byte and the sub-seconds. *)
Definition read_timestamp : M (Z * Z) :=
  tt_lb <- pop_unwrap ;;
  b0 <- pop_unwrap ;;
  b1 <- pop_unwrap ;;
  let tt_ss := u16_from_le_bytes b0 b1 in
  print (PrintTime tt_lb tt_ss) ;;
  ret (tt_lb, tt_ss).

(** 5. Parse sequence number byte, report lost sequences, remember it. *)
Definition read_seqnum (p : Profile) : M Z :=
  seqnum <- pop_unwrap ;;
  print (PrintSeqnum seqnum) ;;
  prev <- gets prev_seqnum ;;
  match prev with
  | Some pseq =>
      let prev_seq1 := u8_wrapping_add pseq 1 in
      if negb (prev_seq1 =? seqnum) then
        n <- u8_sub p seqnum prev_seq1 ;;
        print (PrintLost n)
      else ret tt
  | None => ret tt
  end ;;
  modify (set_prev_seqnum (Some seqnum)) ;;
  ret seqnum.

(** 6. Parse data type byte. *)
Definition read_datatype : M (Z * DataType.t) :=
  dtype <- pop_unwrap ;;
  let datatype := DataType.from dtype in
  print (PrintDatatype datatype) ;;
  ret (dtype, datatype).

(** The loop [for _ in 0..datalen]: a byte when the ring has one, a warning
    otherwise. *)
Fixpoint read_data_loop (n : nat) (datavec : list Z) : M (list Z) :=
  match n with
  | O => ret datavec
  | S n' =>
      o <- ring_pop_front ;;
      match o with
      | Some byte => read_data_loop n' (datavec ++ [byte])
      | None => print PrintShort ;; read_data_loop n' datavec
      end
  end.

(** 7. Parse data bytes. *)
Definition read_data (p : Profile) (dl : Z) : M (list Z) :=
  datalen <- u16_sub p dl 1 ;;
  n <- ring_len ;;
  (if (n <? 4)%nat then print (PrintFewData n) else ret tt) ;;
  datavec <- read_data_loop (Z.to_nat datalen) [] ;;
  print (PrintData datavec) ;;
  ret datavec.

(** 8. Verify checksum. *)
Definition verify_checksum (dtype : Z) (datavec : list Z) (cksum : Z) : M unit :=
  if negb ((dtype + Zsum datavec) mod 256 =? cksum) then returns (Err ERR_CHECKSUM)
  else ret tt.

(** An invalid data type is an error. *)
Definition check_datatype (datatype : DataType.t) : M unit :=
  match datatype with
  | DataType.Invalid _ => returns (Err ERR_DATATYPE)
  | _ => ret tt
  end.

(** The timestamp and the version frames: the value is taken from the
    payload.  The result is the payload left and the new [zeo_time_full] and
    [zeo_version]. *)
Definition handle_clock (tt_lb : Z) (datatype : DataType.t) (datavec : list Z)
    (l : Locals) : M (list Z * Z * Z) :=
  if decide (datatype = DataType.ZeoTimestamp) then
    v <- unwrap (take_u32 datavec) ;;
    let zeo_time := v.1 in
    print (PrintZeoTime zeo_time) ;;
    let r := reconcile zeo_time tt_lb in
    print (PrintCheck r.2) ;;
    ret (v.2, r.1, zeo_version l)
  else if decide (datatype = DataType.Version) then
    v <- unwrap (take_u32 datavec) ;;
    print (PrintVersion v.1) ;;
    ret (v.2, zeo_time_full l, v.1)
  else ret (datavec, zeo_time_full l, zeo_version l).

(** ** The loop body and the function *)

(** An iteration after the marker was found: steps 2 to 8 and the clock. *)
Definition decode_frame (p : Profile) (LEN : nat) (l : Locals) : M Locals :=
  check_remaining LEN ;;
  cksum <- read_checksum ;;
  dl <- read_lengths ;;
  t <- read_timestamp ;;
  seqnum <- read_seqnum p ;;
  d <- read_datatype ;;
  datavec <- read_data p dl ;;
  verify_checksum d.1 datavec cksum ;;
  check_datatype d.2 ;;
  c <- handle_clock t.1 d.2 datavec l ;;
  print (PrintTimeFull c.1.2 t.2) ;;
  ret {|
    tt_ss := t.2;
    datatype := d.2;
    datavec := c.1.1;
    zeo_version := c.2;
    zeo_time_full := c.1.2;
    while_counter := while_counter l + 1;
  |}.

(** One iteration of [while ring.len() > 15]. *)
Definition parse_iter (p : Profile) (LEN : nat) (l : Locals) : M Locals :=
  r <- gets ring ;;
  print (PrintParse (while_counter l) (CircularBuffer.iter r)) ;;
  sync_marker ;;
  decode_frame p LEN l.

(** The loop's condition. *)
Definition more_than_15 (st : PState) : bool :=
  (15 <? CircularBuffer.len (ring st))%nat.

(** The body of [parse], with fuel for the loop. *)
Definition parse_body (p : Profile) (LEN : nat) (fuel : nat) : M ParseResult :=
  l <- while_loop fuel more_than_15 (parse_iter p LEN) init_locals ;;
  ret (Ok (Some (zeo_time_full l, tt_ss l, zeo_version l, datatype l, datavec l))).

(** [parse::<LEN>(&mut prev_seqnum, &mut ring)].  The fuel is the ring's
    length: every iteration that goes on pops twelve bytes at least. *)
Definition parse {R} (p : Profile) (LEN : nat) : Prog PState R ParseResult :=
  fun st => call (parse_body p LEN (length (ring st))) st.

(** ** Example inputs *)

(** The frame of the example in the comments of [parse]: a timestamp frame
    with the sequence number 132 and the absolute time 1672686367, whose
    last byte the comment's capture lacks. *)
Definition example_timestamp : Frame :=
  mkFrame 0x1F 6 0x84 0x8A [0x1F; 0x2B; 0xB3; 0x63].

(** An event frame whose payload holds the marker. *)
Definition example_event : Frame := mkFrame 0x20 7 0x85 0x00 [0x41; 0x34; 0x05; 0x00].

(** A version frame with the version 3. *)
Definition example_version : Frame := mkFrame 0x20 8 0x86 0x03 [0x03; 0x00; 0x00; 0x00].

(** A frame of a type that is not in the table. *)
Definition example_unknown : Frame := mkFrame 0x20 8 0x86 0x55 [1; 2; 3; 4].

(** A timestamp frame with two payload bytes. *)
Definition example_short_clock : Frame := mkFrame 0x20 8 0x86 0x8A [0x1F; 0x2B].

(** The frame of frequency bins of the documentation of [DataType]
    (lib.rs): fourteen bytes of data, the last of them zero. *)
Definition example_bins : Frame :=
  mkFrame 0x20 9 0x87 0x83
    [0x29; 0x1D; 0x63; 0x21; 0xEE; 0x1B; 0x2D; 0x11; 0xB5; 0x0C; 0x31; 0x0E; 0x37; 0x00].

(** Event frames with the sequence numbers 5, 6 and 8 of the
    specification. *)
Definition example_sequence : list Frame :=
  [mkFrame 0x20 7 5 0x00 [1; 2; 3; 4]; mkFrame 0x20 8 6 0x00 [1; 2; 3; 4];
   mkFrame 0x20 9 8 0x00 [1; 2; 3; 4]].

(** The seventeen bytes of the example in the comments of [parse]. *)
Definition example_capture : list Z :=
  [0x00; 0x00; 0x41; 0x34; 0xEA; 0x05; 0x00; 0xFA; 0xFF; 0x1F; 0x06; 0x00; 0x84;
   0x8A; 0x1F; 0x2B; 0xB3].

(** ** Running the primitives

    Each lemma says what a step does in front of any continuation [k]; the
    tactic [run] rewrites with them. *)

Ltac state_simpl :=
  unfold add_out, set_ring, set_prev_seqnum, CircularBuffer.len, CircularBuffer.iter;
  cbn [ring prev_seqnum out fst snd].

Section Run.
Context {B : Type}.
Implicit Types (st : PState) (r : list Z) (pv : option Z) (o : list Event).

Lemma run_print e (k : unit -> M B) st : bind (print e) k st = k tt (add_out e st).
Proof. done. Qed.

Lemma run_ring_len (k : nat -> M B) st : bind ring_len k st = k (length (ring st)) st.
Proof. done. Qed.

Lemma run_pop b r pv o (k : Z -> M B) :
  bind pop_unwrap k (mkPState (b :: r) pv o) = k b (mkPState r pv o).
Proof. done. Qed.

Lemma run_pop_nil pv o (k : Z -> M B) :
  bind pop_unwrap k (mkPState [] pv o) = Panicked UnwrapNone.
Proof. done. Qed.

Lemma run_ring_pop b r pv o (k : option Z -> M B) :
  bind ring_pop_front k (mkPState (b :: r) pv o) = k (Some b) (mkPState r pv o).
Proof. done. Qed.

Lemma run_ring_pop_nil pv o (k : option Z -> M B) :
  bind ring_pop_front k (mkPState [] pv o) = k None (mkPState [] pv o).
Proof. done. Qed.

Lemma run_push_front LEN b (k : unit -> M B) st :
  bind (ring_push_front LEN b) k st =
  k tt (set_ring (CircularBuffer.push_front LEN b (ring st)) st).
Proof. done. Qed.

End Run.

#[export] Hint Rewrite @run_print @run_ring_len @run_pop @run_pop_nil
  @run_ring_pop @run_ring_pop_nil @run_push_front : zeo_rw.

(** Run the straight-line part of a program in front of the goal. *)
Ltac run := repeat (progress (autorewrite with zeo_rw; state_simpl)).

Section Steps.
Context {B : Type}.
Implicit Types (st : PState) (r : list Z) (pv : option Z) (o : list Event).

Lemma run_sync_marker pre rest pv o (k : unit -> M B) :
  first_marker (pre ++ [0x41]) = None ->
  bind sync_marker k (mkPState (pre ++ 0x41 :: 0x34 :: rest) pv o) =
  k tt (mkPState rest pv o).
Proof. intros H. unfold bind, sync_marker. cbn [ring]. by rewrite find_marker_app. Qed.

Lemma run_sync_marker_None r pv o (k : unit -> M B) :
  first_marker r = None ->
  bind sync_marker k (mkPState r pv o) = Panicked UnwrapNone.
Proof.
  intros H. unfold bind, sync_marker. cbn [ring]. by rewrite find_marker_first, H.
Qed.

Lemma run_check_remaining LEN (k : unit -> M B) st :
  (14 <= length (ring st))%nat -> bind (check_remaining LEN) k st = k tt st.
Proof.
  intros H. unfold check_remaining. run.
  by rewrite (proj2 (Nat.ltb_ge _ _) H), bind_ret_l.
Qed.

Lemma run_check_remaining_short LEN (k : unit -> M B) r pv o :
  (length r < 14)%nat -> (length r + 2 <= LEN)%nat ->
  bind (check_remaining LEN) k (mkPState r pv o) =
  Ret (Ok None) (mkPState (0x41 :: 0x34 :: r) pv (PrintNotEnough (length r) :: o)).
Proof.
  intros H HL. unfold check_remaining. run.
  rewrite (proj2 (Nat.ltb_lt _ _) H). run.
  by rewrite (push_front_room LEN 52 r), (push_front_room LEN 65) by (cbn [length]; lia).
Qed.

Lemma run_read_checksum c r pv o (k : Z -> M B) :
  bind read_checksum k (mkPState (c :: r) pv o) =
  k c (mkPState r pv (PrintChecksum c :: o)).
Proof. unfold read_checksum. by run. Qed.

Lemma run_read_lengths l0 l1 i0 i1 r pv o (k : Z -> M B) :
  let dl := u16_from_le_bytes l0 l1 in
  let inv_dl := u16_from_le_bytes i0 i1 in
  bind read_lengths k (mkPState (l0 :: l1 :: i0 :: i1 :: r) pv o) =
  if decide (dl = u16_not inv_dl)
  then k dl (mkPState r pv (PrintLengths dl inv_dl (u16_not inv_dl) :: o))
  else Ret (Err ERR_LENGTH) (mkPState r pv (PrintLengths dl inv_dl (u16_not inv_dl) :: o)).
Proof.
  intros dl inv_dl. unfold read_lengths. run. fold dl inv_dl.
  case_decide as E.
  - by rewrite (proj2 (Z.eqb_eq _ _) E); run.
  - by rewrite (proj2 (Z.eqb_neq _ _) E); run.
Qed.

Lemma run_read_timestamp t s0 s1 r pv o (k : Z * Z -> M B) :
  bind read_timestamp k (mkPState (t :: s0 :: s1 :: r) pv o) =
  k (t, u16_from_le_bytes s0 s1)
    (mkPState r pv (PrintTime t (u16_from_le_bytes s0 s1) :: o)).
Proof. unfold read_timestamp. by run. Qed.

Lemma run_read_datatype d r pv o (k : Z * DataType.t -> M B) :
  bind read_datatype k (mkPState (d :: r) pv o) =
  k (d, DataType.from d) (mkPState r pv (PrintDatatype (DataType.from d) :: o)).
Proof. unfold read_datatype. by run. Qed.


(** The sequence tracker. *)
Lemma run_read_seqnum p q r pv o (k : Z -> M B) :
  bind (read_seqnum p) k (mkPState (q :: r) pv o) =
  match seq_report p pv q with
  | Some g => k q (mkPState r (Some q) (g ++ PrintSeqnum q :: o))
  | None => Panicked ArithOverflow
  end.
Proof.
  unfold read_seqnum, seq_report, u8_sub. run. destruct pv as [pseq|]; [|by run].
  case_decide as E.
  - by rewrite (proj2 (Z.eqb_eq _ _) E); run.
  - rewrite (proj2 (Z.eqb_neq _ _) E). cbn [negb]. run. case_decide as Hle.
    + rewrite bind_checked_sub_ok by done. by run.
    + destruct p.
      * by rewrite bind_checked_sub_debug by lia.
      * rewrite bind_checked_sub_release by lia. by run.
Qed.


(** The payload loop takes the first [n] bytes of the ring, or all of it,
    and warns once per missing byte. *)
Lemma read_data_loop_spec n acc r pv o :
  read_data_loop n acc (mkPState r pv o) =
  Val (acc ++ take n r)
      (mkPState (drop n r) pv (replicate (n - length r) PrintShort ++ o)).
Proof.
  revert acc r o. induction n as [|n IH]; intros acc r o.
  - cbn. by rewrite app_nil_r, drop_0.
  - cbn [read_data_loop]. destruct r as [|b r]; run; rewrite IH.
    + rewrite take_nil, drop_nil. cbn [length]. rewrite !Nat.sub_0_r.
      change (replicate (S n) PrintShort) with (PrintShort :: replicate n PrintShort).
      by rewrite replicate_cons_app, <- app_assoc.
    + by rewrite <- app_assoc.
Qed.

Lemma run_read_data_loop n acc r pv o (k : list Z -> M B) :
  bind (read_data_loop n acc) k (mkPState r pv o) =
  k (acc ++ take n r)
    (mkPState (drop n r) pv (replicate (n - length r) PrintShort ++ o)).
Proof. by rewrite (bind_val _ _ _ _ _ (read_data_loop_spec _ _ _ _ _)). Qed.

Lemma run_read_data p dl r pv o (k : list Z -> M B) :
  bind (read_data p dl) k (mkPState r pv o) =
  match payload_len p dl with
  | Some n =>
      k (take n r)
        (mkPState (drop n r) pv
           (PrintData (take n r) :: replicate (n - length r) PrintShort
              ++ few_data r ++ o))
  | None => Panicked ArithOverflow
  end.
Proof.
  unfold read_data, payload_len, u16_sub, few_data. run. case_decide as Hdl.
  - rewrite bind_checked_sub_ok by done. run.
    destruct (length r <? 4)%nat; run; rewrite run_read_data_loop; by run.
  - destruct p.
    + by rewrite bind_checked_sub_debug by lia.
    + rewrite bind_checked_sub_release by lia. run.
      destruct (length r <? 4)%nat; run; rewrite run_read_data_loop; by run.
Qed.

Lemma run_verify_checksum dtype datavec cksum (k : unit -> M B) st :
  bind (verify_checksum dtype datavec cksum) k st =
  if decide ((dtype + Zsum datavec) mod 256 = cksum) then k tt st
  else Ret (Err ERR_CHECKSUM) st.
Proof.
  unfold verify_checksum. case_decide as E.
  - by rewrite (proj2 (Z.eqb_eq _ _) E).
  - by rewrite (proj2 (Z.eqb_neq _ _) E).
Qed.

Lemma run_check_datatype d (k : unit -> M B) st :
  bind (check_datatype d) k st =
  if DataType.known d then k tt st else Ret (Err ERR_DATATYPE) st.
Proof. by destruct d. Qed.

Lemma run_handle_clock tt_lb d payload l (k : list Z * Z * Z -> M B) st :
  bind (handle_clock tt_lb d payload l) k st =
  match clock_spec tt_lb d payload l with
  | Some c => k c (mkPState (ring st) (prev_seqnum st)
                     (clock_trace tt_lb d payload ++ out st))
  | None => Panicked UnwrapNone
  end.
Proof.
  unfold handle_clock, clock_spec, clock_trace. destruct st as [r pv o].
  destruct d; repeat case_decide; try done;
    destruct (take_u32 payload) as [v|]; by run.
Qed.

End Steps.

(** ** [decode_frame] against its specification *)

(** A ring of fourteen bytes has the ten bytes of a header. *)
Lemma header_bytes (r : list Z) :
  (14 <= length r)%nat ->
  exists c l0 l1 i0 i1 t s0 s1 q d tail,
    r = c :: l0 :: l1 :: i0 :: i1 :: t :: s0 :: s1 :: q :: d :: tail.
Proof.
  intros H. do 10 (destruct r as [|? r]; [cbn in H; lia|]). by repeat eexists.
Qed.

Lemma decode_frame_spec p LEN l r pv o :
  forget (decode_frame p LEN l (mkPState r pv o)) = decode_spec p LEN l pv r.
Proof.
  unfold forget, decode_frame, decode_spec. destruct (Nat.ltb_spec (length r) 14) as [Hs|Hl].
  - unfold check_remaining. run. rewrite (proj2 (Nat.ltb_lt _ _) Hs). by run.
  - rewrite run_check_remaining by done.
    destruct (header_bytes r Hl) as (c & l0 & l1 & i0 & i1 & t & s0 & s1 & q & d & tail & ->).
    rewrite run_read_checksum, run_read_lengths. cbv zeta.
    case_decide; [|done].
    rewrite run_read_timestamp, run_read_seqnum.
    destruct (seq_report p pv q); [|done].
    rewrite run_read_datatype, run_read_data.
    destruct (payload_len p _) as [n|]; [|done]. state_simpl.
    rewrite run_verify_checksum. case_decide; [|done].
    rewrite run_check_datatype. destruct (DataType.known _); [|done].
    rewrite run_handle_clock. destruct (clock_spec _ _ _ _); [|done]. by run.
Qed.

Lemma parse_iter_spec p LEN l :
  simulates core (parse_iter p LEN l) (iter_spec p LEN l).
Proof.
  intros [r pv o]. unfold parse_iter, iter_spec. run.
  unfold bind, sync_marker. cbn [ring core fst snd].
  destruct (find_marker (0, 0) r); [apply decode_frame_spec | done].
Qed.

Lemma parse_refines {R} p LEN :
  simulates core (parse (R:=R) p LEN) (parse_spec p LEN).
Proof.
  intros st. unfold parse, parse_spec. apply simulates_call.
  apply simulates_bind; [|done].
  apply simulates_while; [done | apply parse_iter_spec].
Qed.

(** ** What is printed for a frame

    The steps run on a frame of the wire format, with the trace: every
    line of the iteration, in the order of the source. *)

Section Trace.
Context (p : Profile) (LEN : nat).
Implicit Types (pre rest tail r : list Z) (pv : option Z) (o : list Event) (f : Frame).

Lemma decode_frame_trace l pv o f tail l' g :
  frame_wf f -> (4 <= length (f_payload f ++ tail))%nat ->
  DataType.known (DataType.from (f_dtype f)) = true ->
  seq_report p pv (f_seqnum f) = Some g -> locals_after l f = Some l' ->
  decode_frame p LEN l (mkPState (drop 2 (encode f ++ tail)) pv o) =
  Val l' (mkPState tail (Some (f_seqnum f))
            (frame_trace g f tail (zeo_time_full l') ++ o)).
Proof.
  intros Hwf Hlen Hk Hg Hl. unfold encode, decode_frame, frame_trace.
  destruct (frame_bytes_fields (checksum (f_dtype f) (f_payload f)) f tail Hwf)
    as (l0 & l1 & i0 & i1 & s0 & s1 & -> & E1 & E2 & E3).
  cbn [drop]. rewrite run_check_remaining by (cbn [ring length]; lia).
  rewrite run_read_checksum, run_read_lengths. cbv zeta.
  rewrite E1, E2, u16_not_involutive, decide_True by done.
  rewrite run_read_timestamp, E3, run_read_seqnum, Hg, run_read_datatype, run_read_data.
  rewrite payload_len_declared, take_app_length, drop_app_length. state_simpl.
  rewrite run_verify_checksum, decide_True by done.
  rewrite run_check_datatype, Hk, run_handle_clock.
  unfold locals_after in Hl. destruct (clock_spec _ _ _ _) as [ck|]; simplify_eq/=.
  run. rewrite length_app, (proj2 (Nat.sub_0_le _ _)) by lia. cbn [replicate app].
  unfold ret. do 3 f_equal. by repeat (rewrite <- app_assoc; cbn [app]).
Qed.

Lemma parse_iter_trace l pv o pre f tail l' g :
  frame_wf f -> first_marker (pre ++ [0x41]) = None ->
  (4 <= length (f_payload f ++ tail))%nat ->
  DataType.known (DataType.from (f_dtype f)) = true ->
  seq_report p pv (f_seqnum f) = Some g -> locals_after l f = Some l' ->
  parse_iter p LEN l (mkPState (pre ++ encode f ++ tail) pv o) =
  Val l' (mkPState tail (Some (f_seqnum f))
            (frame_trace g f tail (zeo_time_full l')
               ++ PrintParse (while_counter l) (pre ++ encode f ++ tail) :: o)).
Proof.
  intros Hwf Hpre Hlen Hk Hg Hl. unfold parse_iter. run.
  pose proof (decode_frame_trace l pv (PrintParse (while_counter l) (pre ++ encode f ++ tail) :: o)
                f tail l' g Hwf Hlen Hk Hg Hl) as H.
  unfold encode, frame_bytes in *. cbn [app drop] in *.
  by rewrite run_sync_marker.
Qed.

(** An iteration of the loop on a frame followed by frames, with the
    trace. *)
Lemma loop_prints_step fuel l pv o pre f fs rest l1 g :
  frame_wf f -> (4 <= length (f_payload f))%nat -> first_marker (pre ++ [0x41]) = None ->
  DataType.known (DataType.from (f_dtype f)) = true ->
  seq_report p pv (f_seqnum f) = Some g -> locals_after l f = Some l1 ->
  (0 < fuel)%nat ->
  while_loop fuel more_than_15 (parse_iter p LEN) l
    (mkPState (pre ++ encode f ++ encode_stream fs ++ rest) pv o) =
  while_loop (pred fuel) more_than_15 (parse_iter p LEN) l1
    (mkPState (encode_stream fs ++ rest) (Some (f_seqnum f))
       (frame_trace g f (encode_stream fs ++ rest) (zeo_time_full l1)
          ++ PrintParse (while_counter l) (pre ++ encode f ++ encode_stream fs ++ rest) :: o)).
Proof.
  intros Hwf Hlen Hpre Hk Hg Hl Hf.
  assert (4 <= length (f_payload f ++ encode_stream fs ++ rest))%nat as H4
    by (rewrite length_app; lia).
  apply while_loop_step; [done| |by apply parse_iter_trace].
  apply Nat.ltb_lt. cbn [ring]. unfold CircularBuffer.len.
  rewrite !length_app, length_encode. lia.
Qed.

(** The loop on a stream of frames, with the trace. *)
Lemma loop_prints_stream fs : forall fuel l pv rest o l' pv' tr,
  Forall frame_wf fs -> Forall (fun f => (4 <= length (f_payload f))%nat) fs ->
  (length rest <= 15)%nat -> (length (encode_stream fs ++ rest) <= fuel)%nat ->
  decode_stream p l pv fs = Some (l', pv') ->
  stream_trace p l pv [] fs rest o = Some tr ->
  while_loop fuel more_than_15 (parse_iter p LEN) l (mkPState (encode_stream fs ++ rest) pv o) =
  Val l' (mkPState rest pv' tr).
Proof.
  induction fs as [|f fs IH]; intros fuel l pv rest o l' pv' tr Hwf Hlen Hrest Hfuel;
    cbn [decode_stream stream_trace].
  { intros [= <- <-] [= <-]. apply while_loop_exit. by apply Nat.ltb_ge. }
  apply Forall_cons in Hwf as [Hf Hwf], Hlen as [Hn Hlen].
  destruct (DataType.known _) eqn:Hk; [|done].
  destruct (seq_report _ _ _) as [g|] eqn:Hg; [|done]. cbn.
  destruct (locals_after l f) as [l1|] eqn:Hl; [|done]. cbn. intros Hd Ht.
  rewrite encode_stream_cons, <- app_assoc in Hfuel |- *.
  rewrite length_app, length_encode in Hfuel.
  etrans; [apply (loop_prints_step fuel l pv o [] f fs rest l1 g); (done || lia)|].
  apply IH; (done || lia).
Qed.

(** The loop on a ring that holds frames behind bytes without marker, with
    the trace. *)
Lemma loop_prints_frames fuel l pv o pre f fs rest l' pv' tr :
  Forall frame_wf (f :: fs) -> Forall (fun f => (4 <= length (f_payload f))%nat) (f :: fs) ->
  first_marker (pre ++ [0x41]) = None -> (length rest <= 15)%nat ->
  (length (pre ++ encode_stream (f :: fs) ++ rest) <= fuel)%nat ->
  decode_stream p l pv (f :: fs) = Some (l', pv') ->
  stream_trace p l pv pre (f :: fs) rest o = Some tr ->
  while_loop fuel more_than_15 (parse_iter p LEN) l
    (mkPState (pre ++ encode_stream (f :: fs) ++ rest) pv o) =
  Val l' (mkPState rest pv' tr).
Proof.
  intros [Hf Hwf]%Forall_cons [Hn Hlen]%Forall_cons Hpre Hrest Hfuel.
  cbn [decode_stream stream_trace].
  destruct (DataType.known _) eqn:Hk; [|done].
  destruct (seq_report _ _ _) as [g|] eqn:Hg; [|done]. cbn.
  destruct (locals_after _ f) as [l1|] eqn:Hl; [|done]. cbn. intros Hd Ht.
  rewrite encode_stream_cons, <- app_assoc in Hfuel |- *.
  rewrite !length_app, length_encode in Hfuel.
  rewrite (loop_prints_step _ l pv o pre f fs rest l1 g) by (done || lia).
  apply loop_prints_stream; try done. rewrite length_app. lia.
Qed.

End Trace.

(** ** The trace does not matter

    What [parse] does depends on the ring and the sequence number only:
    states that differ in the trace give outcomes that differ in the
    trace. *)

#[global] Instance parse_iter_proper p LEN l :
  Proper (same_core ==> same_outcome) (parse_iter p LEN l).
Proof.
  intros s1 s2 E. unfold same_outcome, forget. rewrite !parse_iter_spec. by rewrite E.
Qed.

#[global] Instance parse_proper {R} p LEN :
  Proper (same_core ==> same_outcome) (parse (R:=R) p LEN).
Proof.
  intros s1 s2 E. unfold same_outcome, forget. rewrite !parse_refines. by rewrite E.
Qed.

(** ** [parse] on the cases of a frame *)

(** From [parse] to its specification on the ring. *)
Ltac to_spec := unfold forget; rewrite parse_refines; unfold core; cbn [ring prev_seqnum].

(** * The theorems on [parse] *)

Section Correct.
Context {R : Type} (p : Profile) (LEN : nat).
Implicit Types (pre rest tail r : list Z) (pv : option Z) (o : list Event) (f : Frame).

(** C1: [parse] refines its specification: without the trace of what it
    prints, the outcome of [parse] on a state (the result or the panic, the
    ring and the carried sequence number) is the outcome of [parse_spec] on
    the ring and the sequence number. *)
Theorem parse_refines_spec r pv o :
  forget (parse (R:=R) p LEN (mkPState r pv o)) = parse_spec p LEN (r, pv).
Proof. exact (parse_refines p LEN (mkPState r pv o)). Qed.

(** C2: a frame of the wire format that is neither a timestamp nor a
    version, after bytes without marker and before at most fifteen bytes,
    is returned with its sub-second counter, its type and its payload; the
    full time and the version are zero; the ring keeps the bytes after the
    frame and the sequence number is remembered. *)
Theorem parse_encode_data pre f rest pv o :
  frame_wf f -> first_marker (pre ++ [0x41]) = None ->
  (4 <= length (f_payload f ++ rest))%nat -> (length rest <= 15)%nat ->
  DataType.known (DataType.from (f_dtype f)) = true ->
  is_clock (DataType.from (f_dtype f)) = false ->
  is_Some (seq_report p pv (f_seqnum f)) ->
  forget (parse (R:=R) p LEN (mkPState (pre ++ encode f ++ rest) pv o)) =
  Val (Ok (Some (0, f_subsec f, 0, DataType.from (f_dtype f), f_payload f)))
    (rest, Some (f_seqnum f)).
Proof.
  intros Hwf Hpre Hlen Hrest Hk Hc Hs.
  to_spec.
  by rewrite (parse_spec_encode p LEN pre f rest pv _ Hwf Hpre Hlen Hrest Hk Hs
                (locals_after_data _ _ Hc)).
Qed.

(** C25: a timestamp frame that carries the absolute time [t] is returned
    with the time that [reconcile] chooses for [t] and the frame's time-low
    byte, and with the payload that follows the four bytes of [t]. *)
Theorem parse_encode_timestamp pre f rest pv o t data :
  frame_wf f -> first_marker (pre ++ [0x41]) = None ->
  (length rest <= 15)%nat -> is_Some (seq_report p pv (f_seqnum f)) ->
  f_dtype f = 0x8A -> is_u32 t -> f_payload f = u32_to_le_bytes t ++ data ->
  forget (parse (R:=R) p LEN (mkPState (pre ++ encode f ++ rest) pv o)) =
  Val (Ok (Some ((reconcile t (f_time_low f)).1, f_subsec f, 0,
                 DataType.ZeoTimestamp, data)))
    (rest, Some (f_seqnum f)).
Proof.
  intros Hwf Hpre Hrest Hs Hd Ht Hp.
  assert (4 <= length (f_payload f ++ rest))%nat as Hlen
    by (rewrite Hp, !length_app, length_u32_to_le_bytes; lia).
  assert (DataType.known (DataType.from (f_dtype f)) = true) as Hk by by rewrite Hd.
  to_spec.
  by rewrite (parse_spec_encode p LEN pre f rest pv _ Hwf Hpre Hlen Hrest Hk Hs
                (locals_after_timestamp _ _ _ _ Hd Ht Hp)).
Qed.

(** A version frame that carries the version [v] is returned with [v]
    as the version and with the payload that follows the four bytes of
    [v]. *)
Lemma parse_encode_version pre f rest pv o v data :
  frame_wf f -> first_marker (pre ++ [0x41]) = None ->
  (length rest <= 15)%nat -> is_Some (seq_report p pv (f_seqnum f)) ->
  f_dtype f = 0x03 -> is_u32 v -> f_payload f = u32_to_le_bytes v ++ data ->
  forget (parse (R:=R) p LEN (mkPState (pre ++ encode f ++ rest) pv o)) =
  Val (Ok (Some (0, f_subsec f, v, DataType.Version, data))) (rest, Some (f_seqnum f)).
Proof.
  intros Hwf Hpre Hrest Hs Hd Hv Hp.
  assert (4 <= length (f_payload f ++ rest))%nat as Hlen
    by (rewrite Hp, !length_app, length_u32_to_le_bytes; lia).
  assert (DataType.known (DataType.from (f_dtype f)) = true) as Hk by by rewrite Hd.
  to_spec.
  by rewrite (parse_spec_encode p LEN pre f rest pv _ Hwf Hpre Hlen Hrest Hk Hs
                (locals_after_version _ _ _ _ Hd Hv Hp)).
Qed.

(** Frames of the wire format in sequence, each with four payload
    bytes at least, followed by at most fifteen bytes, are all decoded by
    one call, and the call returns the last of them only: the packet of the
    locals that [decode_stream] computes, which carry the time and the
    version of the earlier frames. *)
Lemma parse_encode_stream fs rest pv o l' pv' :
  Forall frame_wf fs -> Forall (fun f => (4 <= length (f_payload f))%nat) fs ->
  (length rest <= 15)%nat ->
  decode_stream p init_locals pv fs = Some (l', pv') ->
  forget (parse (R:=R) p LEN (mkPState (encode_stream fs ++ rest) pv o)) =
  Val (Ok (Some (packet_of l'))) (rest, pv').
Proof.
  intros Hwf Hlen Hrest Hs. to_spec. apply parse_spec_iterates.
  - by apply iterates_stream.
  - by apply Nat.ltb_ge.
Qed.

(** An error discards the frames decoded before it.  When frames of
    the wire format are followed in the ring by a frame whose checksum byte
    is wrong, one call decodes them all, consumes the bad frame and returns
    [ERR_CHECKSUM]: the decoded frames were printed and are not returned. *)
Lemma parse_error_after_frames fs c f rest pv o l' pv' :
  Forall frame_wf fs -> Forall (fun f => (4 <= length (f_payload f))%nat) fs ->
  decode_stream p init_locals pv fs = Some (l', pv') ->
  frame_wf f -> c <> checksum (f_dtype f) (f_payload f) ->
  (4 <= length (f_payload f ++ rest))%nat ->
  is_Some (seq_report p pv' (f_seqnum f)) ->
  forget (parse (R:=R) p LEN (mkPState (encode_stream fs ++ frame_bytes c f ++ rest) pv o)) =
  Val (Err ERR_CHECKSUM) (rest, Some (f_seqnum f)).
Proof.
  intros Hwf Hlen Hs Hf Hc H4 [g Hg]. to_spec.
  apply (parse_spec_iterates_ret p LEN _ l' (frame_bytes c f ++ rest, pv')).
  - by apply iterates_stream.
  - by apply (more_than_15_frame []).
  - etrans; [apply (iter_spec_frame p LEN l' pv' [] c f rest eq_refl)|].
    by rewrite decode_spec_frame, Hg, decide_False.
Qed.

(** C3: [parse] returns a packet exactly when the ring carries frames up
    to the fifteen bytes or fewer it leaves.  Soundness: a packet returned
    was carried by the ring, which is made of frames of the wire format,
    each behind bytes without marker and with fourteen bytes at least
    behind its marker, followed by the ring left; the packet is what
    decoding these frames in sequence from the initial locals gives, and
    the sequence number remembered is that of the last; only a frame that
    ends the ring may have less data than its length field declares.
    Completeness: every ring of that form is so decoded.  The ring is one
    of bytes, of 65535 at most (the ring of [main] holds 512). *)
Theorem parse_accepts_iff st pk c' :
  bytes (ring st) -> Z.of_nat (length (ring st)) <= u16_MAX ->
  forget (parse (R:=R) p LEN st) = Val (Ok (Some pk)) c' <-> accepts p (core st) pk c'.
Proof.
  intros Hb Hlen. unfold forget. rewrite parse_refines. split.
  - by apply parse_spec_sound.
  - apply parse_spec_complete.
Qed.

(** C4: [parse] returns without a packet exactly when the ring carries
    frames up to more than fifteen bytes of which the bytes from the first
    marker on are refused: with [Ok(None)] when fewer than fourteen bytes
    follow that marker, which stays in the ring with them; with the length
    error when the two length fields do not agree, and the marker, the
    checksum byte and the length fields are gone; with the checksum error
    when the bytes hold the fields of a frame (whole, or cut short by the
    end of the ring) behind a checksum byte that is not the checksum of
    the data there; with the type error when they hold a frame of a type
    that is not in the table; in the last two cases the frame is gone and
    its sequence number is remembered.  The frames carried before were
    decoded and are not returned.  The ring is one of bytes within its
    capacity, of 65535 at most. *)
Theorem parse_rejects_iff st res c' :
  bytes (ring st) -> Z.of_nat (length (ring st)) <= u16_MAX -> (length (ring st) <= LEN)%nat ->
  forget (parse (R:=R) p LEN st) = Val res c' /\ (forall pk, res <> Ok (Some pk)) <->
  rejects p (core st) res c'.
Proof.
  intros Hb Hlen HL. unfold forget. rewrite parse_refines. split.
  - intros [E Hres]. by apply (parse_spec_rejects_sound p LEN (R:=R)).
  - intros Hr. split; [by apply parse_spec_rejects_complete|].
    destruct Hr as (fs & l & r1 & pv1 & pre & b & _ & _ & _ & _ & _ & Hr).
    intros pk. by apply (refuses_not_packet p pv1 b res c').
Qed.

(** C21: what was decoded before does not change how a call ends, unless
    it ends with a packet.  When the ring carries frames up to [r1],
    [parse] ends as it does on [r1] with the sequence number of the last of
    them: the same error or [Ok(None)], the same panic, the same ring left.
    The frames decoded before it were printed and are not returned. *)
Theorem parse_after_frames st fs l r1 pv1 o1 :
  carried p (ring st) fs r1 ->
  decode_stream p init_locals (prev_seqnum st) fs = Some (l, pv1) ->
  is_packet (parse (R:=R) p LEN (mkPState r1 pv1 o1)) = false ->
  forget (parse (R:=R) p LEN st) = forget (parse (R:=R) p LEN (mkPState r1 pv1 o1)).
Proof.
  intros Hc Hd Hp. unfold forget. rewrite !parse_refines.
  apply (parse_spec_after p LEN (core st) (r1, pv1) fs l Hc Hd).
  by rewrite <- (parse_refines p LEN (mkPState r1 pv1 o1)), is_packet_map_state.
Qed.

(** C15: a frame cut short is accepted when the data left out adds up to a
    multiple of 256.  When the ring ends after [k] bytes of the data of a
    frame, four at least, [parse] takes the data there is for the payload
    and checks the checksum over it: with data left out that does not
    change the sum, the frame is returned with a payload of [k] bytes and
    the ring is empty, so that the bytes left out, when they arrive, stand
    before the next marker and are skipped. *)
Theorem parse_cut_frame pre f k pv o :
  frame_wf f -> first_marker (pre ++ [0x41]) = None ->
  (4 <= k < length (f_payload f))%nat ->
  Zsum (drop k (f_payload f)) mod 256 = 0 ->
  DataType.known (DataType.from (f_dtype f)) = true ->
  is_clock (DataType.from (f_dtype f)) = false ->
  is_Some (seq_report p pv (f_seqnum f)) ->
  forget (parse (R:=R) p LEN (mkPState (pre ++ take (12 + k) (encode f)) pv o)) =
  Val (Ok (Some (0, f_subsec f, 0, DataType.from (f_dtype f), take k (f_payload f))))
    ([], Some (f_seqnum f)).
Proof.
  intros Hwf Hpre Hk Hz Hd Hc [g Hg]. to_spec.
  apply parse_spec_complete. eexists [cut_payload k f], _. cbn [fst snd decode_stream].
  change (f_dtype (cut_payload k f)) with (f_dtype f).
  change (f_seqnum (cut_payload k f)) with (f_seqnum f).
  rewrite Hd, Hg, (locals_after_data _ (cut_payload k f)) by done.
  split_and!; [|done..|cbn; lia]. apply carried_one; [done|].
  apply holds_frame_take; [done|lia|by apply checksum_take].
Qed.

(** C6: when fewer than fourteen bytes follow the first marker, [parse]
    returns [Ok(None)] and the ring holds the marker again, followed by
    those bytes; the bytes before the marker are gone. *)
Theorem parse_awaits pre rest pv o :
  first_marker (pre ++ [0x41]) = None ->
  (13 < length pre + length rest)%nat ->
  (length rest < 14)%nat -> (length rest + 2 <= LEN)%nat ->
  forget (parse (R:=R) p LEN (mkPState (pre ++ 0x41 :: 0x34 :: rest) pv o)) =
  Val (Ok None) (0x41 :: 0x34 :: rest, pv).
Proof.
  intros Hpre Hlen Hrest HLEN. to_spec. apply parse_spec_ret.
  - apply Nat.ltb_lt. cbn [fst]. rewrite length_app. cbn [length]. lia.
  - by rewrite iter_spec_app, decode_spec_short.
Qed.

(** C32: on a ring of fifteen bytes or fewer [parse] changes nothing and
    returns [Ok(Some(..))] with the initial values of its locals: the time,
    the counter and the version zero, the type [Invalid(255)] and no
    payload. *)
Theorem parse_idle r pv o :
  (length r <= 15)%nat ->
  parse (R:=R) p LEN (mkPState r pv o) =
  Val (Ok (Some (0, 0, 0, DataType.Invalid 255, []))) (mkPState r pv o).
Proof.
  intros H%Nat.ltb_ge. unfold parse, parse_body. apply call_val.
  by rewrite (bind_val _ _ _ _ _
                (while_loop_exit more_than_15 _ _ _ (mkPState r pv o) H)).
Qed.

(** C16: on a ring of more than fifteen bytes that holds no marker [parse]
    panics, on the [unwrap] of the marker scan. *)
Theorem parse_no_marker_panics r pv o :
  (15 < length r)%nat -> first_marker r = None ->
  parse (R:=R) p LEN (mkPState r pv o) = Panicked UnwrapNone.
Proof.
  intros Hlen Hm. apply forget_panicked. to_spec. by apply parse_spec_no_marker.
Qed.

(** C7: a length field that is not the complement of the inverse length
    field is the error [ERR_LENGTH]; the marker, the checksum byte and the
    four length bytes are consumed and nothing else: the ring keeps what
    followed them, and the sequence number is left as it was. *)
Theorem parse_length_mismatch pre c l0 l1 i0 i1 rest pv o :
  first_marker (pre ++ [0x41]) = None -> (9 <= length rest)%nat ->
  u16_from_le_bytes l0 l1 <> u16_not (u16_from_le_bytes i0 i1) ->
  forget (parse (R:=R) p LEN
            (mkPState (pre ++ 0x41 :: 0x34 :: c :: l0 :: l1 :: i0 :: i1 :: rest) pv o)) =
  Val (Err ERR_LENGTH) (rest, pv).
Proof.
  intros Hpre Hlen Hne. to_spec. apply parse_spec_ret.
  - apply Nat.ltb_lt. cbn [fst]. rewrite length_app. cbn [length]. lia.
  - rewrite iter_spec_app by done.
    do 5 (destruct rest as [|? rest]; [cbn in Hlen; lia|]).
    rewrite decode_spec_header by (cbn in Hlen; lia). cbv zeta.
    by rewrite decide_False.
Qed.

(** C8: a frame whose checksum byte is not the checksum of its type and
    payload is the error [ERR_CHECKSUM]; the whole frame is consumed and
    its sequence number is remembered. *)
Theorem parse_checksum_mismatch pre c f rest pv o :
  frame_wf f -> first_marker (pre ++ [0x41]) = None ->
  (4 <= length (f_payload f ++ rest))%nat ->
  is_Some (seq_report p pv (f_seqnum f)) ->
  c <> checksum (f_dtype f) (f_payload f) ->
  forget (parse (R:=R) p LEN (mkPState (pre ++ frame_bytes c f ++ rest) pv o)) =
  Val (Err ERR_CHECKSUM) (rest, Some (f_seqnum f)).
Proof.
  intros Hwf Hpre Hlen [g Hg] Hc. to_spec. apply parse_spec_frame_ret; [done..|].
  by rewrite decode_spec_frame, Hg, decide_False.
Qed.

(** C33: a frame with a valid checksum and a type byte that is not in the
    table is the error [ERR_DATATYPE]; the whole frame is consumed and its
    sequence number is remembered. *)
Theorem parse_bad_datatype pre f rest pv o :
  frame_wf f -> first_marker (pre ++ [0x41]) = None ->
  (4 <= length (f_payload f ++ rest))%nat ->
  is_Some (seq_report p pv (f_seqnum f)) ->
  DataType.known (DataType.from (f_dtype f)) = false ->
  forget (parse (R:=R) p LEN (mkPState (pre ++ encode f ++ rest) pv o)) =
  Val (Err ERR_DATATYPE) (rest, Some (f_seqnum f)).
Proof.
  intros Hwf Hpre Hlen [g Hg] Hk. to_spec. apply parse_spec_frame_ret; [done..|].
  by rewrite decode_spec_frame, Hg, decide_True, Hk.
Qed.

(** C38: a frame of type timestamp or version with fewer than three payload
    bytes and a valid checksum makes [parse] panic, on the [unwrap] of the
    clock step. *)
Theorem parse_clock_short_panics pre f rest pv o :
  frame_wf f -> first_marker (pre ++ [0x41]) = None ->
  (4 <= length (f_payload f ++ rest))%nat ->
  is_Some (seq_report p pv (f_seqnum f)) ->
  is_clock (DataType.from (f_dtype f)) = true -> (length (f_payload f) < 3)%nat ->
  parse (R:=R) p LEN (mkPState (pre ++ encode f ++ rest) pv o) = Panicked UnwrapNone.
Proof.
  intros Hwf Hpre Hlen [g Hg] Hc Hshort. apply forget_panicked. to_spec.
  apply parse_spec_frame_panic; [done..|].
  rewrite decode_spec_frame, Hg, decide_True, locals_after_short by done.
  by destruct (DataType.from _).
Qed.

(** C29: what [parse] leaves in a ring within its capacity is a suffix of
    the ring it was given, however the call ends: bytes are only taken from
    the front, and the marker that is pushed back is the one taken. *)
Theorem parse_leaves_suffix st :
  CircularBuffer.wf LEN (ring st) ->
  holds_after (fun st' => ring st' `suffix_of` ring st) (parse (R:=R) p LEN st).
Proof.
  intros Hwf. apply (map_state_holds_after core (fun c => c.1 `suffix_of` ring st)).
  rewrite parse_refines. by apply (parse_spec_suffix p LEN (core st)).
Qed.

(** What [parse] prints for a frame.  On a frame of a known type
    after bytes without marker and before at most fifteen bytes, [parse]
    ends in the state with the bytes after the frame, the frame's sequence
    number and, added to the trace in this order: the line of the ring, the
    checksum, the two lengths, the time-low byte and the sub-second counter,
    the sequence number and the report of the tracker, the type, the
    warning for a short payload, the payload, the lines of the clock step
    and the full time. *)
Lemma parse_prints_frame pre f rest pv o l' g :
  frame_wf f -> first_marker (pre ++ [0x41]) = None ->
  (4 <= length (f_payload f ++ rest))%nat -> (length rest <= 15)%nat ->
  DataType.known (DataType.from (f_dtype f)) = true ->
  seq_report p pv (f_seqnum f) = Some g -> locals_after init_locals f = Some l' ->
  parse (R:=R) p LEN (mkPState (pre ++ encode f ++ rest) pv o) =
  Val (Ok (Some (packet_of l')))
    (mkPState rest (Some (f_seqnum f))
       (frame_trace g f rest (zeo_time_full l')
          ++ PrintParse 0 (pre ++ encode f ++ rest) :: o)).
Proof.
  intros Hwf Hpre Hlen Hrest Hk Hg Hl. unfold parse, parse_body. apply call_val.
  erewrite bind_val; [done|]. cbn [ring].
  assert (15 < length (pre ++ encode f ++ rest))%nat as H15
    by (rewrite !length_app, length_encode; rewrite length_app in Hlen; lia).
  assert (0 < length (pre ++ encode f ++ rest))%nat as H0 by lia.
  assert (more_than_15 (mkPState (pre ++ encode f ++ rest) pv o) = true) as Hc
    by by apply Nat.ltb_lt.
  rewrite (while_loop_step _ _ _ _ _ _ _ H0 Hc
             (parse_iter_trace p LEN init_locals pv o pre f rest l' g Hwf Hpre Hlen Hk Hg Hl)).
  apply while_loop_exit. by apply Nat.ltb_ge.
Qed.

(** C20: what [parse] prints for the frames of a ring, in order.  On
    frames of known types that follow one another, after bytes without
    marker and before at most fifteen bytes, [parse] ends in the state with
    the bytes after the last frame and its sequence number, returns the
    packet of the last frame, and has added to the trace, for each frame in
    the order of the ring: the line of the ring as it is then, with the
    counter of the iteration, the checksum, the two lengths, the time-low
    byte and the sub-second counter, the sequence number and the report of
    the tracker, the type, the warning for a short payload, the payload,
    the lines of the clock step and the full time. *)
Theorem parse_prints_stream pre f fs rest pv o l' pv' tr :
  Forall frame_wf (f :: fs) -> Forall (fun f => (4 <= length (f_payload f))%nat) (f :: fs) ->
  first_marker (pre ++ [0x41]) = None -> (length rest <= 15)%nat ->
  decode_stream p init_locals pv (f :: fs) = Some (l', pv') ->
  stream_trace p init_locals pv pre (f :: fs) rest o = Some tr ->
  parse (R:=R) p LEN (mkPState (pre ++ encode_stream (f :: fs) ++ rest) pv o) =
  Val (Ok (Some (packet_of l'))) (mkPState rest pv' tr).
Proof.
  intros Hwf Hlen Hpre Hrest Hd Ht. unfold parse, parse_body. apply call_val.
  by erewrite bind_val; [|by apply loop_prints_frames].
Qed.

(** C24: the sequence tracker over the frames of a call.  For frames of
    known types that follow one another in the ring, from any carried
    sequence number, the lines [we've lost n sequence(s)!] that [parse]
    adds to the trace are, in order, the gaps between consecutive sequence
    numbers, counted modulo 256 from the successor of the number before:
    nothing for a frame in sequence and nothing for the first frame after
    the start, one line with the count otherwise.  The number carried on
    is that of the last frame. *)
Theorem parse_reports_gaps pre f fs rest pv o l' pv' :
  Forall frame_wf (f :: fs) -> Forall (fun f => (4 <= length (f_payload f))%nat) (f :: fs) ->
  first_marker (pre ++ [0x41]) = None -> (length rest <= 15)%nat ->
  decode_stream p init_locals pv (f :: fs) = Some (l', pv') ->
  exists tr,
    parse (R:=R) p LEN (mkPState (pre ++ encode_stream (f :: fs) ++ rest) pv o) =
      Val (Ok (Some (packet_of l'))) (mkPState rest pv' tr) /\
    pv' = f_seqnum <$> last (f :: fs) /\
    lost_reports tr = lost_reports o ++ gaps pv (f_seqnum <$> f :: fs).
Proof.
  intros Hwf Hlen Hpre Hrest Hd.
  destruct (stream_trace_is_Some p _ _ _ pre rest o _ Hd) as [tr Ht]. exists tr.
  split_and!; [|by eapply decode_stream_last|by apply (stream_trace_lost p _ _ _ _ _ _ _ Hwf Ht)].
  unfold parse, parse_body. apply call_val.
  by erewrite bind_val; [|by apply loop_prints_frames].
Qed.

(** C11: [parse] is well typed.  Given a ring of bytes within its capacity
    and a carried sequence number that is a [u8], it leaves such a ring and
    such a number, and the tuple it returns holds a [u32] time, a [u16]
    sub-second counter, a [u32] version, a [DataType] whose [Invalid]
    carries a byte and a payload of bytes: no value the model computes in
    [Z] leaves the range of its Rust type. *)
Theorem parse_typed st :
  core_wf LEN (core st) ->
  post (fun res st' => result_wf res /\ core_wf LEN (core st')) (fun _ _ => False)
       (parse (R:=R) p LEN st).
Proof.
  intros Hc. apply (map_state_post core (fun res c' => result_wf res /\ core_wf LEN c')
                      (fun _ _ => False)).
  rewrite parse_refines. by apply parse_spec_typed.
Qed.

(** C19: the result of [parse] tells what is left of a ring within its
    capacity.  With a packet the ring holds fifteen bytes or fewer; with
    [Ok(None)] it holds the marker followed by fewer than fourteen bytes
    that end the ring given; an error is one of the three messages and
    seven bytes at least were consumed. *)
Theorem parse_result_ring st :
  CircularBuffer.wf LEN (ring st) ->
  post (fun res st' => result_ring (ring st) res (ring st')) (fun _ _ => False)
       (parse (R:=R) p LEN st).
Proof.
  intros Hw. apply (map_state_post core (fun res c' => result_ring (ring st) res c'.1)
                      (fun _ _ => False)).
  rewrite parse_refines. by apply (parse_spec_result p LEN (core st)).
Qed.

(** C28: [parse] returns for every ring, with the length of the ring as the
    fuel of its loop: it never runs out of fuel. *)
Theorem parse_total st : is_out_of_fuel (parse (R:=R) p LEN st) = false.
Proof.
  rewrite <- (map_state_fuel core), (parse_refines p LEN st). apply parse_spec_total.
Qed.

(** The ways [parse] can panic.  In every build it panics on the
    [unwrap] of [None] only (the marker scan on a ring without marker, the
    clock code on a short payload); a build with overflow checks panics on
    the two subtractions as well; no build panics on an index. *)
Lemma parse_panic_kinds st : panics_in (parse_panic p) (parse (R:=R) p LEN st).
Proof.
  apply (map_state_panics_in _ core). rewrite parse_refines. apply parse_spec_panics.
Qed.

(** C5: [parse] panics exactly when the ring carries frames up to more
    than fifteen bytes that make it panic: on the [unwrap] of the marker
    scan when they hold no marker; on a subtraction when, behind their
    first marker, the two length fields agree and the sequence number is
    behind the one expected or the length is zero, in a build that checks
    for overflow; on the [unwrap] of the clock step when they hold a frame
    with a valid checksum, of type timestamp or version, with fewer than
    three bytes of data.  On every other ring of bytes, of 65535 at most,
    [parse] returns. *)
Theorem parse_panics_iff st k :
  bytes (ring st) -> Z.of_nat (length (ring st)) <= u16_MAX ->
  parse (R:=R) p LEN st = Panicked k <-> aborts p (core st) k.
Proof.
  intros Hb Hlen. split.
  - intros E. apply (parse_spec_aborts_sound p LEN (R:=R)); [done..|].
    by rewrite <- parse_refines, E.
  - intros Ha. apply forget_panicked. unfold forget. rewrite parse_refines.
    by apply parse_spec_aborts_complete.
Qed.

End Correct.

(** ** The sequence tracker *)

Section Tracker.
Context (p : Profile).

(** C34: when the sequence number [q] of a frame is ahead of the successor
    of the previous one, [read_seqnum] prints the number of frames in
    between as lost, [q - pseq - 1], accepts the frame and remembers
    [q]. *)
Theorem read_seqnum_gap pseq q r o :
  is_u8 pseq -> is_u8 q -> pseq + 1 < q ->
  read_seqnum p (mkPState (q :: r) (Some pseq) o) =
  Val q (mkPState r (Some q) (PrintLost (q - pseq - 1) :: PrintSeqnum q :: o)).
Proof.
  intros Hp Hq Hlt. rewrite <- (bind_ret_r (read_seqnum p)), run_read_seqnum.
  unfold seq_report. rewrite u8_wrapping_add_small by range.
  rewrite (decide_False (P := pseq + 1 = q)), (decide_True (P := pseq + 1 <= q)) by lia.
  by replace (q - (pseq + 1)) with (q - pseq - 1) by lia.
Qed.

End Tracker.

(** ** The payload loop *)

(** The loop [for _ in 0..datalen] that pops the payload byte by byte
    is a slice of the ring: from any state it returns what was collected
    followed by the first [n] bytes of the ring (all of it when the ring is
    shorter), leaves the ring without them and prints one warning for each
    byte that was missing. *)
Lemma read_data_loop_slices n acc st :
  read_data_loop n acc st =
  Val (acc ++ take n (ring st))
    (mkPState (drop n (ring st)) (prev_seqnum st)
       (replicate (n - length (ring st)) PrintShort ++ out st)).
Proof. destruct st. apply read_data_loop_spec. Qed.

(** ** Inputs on which a debug build panics *)

Section Panics.
Context {R : Type} (LEN : nat).

(** C35: in a build with overflow checks, a frame whose sequence number is
    below the successor of the previous one makes [parse] panic on the
    subtraction [seqnum - prev_seq1]. *)
Theorem parse_sequence_behind_panics pre f rest pseq o :
  frame_wf f -> first_marker (pre ++ [0x41]) = None ->
  (4 <= length (f_payload f ++ rest))%nat ->
  f_seqnum f < u8_wrapping_add pseq 1 ->
  parse (R:=R) Debug LEN (mkPState (pre ++ encode f ++ rest) (Some pseq) o) =
  Panicked ArithOverflow.
Proof.
  intros Hwf Hpre Hlen Hb. apply forget_panicked. to_spec.
  apply parse_spec_frame_panic; [done..|].
  by rewrite decode_spec_frame, seq_report_behind.
Qed.

(** C36: in a build with overflow checks, a header whose length field is
    zero and whose inverse length field is [0xFFFF] passes the length check
    and makes [parse] panic on the subtraction [dl - 1]. *)
Theorem parse_zero_length_panics pre c t s0 s1 q d tail pv o :
  first_marker (pre ++ [0x41]) = None -> (4 <= length tail)%nat ->
  is_Some (seq_report Debug pv q) ->
  parse (R:=R) Debug LEN
    (mkPState (pre ++ 0x41 :: 0x34 :: c :: 0 :: 0 :: 0xFF :: 0xFF
                   :: t :: s0 :: s1 :: q :: d :: tail) pv o) =
  Panicked ArithOverflow.
Proof.
  intros Hpre Hlen [g Hg]. apply forget_panicked. to_spec. apply parse_spec_panic.
  - apply Nat.ltb_lt. cbn [fst]. rewrite length_app. cbn [length]. lia.
  - rewrite iter_spec_app, decode_spec_header by done. cbv zeta.
    change (u16_from_le_bytes 0 0) with 0.
    change (u16_not (u16_from_le_bytes 255 255)) with 0.
    by rewrite decide_True, Hg.
Qed.

(** In a build without overflow checks, the same header gives the
    payload length 65535: [parse] takes the whole ring as the payload of the
    frame, and with a checksum that does not match returns [ERR_CHECKSUM]
    on an empty ring. *)
Lemma parse_zero_length_release pre c t s0 s1 q d tail pv o :
  first_marker (pre ++ [0x41]) = None ->
  (4 <= length tail)%nat -> Z.of_nat (length tail) <= 65535 ->
  (d + Zsum tail) mod 256 <> c ->
  forget (parse (R:=R) Release LEN
    (mkPState (pre ++ 0x41 :: 0x34 :: c :: 0 :: 0 :: 0xFF :: 0xFF
                   :: t :: s0 :: s1 :: q :: d :: tail) pv o)) =
  Val (Err ERR_CHECKSUM) ([], Some q).
Proof.
  intros Hpre Hlen Hmax Hc. destruct (seq_report_release pv q) as [g Hg].
  to_spec. apply parse_spec_ret.
  - apply Nat.ltb_lt. cbn [fst]. rewrite length_app. cbn [length]. lia.
  - rewrite iter_spec_app, decode_spec_header by (done || lia). cbv zeta.
    change (u16_from_le_bytes 0 0) with 0.
    change (u16_not (u16_from_le_bytes 255 255)) with 0.
    change (payload_len Release 0) with (Some (Z.to_nat 65535)).
    by rewrite decide_True, Hg, take_ge, drop_ge, decide_False by (done || lia).
Qed.

End Panics.

(** ** The clock step *)

(** For a frame that is neither a timestamp nor a version the clock
    step does nothing: the payload, the full time and the version are those
    of the locals, whatever the time-low byte of the frame is. *)
Lemma handle_clock_data tt_lb d payload l st :
  is_clock d = false ->
  handle_clock tt_lb d payload l st = Val (payload, zeo_time_full l, zeo_version l) st.
Proof. by destruct d. Qed.

(** ** The theorems on the example inputs *)

Lemma parse_encode_data_witness :
  forget (parse (R:=ParseResult) Debug 512
            (mkPState ([0x00; 0xFF] ++ encode example_event ++ [0x41]) (Some 0x84) [])) =
  Val (Ok (Some (0, 7, 0, DataType.Event, [0x41; 0x34; 0x05; 0x00]))) ([0x41], Some 0x85).
Proof.
  apply (parse_encode_data (R:=ParseResult) Debug 512 [0x00; 0xFF] example_event [0x41]
           (Some 0x84) []); by_compute.
Defined.

Lemma parse_encode_timestamp_witness :
  forget (parse (R:=ParseResult) Release 512
            (mkPState ([0x00; 0x00] ++ encode example_timestamp ++ [0x41]) None [])) =
  Val (Ok (Some (1672686367, 6, 0, DataType.ZeoTimestamp, []))) ([0x41], Some 0x84).
Proof.
  apply (parse_encode_timestamp (R:=ParseResult) Release 512 [0x00; 0x00]
           example_timestamp [0x41] None [] 1672686367 []); by_compute.
Defined.

Lemma parse_encode_version_witness :
  forget (parse (R:=ParseResult) Debug 512
            (mkPState ([] ++ encode example_version ++ []) (Some 0x85) [])) =
  Val (Ok (Some (0, 8, 3, DataType.Version, []))) ([], Some 0x86).
Proof.
  apply (parse_encode_version (R:=ParseResult) Debug 512 [] example_version []
           (Some 0x85) [] 3 []); by_compute.
Defined.

(** Three frames in one call: the timestamp, the event whose payload holds
    the marker, the version.  The version frame is returned, with the time
    of the timestamp frame. *)
Lemma parse_encode_stream_witness :
  forget (parse (R:=ParseResult) Debug 512
            (mkPState
               (encode_stream [example_timestamp; example_event; example_version] ++ [0x41])
               None [])) =
  Val (Ok (Some (1672686367, 8, 3, DataType.Version, []))) ([0x41], Some 0x86).
Proof.
  apply (parse_encode_stream (R:=ParseResult) Debug 512
           [example_timestamp; example_event; example_version] [0x41] None []
           {| tt_ss := 8; datatype := DataType.Version; datavec := [];
              zeo_version := 3; zeo_time_full := 1672686367; while_counter := 3 |}
           (Some 0x86)); by_compute.
Defined.

(** The timestamp frame and the event frame, then the version frame with
    the checksum byte 0. *)
Lemma parse_error_after_frames_witness :
  forget (parse (R:=ParseResult) Debug 512
            (mkPState
               (encode_stream [example_timestamp; example_event]
                  ++ frame_bytes 0 example_version ++ [])
               None [])) =
  Val (Err ERR_CHECKSUM) ([], Some 0x86).
Proof.
  refine (parse_error_after_frames (R:=ParseResult) Debug 512
            [example_timestamp; example_event] 0 example_version [] None []
            {| tt_ss := 7; datatype := DataType.Event; datavec := [0x41; 0x34; 0x05; 0x00];
               zeo_version := 0; zeo_time_full := 1672686367; while_counter := 2 |}
            (Some 0x85) _ _ _ _ _ _ _); by_compute.
Defined.

(** The capture of the comments of [parse]: two bytes, the marker and
    thirteen bytes of a frame of sixteen. *)
Lemma parse_awaits_witness :
  forget (parse (R:=ParseResult) Debug 512
            (mkPState ([0x00; 0x00] ++ 0x41 :: 0x34 :: drop 4 example_capture) None [])) =
  Val (Ok None) (0x41 :: 0x34 :: drop 4 example_capture, None).
Proof.
  apply (parse_awaits (R:=ParseResult) Debug 512 [0x00; 0x00] (drop 4 example_capture)
           None []); by_compute.
Defined.

(** The capture without the two bytes before the marker. *)
Lemma parse_idle_witness :
  parse (R:=ParseResult) Debug 512 (mkPState (drop 2 example_capture) None []) =
  Val (Ok (Some (0, 0, 0, DataType.Invalid 255, [])))
    (mkPState (drop 2 example_capture) None []).
Proof.
  apply (parse_idle (R:=ParseResult) Debug 512 (drop 2 example_capture) None []).
  by_compute.
Defined.

Lemma parse_no_marker_panics_witness :
  parse (R:=ParseResult) Release 512 (mkPState (replicate 16 0x41) None []) =
  Panicked UnwrapNone.
Proof.
  apply (parse_no_marker_panics (R:=ParseResult) Release 512 (replicate 16 0x41) None []);
    by_compute.
Defined.

Lemma parse_length_mismatch_witness :
  forget (parse (R:=ParseResult) Debug 512
            (mkPState ([0x34] ++ 0x41 :: 0x34 :: 0xEA :: 0x05 :: 0x00 :: 0xFB :: 0xFF
                         :: drop 9 example_capture ++ [1; 2; 3]) None [])) =
  Val (Err ERR_LENGTH) (drop 9 example_capture ++ [1; 2; 3], None).
Proof.
  apply (parse_length_mismatch (R:=ParseResult) Debug 512 [0x34] 0xEA 0x05 0x00 0xFB 0xFF
           (drop 9 example_capture ++ [1; 2; 3]) None []); by_compute.
Defined.

Lemma parse_checksum_mismatch_witness :
  forget (parse (R:=ParseResult) Debug 512
            (mkPState ([] ++ frame_bytes 0xEB example_timestamp ++ [0x41; 0x34]) None [])) =
  Val (Err ERR_CHECKSUM) ([0x41; 0x34], Some 0x84).
Proof.
  apply (parse_checksum_mismatch (R:=ParseResult) Debug 512 [] 0xEB example_timestamp
           [0x41; 0x34] None []); by_compute.
Defined.

Lemma parse_bad_datatype_witness :
  forget (parse (R:=ParseResult) Debug 512
            (mkPState ([] ++ encode example_unknown ++ []) None [])) =
  Val (Err ERR_DATATYPE) ([], Some 0x86).
Proof.
  apply (parse_bad_datatype (R:=ParseResult) Debug 512 [] example_unknown [] None []);
    by_compute.
Defined.

Lemma parse_clock_short_panics_witness :
  parse (R:=ParseResult) Release 512
    (mkPState ([] ++ encode example_short_clock ++ [0; 0]) None []) =
  Panicked UnwrapNone.
Proof.
  apply (parse_clock_short_panics (R:=ParseResult) Release 512 [] example_short_clock
           [0; 0] None []); by_compute.
Defined.

Lemma parse_leaves_suffix_witness :
  holds_after (fun st' => ring st' `suffix_of` example_capture)
    (parse (R:=ParseResult) Debug 512 (mkPState example_capture None [])).
Proof.
  apply (parse_leaves_suffix (R:=ParseResult) Debug 512 (mkPState example_capture None [])).
  by_compute.
Defined.

(** The event frame after two bytes, the sequence number 0x82 before it:
    two frames are reported lost. *)
Lemma parse_prints_frame_witness :
  parse (R:=ParseResult) Debug 512 (mkPState ([0; 0] ++ encode example_event ++ []) (Some 0x82) []) =
  Val (Ok (Some (0, 7, 0, DataType.Event, [0x41; 0x34; 0x05; 0x00])))
    (mkPState [] (Some 0x85)
       [PrintTimeFull 0 7; PrintData [0x41; 0x34; 0x05; 0x00]; PrintDatatype DataType.Event;
        PrintLost 2; PrintSeqnum 0x85; PrintTime 0x20 7; PrintLengths 5 0xFFFA 5;
        PrintChecksum 0x7A; PrintParse 0 ([0; 0] ++ encode example_event ++ [])]).
Proof.
  refine (parse_prints_frame (R:=ParseResult) Debug 512 [0; 0] example_event [] (Some 0x82) []
            {| tt_ss := 7; datatype := DataType.Event; datavec := [0x41; 0x34; 0x05; 0x00];
               zeo_version := 0; zeo_time_full := 0; while_counter := 1 |}
            [PrintLost 2] _ _ _ _ _ _ _); by_compute.
Defined.

(** The sequence numbers 5, 6 and 8 after the number 4: one frame is
    reported lost, between the second frame and the third. *)
Lemma parse_reports_gaps_witness :
  exists tr,
    parse (R:=ParseResult) Debug 512
      (mkPState ([] ++ encode_stream example_sequence ++ []) (Some 4) []) =
      Val (Ok (Some (0, 9, 0, DataType.Event, [1; 2; 3; 4]))) (mkPState [] (Some 8) tr) /\
    Some 8 = f_seqnum <$> last example_sequence /\
    lost_reports tr = lost_reports [] ++ gaps (Some 4) [5; 6; 8].
Proof.
  refine (parse_reports_gaps (R:=ParseResult) Debug 512 [] _ _ [] (Some 4) []
            {| tt_ss := 9; datatype := DataType.Event; datavec := [1; 2; 3; 4];
               zeo_version := 0; zeo_time_full := 0; while_counter := 3 |} (Some 8)
            _ _ _ _ _); by_compute.
Defined.

(** The gaps of the sequence numbers 5, 6 and 8: none before the first
    number seen, none between 5 and 6, one between 6 and 8. *)
Example gaps_5_6_8 : gaps None [5; 6; 8] = [1] /\ gaps (Some 4) [5; 6; 8] = [1].
Proof. done. Qed.

Lemma parse_typed_witness :
  post (fun res st' => result_wf res /\ core_wf 512 (core st')) (fun _ _ => False)
    (parse (R:=ParseResult) Debug 512 (mkPState (encode example_timestamp) (Some 0x83) [])).
Proof.
  apply (parse_typed (R:=ParseResult) Debug 512
           (mkPState (encode example_timestamp) (Some 0x83) [])).
  by_compute.
Defined.

(** The capture of the comments of [parse]: [Ok(None)], and the ring is the
    marker followed by the thirteen bytes after it. *)
Lemma parse_result_ring_witness :
  post (fun res st' => result_ring example_capture res (ring st')) (fun _ _ => False)
    (parse (R:=ParseResult) Debug 512 (mkPState example_capture None [])).
Proof.
  apply (parse_result_ring (R:=ParseResult) Debug 512 (mkPState example_capture None [])).
  by_compute.
Defined.

(** The sequence numbers 5, 6, 8 of the specification: one frame is lost
    between the second and the third. *)
Lemma read_seqnum_gap_witness :
  read_seqnum Debug (mkPState [8] (Some 6) []) =
  Val 8 (mkPState [] (Some 8) [PrintLost 1; PrintSeqnum 8]).
Proof. apply (read_seqnum_gap Debug 6 8 [] []); by_compute. Defined.

(** The sequence number wraps from 250 to 3: eight frames are lost, and a
    debug build panics. *)
Lemma parse_sequence_behind_panics_witness :
  parse (R:=ParseResult) Debug 512
    (mkPState ([] ++ encode (mkFrame 0x20 7 3 0x00 [1; 2; 3; 4]) ++ []) (Some 250) []) =
  Panicked ArithOverflow.
Proof.
  apply (parse_sequence_behind_panics (R:=ParseResult) 512 []
           (mkFrame 0x20 7 3 0x00 [1; 2; 3; 4]) [] 250 []); by_compute.
Defined.

Lemma parse_zero_length_panics_witness :
  parse (R:=ParseResult) Debug 512
    (mkPState ([] ++ 0x41 :: 0x34 :: 0x00 :: 0 :: 0 :: 0xFF :: 0xFF
                  :: 0x1F :: 6 :: 0 :: 0x84 :: 0x00 :: [1; 2; 3; 4]) None []) =
  Panicked ArithOverflow.
Proof.
  apply (parse_zero_length_panics (R:=ParseResult) 512 [] 0x00 0x1F 6 0 0x84 0x00
           [1; 2; 3; 4] None []); by_compute.
Defined.

Lemma parse_zero_length_release_witness :
  forget (parse (R:=ParseResult) Release 512
    (mkPState ([] ++ 0x41 :: 0x34 :: 0x00 :: 0 :: 0 :: 0xFF :: 0xFF
                  :: 0x1F :: 6 :: 0 :: 0x84 :: 0x00 :: [1; 2; 3; 4]) None [])) =
  Val (Err ERR_CHECKSUM) ([], Some 0x84).
Proof.
  apply (parse_zero_length_release (R:=ParseResult) 512 [] 0x00 0x1F 6 0 0x84 0x00
           [1; 2; 3; 4] None []); by_compute.
Defined.

(** A waveform frame with the time-low byte 4 after a timestamp whose time
    was 0x1003: the time stays 0x1003. *)
Lemma handle_clock_data_witness :
  handle_clock 0x04 DataType.Waveform [1; 2]
    {| tt_ss := 0; datatype := DataType.ZeoTimestamp; datavec := [];
       zeo_version := 0; zeo_time_full := 0x1003; while_counter := 1 |}
    (mkPState [] None []) =
  Val ([1; 2], 0x1003, 0) (mkPState [] None []).
Proof. by apply handle_clock_data. Defined.

(** The two frames of the examples and one byte: they are decoded, and the
    packet is that of the second. *)
Lemma parse_accepts_iff_witness :
  forget (parse (R:=ParseResult) Debug 512
            (mkPState (encode example_timestamp ++ encode example_event ++ [0x41]) None [])) =
  Val (Ok (Some (1672686367, 7, 0, DataType.Event, [0x41; 0x34; 0x05; 0x00])))
    ([0x41], Some 0x85).
Proof.
  apply (parse_accepts_iff (R:=ParseResult) Debug 512); [by_compute..|].
  eexists [example_timestamp; example_event], _. split_and!; [|by_compute..].
  apply (carried_cons Debug [] _ example_timestamp (encode example_event ++ [0x41]));
    [done|apply holds_whole; by_compute|].
  apply (carried_cons Debug [] _ example_event [0x41]);
    [done|apply holds_whole; by_compute|constructor].
Defined.

(** The event frame, three bytes without marker and the frame of
    frequency bins with the checksum byte 0, followed by one byte: that
    frame is rejected, the event frame is not returned, and the byte is left. *)
Lemma parse_rejects_iff_witness :
  forget (parse (R:=ParseResult) Debug 512
            (mkPState (encode example_event ++ [0x34; 0x41; 0x00]
                         ++ frame_bytes 0 example_bins ++ [0x41]) (Some 0x84) [])) =
  Val (Err ERR_CHECKSUM) ([0x41], Some 0x87) /\
  (forall pk, Err ERR_CHECKSUM <> Ok (Some pk)).
Proof.
  apply (parse_rejects_iff (R:=ParseResult) Debug 512); [by_compute..|].
  eexists [example_event], _, _, _, [0x34; 0x41; 0x00], _. split_and!; [|by_compute| | | |].
  - apply (carried_one Debug [] _ example_event); [done|apply holds_whole; by_compute].
  - done.
  - by_compute.
  - done.
  - apply (refuses_checksum Debug _ 0 _ example_bins [0x41]);
      [apply holds_whole; by_compute|by_compute..].
Defined.

(** The event frame and a timestamp frame with two bytes of data, followed
    by two bytes: the event frame is decoded and the call panics in the
    clock step. *)
Lemma parse_panics_iff_witness :
  parse (R:=ParseResult) Release 512
    (mkPState (encode example_event ++ encode example_short_clock ++ [0; 0]) (Some 0x84) []) =
  Panicked UnwrapNone.
Proof.
  apply (parse_panics_iff (R:=ParseResult) Release 512); [by_compute..|].
  eexists [example_event], _, _, _. split_and!; [|by_compute| |].
  - apply (carried_one Release [] _ example_event); [done|apply holds_whole; by_compute].
  - by_compute.
  - right. exists [], (encode example_short_clock ++ [0; 0]). split_and!; [done..|].
    apply (aborts_clock Release _ _ example_short_clock [0; 0]);
      [apply holds_whole; by_compute|by_compute..].
Defined.

(** The timestamp frame and the event frame behind one byte and before
    another: the lines of the timestamp frame, then those of the event
    frame, whose packet has the time of the timestamp frame. *)
Lemma parse_prints_stream_witness :
  parse (R:=ParseResult) Debug 512
    (mkPState ([0x34] ++ encode_stream [example_timestamp; example_event] ++ [0x41]) None []) =
  Val (Ok (Some (1672686367, 7, 0, DataType.Event, [0x41; 0x34; 0x05; 0x00])))
    (mkPState [0x41] (Some 0x85)
       (    frame_trace [] example_event [0x41] 1672686367
         ++ PrintParse 1 (encode example_event ++ [0x41])
         :: frame_trace [] example_timestamp (encode example_event ++ [0x41]) 1672686367
         ++ [PrintParse 0 ([0x34] ++ encode_stream [example_timestamp; example_event] ++ [0x41])])).
Proof.
  apply (parse_prints_stream (R:=ParseResult) Debug 512 [0x34] example_timestamp
           [example_event] [0x41] None []
           {| tt_ss := 7; datatype := DataType.Event; datavec := [0x41; 0x34; 0x05; 0x00];
              zeo_version := 0; zeo_time_full := 1672686367; while_counter := 2 |}
           (Some 0x85)); by_compute.
Defined.

(** The frame of frequency bins without its last byte, which is zero: it
    is returned with thirteen bytes of data. *)
Lemma parse_cut_frame_witness :
  forget (parse (R:=ParseResult) Debug 512
            (mkPState ([] ++ take (12 + 13) (encode example_bins)) None [])) =
  Val (Ok (Some (0, 9, 0, DataType.FrequencyBins,
                 [0x29; 0x1D; 0x63; 0x21; 0xEE; 0x1B; 0x2D; 0x11; 0xB5; 0x0C; 0x31; 0x0E; 0x37])))
    ([], Some 0x87).
Proof.
  refine (parse_cut_frame (R:=ParseResult) Debug 512 [] example_bins 13 None [] _ _ _ _ _ _ _);
    by_compute.
Defined.

(** The two frames of the examples followed by the capture of the comments
    of [parse], which ends inside a header: the call ends as on the capture
    alone, with [Ok(None)] and the marker pushed back, and the two frames
    are not returned. *)
Lemma parse_after_frames_witness :
  forget (parse (R:=ParseResult) Debug 512
            (mkPState (encode example_timestamp ++ encode example_event ++ example_capture)
               None [])) =
  Val (Ok None) (drop 2 example_capture, Some 0x85).
Proof.
  transitivity (forget (parse (R:=ParseResult) Debug 512
                          (mkPState example_capture (Some 0x85) []))); [|by_compute].
  eapply (parse_after_frames (R:=ParseResult) Debug 512 _ [example_timestamp; example_event]);
    [|by_compute..].
  apply (carried_cons Debug [] _ example_timestamp (encode example_event ++ example_capture));
    [done|apply holds_whole; by_compute|].
  apply (carried_cons Debug [] _ example_event example_capture);
    [done|apply holds_whole; by_compute|constructor].
Defined.
