(* ===== verification/Driver.v ===== *)
(** * Driver: [main] and its loop

    [main] (main.rs, lines 30-81) opens the serial port and loops forever:
    it reads into a buffer of 512 bytes, extends the ring of 512 bytes with
    what was read, calls [parse::<512>] and prints the packet when the
    result is [Ok(Some(..))] and bytes were received.  The serial port is
    its input: a run of the loop is determined by the results of
    [port.read], so the loop is modelled as [main_loop] over the list of
    those results, one [main_step] per iteration, and a theorem on
    [main_loop] is a statement on every finite prefix of a run.

    The state [MState] holds the variables that live across iterations
    ([ring], [prev_seqnum], [result]) and the trace of what was printed,
    the lines of [parse] included.  A panic of [parse] is a panic of the
    loop: the program ends.  [main] is the whole function: the exit with
    status 1 when the port cannot be opened, the loop otherwise.

    The theorems are on runs: a frame in one read, in two reads, byte by
    byte, a stream of frames cut by the reads between frames or within the
    first fifteen bytes of one ([splits]), a ring that is rejected and
    decoded with the next read, noise; the invariant of the ring; totality; that reads without
    bytes work the backlog off; and that nothing is reported that was not
    received: the ring is the end of the stream [received] and every
    packet reported is decoded from frames that stand in it
    ([from_stream]). *)

From stdpp Require Import strings.
From S2P Require Import Prelude Machine Frame DataTypes Ring Sync Timestamp ParserSpec Carried Parser.

(** [CircularBuffer::<512, u8>] and [parse::<512>]. *)
Definition RING_LEN : nat := 512.

(** The result of [port.read(&mut buffer)]: [Ok(n)] with the bytes
    [buffer[..n]], a timeout, another error, of which the model has the
    text that [{:?}] shows. *)
Inductive Read : Type :=
| ReadOk (bs : list Z)
| ReadTimedOut
| ReadFailed (e : string).

(** The result of [serialport::new(port_name, baud_rate) .. .open()]; of
    an error the model has the text that [{}] shows. *)
Inductive Open : Type :=
| OpenOk
| OpenFailed (e : string).

Definition PORT_NAME : string := "/dev/ttyUSB0".
Definition BAUD_RATE : Z := 38400.

(** What [main] prints: its own lines, on standard output and, for the two
    errors, on standard error, and those of [parse]. *)
Inductive MainEvent : Type :=
| PrintOpenFailed (e : string)
| PrintReceiving
| PrintExtending (n : nat)
| PrintParsed (data : Packet)
| PrintReadError (e : string)
| FromParse (e : Event).

(** The variables of [main] that live across iterations, and the trace. *)
Record MState : Type := mkMState {
  m_ring : CircularBuffer.t;
  m_prev_seqnum : option Z;
  m_result : ParseResult;
  m_out : list MainEvent;
}.

(** The state when the loop is entered. *)
Definition main_init : MState :=
  mkMState CircularBuffer.new None (Ok None) [PrintReceiving].

(** The loop has no [break] and the function no [return]. *)
Definition MM (A : Type) : Type := Prog MState Empty_set A.

Definition m_print (e : MainEvent) : MM unit :=
  modify (fun st => mkMState (m_ring st) (m_prev_seqnum st) (m_result st) (e :: m_out st)).

(** [ring.extend_from_slice(&buffer[..n])] *)
Definition m_extend (bs : list Z) : MM unit :=
  modify (fun st =>
    mkMState (CircularBuffer.extend_from_slice RING_LEN bs (m_ring st))
      (m_prev_seqnum st) (m_result st) (m_out st)).

(** [parse::<512>(&mut prev_seqnum, &mut ring)]: [parse] on the two
    variables; what it prints is added to the trace. *)
Definition m_parse (p : Profile) : MM ParseResult :=
  fun st =>
    match parse (R:=Empty_set) p RING_LEN (mkPState (m_ring st) (m_prev_seqnum st) []) with
    | Val res ps =>
        Val res (mkMState (ring ps) (prev_seqnum ps) (m_result st)
                   ((FromParse <$> out ps) ++ m_out st))
    | Ret r _ => match r with end
    | Panicked k => Panicked k
    | OutOfFuel => OutOfFuel
    end.

(** [result = ..] *)
Definition m_set_result (res : ParseResult) : MM unit :=
  modify (fun st => mkMState (m_ring st) (m_prev_seqnum st) res (m_out st)).

(** [if bytes_received > 0 { if let Ok(Some(ref data)) = result { println!(..) } }] *)
Definition m_report (bytes_received : nat) : MM unit :=
  res <- gets m_result ;;
  if (0 <? bytes_received)%nat then
    match res with
    | Ok (Some data) => m_print (PrintParsed data)
    | _ => ret tt
    end
  else ret tt.

(** One iteration of the loop, given the result of the read. *)
Definition main_step (p : Profile) (rd : Read) : MM unit :=
  match rd with
  | ReadOk bs =>
      m_print (PrintExtending (length bs)) ;;
      m_extend bs ;;
      res <- m_parse p ;;
      m_set_result res ;;
      m_report (length bs)
  | ReadTimedOut => m_report 0
  | ReadFailed e => m_print (PrintReadError e) ;; m_report 0
  end.

(** The iterations of the loop for the given results of the reads. *)
Fixpoint main_loop (p : Profile) (reads : list Read) : MM unit :=
  match reads with
  | [] => ret tt
  | rd :: reads' => main_step p rd ;; main_loop p reads'
  end.

(** [main]: the port is opened; when that fails the error is printed and
    the process exits with status 1 (an early return of the model),
    otherwise the loop runs.  The loop has no exit: the value is what was
    printed during the iterations the reads stand for. *)
Definition main (p : Profile) (port : Open) (reads : list Read)
    : Outcome (list MainEvent) Z unit :=
  match port with
  | OpenOk =>
      match main_loop p reads main_init with
      | Val _ st => Val tt (m_out st)
      | Ret r _ => match r with end
      | Panicked k => Panicked k
      | OutOfFuel => OutOfFuel
      end
  | OpenFailed e => Ret 1 [PrintOpenFailed e]
  end.

(** ** The loop without the lines of [parse] *)

(** The packets the loop reported, newest first. *)
Fixpoint reported (out : list MainEvent) : list Packet :=
  match out with
  | [] => []
  | PrintParsed data :: out' => data :: reported out'
  | _ :: out' => reported out'
  end.

(** What the theorems observe of the state: the ring, the carried sequence
    number, the last result and the reported packets. *)
Definition View : Type := list Z * option Z * ParseResult * list Packet.

Definition view (st : MState) : View :=
  (m_ring st, m_prev_seqnum st, m_result st, reported (m_out st)).

(** The report of an iteration. *)
Definition report_of (bytes_received : nat) (res : ParseResult) : list Packet :=
  if (0 <? bytes_received)%nat then
    match res with
    | Ok (Some data) => [data]
    | _ => []
    end
  else [].

(** One iteration on what is observed, with [parse_spec] for [parse]. *)
Definition step_spec (p : Profile) (rd : Read) : Prog View Empty_set unit :=
  fun v =>
    match rd with
    | ReadOk bs =>
        match parse_spec (R:=Empty_set) p RING_LEN
                (CircularBuffer.extend_from_slice RING_LEN bs v.1.1.1, v.1.1.2) with
        | Val res c => Val tt (c.1, c.2, res, report_of (length bs) res ++ v.2)
        | Ret r _ => match r with end
        | Panicked k => Panicked k
        | OutOfFuel => OutOfFuel
        end
    | _ => Val tt v
    end.

Fixpoint loop_spec (p : Profile) (reads : list Read) : Prog View Empty_set unit :=
  match reads with
  | [] => ret tt
  | rd :: reads' => step_spec p rd ;; loop_spec p reads'
  end.

(** The invariant of the loop: the ring is within its capacity and holds
    bytes. *)
Definition ring_inv (r : list Z) : Prop := ring_wf RING_LEN r.

Definition main_inv (st : MState) : Prop := ring_inv (m_ring st).

#[global] Instance ring_inv_dec r : Decision (ring_inv r).
Proof. unfold ring_inv. apply _. Defined.

(** The reads hand over bytes. *)
Definition read_bytes (rd : Read) : Prop :=
  match rd with
  | ReadOk bs => bytes bs
  | _ => True
  end.

#[global] Instance read_bytes_dec rd : Decision (read_bytes rd).
Proof. destruct rd; unfold read_bytes, bytes; apply _. Defined.

(** ** The stream of bytes received *)

(** The bytes of a read. *)
Definition chunk (rd : Read) : list Z :=
  match rd with
  | ReadOk bs => bs
  | ReadTimedOut | ReadFailed _ => []
  end.

(** The bytes the reads handed over, in order. *)
Definition received (reads : list Read) : list Z := reads ≫= chunk.

(** The packet [pk] was decoded from frames that stand in the stream [s]:
    a part [r] of the stream carries frames, and [pk] is what decoding
    them in sequence from the initial values of the locals gives (the
    initial values themselves when the frames are none). *)
Definition from_stream (p : Profile) (s : list Z) (pk : Packet) : Prop :=
  exists s1 r s2 fs r' l pv pv',
    s = s1 ++ r ++ s2 /\ carried p r fs r' /\
    decode_stream p init_locals pv fs = Some (l, pv') /\ pk = packet_of l.

(** The invariant of the loop for the stream [s] received so far: the ring
    ends the stream and the packets reported are from it. *)
Definition stream_inv (p : Profile) (s : list Z) (v : View) : Prop :=
  ring_inv v.1.1.1 /\ v.1.1.1 `suffix_of` s /\ Forall (from_stream p s) v.2.

(** ** Runs of the loop *)

(** The frames the theorems on runs read: of the wire format, of a known
    type, with four payload bytes at least, and no longer than the ring. *)
Definition frame_fits (f : Frame) : Prop :=
  frame_wf f /\ (4 <= length (f_payload f))%nat /\ (length (encode f) <= RING_LEN)%nat /\
  DataType.known (DataType.from (f_dtype f)) = true.

#[global] Instance frame_fits_dec f : Decision (frame_fits f).
Proof. unfold frame_fits. apply _. Defined.

(** What a read completes in the ring: whole frames, and the bytes that
    stay behind them for the next read. *)
Definition Segment : Type := list Frame * list Z.

(** The ring when [parse] is called. *)
Definition segment_bytes (sg : Segment) : list Z := encode_stream sg.1 ++ sg.2.

(** The reads [bss] cut a stream of frames into the segments [segs], for a
    ring that holds [h]: with the bytes of a read the ring is whole frames
    that fit and fifteen bytes or fewer behind them, from which the next
    read goes on.  A cut falls between two frames or within the first
    fifteen bytes of one; together the reads are the bytes of the frames
    ([splits_stream]). *)
Fixpoint splits (h : list Z) (bss : list (list Z)) (segs : list Segment) : Prop :=
  match bss, segs with
  | [], [] => True
  | bs :: bss', sg :: segs' =>
      h ++ bs = segment_bytes sg /\ Forall frame_fits sg.1 /\ (length sg.2 <= 15)%nat /\
      (length (segment_bytes sg) <= RING_LEN)%nat /\ splits sg.2 bss' segs'
  | _, _ => False
  end.

#[global] Instance splits_dec h bss segs : Decision (splits h bss segs).
Proof.
  revert h segs. induction bss as [|bs bss IH]; intros h [|sg segs]; cbn; apply _.
Defined.

(** What is observed after such reads: the frames of a segment are decoded
    by one call of [parse], which starts from the initial values of the
    locals and returns the last frame, or these initial values when the
    segment has no frame; that is reported when the read held bytes.
    [None] when a call panics. *)
Fixpoint segments_view (p : Profile) (bss : list (list Z)) (segs : list Segment) (v : View)
    : option View :=
  match bss, segs with
  | bs :: bss', sg :: segs' =>
      d ← decode_stream p init_locals v.1.1.2 sg.1;
      let res := Ok (Some (packet_of d.1)) in
      segments_view p bss' segs' (sg.2, d.2, res, report_of (length bs) res ++ v.2)
  | _, _ => Some v
  end.

(** A read that hands over the bytes one at a time. *)
Definition bytewise (bs : list Z) : list Read := (fun b => ReadOk [b]) <$> bs.

(** A run ends without backlog: in a state whose ring [parse] has nothing
    to decode from (fifteen bytes or fewer), or with the panic that ends
    the program. *)
Definition drained {S A} (ring_of : S -> list Z) (o : Outcome S Empty_set A) : Prop :=
  match o with
  | Val _ st => (length (ring_of st) <= 15)%nat
  | Panicked _ => True
  | Ret _ _ | OutOfFuel => False
  end.

(** ** The reachable states and their types *)

(** What is observed is well typed: the ring is a [CircularBuffer<512, u8>],
    the carried sequence number an [Option<u8>] and the result a value of
    the result type of [parse]. *)
Definition view_wf (v : View) : Prop :=
  core_wf RING_LEN (v.1.1.1, v.1.1.2) /\ result_wf v.1.2.

(** The variables of [main] are well typed. *)
Definition mstate_wf (st : MState) : Prop := view_wf (view st).

#[global] Instance view_wf_dec v : Decision (view_wf v).
Proof. unfold view_wf. apply _. Defined.

#[global] Instance mstate_wf_dec st : Decision (mstate_wf st).
Proof. unfold mstate_wf. apply _. Defined.

(** The states of the loop of [main]: the state before the first
    iteration, and the state after an iteration on the result of a read,
    from a state that is reachable.  A panic of [parse] leads nowhere. *)
Inductive reachable (p : Profile) : MState -> Prop :=
| reachable_init : reachable p main_init
| reachable_step st rd st' :
    reachable p st -> read_bytes rd -> main_step p rd st = Val tt st' -> reachable p st'.

(** A waveform frame of twenty-four payload bytes, for the examples. *)
Definition example_waveform : Frame :=
  mkFrame 0x21 9 0x87 0x80 (Z.of_nat <$> seq 1 24).

(** A run for the examples: the event frame, a timeout, a frame of an
    unknown type and one byte. *)
Definition example_reads : list Read :=
  [ReadOk (encode example_event); ReadTimedOut; ReadOk (encode example_unknown); ReadOk [0x41]].

(** The timestamp frame, the event frame and the waveform frame of the
    examples as one stream. *)
Definition example_stream : list Z :=
  encode_stream [example_timestamp; example_event; example_waveform].

(** ** The steps of an iteration *)

Lemma reported_app o1 o2 : reported (o1 ++ o2) = reported o1 ++ reported o2.
Proof.
  induction o1 as [|e o1 IH]; [done|]. destruct e; cbn; by rewrite ?IH.
Qed.

Lemma reported_FromParse es : reported (FromParse <$> es) = [].
Proof. by induction es. Qed.

Lemma reported_PrintParsed ds : reported (PrintParsed <$> ds) = ds.
Proof. induction ds as [|d ds IH]; [done|]. cbn. by rewrite IH. Qed.

(** [m_parse] is [parse] on the ring and the sequence number. *)
Lemma m_parse_spec p r pv res o :
  map_state view (m_parse p (mkMState r pv res o)) =
  match parse_spec (R:=Empty_set) p RING_LEN (r, pv) with
  | Val res' c => Val res' (c.1, c.2, res, reported o)
  | Ret x _ => match x with end
  | Panicked k => Panicked k
  | OutOfFuel => OutOfFuel
  end.
Proof.
  rewrite <- (parse_refines p RING_LEN (mkPState r pv [])). unfold m_parse.
  cbn [m_ring m_prev_seqnum m_result m_out].
  destruct (parse p RING_LEN _) as [res' ps|[]| |]; cbn; [|done..].
  unfold view. cbn. by rewrite reported_app, reported_FromParse.
Qed.

Lemma m_report_spec n st :
  m_report n st =
  Val tt (mkMState (m_ring st) (m_prev_seqnum st) (m_result st)
            ((PrintParsed <$> report_of n (m_result st)) ++ m_out st)).
Proof.
  unfold m_report, report_of, m_print, bind, gets, modify, ret. destruct st as [r pv res o].
  cbn. destruct (0 <? n)%nat; [|done]. by destruct res as [[d|]|].
Qed.

(** One iteration refines its specification. *)
Lemma main_step_spec p rd : simulates view (main_step p rd) (step_spec p rd).
Proof.
  intros [r pv res o]. destruct rd as [bs| |]; unfold main_step, step_spec.
  - unfold m_print, m_extend, m_set_result. rewrite !bind_modify.
    cbn [m_ring m_prev_seqnum m_result m_out view fst snd].
    pose proof (m_parse_spec p (CircularBuffer.extend_from_slice RING_LEN bs r) pv res
                  (PrintExtending (length bs) :: o)) as H.
    unfold bind at 1.
    destruct (m_parse p _) as [res' [r' pv' res0 o']|[]| |]; cbn in H;
      destruct (parse_spec p RING_LEN _) as [res'' [r'' pv'']|[]| |];
      simplify_eq/=; try done.
    rewrite bind_modify, m_report_spec. unfold view. cbn.
    by rewrite reported_app, reported_PrintParsed, H3.
  - rewrite m_report_spec. unfold view. cbn. by rewrite reported_app.
  - unfold m_print. rewrite bind_modify, m_report_spec. unfold view. cbn.
    by rewrite reported_app.
Qed.

(** The loop refines its specification. *)
Lemma main_loop_spec p reads : simulates view (main_loop p reads) (loop_spec p reads).
Proof.
  induction reads as [|rd reads IH]; [done|]. cbn [main_loop loop_spec].
  apply simulates_bind; [apply main_step_spec | done].
Qed.

Lemma drained_map_state {S S' A} (f : S -> S') (ring_of : S' -> list Z)
    (o : Outcome S Empty_set A) :
  drained ring_of (map_state f o) <-> drained (fun s => ring_of (f s)) o.
Proof. by destruct o. Qed.

(** ** One iteration from the outcome of [parse_spec] *)

Section Step.
Context (p : Profile).
Implicit Types (v : View) (bs r : list Z) (pv : option Z) (rep : list Packet).

Lemma step_spec_val bs r pv res0 rep res c :
  parse_spec (R:=Empty_set) p RING_LEN
    (CircularBuffer.extend_from_slice RING_LEN bs r, pv) = Val res c ->
  step_spec p (ReadOk bs) (r, pv, res0, rep) =
  Val tt (c.1, c.2, res, report_of (length bs) res ++ rep).
Proof. intros H. unfold step_spec. cbn [fst snd]. by rewrite H. Qed.

Lemma step_spec_panic bs r pv res0 rep k :
  parse_spec (R:=Empty_set) p RING_LEN
    (CircularBuffer.extend_from_slice RING_LEN bs r, pv) = Panicked k ->
  step_spec p (ReadOk bs) (r, pv, res0, rep) = Panicked k.
Proof. intros H. unfold step_spec. cbn [fst snd]. by rewrite H. Qed.

(** The read that makes the ring one that [parse] accepts. *)
Lemma step_spec_accepts bs r pv res0 rep pk c' :
  (length (r ++ bs) <= RING_LEN)%nat -> accepts p (r ++ bs, pv) pk c' ->
  step_spec p (ReadOk bs) (r, pv, res0, rep) =
  Val tt (c'.1, c'.2, Ok (Some pk), report_of (length bs) (Ok (Some pk)) ++ rep).
Proof.
  intros HL Ha. apply step_spec_val.
  rewrite extend_from_slice_room by (by rewrite <- length_app).
  by apply parse_spec_complete.
Qed.

(** The read that makes the ring one that [parse] rejects: nothing is
    reported. *)
Lemma step_spec_rejects bs r pv res0 rep res c' :
  (length (r ++ bs) <= RING_LEN)%nat -> rejects p (r ++ bs, pv) res c' ->
  step_spec p (ReadOk bs) (r, pv, res0, rep) = Val tt (c'.1, c'.2, res, rep).
Proof.
  intros HL Hr.
  rewrite (step_spec_val bs r pv res0 rep res c').
  - destruct Hr as (fs & l & r1 & pv1 & pre & b & _ & _ & _ & _ & _ & Hr).
    unfold report_of. destruct (0 <? _)%nat; [|done]. by destruct Hr.
  - rewrite extend_from_slice_room by (by rewrite <- length_app).
    by apply parse_spec_rejects_complete.
Qed.

(** An empty ring takes a chunk that fits as it is. *)
Lemma extend_empty bs :
  (length bs <= RING_LEN)%nat -> CircularBuffer.extend_from_slice RING_LEN bs [] = bs.
Proof. intros H. by rewrite extend_from_slice_room. Qed.

(** A read of no bytes leaves the ring as it is. *)
Lemma extend_nil r :
  CircularBuffer.wf RING_LEN r -> CircularBuffer.extend_from_slice RING_LEN [] r = r.
Proof.
  intros Hw. rewrite extend_from_slice_room, app_nil_r; [done|].
  unfold CircularBuffer.wf in Hw. cbn. lia.
Qed.

Lemma step_spec_inv rd v :
  read_bytes rd -> ring_inv v.1.1.1 ->
  holds_after (fun v' => ring_inv v'.1.1.1) (step_spec p rd v).
Proof.
  intros Hrd Hv. destruct rd as [bs| |]; [|done..]. unfold step_spec.
  pose proof (parse_spec_inv (R:=Empty_set) RING_LEN ring_inv (ring_wf_suffix _)
                (ring_wf_push_front _) p
                (CircularBuffer.extend_from_slice RING_LEN bs v.1.1.1, v.1.1.2)
                (ring_wf_extend_from_slice _ _ _ Hrd Hv)) as H.
  by destruct (parse_spec p RING_LEN _) as [res c|[]| |].
Qed.

Lemma loop_spec_inv reads v :
  Forall read_bytes reads -> ring_inv v.1.1.1 ->
  holds_after (fun v' => ring_inv v'.1.1.1) (loop_spec p reads v).
Proof.
  intros Hr. revert v. induction Hr as [|rd reads Hrd _ IH]; intros v Hv; [done|].
  cbn [loop_spec]. apply bind_holds_after; [by apply step_spec_inv|].
  intros [] v' E. apply IH. pose proof (step_spec_inv rd v Hrd Hv) as H.
  by rewrite E in H.
Qed.

End Step.

(** ** The loop on frames and on noise *)

Section Loop.
Context (p : Profile).
Implicit Types (bs : list Z) (pv : option Z) (rep : list Packet) (f : Frame) (v : View).

Lemma loop_spec_cons_val rd reads (v v' : View) :
  step_spec p rd v = Val tt v' -> loop_spec p (rd :: reads) v = loop_spec p reads v'.
Proof. intros H. cbn [loop_spec]. by rewrite (bind_val _ _ _ _ _ H). Qed.

Lemma loop_spec_cons_panic rd reads (v : View) k :
  step_spec p rd v = Panicked k -> loop_spec p (rd :: reads) v = Panicked k.
Proof. intros H. cbn [loop_spec]. by apply bind_panicked. Qed.

(** The chunk that completes a frame in the ring and brings fifteen bytes
    or fewer after it. *)
Lemma step_spec_encode_rest f r bs rest pv res0 rep l' :
  r ++ bs = encode f ++ rest -> (0 < length bs)%nat -> (length rest <= 15)%nat ->
  frame_wf f -> (4 <= length (f_payload f))%nat ->
  (length (encode f ++ rest) <= RING_LEN)%nat ->
  DataType.known (DataType.from (f_dtype f)) = true ->
  is_Some (seq_report p pv (f_seqnum f)) ->
  locals_after init_locals f = Some l' ->
  step_spec p (ReadOk bs) (r, pv, res0, rep) =
  Val tt (rest, Some (f_seqnum f), Ok (Some (packet_of l')), packet_of l' :: rep).
Proof.
  intros E Hbs Hrest Hwf Hlen HL Hk Hs Hl.
  rewrite (step_spec_val p _ _ _ _ _ (Ok (Some (packet_of l'))) (rest, Some (f_seqnum f))).
  - unfold report_of. by rewrite (proj2 (Nat.ltb_lt _ _)).
  - rewrite extend_from_slice_room, E by (rewrite <- length_app, E; done).
    apply (parse_spec_encode (R:=Empty_set) p RING_LEN [] f rest pv l'); try done.
    rewrite length_app. lia.
Qed.

(** The chunk that completes a frame in the ring. *)
Lemma step_spec_encode f r bs pv res0 rep l' :
  r ++ bs = encode f -> (0 < length bs)%nat ->
  frame_wf f -> (4 <= length (f_payload f))%nat -> (length (encode f) <= RING_LEN)%nat ->
  DataType.known (DataType.from (f_dtype f)) = true ->
  is_Some (seq_report p pv (f_seqnum f)) ->
  locals_after init_locals f = Some l' ->
  step_spec p (ReadOk bs) (r, pv, res0, rep) =
  Val tt ([], Some (f_seqnum f), Ok (Some (packet_of l')), packet_of l' :: rep).
Proof.
  intros E ??????. apply (step_spec_encode_rest f); rewrite ?app_nil_r; try done.
  cbn. lia.
Qed.

(** The chunk that completes the first [12 + m] bytes of a frame in the
    ring: the frame is taken with the data that is there. *)
Lemma step_spec_take f m r bs pv res0 rep l' :
  r ++ bs = take (12 + m) (encode f) -> (0 < length bs)%nat ->
  frame_fits f -> (4 <= m <= length (f_payload f))%nat ->
  is_Some (seq_report p pv (f_seqnum f)) ->
  locals_after init_locals (cut_payload m f) = Some l' ->
  step_spec p (ReadOk bs) (r, pv, res0, rep) =
  Val tt ([], Some (f_seqnum f), cut_result f m l',
          report_of (length bs) (cut_result f m l') ++ rep).
Proof.
  intros E Hbs (Hwf & Hlen & HL & Hk) Hm Hs Hl. rewrite length_encode in HL.
  apply (step_spec_val p _ _ _ _ _ (cut_result f m l') ([], Some (f_seqnum f))).
  rewrite extend_from_slice_room, E by (rewrite <- length_app, E, length_take_encode; lia).
  by apply parse_spec_take.
Qed.

(** Fifteen bytes or fewer read into an empty ring: [parse] does nothing
    and the initial values of its locals are reported as a packet. *)
Lemma step_spec_idle bs pv res0 rep :
  (0 < length bs <= 15)%nat ->
  step_spec p (ReadOk bs) ([], pv, res0, rep) =
  Val tt (bs, pv, Ok (Some (packet_of init_locals)), packet_of init_locals :: rep).
Proof.
  intros Hlen.
  rewrite (step_spec_val p _ _ _ _ _ (Ok (Some (packet_of init_locals))) (bs, pv)).
  - unfold report_of. by rewrite (proj2 (Nat.ltb_lt _ _)) by lia.
  - rewrite extend_empty by (unfold RING_LEN; lia).
    apply parse_spec_idle. apply Nat.ltb_ge. cbn. lia.
Qed.

(** A chunk without marker of more than fifteen bytes, read into an empty
    ring. *)
Lemma step_spec_noise bs pv res0 rep :
  (15 < length bs <= RING_LEN)%nat -> first_marker bs = None ->
  step_spec p (ReadOk bs) ([], pv, res0, rep) = Panicked UnwrapNone.
Proof.
  intros Hlen Hm. apply step_spec_panic. rewrite extend_empty by lia.
  apply parse_spec_no_marker; [lia | done].
Qed.

(** The first [12 + m] bytes of a frame read into an empty ring. *)
Lemma step_spec_truncated f m pv res0 rep :
  frame_wf f -> (4 <= m < length (f_payload f))%nat -> (12 + m <= RING_LEN)%nat ->
  checksum (f_dtype f) (take m (f_payload f)) <> checksum (f_dtype f) (f_payload f) ->
  is_Some (seq_report p pv (f_seqnum f)) ->
  step_spec p (ReadOk (take (12 + m) (encode f))) ([], pv, res0, rep) =
  Val tt ([], Some (f_seqnum f), Err ERR_CHECKSUM, rep).
Proof.
  intros Hwf Hm HL Hc Hs.
  rewrite (step_spec_val p _ _ _ _ _ (Err ERR_CHECKSUM) ([], Some (f_seqnum f))).
  - unfold report_of. by destruct (0 <? _)%nat.
  - rewrite extend_empty by (rewrite length_take_encode; lia).
    apply parse_spec_ret.
    + apply Nat.ltb_lt. cbn [fst]. rewrite length_take_encode; lia.
    + etrans; [|by apply (decode_spec_truncated p RING_LEN init_locals pv f m)].
      unfold encode, frame_bytes. cbn [Nat.add take drop].
      by apply (iter_spec_app p RING_LEN init_locals []).
Qed.

(** A run of reads in two parts. *)
Lemma loop_spec_app reads1 reads2 v :
  loop_spec p (reads1 ++ reads2) v = (loop_spec p reads1 ;; loop_spec p reads2) v.
Proof.
  revert v. induction reads1 as [|rd reads1 IH]; intros v; cbn [app loop_spec].
  - by rewrite bind_ret_l.
  - unfold bind in *. destruct (step_spec p rd v); [apply IH|done..].
Qed.

(** The read that completes a segment in the ring. *)
Lemma step_spec_segment h bs (sg : Segment) pv res0 rep d :
  h ++ bs = segment_bytes sg -> Forall frame_fits sg.1 -> (length sg.2 <= 15)%nat ->
  (length (segment_bytes sg) <= RING_LEN)%nat ->
  decode_stream p init_locals pv sg.1 = Some d ->
  step_spec p (ReadOk bs) (h, pv, res0, rep) =
  Val tt (sg.2, d.2, Ok (Some (packet_of d.1)),
          report_of (length bs) (Ok (Some (packet_of d.1))) ++ rep).
Proof.
  intros E Hfs H15 HL Hd. destruct d as [l pv'].
  apply (step_spec_val p _ _ _ _ _ (Ok (Some (packet_of l))) (sg.2, pv')).
  rewrite extend_from_slice_room, E by (rewrite <- length_app, E; done).
  apply parse_spec_iterates; [|by apply Nat.ltb_ge]. apply iterates_stream; [..|done].
  - eapply Forall_impl; [exact Hfs|]. by intros f (? & _).
  - eapply Forall_impl; [exact Hfs|]. by intros f (_ & ? & _).
Qed.

(** Reads that cut a stream of frames into segments. *)
Lemma loop_spec_split bss : forall segs v v',
  splits v.1.1.1 bss segs -> segments_view p bss segs v = Some v' ->
  loop_spec p (ReadOk <$> bss) v = Val tt v'.
Proof.
  induction bss as [|bs bss IH]; intros [|sg segs] [[[h pv] res0] rep] v'; cbn [splits]; try done.
  { by intros _ [= <-]. }
  intros (E & Hfs & H15 & HL & Hs). cbn [segments_view fst snd].
  destruct (decode_stream p init_locals pv sg.1) as [d|] eqn:Hd; [|done]. cbn. intros Hv.
  rewrite (bind_val _ _ _ _ _ (step_spec_segment h bs sg pv res0 rep d E Hfs H15 HL Hd)).
  by apply (IH segs).
Qed.

(** The reads are a cut of the stream of the frames: with what the ring
    held they are the bytes of the frames of all segments and what the last
    segment leaves. *)
Lemma splits_stream bss : forall h segs,
  splits h bss segs ->
  h ++ concat bss = encode_stream (segs ≫= fst) ++ default h (snd <$> last segs).
Proof.
  induction bss as [|bs bss IH]; intros h [|sg segs]; cbn [splits]; try done.
  { intros _. by rewrite app_nil_r. }
  intros (E & _ & _ & _ & Hs). cbn [concat]. rewrite app_assoc, E. unfold segment_bytes.
  rewrite <- app_assoc, (IH _ _ Hs).
  change ((sg :: segs) ≫= fst) with (sg.1 ++ (segs ≫= fst)).
  unfold encode_stream. rewrite fmap_app, concat_app, <- app_assoc. do 2 f_equal.
  destruct segs as [|s1 segs]; [done|]. rewrite last_cons_cons.
  by destruct (proj2 (last_is_Some (s1 :: segs))) as [x ->].
Qed.

(** Bytes read one at a time while the ring holds fifteen bytes or fewer:
    every iteration reports the initial values of the locals of [parse]. *)
Lemma loop_spec_bytewise_idle bs : forall r pv res0 rep,
  (length r + length bs <= 15)%nat ->
  loop_spec p (bytewise bs) (r, pv, res0, rep) =
  Val tt (r ++ bs, pv, (if bs is [] then res0 else Ok (Some (packet_of init_locals))),
          replicate (length bs) (packet_of init_locals) ++ rep).
Proof.
  induction bs as [|b bs IH]; intros r pv res0 rep Hlen; cbn [bytewise fmap list_fmap].
  { by rewrite app_nil_r. }
  cbn [length] in Hlen.
  rewrite (loop_spec_cons_val _ _ _ (r ++ [b], pv, Ok (Some (packet_of init_locals)),
             packet_of init_locals :: rep)).
  - fold (bytewise bs). rewrite IH by (rewrite length_app; cbn; lia).
    rewrite <- app_assoc. cbn [length replicate].
    rewrite replicate_cons_app, <- app_assoc. by destruct bs.
  - rewrite (step_spec_val p _ _ _ _ _ (Ok (Some (packet_of init_locals))) (r ++ [b], pv)); [done|].
    rewrite extend_from_slice_room by (unfold RING_LEN; cbn; lia).
    apply parse_spec_idle. apply Nat.ltb_ge. cbn. rewrite length_app. cbn. lia.
Qed.


(** An empty read on a ring of more than fifteen bytes: the ring gets
    shorter, or the program ends. *)
Lemma step_spec_shrinks (v : View) :
  CircularBuffer.wf RING_LEN v.1.1.1 -> (15 < length v.1.1.1)%nat ->
  match step_spec p (ReadOk []) v with
  | Val _ v' => (length v'.1.1.1 < length v.1.1.1)%nat
  | Panicked _ => True
  | _ => False
  end.
Proof.
  intros Hw Hl. unfold step_spec. rewrite extend_nil by done.
  pose proof (parse_spec_result (R:=Empty_set) p RING_LEN (v.1.1.1, v.1.1.2) Hw) as Hr.
  pose proof (parse_spec_total (R:=Empty_set) p RING_LEN (v.1.1.1, v.1.1.2)) as Hf.
  destruct (parse_spec p RING_LEN _) as [res c|[]| |]; cbn in *; [|done..].
  by apply (result_ring_shrinks _ res).
Qed.

Lemma loop_spec_drains n : forall v : View,
  (length v.1.1.1 <= n)%nat -> CircularBuffer.wf RING_LEN v.1.1.1 ->
  exists k, (k <= length v.1.1.1)%nat /\
    drained (fun v' : View => v'.1.1.1) (loop_spec p (replicate k (ReadOk [])) v).
Proof.
  induction n as [|n IH]; intros v Hn Hw.
  { exists 0%nat. cbn. lia. }
  destruct (decide (length v.1.1.1 <= 15)%nat) as [Hs|Hs]; [by exists 0%nat; cbn; lia|].
  pose proof (step_spec_shrinks v Hw ltac:(lia)) as H1.
  destruct (step_spec p (ReadOk []) v) as [[] v'| | |] eqn:E; try done.
  - destruct (IH v') as (k & Hk & Hd); [lia|unfold CircularBuffer.wf in *; lia|].
    exists (S k). split; [lia|]. cbn [replicate]. by rewrite (loop_spec_cons_val _ _ _ _ E).
  - exists 1%nat. split; [lia|]. cbn [replicate]. by rewrite (loop_spec_cons_panic _ _ _ _ E).
Qed.

(** An iteration keeps what is observed well typed. *)
Lemma step_spec_typed rd v :
  read_bytes rd -> view_wf v ->
  post (fun _ v' => view_wf v') (fun _ _ => False) (step_spec p rd v).
Proof.
  intros Hrd [[Hr Hpv] Hres]. destruct rd as [bs| |]; [|done..]. unfold step_spec.
  pose proof (parse_spec_typed (R:=Empty_set) p RING_LEN
                (CircularBuffer.extend_from_slice RING_LEN bs v.1.1.1, v.1.1.2)
                (conj (ring_wf_extend_from_slice _ _ _ Hrd Hr) Hpv)) as H.
  destruct (parse_spec p RING_LEN _) as [res [r' pv']|[]| |]; [|done..].
  destruct H as [H1 H2]. by split.
Qed.

(** ** The packets reported come from the stream *)

Lemma from_stream_app s bs pk : from_stream p s pk -> from_stream p (s ++ bs) pk.
Proof.
  intros (s1 & r & s2 & fs & r' & l & pv & pv' & -> & H).
  exists s1, r, (s2 ++ bs), fs, r', l, pv, pv'. split; [|done]. by rewrite <- !app_assoc.
Qed.

Lemma accepts_from_stream s c pk c' :
  c.1 `suffix_of` s -> accepts p c pk c' -> from_stream p s pk.
Proof.
  intros [s1 ->] (fs & l & Hc & Hd & -> & _).
  exists s1, c.1, [], fs, c'.1, l, c.2, c'.2. by rewrite app_nil_r.
Qed.

(** An iteration keeps the invariant for the stream with the bytes read. *)
Lemma step_spec_stream_inv s rd v :
  read_bytes rd -> stream_inv p s v ->
  post (fun _ v' => stream_inv p (s ++ chunk rd) v') (fun _ _ => False) (step_spec p rd v).
Proof.
  intros Hrd (Hr & Hs & Hrep). destruct rd as [bs| |]; cbn [chunk step_spec post];
    [|rewrite app_nil_r; done..].
  set (c := (CircularBuffer.extend_from_slice RING_LEN bs v.1.1.1, v.1.1.2)).
  assert (ring_inv c.1) as [Hw Hb] by by apply ring_wf_extend_from_slice.
  assert (c.1 `suffix_of` s ++ bs) as Hc.
  { etrans; [apply extend_from_slice_suffix|]. by apply suffix_app. }
  assert (Z.of_nat (length c.1) <= u16_MAX) as Hlen
    by (unfold CircularBuffer.wf, RING_LEN in Hw; range).
  pose proof (parse_spec_suffix (R:=Empty_set) p RING_LEN c Hw) as H2.
  pose proof (parse_spec_inv (R:=Empty_set) RING_LEN ring_inv (ring_wf_suffix _)
                (ring_wf_push_front _) p c (conj Hw Hb)) as H3.
  destruct (parse_spec p RING_LEN c) as [res c'|[]| |] eqn:E; [|done..]. cbn in *.
  split_and!; [done|by etrans| ].
  apply Forall_app. split; [|eapply Forall_impl; [done|]; intros; by apply from_stream_app].
  unfold report_of. destruct (0 <? _)%nat; [|done]. destruct res as [[pk|]|]; [|done..].
  by apply Forall_singleton, (accepts_from_stream _ c _ c'),
       (parse_spec_sound p RING_LEN (R:=Empty_set)).
Qed.

Lemma loop_spec_stream_inv reads : forall s v,
  Forall read_bytes reads -> stream_inv p s v ->
  post (fun _ v' => stream_inv p (s ++ received reads) v') (fun _ _ => False)
       (loop_spec p reads v).
Proof.
  induction reads as [|rd reads IH]; intros s v Hr Hv; cbn [loop_spec].
  { unfold ret, received. cbn. by rewrite app_nil_r. }
  apply Forall_cons in Hr as [Hrd Hr]. eapply bind_post; [by apply step_spec_stream_inv|].
  intros [] v' Hv'. cbn beta in Hv'.
  change (received (rd :: reads)) with (chunk rd ++ received reads).
  rewrite app_assoc. by apply IH.
Qed.

End Loop.

(** * The theorems on the loop *)

Section Main.
Context (p : Profile).
Implicit Types (pv : option Z) (o : list MainEvent) (f : Frame).

Lemma main_step_typed rd st st' :
  read_bytes rd -> mstate_wf st -> main_step p rd st = Val tt st' -> mstate_wf st'.
Proof.
  intros Hrd Hst E. pose proof (step_spec_typed p rd (view st) Hrd Hst) as H.
  rewrite <- main_step_spec, E in H. exact H.
Qed.

(** The state after a run of reads from a reachable state is reachable. *)
Lemma main_loop_reachable reads : forall st st',
  reachable p st -> Forall read_bytes reads ->
  main_loop p reads st = Val tt st' -> reachable p st'.
Proof.
  induction reads as [|rd reads IH]; intros st st' Hst Hr; cbn [main_loop].
  { by intros [= <-]. }
  apply Forall_cons in Hr as [Hrd Hr]. unfold bind.
  destruct (main_step p rd st) as [[] st1|[]| |] eqn:E; [|done..].
  apply IH; [|done]. by eapply reachable_step.
Qed.

(** C30: every reachable state of [main] is well typed, by induction on the
    steps that reach it: whatever bytes the reads hand over, the ring stays
    a buffer of at most 512 bytes, the carried sequence number a [u8] and
    the last result a value of the result type of [parse], with a [u32]
    time, a [u16] sub-second counter, a [u32] version and a payload of
    bytes. *)
Theorem main_reachable_typed st : reachable p st -> mstate_wf st.
Proof.
  induction 1 as [|st rd st' _ IH Hrd E]; [by_compute|]. by eapply main_step_typed.
Qed.

(** The ring of [main] stays within its 512 bytes and holds bytes,
    whatever bytes the reads hand over and however many iterations run. *)
Lemma main_loop_inv reads st :
  Forall read_bytes reads -> main_inv st ->
  holds_after main_inv (main_loop p reads st).
Proof.
  intros Hr Hst. apply (map_state_holds_after view (fun v => ring_inv v.1.1.1)).
  rewrite main_loop_spec. by apply loop_spec_inv.
Qed.

(** A frame of a known type with four payload bytes at least, read in
    one chunk into an empty ring, is decoded and reported: the ring is
    empty again, the sequence number is remembered, and the packet is the
    one report added. *)
Lemma main_reads_frame f pv res0 o l' :
  frame_wf f -> (4 <= length (f_payload f))%nat -> (length (encode f) <= RING_LEN)%nat ->
  DataType.known (DataType.from (f_dtype f)) = true ->
  is_Some (seq_report p pv (f_seqnum f)) ->
  locals_after init_locals f = Some l' ->
  map_state view (main_loop p [ReadOk (encode f)] (mkMState [] pv res0 o)) =
  Val tt ([], Some (f_seqnum f), Ok (Some (packet_of l')), packet_of l' :: reported o).
Proof.
  intros Hwf Hlen HL Hk Hs Hl. rewrite main_loop_spec.
  unfold view. cbn [m_ring m_prev_seqnum m_result m_out].
  assert (0 < length (encode f))%nat as Hpos by (rewrite length_encode; lia).
  by rewrite (loop_spec_cons_val p _ _ _ _
                (step_spec_encode p f [] _ pv res0 _ l' eq_refl Hpos Hwf Hlen HL Hk Hs Hl)).
Qed.

(** The same frame read in two chunks, the first of fifteen bytes or
    fewer, is decoded by the second iteration; the first iteration reports
    the initial values of the locals of [parse] as a packet that was never
    received. *)
Lemma main_split_header f k pv res0 o l' :
  frame_wf f -> (4 <= length (f_payload f))%nat -> (length (encode f) <= RING_LEN)%nat ->
  DataType.known (DataType.from (f_dtype f)) = true ->
  is_Some (seq_report p pv (f_seqnum f)) ->
  locals_after init_locals f = Some l' ->
  (0 < k <= 15)%nat ->
  map_state view
    (main_loop p [ReadOk (take k (encode f)); ReadOk (drop k (encode f))]
       (mkMState [] pv res0 o)) =
  Val tt ([], Some (f_seqnum f), Ok (Some (packet_of l')),
          [packet_of l'; packet_of init_locals] ++ reported o).
Proof.
  intros Hwf Hlen HL Hk Hs Hl Hkk. pose proof (length_encode f) as He.
  rewrite main_loop_spec. unfold view. cbn [m_ring m_prev_seqnum m_result m_out].
  assert (0 < length (take k (encode f)) <= 15)%nat as H1 by (rewrite length_take; lia).
  assert (0 < length (drop k (encode f)))%nat as H2 by (rewrite length_drop; lia).
  rewrite (loop_spec_cons_val p _ _ _ _ (step_spec_idle p _ pv res0 _ H1)).
  by rewrite (loop_spec_cons_val p _ _ _ _
                (step_spec_encode p f _ _ pv _ _ l' (take_drop k _) H2 Hwf Hlen HL Hk Hs Hl)).
Qed.

(** C14: the same frame read in two chunks, the first of sixteen bytes or
    more, is lost: the first iteration takes the part of the payload that
    is there as the payload and ends with [ERR_CHECKSUM] on an empty ring;
    when the rest of the payload is more than fifteen bytes without marker,
    the second iteration panics in the marker scan and the program ends. *)
Theorem main_split_payload_panics f m pv res0 o :
  frame_wf f -> (4 <= m < length (f_payload f))%nat -> (length (encode f) <= RING_LEN)%nat ->
  checksum (f_dtype f) (take m (f_payload f)) <> checksum (f_dtype f) (f_payload f) ->
  is_Some (seq_report p pv (f_seqnum f)) ->
  (15 < length (drop (12 + m) (encode f)))%nat ->
  first_marker (drop (12 + m) (encode f)) = None ->
  main_loop p [ReadOk (take (12 + m) (encode f)); ReadOk (drop (12 + m) (encode f))]
    (mkMState [] pv res0 o) = Panicked UnwrapNone.
Proof.
  intros Hwf Hm HL Hc Hs Hlen Hno. pose proof (length_encode f) as He.
  apply (map_state_panicked view). rewrite main_loop_spec.
  unfold view. cbn [m_ring m_prev_seqnum m_result m_out].
  assert (12 + m <= RING_LEN)%nat as H1 by lia.
  rewrite (loop_spec_cons_val p _ _ _ _ (step_spec_truncated p f m pv res0 _ Hwf Hm H1 Hc Hs)).
  apply loop_spec_cons_panic, step_spec_noise; [|done]. rewrite length_drop in *. lia.
Qed.

(** More than fifteen bytes without marker, read into an empty ring,
    end the program: the loop panics in the marker scan of [parse], whatever
    the reads after it. *)
Lemma main_noise_panics bs reads pv res0 o :
  (15 < length bs <= RING_LEN)%nat -> first_marker bs = None ->
  main_loop p (ReadOk bs :: reads) (mkMState [] pv res0 o) = Panicked UnwrapNone.
Proof.
  intros Hlen Hno. apply (map_state_panicked view). rewrite main_loop_spec.
  by apply loop_spec_cons_panic, step_spec_noise.
Qed.

(** C18: [main]'s loop refines its specification: what is observed of the
    state after a run (the ring, the carried sequence number, the last
    result and the packets reported) is what [loop_spec] computes from what
    is observed before it, with [parse_spec] for [parse]. *)
Theorem main_refines_spec reads st :
  map_state view (main_loop p reads st) = loop_spec p reads (view st).
Proof. exact (main_loop_spec p reads st). Qed.

(** A read that fills the buffer overwrites the backlog.  With the ring of
    the crate, which drops its oldest bytes when it is full ([Ring]), a
    read that returns as many bytes as the ring holds leaves nothing of
    what the ring held, a frame that waited for its last bytes included:
    the run goes on as from an empty ring.  [main] adds the call only; the
    policy is the crate's. *)
Lemma main_full_read_evicts bs reads r pv res o :
  length bs = RING_LEN ->
  map_state view (main_loop p (ReadOk bs :: reads) (mkMState r pv res o)) =
  map_state view (main_loop p (ReadOk bs :: reads) (mkMState [] pv res o)).
Proof.
  intros Hbs. rewrite !main_loop_spec. unfold view.
  cbn [loop_spec m_ring m_prev_seqnum m_result m_out].
  unfold bind, step_spec. cbn [fst snd]. by rewrite !extend_from_slice_full.
Qed.

(** C10: decoding does not depend on how the reads cut the stream, as long
    as every cut falls between two frames or within the first fifteen
    bytes of one.  For reads that cut a stream of frames of known types
    (four payload bytes at least) in that way, every frame is decoded, by
    the call of [parse] of the read that brings its sixteenth byte: the
    ring after a read is what the read left of a frame, and the sequence
    number carried is that of the last frame completed.  What is reported
    does depend on the cut: of the frames a read completes the last only,
    with the time and the version of the frames before it in the same
    read, and the initial values of the locals of [parse] for a read that
    completes none. *)
Theorem main_reads_split bss segs st v' :
  splits (m_ring st) bss segs -> segments_view p bss segs (view st) = Some v' ->
  map_state view (main_loop p (ReadOk <$> bss) st) = Val tt v'.
Proof. intros Hs Hv. rewrite main_loop_spec. by apply (loop_spec_split p bss segs). Qed.

(** C22: decoding resumes after a call that returned without a packet.
    When a read makes the ring one that [parse] rejects (a marker with too
    few bytes behind it, a length error, a checksum error, an unknown
    type, behind any frames), nothing is reported and the ring keeps what
    the refusal left; the next read that brings bytes has [parse] work on
    that backlog and the new bytes together, and when they carry frames up
    to fifteen bytes or fewer, the last of them is reported. *)
Theorem main_recovers r bs1 bs2 pv res0 o res c1 pk c2 :
  (length (r ++ bs1) <= RING_LEN)%nat -> (length (c1.1 ++ bs2) <= RING_LEN)%nat ->
  (0 < length bs2)%nat ->
  rejects p (r ++ bs1, pv) res c1 -> accepts p (c1.1 ++ bs2, c1.2) pk c2 ->
  map_state view (main_loop p [ReadOk bs1; ReadOk bs2] (mkMState r pv res0 o)) =
  Val tt (c2.1, c2.2, Ok (Some pk), pk :: reported o).
Proof.
  intros HL1 HL2 Hbs Hr Ha. rewrite main_loop_spec.
  unfold view. cbn [m_ring m_prev_seqnum m_result m_out].
  rewrite (loop_spec_cons_val p _ _ _ _ (step_spec_rejects p bs1 r pv res0 _ res c1 HL1 Hr)).
  rewrite (loop_spec_cons_val p _ _ _ _
             (step_spec_accepts p bs2 c1.1 c1.2 res _ pk c2 HL2 Ha)).
  unfold report_of. by rewrite (proj2 (Nat.ltb_lt _ _) Hbs).
Qed.

(** C9: nothing is reported that was not received.  After any reads the
    ring is the end of the stream of bytes the port handed over, and every
    packet [main] has reported is decoded from frames that stand in that
    stream, behind bytes without marker: the frames of the wire format,
    with their checksums, that the ring carried when [parse] was called,
    or no frame at all, when the packet is the initial values of the
    locals. *)
Theorem main_reports_received reads :
  Forall read_bytes reads ->
  post (fun _ st' => m_ring st' `suffix_of` received reads /\
                     Forall (from_stream p (received reads)) (reported (m_out st')))
       (fun _ _ => False) (main_loop p reads main_init).
Proof.
  intros Hr. apply (map_state_post view
    (fun _ v' => v'.1.1.1 `suffix_of` received reads /\
                 Forall (from_stream p (received reads)) v'.2) (fun _ _ => False)).
  rewrite main_loop_spec.
  eapply post_impl; [| |apply (loop_spec_stream_inv p reads [] (view main_init) Hr)].
  - by intros _ v' (_ & ? & ?).
  - done.
  - by split_and!; [by_compute|..].
Qed.

(** C23: a frame fed one byte per read is handed to [parse] when sixteen
    bytes are in the ring, whatever its length.  Each of the fifteen
    iterations before reports the initial values of the locals of [parse]
    as a packet; the sixteenth takes the four bytes of data that are there
    for the payload: a frame with four bytes of data is decoded, a longer
    one is rejected with [ERR_CHECKSUM] and lost (or decoded with four
    bytes of data, when these have the frame's checksum), and the ring is
    empty for the rest of its bytes. *)
Theorem main_bytewise f pv res0 o l' :
  frame_fits f -> is_Some (seq_report p pv (f_seqnum f)) ->
  locals_after init_locals (cut_payload 4 f) = Some l' ->
  map_state view (main_loop p (bytewise (take 16 (encode f))) (mkMState [] pv res0 o)) =
  Val tt ([], Some (f_seqnum f), cut_result f 4 l',
          report_of 1 (cut_result f 4 l') ++ replicate 15 (packet_of init_locals)
            ++ reported o).
Proof.
  intros Hf Hs Hl. pose proof Hf as (Hwf & Hlen & HL & Hk).
  pose proof (length_take_encode f 4 Hlen) as He. cbn [Nat.add] in He.
  rewrite main_loop_spec. unfold view. cbn [m_ring m_prev_seqnum m_result m_out].
  rewrite <- (take_drop 15 (take 16 (encode f))) at 1. unfold bytewise.
  rewrite fmap_app, loop_spec_app.
  erewrite bind_val; [|apply (loop_spec_bytewise_idle p); rewrite length_take; cbn [length]; lia].
  rewrite length_take, Nat.min_l by lia.
  destruct (drop 15 (take 16 (encode f))) as [|b [|??]] eqn:Ed;
    try (apply (f_equal length) in Ed; rewrite length_drop in Ed; cbn in Ed; lia).
  cbn [fmap list_fmap app].
  rewrite (loop_spec_cons_val p _ _ _ ([], Some (f_seqnum f), cut_result f 4 l',
             report_of 1 (cut_result f 4 l') ++ replicate 15 (packet_of init_locals)
               ++ reported o)); [done|].
  apply (step_spec_take p f 4); try done; first [by rewrite <- Ed, take_drop | cbn; lia].
Qed.

(** C12: the backlog is worked off.  From every state whose ring is within
    its capacity, reads that bring no bytes lead, in no more iterations
    than the ring has bytes, to a ring of fifteen bytes or fewer, from which
    [parse] has nothing to decode, unless the program panics before. *)
Theorem main_drains st :
  main_inv st ->
  exists k, (k <= length (m_ring st))%nat /\
    drained m_ring (main_loop p (replicate k (ReadOk [])) st).
Proof.
  intros [Hw _]. destruct (loop_spec_drains p _ (view st) (le_n _) Hw) as (k & Hk & Hd).
  exists k. split; [done|]. rewrite <- main_loop_spec in Hd.
  by apply (drained_map_state view (fun v : View => v.1.1.1)) in Hd.
Qed.

End Main.

(** The loop returns or panics for every finite run of reads: the fuel
    [parse] gives its loop is always enough. *)
Lemma main_loop_fuel p reads st : is_out_of_fuel (main_loop p reads st) = false.
Proof.
  rewrite <- (map_state_fuel view), main_loop_spec. generalize (view st).
  induction reads as [|rd reads IH]; intros v; [done|]. cbn [loop_spec].
  apply bind_fuel; [|done]. destruct rd as [bs| |]; [|done..]. unfold step_spec.
  pose proof (parse_spec_total (R:=Empty_set) p RING_LEN
                (CircularBuffer.extend_from_slice RING_LEN bs v.1.1.1, v.1.1.2)) as H.
  by destruct (parse_spec p RING_LEN _) as [res c|[]| |].
Qed.

(** [main] is total on every finite run: when the port cannot be
    opened it exits with status 1, and otherwise every finite sequence of
    results of [port.read] gives what was printed or a panic; no iteration
    runs out of the fuel [parse] gives its loop. *)
Lemma main_total p port reads :
  is_out_of_fuel (main p port reads) = false /\
  forall e, main p (OpenFailed e) reads = Ret 1 [PrintOpenFailed e].
Proof.
  split; [|done]. destruct port; [|done]. unfold main.
  pose proof (main_loop_fuel p reads main_init) as H.
  by destruct (main_loop p reads main_init) as [[] st|[]| |].
Qed.

(** ** The theorems on example runs *)

Lemma main_loop_inv_witness :
  holds_after main_inv
    (main_loop Debug [ReadOk example_capture; ReadTimedOut; ReadOk [0x63]] main_init).
Proof.
  apply (main_loop_inv Debug [ReadOk example_capture; ReadTimedOut; ReadOk [0x63]] main_init);
    by_compute.
Defined.

Lemma main_reads_frame_witness :
  map_state view (main_loop Debug [ReadOk (encode example_event)]
                    (mkMState [] (Some 0x84) (Ok None) [PrintReceiving])) =
  Val tt ([], Some 0x85, Ok (Some (0, 7, 0, DataType.Event, [0x41; 0x34; 0x05; 0x00])),
          [(0, 7, 0, DataType.Event, [0x41; 0x34; 0x05; 0x00])]).
Proof.
  apply (main_reads_frame Debug example_event (Some 0x84) (Ok None) [PrintReceiving]
           {| tt_ss := 7; datatype := DataType.Event; datavec := [0x41; 0x34; 0x05; 0x00];
              zeo_version := 0; zeo_time_full := 0; while_counter := 1 |}); by_compute.
Defined.

(** The capture of the comments of [parse] without its first two bytes:
    fifteen bytes of a timestamp frame, then the byte that was missing. *)
Lemma main_split_header_witness :
  map_state view
    (main_loop Debug [ReadOk (take 15 (encode example_timestamp));
                      ReadOk (drop 15 (encode example_timestamp))]
       (mkMState [] None (Ok None) [PrintReceiving])) =
  Val tt ([], Some 0x84, Ok (Some (1672686367, 6, 0, DataType.ZeoTimestamp, [])),
          [(1672686367, 6, 0, DataType.ZeoTimestamp, []);
           (0, 0, 0, DataType.Invalid 255, [])]).
Proof.
  apply (main_split_header Debug example_timestamp 15 None (Ok None) [PrintReceiving]
           {| tt_ss := 6; datatype := DataType.ZeoTimestamp; datavec := [];
              zeo_version := 0; zeo_time_full := 1672686367; while_counter := 1 |});
    by_compute.
Defined.

(** A waveform frame of thirty-six bytes read as sixteen bytes and twenty. *)
Lemma main_split_payload_panics_witness :
  main_loop Release [ReadOk (take (12 + 4) (encode example_waveform));
                     ReadOk (drop (12 + 4) (encode example_waveform))]
    (mkMState [] None (Ok None) [PrintReceiving]) = Panicked UnwrapNone.
Proof.
  apply (main_split_payload_panics Release example_waveform 4 None (Ok None)
           [PrintReceiving]); by_compute.
Defined.

Lemma main_noise_panics_witness :
  main_loop Release [ReadOk (replicate 16 0x00)]
    (mkMState [] None (Ok None) [PrintReceiving]) = Panicked UnwrapNone.
Proof.
  apply (main_noise_panics Release (replicate 16 0x00) [] None (Ok None) [PrintReceiving]);
    by_compute.
Defined.

(** The stream of the three frames read in four chunks: ten bytes, then
    twenty-three (the rest of the timestamp frame, the event frame and one
    byte of the waveform frame), twelve, and the rest.  The timestamp frame
    is not reported, its time is in the packet of the event frame and not
    in that of the waveform frame; the first and the third read report a
    packet that was never received. *)
Lemma main_reads_split_witness :
  map_state view
    (main_loop Debug
       (ReadOk <$> [take 10 example_stream; take 23 (drop 10 example_stream);
                    take 12 (drop 33 example_stream); drop 45 example_stream])
       main_init) =
  Val tt ([], Some 0x87, Ok (Some (0, 9, 0, DataType.Waveform, Z.of_nat <$> seq 1 24)),
          [(0, 9, 0, DataType.Waveform, Z.of_nat <$> seq 1 24);
           (0, 0, 0, DataType.Invalid 255, []);
           (1672686367, 7, 0, DataType.Event, [0x41; 0x34; 0x05; 0x00]);
           (0, 0, 0, DataType.Invalid 255, [])]).
Proof.
  apply (main_reads_split Debug _
           [([], take 10 example_stream);
            ([example_timestamp; example_event], [0x41]);
            ([], take 13 (encode example_waveform));
            ([example_waveform], [])] main_init); by_compute.
Defined.

(** The event frame with the checksum byte 0 followed by the waveform
    frame, then one byte: the first read ends with the checksum error and
    the waveform frame in the ring, the second has it decoded. *)
Lemma main_recovers_witness :
  map_state view
    (main_loop Debug [ReadOk (frame_bytes 0 example_event ++ encode example_waveform);
                      ReadOk [0x41]]
       (mkMState [] (Some 0x84) (Ok None) [PrintReceiving])) =
  Val tt ([0x41], Some 0x87, Ok (Some (0, 9, 0, DataType.Waveform, Z.of_nat <$> seq 1 24)),
          [(0, 9, 0, DataType.Waveform, Z.of_nat <$> seq 1 24)]).
Proof.
  apply (main_recovers Debug [] (frame_bytes 0 example_event ++ encode example_waveform) [0x41]
           (Some 0x84) (Ok None) [PrintReceiving] (Err ERR_CHECKSUM)
           (encode example_waveform, Some 0x85) _ ([0x41], Some 0x87)); [by_compute..| |].
  - eexists [], _, _, _, [], _. split_and!; [constructor|done|done|by_compute|done|].
    apply (refuses_checksum Debug _ 0 _ example_event (encode example_waveform));
      [apply holds_whole; by_compute|by_compute..].
  - eexists [example_waveform], _. split_and!; [|by_compute..].
    apply (carried_one Debug [] _ example_waveform [0x41]); [done|apply holds_whole; by_compute].
Defined.

(** The first sixteen bytes of the waveform frame of twenty-four bytes of
    data, one per read: fifteen packets that were never received are
    reported, and the frame is rejected. *)
Lemma main_bytewise_witness :
  map_state view
    (main_loop Debug (bytewise (take 16 (encode example_waveform)))
       (mkMState [] (Some 0x86) (Ok None) [PrintReceiving])) =
  Val tt ([], Some 0x87, Err ERR_CHECKSUM, replicate 15 (0, 0, 0, DataType.Invalid 255, [])).
Proof.
  apply (main_bytewise Debug example_waveform (Some 0x86) (Ok None) [PrintReceiving]
           {| tt_ss := 9; datatype := DataType.Waveform; datavec := [1; 2; 3; 4];
              zeo_version := 0; zeo_time_full := 0; while_counter := 1 |}); by_compute.
Defined.

(** A ring that holds a frame of an unknown type and the frame of
    frequency bins that follows it in sequence: the first call rejects the
    one, the second decodes the other, and neither panics. *)
Lemma main_drains_witness :
  exists k, (k <= 42)%nat /\
    drained m_ring
      (main_loop Debug (replicate k (ReadOk []))
         (mkMState (encode example_unknown ++ encode example_bins) None (Ok None) [])).
Proof.
  apply (main_drains Debug
           (mkMState (encode example_unknown ++ encode example_bins) None (Ok None) []));
    by_compute.
Defined.

(** The run of that witness: two reads without bytes empty the ring. *)
Example main_drains_run :
  map_state view
    (main_loop Debug (replicate 2 (ReadOk []))
       (mkMState (encode example_unknown ++ encode example_bins) None (Ok None) [])) =
  Val tt ([], Some 0x87,
          Ok (Some (0, 9, 0, DataType.FrequencyBins, f_payload example_bins)), []).
Proof. vm_compute. reflexivity. Qed.

(** The first fifteen bytes of the timestamp frame wait in the ring; a read
    of 512 bytes that starts with the last byte of the frame drops them. *)
Lemma main_full_read_evicts_witness :
  map_state view
    (main_loop Debug [ReadOk (drop 15 (encode example_timestamp) ++ replicate 511 0)]
       (mkMState (take 15 (encode example_timestamp)) None (Ok None) [])) =
  map_state view
    (main_loop Debug [ReadOk (drop 15 (encode example_timestamp) ++ replicate 511 0)]
       (mkMState [] None (Ok None) [])).
Proof.
  apply (main_full_read_evicts Debug (drop 15 (encode example_timestamp) ++ replicate 511 0) []
           (take 15 (encode example_timestamp)) None (Ok None) []).
  by_compute.
Defined.

Lemma main_reachable_typed_witness :
  exists st, main_loop Debug example_reads main_init = Val tt st /\ mstate_wf st.
Proof.
  eexists. split; [vm_compute; reflexivity|].
  apply (main_reachable_typed Debug), (main_loop_reachable Debug example_reads main_init);
    [apply reachable_init | by_compute | vm_compute; reflexivity].
Defined.

(** The run of the examples: the event frame, a timeout, a frame of an
    unknown type and one byte. *)
Lemma main_reports_received_witness :
  post (fun _ st' => m_ring st' `suffix_of` received example_reads /\
                     Forall (from_stream Debug (received example_reads))
                       (reported (m_out st')))
       (fun _ _ => False) (main_loop Debug example_reads main_init).
Proof. apply (main_reports_received Debug example_reads). by_compute. Defined.
