(* ===== verification/Output.v ===== *)
(** * Output: the text of the printed lines

    [parse] and [main] report what they do with [print!] and [println!].
    In [ParserSpec] and [Driver] a printed line is an event that carries
    the values shown; this file gives the text: [print_bytes] (main.rs,
    lines 83-89), the format of every line of [parse] ([render]) and of
    [main] ([render_main]), and the text on standard output after a run
    ([stdout], [stdout_main]).

    Integers are shown in decimal by [pretty] of stdpp, as [{}] does for the
    unsigned types; [{:02X}] is [fmt_02X], upper-case hexadecimal padded
    with zeros to two characters.  The sub-second value [tt_fss] is an
    [f32], which is not modelled: [tt_fss_hundredths] computes the two
    decimals [{:.02}] shows from the rational [(tt_ss - 1) / 15].  That is
    what the format prints because the quotient is no closer than 1/600 to
    a number with an odd third decimal 5 ([tt_fss_margin]), and the [f32]
    nearest to a quotient below 4370 is within 1/4000 of it.  The two lines
    on standard error show an error of the port, of which the model has
    the text only; they are [stderr_main].

    [read_line] reads a line of [print_bytes] back; the round trip is the
    theorem of the file. *)

From Stdlib Require Import Ascii Hexadecimal HexadecimalN.
From stdpp Require Import strings pretty.
From S2P Require Import Prelude Machine Frame DataTypes Ring Timestamp ParserSpec Carried Parser Driver.

#[local] Open Scope string_scope.

(** ** Formats *)

(** The newline of [println!]. *)
Definition nl : string := String "010"%char EmptyString.

(** [{:X}]: the digits of a hexadecimal numeral, in upper case. *)
Fixpoint upper_hex_uint (d : Hexadecimal.uint) : string :=
  match d with
  | Hexadecimal.Nil => EmptyString
  | Hexadecimal.D0 d => String "0"%char (upper_hex_uint d)
  | Hexadecimal.D1 d => String "1"%char (upper_hex_uint d)
  | Hexadecimal.D2 d => String "2"%char (upper_hex_uint d)
  | Hexadecimal.D3 d => String "3"%char (upper_hex_uint d)
  | Hexadecimal.D4 d => String "4"%char (upper_hex_uint d)
  | Hexadecimal.D5 d => String "5"%char (upper_hex_uint d)
  | Hexadecimal.D6 d => String "6"%char (upper_hex_uint d)
  | Hexadecimal.D7 d => String "7"%char (upper_hex_uint d)
  | Hexadecimal.D8 d => String "8"%char (upper_hex_uint d)
  | Hexadecimal.D9 d => String "9"%char (upper_hex_uint d)
  | Hexadecimal.Da d => String "A"%char (upper_hex_uint d)
  | Hexadecimal.Db d => String "B"%char (upper_hex_uint d)
  | Hexadecimal.Dc d => String "C"%char (upper_hex_uint d)
  | Hexadecimal.Dd d => String "D"%char (upper_hex_uint d)
  | Hexadecimal.De d => String "E"%char (upper_hex_uint d)
  | Hexadecimal.Df d => String "F"%char (upper_hex_uint d)
  end.

Definition upper_hex (n : Z) : string := upper_hex_uint (N.to_hex_uint (Z.to_N n)).

(** A character [n] times. *)
Fixpoint repeat_char (c : ascii) (n : nat) : string :=
  match n with
  | O => EmptyString
  | S n' => String c (repeat_char c n')
  end.

(** The fill of a format with a width and the flag [0]. *)
Definition pad0 (width : nat) (s : string) : string :=
  repeat_char "0" (width - String.length s) +:+ s.

(** [{b:02X}] *)
Definition fmt_02X (b : Z) : string := pad0 2 (upper_hex b).

(** ["=".repeat(n)] *)
Definition repeat_eq (n : nat) : string := repeat_char "=" n.

(** [tt_fss = (tt_ss.saturating_sub(1)) as f32 / 15.0], in hundredths,
    rounded to the nearest. *)
Definition tt_fss_hundredths (tt_ss : Z) : Z := (40 * Z.max 0 (tt_ss - 1) + 3) / 6.

(** [{tt_fss:.02}] *)
Definition fmt_fss (tt_ss : Z) : string :=
  let h := tt_fss_hundredths tt_ss in
  pretty (h / 100) +:+ "." +:+ pad0 2 (pretty (h mod 100)).

(** ** [print_bytes] *)

(** [for b in bytes { print!("{b:02X} "); } println!();] *)
Fixpoint hex_dump (bs : list Z) : string :=
  match bs with
  | [] => nl
  | b :: bs' => fmt_02X b +:+ " " +:+ hex_dump bs'
  end.

(** [print_bytes(bytes)] *)
Definition print_bytes (bs : list Z) : string :=
  "[" +:+ pretty (length bs) +:+ " B]: " +:+ hex_dump bs.

(** ** The lines of [parse] *)

Definition render_check (c : TtCheck) : string :=
  match c with
  | CheckA => ">> tt CHECK A" +:+ nl
  | CheckB => ">> tt CHECK B " +:+ repeat_eq 10 +:+ nl
  | CheckC => ">> tt CHECK C " +:+ repeat_eq 10 +:+ nl
  | CheckD => ">> tt CHECK D " +:+ repeat_eq 10 +:+ nl
  end.

(** The text of an event of [parse]. *)
Definition render (e : Event) : string :=
  match e with
  | PrintParse wc r => nl +:+ "» PARSE_" +:+ pretty wc +:+ " " +:+ print_bytes r
  | PrintNotEnough n => "> (not enough bytes left: " +:+ pretty n +:+ " )" +:+ nl
  | PrintChecksum c => "> checksum: 0x" +:+ fmt_02X c +:+ " (" +:+ pretty c +:+ ")" +:+ nl
  | PrintLengths dl inv_dl x =>
      "> dl:" +:+ pretty dl +:+ " inv:" +:+ pretty inv_dl +:+ "→(inv:" +:+ pretty x
        +:+ ")" +:+ nl
  | PrintTime tt_lb tt_ss =>
      "> tt_lb: 0x" +:+ fmt_02X tt_lb +:+ " (" +:+ pretty tt_lb +:+ "), tt_ss:("
        +:+ pretty tt_ss +:+ ")(" +:+ fmt_fss tt_ss +:+ ")" +:+ nl
  | PrintSeqnum q => "> seqnum: " +:+ pretty q +:+ nl
  | PrintLost n => "we've lost " +:+ pretty n +:+ " sequence(s)!" +:+ nl
  | PrintDatatype d => "> datatype: " +:+ DataType.fmt d +:+ nl
  | PrintFewData n =>
      "> less than 4 data bytes!: " +:+ pretty n +:+ " " +:+ repeat_eq 20 +:+ nl
  | PrintShort => ">> warning, not enough data!!" +:+ nl
  | PrintData dv => "> DATA: " +:+ print_bytes dv
  | PrintZeoTime t => "> zeo_time: " +:+ pretty t +:+ nl
  | PrintCheck c => render_check c
  | PrintVersion v => "> zeo_version: " +:+ pretty v +:+ nl
  | PrintTimeFull tf tt_ss =>
      "> zeo_time_full: " +:+ pretty tf +:+ " + " +:+ pretty tt_ss +:+ " ("
        +:+ fmt_fss tt_ss +:+ ")" +:+ nl
  end.

(** Standard output after the events [out], newest first. *)
Definition stdout (out : list Event) : string :=
  foldl (fun s e => s +:+ render e) EmptyString (reverse out).

(** ** The lines of [main] *)

(** [{:?}] of a [DataType]: the derived [Debug] shows the name of the
    variant and, for [Invalid], the byte in parentheses, which is the text
    of [Display]. *)
Definition debug_datatype (d : DataType.t) : string := DataType.fmt d.

(** [{:?}] of a [VecDeque<u8>]. *)
Definition debug_bytes (bs : list Z) : string :=
  "[" +:+ String.concat ", " (pretty <$> bs) +:+ "]".

(** [{data:?}] of the tuple [parse] returns. *)
Definition debug_packet (pk : Packet) : string :=
  "(" +:+ pretty pk.1.1.1.1 +:+ ", " +:+ pretty pk.1.1.1.2 +:+ ", " +:+ pretty pk.1.1.2
    +:+ ", " +:+ debug_datatype pk.1.2 +:+ ", " +:+ debug_bytes pk.2 +:+ ")".

(** The text of an event of [main] on standard output; the lines of
    [eprintln!] are not on it. *)
Definition render_main (e : MainEvent) : string :=
  match e with
  | PrintOpenFailed _ | PrintReadError _ => EmptyString
  | PrintReceiving =>
      "Receiving data on " +:+ PORT_NAME +:+ " at " +:+ pretty BAUD_RATE +:+ " baud:" +:+ nl
  | PrintExtending n => "EXTENDING ring with " +:+ pretty n +:+ " bytes" +:+ nl
  | PrintParsed data => "PARSED: " +:+ debug_packet data +:+ nl
  | FromParse e => render e
  end.

Definition stdout_main (out : list MainEvent) : string :=
  foldl (fun s e => s +:+ render_main e) EmptyString (reverse out).

(** The quotation mark. *)
Definition quote : string := String "034"%char EmptyString.

(** The text of an event of [main] on standard error: the two lines of
    [eprintln!], with the text of the error they show. *)
Definition render_err (e : MainEvent) : string :=
  match e with
  | PrintOpenFailed err =>
      "Failed to open " +:+ quote +:+ PORT_NAME +:+ quote +:+ ". Error: " +:+ err +:+ nl
  | PrintReadError err => err +:+ nl
  | _ => EmptyString
  end.

Definition stderr_main (out : list MainEvent) : string :=
  foldl (fun s e => s +:+ render_err e) EmptyString (reverse out).

(** ** Reading a line of [print_bytes] back *)

(** The value of a hexadecimal digit in upper case. *)
Definition unhex (c : ascii) : option Z :=
  let n := Z.of_nat (nat_of_ascii c) in
  if decide (48 <= n <= 57) then Some (n - 48)
  else if decide (65 <= n <= 70) then Some (n - 55)
  else None.

(** Groups of two digits and a space, up to the newline. *)
Fixpoint read_dump (s : string) : option (list Z) :=
  match s with
  | EmptyString => None
  | String a EmptyString => if decide (a = "010"%char) then Some [] else None
  | String a (String b EmptyString) => None
  | String a (String b (String c s')) =>
      if decide (c = " "%char) then
        x ← unhex a; y ← unhex b; bs ← read_dump s'; Some (16 * x + y :: bs)
      else None
  end.

(** What follows the first colon and the character after it. *)
Fixpoint after_colon (s : string) : string :=
  match s with
  | EmptyString => EmptyString
  | String ":"%char s' =>
      match s' with
      | String _ s'' => s''
      | EmptyString => EmptyString
      end
  | String _ s' => after_colon s'
  end.

(** A string without colon: [after_colon] goes through it. *)
Definition no_colon (s : string) : Prop := forall t, after_colon (s +:+ t) = after_colon t.

(** The digit of a value below sixteen. *)
Definition hex_digit (d : Z) : ascii :=
  match d with
  | 0 => "0" | 1 => "1" | 2 => "2" | 3 => "3" | 4 => "4" | 5 => "5" | 6 => "6" | 7 => "7"
  | 8 => "8" | 9 => "9" | 10 => "A" | 11 => "B" | 12 => "C" | 13 => "D" | 14 => "E"
  | _ => "F"
  end%char.

(** The bytes a line of [print_bytes] shows. *)
Definition read_line (s : string) : option (list Z) :=
  read_dump (after_colon s).

(** ** The decimal digits hold no colon *)

Lemma no_colon_nil : no_colon EmptyString.
Proof. done. Qed.

Lemma no_colon_cons c s : c <> ":"%char -> no_colon s -> no_colon (String c s).
Proof.
  intros Hc Hs t. cbn.
  destruct c as [[] [] [] [] [] [] [] []]; first [apply Hs | by destruct Hc].
Qed.

Lemma pretty_N_char_no_colon x : pretty_N_char x <> ":"%char.
Proof. unfold pretty_N_char. by repeat case_match. Qed.

Lemma no_colon_pretty_N_go x : forall s, no_colon s -> no_colon (pretty_N_go x s).
Proof.
  induction (N.lt_wf_0 x) as [x _ IH]; intros s Hs.
  destruct (decide (x = 0)%N) as [->|Hx]; [by rewrite pretty_N_go_0|].
  rewrite pretty_N_go_step by lia. apply IH.
  - apply N.div_lt; lia.
  - apply no_colon_cons; [apply pretty_N_char_no_colon | done].
Qed.

Lemma no_colon_pretty_nat (n : nat) : no_colon (pretty n).
Proof.
  unfold pretty, pretty_nat, pretty, pretty_N. case_decide.
  - by apply no_colon_cons.
  - apply no_colon_pretty_N_go, no_colon_nil.
Qed.

(** ** Two digits per byte *)

Lemma fmt_02X_digits b :
  is_u8 b -> fmt_02X b = String (hex_digit (b / 16)) (String (hex_digit (b mod 16)) EmptyString).
Proof.
  intros Hb.
  assert (Forall (fun b => fmt_02X b =
            String (hex_digit (b / 16)) (String (hex_digit (b mod 16)) EmptyString))
            (seqZ 0 256)) as H by (apply (bool_decide_unpack _); vm_compute; exact I).
  rewrite Forall_forall in H. apply H, elem_of_seqZ. unfold is_u8, u8_MAX in Hb. lia.
Qed.

Lemma unhex_hex_digit d : 0 <= d < 16 -> unhex (hex_digit d) = Some d.
Proof.
  intros Hd.
  assert (Forall (fun d => unhex (hex_digit d) = Some d) (seqZ 0 16)) as H
    by (apply (bool_decide_unpack _); vm_compute; exact I).
  rewrite Forall_forall in H. apply H, elem_of_seqZ. lia.
Qed.

Lemma read_dump_hex_dump bs : bytes bs -> read_dump (hex_dump bs) = Some bs.
Proof.
  induction 1 as [|b bs Hb _ IH]; [done|]. cbn [hex_dump].
  rewrite fmt_02X_digits by done.
  change (read_dump _) with
    (x ← unhex (hex_digit (b / 16)); y ← unhex (hex_digit (b mod 16));
     l ← read_dump (hex_dump bs); Some (16 * x + y :: l)).
  assert (0 <= b / 16 < 16 /\ 0 <= b mod 16 < 16) as [H1 H2] by (unfold is_u8, u8_MAX in Hb; zmod).
  rewrite !unhex_hex_digit, IH by done. cbn. do 2 f_equal. zmod.
Qed.

Lemma after_colon_print_bytes bs : after_colon (print_bytes bs) = hex_dump bs.
Proof.
  change (after_colon (print_bytes bs))
    with (after_colon (pretty (length bs) +:+ " B]: " +:+ hex_dump bs)).
  by rewrite (no_colon_pretty_nat (length bs)).
Qed.

(** C31: a line of [print_bytes] shows the bytes it was given: reading the
    groups of two hexadecimal digits after the colon back gives the
    bytes. *)
Theorem print_bytes_read_back bs : bytes bs -> read_line (print_bytes bs) = Some bs.
Proof.
  intros Hb. unfold read_line. rewrite after_colon_print_bytes. by apply read_dump_hex_dump.
Qed.

(** ** The two decimals of [tt_fss]

    The quotient [n / 15], in hundredths, is within a third of the integer
    [tt_fss_hundredths] gives: no closer than a sixth of a hundredth to
    the middle between two hundredths, which the rounding to [f32] cannot
    cross. *)
Lemma tt_fss_margin tt_ss :
  -2 <= 40 * Z.max 0 (tt_ss - 1) - 6 * tt_fss_hundredths tt_ss <= 2.
Proof. unfold tt_fss_hundredths. zmod. Qed.

(** ** The text of a run *)

(** The text [parse] prints for the capture in its comments.  The
    seventeen bytes hold thirteen bytes after the marker: the line of the
    ring is followed by the line of the wait for more bytes, not by the
    lines of a decoded header that the comment shows. *)
Example parse_capture_stdout :
  stdout <$> (out <$> final_state (parse (R:=ParseResult) Debug 512
                                     (mkPState example_capture None []))) =
  Some (nl +:+ "» PARSE_0 [17 B]: 00 00 41 34 EA 05 00 FA FF 1F 06 00 84 8A 1F 2B B3 " +:+ nl
        +:+ "> (not enough bytes left: 13 )" +:+ nl).
Proof. vm_compute. reflexivity. Qed.

(** The lines of [main] for a timestamp frame read as fifteen bytes, a
    timeout and the last byte. *)
Example main_stdout_example :
  stdout_main <$> final_state
    (main Debug OpenOk [ReadOk (take 15 (encode example_timestamp)); ReadTimedOut;
                        ReadOk (drop 15 (encode example_timestamp))]) =
  Some ("Receiving data on /dev/ttyUSB0 at 38400 baud:" +:+ nl
        +:+ "EXTENDING ring with 15 bytes" +:+ nl
        +:+ "PARSED: (0, 0, 0, Invalid(255), [])" +:+ nl
        +:+ "EXTENDING ring with 1 bytes" +:+ nl
        +:+ nl +:+ "» PARSE_0 [16 B]: 41 34 EA 05 00 FA FF 1F 06 00 84 8A 1F 2B B3 63 " +:+ nl
        +:+ "> checksum: 0xEA (234)" +:+ nl
        +:+ "> dl:5 inv:65530→(inv:5)" +:+ nl
        +:+ "> tt_lb: 0x1F (31), tt_ss:(6)(0.33)" +:+ nl
        +:+ "> seqnum: 132" +:+ nl
        +:+ "> datatype: ZeoTimestamp" +:+ nl
        +:+ "> DATA: [4 B]: 1F 2B B3 63 " +:+ nl
        +:+ "> zeo_time: 1672686367" +:+ nl
        +:+ ">> tt CHECK A" +:+ nl
        +:+ "> zeo_time_full: 1672686367 + 6 (0.33)" +:+ nl
        +:+ "PARSED: (1672686367, 6, 0, ZeoTimestamp, [])" +:+ nl).
Proof. vm_compute. reflexivity. Qed.

(** When the port cannot be opened nothing is written on standard output
    and the error is on standard error; the process exits with status 1. *)
Example main_open_failed_stderr p reads :
  main p (OpenFailed "No such file or directory") reads =
    Ret 1 [PrintOpenFailed "No such file or directory"] /\
  stdout_main [PrintOpenFailed "No such file or directory"] = EmptyString /\
  stderr_main [PrintOpenFailed "No such file or directory"] =
    "Failed to open " +:+ quote +:+ "/dev/ttyUSB0" +:+ quote
      +:+ ". Error: No such file or directory" +:+ nl.
Proof. split_and!; [done|vm_compute; reflexivity..]. Qed.

(** A read that fails is shown on standard error and the loop goes on: the
    next read is decoded. *)
Example main_read_failed_stderr :
  (fun st => (stderr_main st, reported st)) <$> final_state
    (main Debug OpenOk [ReadFailed "Custom { kind: Other, error: broken }";
                        ReadOk (encode example_event)]) =
  Some ("Custom { kind: Other, error: broken }" +:+ nl,
        [(0, 7, 0, DataType.Event, [0x41; 0x34; 0x05; 0x00])]).
Proof. vm_compute. reflexivity. Qed.

(** ** The theorems on example inputs *)

Lemma print_bytes_read_back_witness :
  read_line (print_bytes example_capture) = Some example_capture.
Proof. apply (print_bytes_read_back example_capture). by_compute. Defined.
